(** * The "Almost" C compiler of libacc (Obfuscated Tiny C Compiler lineage)

    A shallow embedding of [src/libacc/tests/main.cpp]: the code buffer, the
    x86 code generator, the lexer with its macro replay, the single-pass
    expression and statement parsers and the command-line driver, followed by
    the properties of the specification that were checked against them.

    Conventions of the embedding.
    - [int] is a 32-bit two's complement integer, kept as a [Z] and wrapped
      with [wrap32] wherever the source computes on it.
    - The source keeps addresses in [int] variables and dereferences them
      with casts.  Every arena the compiler allocates (code, symbol heap,
      symbol values, global data) is a store of its own, addressed by the
      very integers the source uses; a dereference is read in the store of
      the arena the pointer is derived from.
    - Loops and recursion take a fuel argument; running out of fuel is the
      outcome [OutOfFuel], so a computation that never returns is one that
      is [OutOfFuel] for every fuel. *)

From Stdlib Require Import ZArith List String Ascii Lia Bool.
From stdpp Require Import base option list gmap.

Local Open Scope Z_scope.

(* ===================================================================== *)
(** ** Machine integers and bytes *)

(** A C [int]: the representative of [x] in [-2^31, 2^31). *)
Definition wrap32 (x : Z) : Z := (x + 2147483648) mod 4294967296 - 2147483648.

(** [(unsigned char) n]: the byte that [*p = n] leaves in a [char] cell. *)
Definition byte_of (n : Z) : Z := n mod 256.

(** [*(char * ) p] read back as an [int]: [char] is signed on the x86 host the
    generator targets. *)
Definition char_of_byte (b : Z) : Z := if b <? 128 then b else b - 256.

(** A store of bytes addressed by integers; cells never written read as 0
    (the arenas come from [calloc]). *)
Abbreviation mem := (gmap Z Z).

Definition load8 (m : mem) (a : Z) : Z := default 0 (m !! a).

Definition store8 (m : mem) (a v : Z) : mem := <[a := byte_of v]> m.

(** [*(int * ) a], little endian. *)
Definition load32 (m : mem) (a : Z) : Z :=
  wrap32 (load8 m a + 256 * load8 m (a + 1) + 65536 * load8 m (a + 2)
          + 16777216 * load8 m (a + 3)).

(** [*(int * ) a = v], little endian. *)
Definition store32 (m : mem) (a v : Z) : mem :=
  store8 (store8 (store8 (store8 m a v) (a + 1) (Z.shiftr v 8))
                 (a + 2) (Z.shiftr v 16)) (a + 3) (Z.shiftr v 24).

Arguments Z.shiftr : simpl never.
Arguments Z.shiftl : simpl never.
Arguments Z.land : simpl never.
Arguments Z.lor : simpl never.
Arguments Z.lxor : simpl never.
Arguments Z.modulo : simpl never.
Arguments Z.div : simpl never.
Arguments wrap32 : simpl never.
Arguments byte_of : simpl never.
Arguments char_of_byte : simpl never.
Arguments load8 : simpl never.
Arguments store8 : simpl never.
Arguments load32 : simpl never.
Arguments store32 : simpl never.

(** The bytes of [m] from [a] on, [n] of them. *)
Fixpoint dump (m : mem) (a : Z) (n : nat) : list Z :=
  match n with
  | O => []
  | S n' => load8 m a :: dump m (a + 1) n'
  end.

(* ===================================================================== *)
(** ** class CodeBuf *)

Module CodeBuf.

(** [ind] is the output cursor, [pProgramBase] the start of the region and
    [bytes] the region's contents.  The class keeps no capacity field: the
    size given to [init] is only passed to [calloc]. *)
Record t := mk {
  ind : Z;
  pProgramBase : Z;
  bytes : mem
}.

(** [CodeBuf()] *)
Definition empty : t := mk 0 0 ∅.

(** [init(size)]: [base] is the address [calloc(1, size)] returns. *)
Definition init (base : Z) (size : Z) : t := mk base base ∅.

(** [ob(n)]: [*ind++ = n]. *)
Definition ob (n : Z) (cb : t) : t :=
  mk (ind cb + 1) (pProgramBase cb) (store8 (bytes cb) (ind cb) n).

(** [o(n)]: [while (n && n != -1) { *ind++ = n; n = n >> 8; }].  The loop
    runs at most four times on a 32-bit [int]; [o_loop] takes that bound
    as its fuel. *)
Fixpoint o_loop (fuel : nat) (n : Z) (cb : t) : t :=
  match fuel with
  | O => cb
  | S fuel' =>
      if (n =? 0) || (n =? -1) then cb
      else o_loop fuel' (Z.shiftr n 8) (ob n cb)
  end.

Definition o (n : Z) (cb : t) : t := o_loop 4 (wrap32 n) cb.

(** [getPC()]: [(int) ind]. *)
Definition getPC (cb : t) : Z := wrap32 (ind cb).

(** [getSize()]: [ind - pProgramBase]. *)
Definition getSize (cb : t) : Z := ind cb - pProgramBase cb.

(** [oad(n, t)]: [o(n); *(int * ) ind = t; t = (int) ind; ind = ind + 4;
    return t;] *)
Definition oad (n tt : Z) (cb : t) : Z * t :=
  let cb1 := o n cb in
  (getPC cb1,
   mk (ind cb1 + 4) (pProgramBase cb1) (store32 (bytes cb1) (ind cb1) tt)).

(** [psym(n, t)]: "It is in fact the same as oad !" *)
Definition psym (n tt : Z) (cb : t) : Z * t := oad n tt cb.

(** One turn of [gsym]'s loop at a site [s <> 0]:
    [n = *(int * ) t; *(int * ) t = ((int) ind) - t - 4; t = n;] *)
Definition gsym_step (s : Z) (cb : t) : Z * t :=
  (load32 (bytes cb) s,
   mk (ind cb) (pProgramBase cb)
      (store32 (bytes cb) s (wrap32 (wrap32 (getPC cb - s) - 4)))).

(** [gsym(t)]: [while (t) { ... }]; [None] when the fuel does not reach
    the end of the walk. *)
Fixpoint gsym (fuel : nat) (s : Z) (cb : t) : option t :=
  if s =? 0 then Some cb
  else match fuel with
       | O => None
       | S fuel' => let '(n, cb') := gsym_step s cb in gsym fuel' n cb'
       end.

End CodeBuf.

(** A backpatch chain in a store: [linked m t ss] when walking from the head
    [t] along the stored links visits exactly the patch sites [ss] and then
    reads the terminator 0; [all_apart ss] when the four-byte sites do not
    overlap one another. *)
Definition apart (s1 s2 : Z) : bool := (s1 + 4 <=? s2) || (s2 + 4 <=? s1).

Fixpoint linked (m : mem) (t : Z) (ss : list Z) : bool :=
  match ss with
  | [] => t =? 0
  | s :: ss' => (t =? s) && negb (s =? 0) && linked m (load32 m s) ss'
  end.

Fixpoint all_apart (ss : list Z) : bool :=
  match ss with
  | [] => true
  | s :: ss' => forallb (apart s) ss' && all_apart ss'
  end.

(* ===================================================================== *)
(** ** class compiler: the fields *)

(** The [int] fields of the class keep their names.  [heap] holds the bytes
    of the symbol heap from [sym_stk] up to the define-stack cursor, so that
    [dstk] is [sym_stk] plus its length; [file] is what [fgetc] has still to
    deliver and [fpos] what [ftell] answers; [varmem] and [glomem] are the
    arenas behind [pVarsBase] and [pGlobalBase]; [frames] holds the [a]
    variables of the loop statements being parsed, the ones whose address
    [block] passes down; [dlsym] is the host's dynamic symbol table. *)
Record state := mkState {
  tok : Z;
  tokc : Z;
  tokl : Z;
  ch : Z;
  vars : Z;
  rsym : Z;
  loc : Z;
  glo : Z;
  sym_stk : Z;
  dptr : Z;
  dch : Z;
  last_id : Z;
  heap : list Z;
  file : list Z;
  fpos : Z;
  codeBuf : CodeBuf.t;
  varmem : mem;
  glomem : mem;
  frames : list Z;
  dlsym : list Z -> Z
}.

Definition set_tok (v : Z) (st : state) : state :=
  mkState v (tokc st) (tokl st) (ch st) (vars st) (rsym st) (loc st) (glo
    st) (sym_stk st) (dptr st) (dch st) (last_id st) (heap st) (file st)
    (fpos st) (codeBuf st) (varmem st) (glomem st) (frames st) (dlsym st).

Definition set_tokc (v : Z) (st : state) : state :=
  mkState (tok st) v (tokl st) (ch st) (vars st) (rsym st) (loc st) (glo st)
    (sym_stk st) (dptr st) (dch st) (last_id st) (heap st) (file st) (fpos
    st) (codeBuf st) (varmem st) (glomem st) (frames st) (dlsym st).

Definition set_tokl (v : Z) (st : state) : state :=
  mkState (tok st) (tokc st) v (ch st) (vars st) (rsym st) (loc st) (glo st)
    (sym_stk st) (dptr st) (dch st) (last_id st) (heap st) (file st) (fpos
    st) (codeBuf st) (varmem st) (glomem st) (frames st) (dlsym st).

Definition set_ch (v : Z) (st : state) : state :=
  mkState (tok st) (tokc st) (tokl st) v (vars st) (rsym st) (loc st) (glo
    st) (sym_stk st) (dptr st) (dch st) (last_id st) (heap st) (file st)
    (fpos st) (codeBuf st) (varmem st) (glomem st) (frames st) (dlsym st).

Definition set_rsym (v : Z) (st : state) : state :=
  mkState (tok st) (tokc st) (tokl st) (ch st) (vars st) v (loc st) (glo st)
    (sym_stk st) (dptr st) (dch st) (last_id st) (heap st) (file st) (fpos
    st) (codeBuf st) (varmem st) (glomem st) (frames st) (dlsym st).

Definition set_loc (v : Z) (st : state) : state :=
  mkState (tok st) (tokc st) (tokl st) (ch st) (vars st) (rsym st) v (glo
    st) (sym_stk st) (dptr st) (dch st) (last_id st) (heap st) (file st)
    (fpos st) (codeBuf st) (varmem st) (glomem st) (frames st) (dlsym st).

Definition set_glo (v : Z) (st : state) : state :=
  mkState (tok st) (tokc st) (tokl st) (ch st) (vars st) (rsym st) (loc st)
    v (sym_stk st) (dptr st) (dch st) (last_id st) (heap st) (file st) (fpos
    st) (codeBuf st) (varmem st) (glomem st) (frames st) (dlsym st).

Definition set_dptr (v : Z) (st : state) : state :=
  mkState (tok st) (tokc st) (tokl st) (ch st) (vars st) (rsym st) (loc st)
    (glo st) (sym_stk st) v (dch st) (last_id st) (heap st) (file st) (fpos
    st) (codeBuf st) (varmem st) (glomem st) (frames st) (dlsym st).

Definition set_dch (v : Z) (st : state) : state :=
  mkState (tok st) (tokc st) (tokl st) (ch st) (vars st) (rsym st) (loc st)
    (glo st) (sym_stk st) (dptr st) v (last_id st) (heap st) (file st) (fpos
    st) (codeBuf st) (varmem st) (glomem st) (frames st) (dlsym st).

Definition set_last_id (v : Z) (st : state) : state :=
  mkState (tok st) (tokc st) (tokl st) (ch st) (vars st) (rsym st) (loc st)
    (glo st) (sym_stk st) (dptr st) (dch st) v (heap st) (file st) (fpos st)
    (codeBuf st) (varmem st) (glomem st) (frames st) (dlsym st).

Definition set_heap (v : list Z) (st : state) : state :=
  mkState (tok st) (tokc st) (tokl st) (ch st) (vars st) (rsym st) (loc st)
    (glo st) (sym_stk st) (dptr st) (dch st) (last_id st) v (file st) (fpos
    st) (codeBuf st) (varmem st) (glomem st) (frames st) (dlsym st).

Definition set_file (v : list Z) (st : state) : state :=
  mkState (tok st) (tokc st) (tokl st) (ch st) (vars st) (rsym st) (loc st)
    (glo st) (sym_stk st) (dptr st) (dch st) (last_id st) (heap st) v (fpos
    st) (codeBuf st) (varmem st) (glomem st) (frames st) (dlsym st).

Definition set_fpos (v : Z) (st : state) : state :=
  mkState (tok st) (tokc st) (tokl st) (ch st) (vars st) (rsym st) (loc st)
    (glo st) (sym_stk st) (dptr st) (dch st) (last_id st) (heap st) (file
    st) v (codeBuf st) (varmem st) (glomem st) (frames st) (dlsym st).

Definition set_codeBuf (v : CodeBuf.t) (st : state) : state :=
  mkState (tok st) (tokc st) (tokl st) (ch st) (vars st) (rsym st) (loc st)
    (glo st) (sym_stk st) (dptr st) (dch st) (last_id st) (heap st) (file
    st) (fpos st) v (varmem st) (glomem st) (frames st) (dlsym st).

Definition set_varmem (v : mem) (st : state) : state :=
  mkState (tok st) (tokc st) (tokl st) (ch st) (vars st) (rsym st) (loc st)
    (glo st) (sym_stk st) (dptr st) (dch st) (last_id st) (heap st) (file
    st) (fpos st) (codeBuf st) v (glomem st) (frames st) (dlsym st).

Definition set_glomem (v : mem) (st : state) : state :=
  mkState (tok st) (tokc st) (tokl st) (ch st) (vars st) (rsym st) (loc st)
    (glo st) (sym_stk st) (dptr st) (dch st) (last_id st) (heap st) (file
    st) (fpos st) (codeBuf st) (varmem st) v (frames st) (dlsym st).

Definition set_frames (v : list Z) (st : state) : state :=
  mkState (tok st) (tokc st) (tokl st) (ch st) (vars st) (rsym st) (loc st)
    (glo st) (sym_stk st) (dptr st) (dch st) (last_id st) (heap st) (file
    st) (fpos st) (codeBuf st) (varmem st) (glomem st) v (dlsym st).


(** A field update unfolds on a state given by its fields. *)
Arguments set_tok v !st /.
Arguments set_tokc v !st /.
Arguments set_tokl v !st /.
Arguments set_ch v !st /.
Arguments set_rsym v !st /.
Arguments set_loc v !st /.
Arguments set_glo v !st /.
Arguments set_dptr v !st /.
Arguments set_dch v !st /.
Arguments set_last_id v !st /.
Arguments set_heap v !st /.
Arguments set_file v !st /.
Arguments set_fpos v !st /.
Arguments set_codeBuf v !st /.
Arguments set_varmem v !st /.
Arguments set_glomem v !st /.
Arguments set_frames v !st /.

(** ** Outcomes and the monad of the compiler's member functions *)

(** A member function either returns a value in a new state, leaves through
    [error] ([exit(1)] after printing the offset and a message), dereferences
    the null pointer, or has not finished when the fuel is spent. *)
Inductive result (A : Type) : Type :=
| Ok (a : A) (st : state)
| Exit (status : Z) (offset : Z) (msg : string)
| Fault
| OutOfFuel.

Arguments Ok {A} a st.
Arguments Exit {A} status offset msg.
Arguments Fault {A}.
Arguments OutOfFuel {A}.

Definition M (A : Type) : Type := state -> result A.

Definition ret {A} (a : A) : M A := fun st => Ok a st.

Definition bind {A B} (m : M A) (k : A -> M B) : M B :=
  fun st =>
    match m st with
    | Ok a st' => k a st'
    | Exit s p e => Exit s p e
    | Fault => Fault
    | OutOfFuel => OutOfFuel
    end.

Declare Scope M_scope.
Delimit Scope M_scope with M.
Bind Scope M_scope with M.

Notation "x <- m ;; k" := (bind m (fun x => k))
  (at level 100, m at next level, k at level 200, right associativity)
  : M_scope.
Notation "m ;; k" := (bind m (fun _ => k))
  (at level 100, k at level 200, right associativity) : M_scope.

Local Open Scope M_scope.

Definition get {A} (f : state -> A) : M A := fun st => Ok (f st) st.
Definition modify (f : state -> state) : M unit := fun st => Ok tt (f st).
Definition timeout {A} : M A := fun _ => OutOfFuel.
Definition fault {A} : M A := fun _ => Fault.

Definition when (b : bool) (m : M unit) : M unit := if b then m else ret tt.

(** [while (cond) body], the locals the loop updates being threaded as [a].
    The condition is tested before the fuel is. *)
Fixpoint while_ {A} (fuel : nat) (cond : A -> state -> bool)
    (body : A -> M A) (a : A) : M A :=
  fun st =>
    if cond a st then
      match fuel with
      | O => OutOfFuel
      | S fuel' => bind (body a) (while_ fuel' cond body) st
      end
    else Ok a st.

(** A loop without locals. *)
Definition while0 (fuel : nat) (cond : state -> bool) (body : M unit)
    : M unit :=
  while_ fuel (fun _ => cond) (fun _ => body) tt.

(* ===================================================================== *)
(** ** Constants of the compiler *)

Definition ALLOC_SIZE : Z := 99999.

Definition TOK_STR_SIZE : Z := 48.
Definition TOK_IDENT : Z := 0x100.
Definition TOK_INT : Z := 0x100.
Definition TOK_IF : Z := 0x120.
Definition TOK_ELSE : Z := 0x138.
Definition TOK_WHILE : Z := 0x160.
Definition TOK_BREAK : Z := 0x190.
Definition TOK_RETURN : Z := 0x1c0.
Definition TOK_FOR : Z := 0x1f8.
Definition TOK_DEFINE : Z := 0x218.
Definition TOK_MAIN : Z := 0x250.

Definition TOK_DUMMY : Z := 1.
Definition TOK_NUM : Z := 2.

Definition LOCAL : Z := 0x200.

Definition SYM_FORWARD : Z := 0.
Definition SYM_DEFINE : Z := 1.

Definition TAG_TOK : Z := 32.       (* ' ' *)
Definition TAG_MACRO : Z := 2.

(** The bytes of a string literal of the source. *)
Definition bytes_of_string (s : string) : list Z :=
  map (fun c => Z.of_N (N_of_ascii c)) (list_ascii_of_string s).

(** The string [compile] copies to the start of the symbol heap. *)
Definition keywords : string :=
  " int if else while break return for define main ".

(** The operator table of [next]: for each operator its first character,
    its second character or '@', the opcode in base 64 and the level. *)
Definition optable : string :=
  "++#m--%am*@R<^1c/@%[_[H3c%@%[_[H3c+@.B#d-@%:_^BKd<<Z/03e>>`/03e<=0f>=/f<@.f>@1f==&g!='g&&k||#l&@.BCh^@.BSi|@.B+j~@/%Yd!@&d*@b".

(* ===================================================================== *)
(** ** <ctype.h>, <string.h>, <stdlib.h> as the lexer uses them *)

Definition isspace (c : Z) : bool := ((9 <=? c) && (c <=? 13)) || (c =? 32).
Definition isdigit (c : Z) : bool := (48 <=? c) && (c <=? 57).
Definition isalpha (c : Z) : bool :=
  ((65 <=? c) && (c <=? 90)) || ((97 <=? c) && (c <=? 122)).
Definition isalnum (c : Z) : bool := isalpha c || isdigit c.

(** The C string that starts a list of bytes: up to the first NUL. *)
Fixpoint cstr (l : list Z) : list Z :=
  match l with
  | [] => []
  | c :: l' => if c =? 0 then [] else c :: cstr l'
  end.

Fixpoint is_prefix (p l : list Z) : bool :=
  match p, l with
  | [], _ => true
  | _ :: _, [] => false
  | x :: p', y :: l' => (x =? y) && is_prefix p' l'
  end.

(** [strstr(hay, needle) - hay]: the offset of the first occurrence, [None]
    for the null pointer. *)
Fixpoint strstr (hay needle : list Z) : option Z :=
  if is_prefix needle hay then Some 0
  else match hay with
       | [] => None
       | _ :: hay' => option_map Z.succ (strstr hay' needle)
       end.

Definition digit_val (c : Z) : option Z :=
  if isdigit c then Some (c - 48)
  else if (97 <=? c) && (c <=? 122) then Some (c - 87)
  else if (65 <=? c) && (c <=? 90) then Some (c - 55)
  else None.

Definition LONG_MAX : Z := 2147483647.

Fixpoint strtol_digits (base : Z) (s : list Z) (acc : Z) : Z :=
  match s with
  | [] => acc
  | c :: s' =>
      match digit_val c with
      | Some d =>
          if d <? base
          then strtol_digits base s' (Z.min (acc * base + d) LONG_MAX)
          else acc
      | None => acc
      end
  end.

(** [strtol(s, 0, 0)] on a string that starts with a digit: the base is
    taken from the prefix, the longest run of digits of that base is read,
    and the value saturates at [LONG_MAX]. *)
Definition strtol (s : list Z) : Z :=
  match s with
  | 48 :: x :: h :: rest =>
      if ((x =? 120) || (x =? 88))
         && match digit_val h with Some d => d <? 16 | None => false end
      then strtol_digits 16 (h :: rest) 0
      else strtol_digits 8 (x :: h :: rest) 0
  | 48 :: rest => strtol_digits 8 rest 0
  | _ => strtol_digits 10 s 0
  end.

(* ===================================================================== *)
(** ** The lexer *)

(** The define-stack cursor: one past the last byte of the heap. *)
Definition dstk (st : state) : Z :=
  wrap32 (sym_stk st + Z.of_nat (length (heap st))).

(** The bytes of a heap from address [a] on, [base] being its start. *)
Definition heap_from (base : Z) (h : list Z) (a : Z) : list Z :=
  if a <? base then [] else drop (Z.to_nat (a - base)) h.

(** [*(char * ) a] in the symbol heap. *)
Definition heap_at (st : state) (a : Z) : Z :=
  match heap_from (sym_stk st) (heap st) a with
  | [] => 0
  | b :: _ => char_of_byte b
  end.

(** [pdef(t)]: [*(char * ) dstk++ = t]. *)
Definition pdef (c : Z) : M unit :=
  modify (fun st => set_heap (heap st ++ [byte_of c]) st).

(** [fgetc(file)] *)
Definition fgetc : M Z :=
  fun st =>
    match file st with
    | [] => Ok (-1) st
    | c :: rest => Ok c (set_fpos (fpos st + 1) (set_file rest st))
    end.

(** [inp()] *)
Definition inp : M unit :=
  d <- get dptr;;
  if negb (d =? 0) then
    c <- get (fun st => heap_at st d);;
    modify (set_ch c);;
    modify (set_dptr (wrap32 (d + 1)));;
    when (c =? TAG_MACRO)
      (modify (set_dptr 0);;
       dc <- get dch;;
       modify (set_ch dc))
  else
    c <- fgetc;;
    modify (set_ch c).

(** [isid()] *)
Definition isid (st : state) : bool := isalnum (ch st) || (ch st =? 95).

(** [getq()] *)
Definition getq : M unit :=
  c <- get ch;;
  when (c =? 92)
    (inp;;
     c <- get ch;;
     when (c =? 110) (modify (set_ch 10))).

(** [*(int * ) a = v] and [*(int * ) a] on a symbol's value cells. *)
Definition poke_var (a v : Z) : M unit :=
  modify (fun st => set_varmem (store32 (varmem st) a v) st).

Definition peek_var (a : Z) : M Z := get (fun st => load32 (varmem st) a).

(** The inner loop of the table scan: the opcode digits up to the level
    character, [while ((tokl = *t++ - 'b') < 0) tokc = tokc * 64 + tokl + 64].
    Returns [tokc], [tokl] and the rest of the table. *)
Fixpoint op_code (t : list Z) (c : Z) : Z * Z * list Z :=
  match t with
  | [] => (c, 0, [])
  | x :: t' =>
      let l := x - 98 in
      if l <? 0
      then op_code t' (wrap32 (wrap32 (wrap32 (c * 64) + l) + 64))
      else (c, l, t')
  end.

Inductive op_match := NoOp | SingleOp | DoubleOp.

(** The outer loop of the table scan for the token [tk] followed by the
    character [c]: which entry matched, and the [tokc] and [tokl] the loop
    leaves. *)
Fixpoint op_scan (fuel : nat) (t : list Z) (tk c : Z) (tc tl : Z)
    : op_match * Z * Z :=
  match fuel with
  | O => (NoOp, tc, tl)
  | S fuel' =>
      match t with
      | l :: a :: t' =>
          let '(tc', tl', rest) := op_code t' 0 in
          if (l =? tk) && ((a =? c) || (a =? 64))
          then (if a =? c then DoubleOp else SingleOp, tc', tl')
          else op_scan fuel' rest tk c tc' tl'
      | _ => (NoOp, tc, tl)
      end
  end.

Definition optable_bytes : list Z := bytes_of_string optable.

(** The body of [next()], its recursive calls being [next]. *)
Definition next_body (fuel : nat) (next : M unit) : M unit :=
  while0 fuel (fun st => isspace (ch st) || (ch st =? 35))
    (c <- get ch;;
     when (c =? 35)
       (inp;;
        next;;
        t <- get tok;;
        when (t =? TOK_DEFINE)
          (next;;
           pdef TAG_TOK;;
           t <- get tok;;
           poke_var t SYM_DEFINE;;
           d <- get dstk;;
           poke_var (wrap32 (t + 4)) d);;
        while0 fuel (fun st => negb (ch st =? 10))
          (c <- get ch;; pdef c;; inp);;
        c <- get ch;;
        pdef c;;
        pdef TAG_MACRO);;
     inp);;
  modify (set_tokl 0);;
  c <- get ch;;
  modify (set_tok c);;
  id <- get isid;;
  if id then
    pdef TAG_TOK;;
    d <- get dstk;;
    modify (set_last_id d);;
    while0 fuel isid (c <- get ch;; pdef c;; inp);;
    t <- get tok;;
    if isdigit t then
      s <- get (fun st => cstr (heap_from (sym_stk st) (heap st) (last_id st)));;
      modify (set_tokc (strtol s));;
      modify (set_tok TOK_NUM)
    else
      p <- get (fun st =>
                  let h := heap st ++ [TAG_TOK] in
                  strstr (cstr h)
                    (cstr (heap_from (sym_stk st) h (wrap32 (last_id st - 1)))));;
      base <- get sym_stk;;
      let t := match p with Some i => wrap32 i | None => wrap32 (0 - base) end in
      let t := wrap32 (wrap32 (t * 8) + TOK_IDENT) in
      modify (set_tok t);;
      when (TOK_DEFINE <? t)
        (v <- get vars;;
         let t := wrap32 (v + t) in
         modify (set_tok t);;
         k <- peek_var t;;
         when (k =? SYM_DEFINE)
           (b <- peek_var (wrap32 (t + 4));;
            modify (set_dptr b);;
            c <- get ch;;
            modify (set_dch c);;
            inp;;
            next))
  else
    inp;;
    t <- get tok;;
    c <- get ch;;
    if t =? 39 then
      modify (set_tok TOK_NUM);;
      getq;;
      c <- get ch;;
      modify (set_tokc c);;
      inp;;
      inp
    else if (t =? 47) && (c =? 42) then
      inp;;
      while0 fuel (fun st => negb (ch st =? 0))
        (while0 fuel (fun st => negb (ch st =? 42)) inp;;
         inp;;
         c <- get ch;;
         when (c =? 47) (modify (set_ch 0)));;
      inp;;
      next
    else
      tc <- get tokc;;
      tl <- get tokl;;
      let '(m, tc', tl') :=
        op_scan (length optable_bytes) optable_bytes t c tc tl in
      modify (set_tokc tc');;
      modify (set_tokl tl');;
      match m with
      | DoubleOp => inp;; modify (set_tok TOK_DUMMY)
      | _ => ret tt
      end.

(** [next()] *)
Fixpoint next (fuel : nat) : M unit :=
  match fuel with
  | O => timeout
  | S fuel' => next_body fuel' (next fuel')
  end.

(* ===================================================================== *)
(** ** class CodeGenerator and class X86CodeGenerator *)

(** The generator holds a pointer to the compiler's code buffer; its
    protected members forward to it. *)
Definition emit (f : CodeBuf.t -> CodeBuf.t) : M unit :=
  modify (fun st => set_codeBuf (f (codeBuf st)) st).

Definition o (n : Z) : M unit := emit (CodeBuf.o n).

Definition ob (n : Z) : M unit := emit (CodeBuf.ob n).

Definition oad (n t : Z) : M Z :=
  fun st =>
    let '(s, cb) := CodeBuf.oad n t (codeBuf st) in Ok s (set_codeBuf cb st).

Definition psym (n t : Z) : M Z := oad n t.

Definition getPC : M Z := get (fun st => CodeBuf.getPC (codeBuf st)).

Definition gsym (fuel : nat) (t : Z) : M unit :=
  fun st =>
    match CodeBuf.gsym fuel t (codeBuf st) with
    | Some cb => Ok tt (set_codeBuf cb st)
    | None => OutOfFuel
    end.

(** [*(int * ) a = v] on a site of the code buffer. *)
Definition poke_code (a v : Z) : M unit :=
  emit (fun cb =>
          CodeBuf.mk (CodeBuf.ind cb) (CodeBuf.pProgramBase cb)
            (store32 (CodeBuf.bytes cb) a v)).

Definition b2z (b : bool) : Z := if b then 1 else 0.

Module X86CodeGenerator.

(** load immediate value: [mov $xx, %eax] *)
Definition li (t : Z) : M unit := oad 0xb8 t;; ret tt.

Definition gjmp (t : Z) : M Z := psym 0xe9 t.

(** l = 0: je, l == 1: jne; [test %eax, %eax, je/jne xxx] *)
Definition gtst (l t : Z) : M Z :=
  o 0x0fc085;;
  psym (wrap32 (0x84 + l)) t.

Definition gcmp (t : Z) : M unit :=
  o 0xc139;;                         (* cmp %eax,%ecx *)
  li 0;;
  o 0x0f;;                           (* setxx %al *)
  o (wrap32 (t + 0x90));;
  o 0xc0.

Definition clearECX : M unit := oad 0xb9 0;; ret tt.   (* movl $0, %ecx *)

Definition pushEAX : M unit := o 0x50.                  (* push %eax *)

Definition storeEAXIntoPoppedLVal (isInt : bool) : M unit :=
  o 0x59;;                           (* pop %ecx *)
  o (0x0188 + b2z isInt).            (* movl %eax/%al, (%ecx) *)

Definition loadEAXIndirect (isInt : bool) : M unit :=
  (if isInt then o 0x8b              (* mov (%eax), %eax *)
   else o 0xbe0f);;                  (* movsbl (%eax), %eax *)
  ob 0.

Definition gmov (l t : Z) : M unit :=
  o (wrap32 (l + 0x83));;
  oad (Z.lor (Z.shiftl (b2z (t <? LOCAL)) 7) 5) t;;
  ret tt.

Definition leaEAX (ea : Z) : M unit := gmov 10 ea.     (* leal EA, %eax *)
Definition storeEAX (ea : Z) : M unit := gmov 6 ea.    (* mov %eax, EA *)
Definition loadEAX (ea : Z) : M unit := gmov 8 ea.     (* mov EA, %eax *)

Definition puzzleAdd (n tc : Z) : M unit :=
  gmov 0 n;;                                            (* 83 ADD *)
  o tc.

Definition allocStackSpaceForArgs : M Z := oad 0xec81 0.   (* sub $xxx, %esp *)

Definition storeEAToArg (l : Z) : M unit :=
  oad 0x248489 l;; ret tt.            (* movl %eax, xxx(%esp) *)

Definition callForward (symbol : Z) : M Z := psym 0xe8 symbol.  (* call xxx *)

Definition callRelative (t : Z) : M unit := psym 0xe8 t;; ret tt.

Definition callIndirect (l : Z) : M unit :=
  oad 0x2494ff l;; ret tt.            (* call *xxx(%esp) *)

Definition adjustStackAfterCall (l : Z) : M unit :=
  oad 0xc481 l;; ret tt.              (* add $xxx, %esp *)

Definition oHack (n : Z) : M unit := o n.

(** [oadHack] is declared [void]; the compiler's [oad] wrapper that calls
    it is declared [int] and has no return statement, while [decl] uses
    its value as the patch site.  The value modelled is the one the
    underlying [CodeBuf::oad] returns. *)
Definition oadHack (n t : Z) : M Z := oad n t.

End X86CodeGenerator.

(* ===================================================================== *)
(** ** class compiler: error, skip and the forwarding members *)

Definition ascii_of_Z (c : Z) : ascii := ascii_of_N (Z.to_N (c mod 256)).

(** [error(fmt, ...)]: prints [ftell(file)], the message, and [exit(1)]. *)
Definition error {A} (msg : string) : M A :=
  fun st => Exit 1 (fpos st) msg.

(** [skip(c)] *)
Definition skip (fuel : nat) (c : Z) : M unit :=
  t <- get tok;;
  if negb (t =? c)
  then error (String "'"%char (String (ascii_of_Z c) "' expected"%string))
  else next fuel.

Definition li := X86CodeGenerator.li.
Definition gjmp := X86CodeGenerator.gjmp.
Definition gtst := X86CodeGenerator.gtst.
Definition gcmp := X86CodeGenerator.gcmp.
Definition clearEXC := X86CodeGenerator.clearECX.
Definition storeEAXIntoPoppedLVal := X86CodeGenerator.storeEAXIntoPoppedLVal.
Definition loadEAXIndirect := X86CodeGenerator.loadEAXIndirect.
Definition leaEAX := X86CodeGenerator.leaEAX.

(** The [a] variable of a loop statement, reached through its address.
    Addresses of live cells are 1, 2, ... from the outermost loop inwards;
    0 is the null pointer [decl] hands to [block]. *)
Definition peek_frame (l : Z) : M Z :=
  fun st =>
    if l <=? 0 then Fault
    else match frames st !! Z.to_nat (l - 1) with
         | Some v => Ok v st
         | None => Fault
         end.

Definition poke_frame (l v : Z) : M unit :=
  fun st =>
    if l <=? 0 then Fault
    else match frames st !! Z.to_nat (l - 1) with
         | Some _ => Ok tt (set_frames (<[Z.to_nat (l - 1) := v]> (frames st)) st)
         | None => Fault
         end.

(** Entering a loop statement: its [a] becomes addressable; [&a]. *)
Definition push_frame (a : Z) : M Z :=
  fun st =>
    Ok (Z.of_nat (S (length (frames st)))) (set_frames (frames st ++ [a]) st).

(** Leaving the call that was given [&a]: the value [a] now holds. *)
Definition pop_frame : M Z :=
  fun st =>
    match last (frames st) with
    | Some v => Ok v (set_frames (removelast (frames st)) st)
    | None => Fault
    end.

(* ===================================================================== *)
(** ** The expression parser *)

(** The string a heap address points to, for [dlsym(0, (char * ) last_id)]. *)
Definition heap_string (st : state) (a : Z) : list Z :=
  cstr (heap_from (sym_stk st) (heap st) a).

(** The body of [unary(l)]; [unary] and [expr] are its recursive calls. *)
Definition unary_body (fuel : nat) (unary : Z -> M unit) (expr : M unit)
    (l : Z) : M unit :=
  t0 <- get tok;;
  nt <- (if t0 =? 34 then                                  (* double quote *)
           g <- get glo;;
           li g;;
           while0 fuel (fun st => negb (ch st =? 34))
             (getq;;
              c <- get ch;;
              modify (fun st =>
                        set_glo (wrap32 (glo st + 1))
                          (set_glomem (store8 (glomem st) (glo st) c) st));;
              inp);;
           modify (fun st => set_glomem (store8 (glomem st) (glo st) 0) st);;
           modify (fun st => set_glo (Z.land (wrap32 (glo st + 4)) (-4)) st);;
           inp;;
           next fuel;;
           ret (1, 0)
         else
           c <- get tokl;;
           a <- get tokc;;
           t <- get tok;;
           next fuel;;
           if t =? TOK_NUM then
             li a;; ret (1, t)
           else if c =? 2 then
             (* -, +, !, ~ *)
             unary 0;;
             clearEXC;;
             (if t =? 33 then gcmp a else o a);;
             ret (1, t)
           else if t =? 40 then                            (* '(' *)
             expr;;
             skip fuel 41;;
             ret (1, t)
           else if t =? 42 then                            (* '*' *)
             (* parse cast *)
             skip fuel 40;;
             t <- get tok;;                                (* get type *)
             next fuel;;                                   (* skip int/char/void *)
             next fuel;;                                   (* skip '*' or '(' *)
             tk <- get tok;;
             t <- (if tk =? 42 then
                     (* function type *)
                     skip fuel 42;;
                     skip fuel 41;;
                     skip fuel 40;;
                     skip fuel 41;;
                     ret 0
                   else ret t);;
             skip fuel 41;;
             unary 0;;
             tk <- get tok;;
             (if tk =? 61 then                             (* '=' *)
                next fuel;;
                X86CodeGenerator.pushEAX;;
                expr;;
                storeEAXIntoPoppedLVal (t =? TOK_INT)
              else
                when (negb (t =? 0)) (loadEAXIndirect (t =? TOK_INT)));;
             ret (1, t)
           else if t =? 38 then                            (* '&' *)
             tk <- get tok;;
             v <- peek_var tk;;
             leaEAX v;;
             next fuel;;
             ret (1, t)
           else
             n <- peek_var t;;
             (* forward reference: try dlsym *)
             n <- (if n =? 0
                   then get (fun st => wrap32 (dlsym st (heap_string st (last_id st))))
                   else ret n);;
             tk <- get tok;;
             (if negb (Z.land (b2z (tk =? 61)) l =? 0) then
                (* assignment *)
                next fuel;;
                expr;;
                X86CodeGenerator.storeEAX n
              else
                when (negb (tk =? 40))
                  (* variable *)
                  (X86CodeGenerator.loadEAX n;;
                   tl <- get tokl;;
                   when (tl =? 11)
                     (tc <- get tokc;;
                      X86CodeGenerator.puzzleAdd n tc;;
                      next fuel)));;
             ret (n, t));;
  let '(n, t) := nt in
  (* function call *)
  tk <- get tok;;
  when (tk =? 40)
    (when (n =? 1) X86CodeGenerator.pushEAX;;
     (* push args and invert order *)
     a <- X86CodeGenerator.allocStackSpaceForArgs;;
     next fuel;;
     l <- while_ fuel (fun _ st => negb (tok st =? 41))
            (fun l =>
               expr;;
               X86CodeGenerator.storeEAToArg l;;
               tk <- get tok;;
               when (tk =? 44) (next fuel);;
               ret (wrap32 (l + 4)))
            0;;
     poke_code a l;;
     next fuel;;
     l <- (if n =? 0 then
             (* forward reference *)
             let t := wrap32 (t + 4) in
             h <- peek_var t;;
             s <- X86CodeGenerator.callForward h;;
             poke_var t s;;
             ret l
           else if n =? 1 then
             X86CodeGenerator.callIndirect l;;
             ret (wrap32 (l + 4))
           else
             pc <- getPC;;
             X86CodeGenerator.callRelative (wrap32 (wrap32 (n - pc) - 5));;
             ret l);;
     when (negb (l =? 0)) (X86CodeGenerator.adjustStackAfterCall l)).

(** The body of [sum(l)]; the locals [a], [t] and [n] of the operator loop
    are threaded through it. *)
Definition sum_body (fuel : nat) (unary : Z -> M unit) (sum : Z -> M unit)
    (l0 : Z) : M unit :=
  let l := wrap32 (l0 - 1) in
  if l0 =? 1 then unary 1
  else
    sum l;;
    at_ <- while_ fuel (fun _ st => l =? tokl st)
             (fun '(a, _) =>
                n <- get tok;;
                t <- get tokc;;
                next fuel;;
                if 8 <? l then
                  a <- gtst t a;;      (* && and || output code generation *)
                  sum l;;
                  ret (a, t)
                else
                  o 0x50;;             (* push %eax *)
                  sum l;;
                  o 0x59;;             (* pop %ecx *)
                  (if (l =? 4) || (l =? 5) then gcmp t
                   else
                     o t;;
                     when (n =? 37) (o 0x92));;  (* '%': xchg %edx, %eax *)
                  ret (a, t))
             (0, 0);;
    let '(a, t) := at_ in
    (* && and || output code generation *)
    when (negb (a =? 0) && (8 <? l))
      (a <- gtst t a;;
       li (Z.lxor t 1);;
       gjmp 5;;                        (* jmp $ + 5 *)
       gsym fuel a;;
       li t).

(** [unary(l)] and [sum(l)] *)
Fixpoint unary (fuel : nat) (l : Z) : M unit :=
  match fuel with
  | O => timeout
  | S fuel' => unary_body fuel' (unary fuel') (sum fuel' 11) l
  end
with sum (fuel : nat) (l : Z) : M unit :=
  match fuel with
  | O => timeout
  | S fuel' => sum_body fuel' (unary fuel') (sum fuel') l
  end.

(** [expr()] *)
Definition expr (fuel : nat) : M unit := sum fuel 11.

(** [test_expr()] *)
Definition test_expr (fuel : nat) : M Z := expr fuel;; gtst 0 0.

(* ===================================================================== *)
(** ** The statement parser *)

(** [n - codeBuf.getPC() - 5] *)
Definition rel_to (n pc : Z) : Z := wrap32 (wrap32 (n - pc) - 5).

(** The body of [block(l)]; [block] and [decl] are its recursive calls and
    [l] is the address of the enclosing loop's [a]. *)
Definition block_body (fuel : nat) (block : Z -> M unit) (decl : Z -> M unit)
    (l : Z) : M unit :=
  tk <- get tok;;
  if tk =? TOK_IF then
    next fuel;;
    skip fuel 40;;
    a <- test_expr fuel;;
    skip fuel 41;;
    block l;;
    tk <- get tok;;
    if tk =? TOK_ELSE then
      next fuel;;
      n <- gjmp 0;;                    (* jmp *)
      gsym fuel a;;
      block l;;
      gsym fuel n                      (* patch else jmp *)
    else
      gsym fuel a                      (* patch if test *)
  else if (tk =? TOK_WHILE) || (tk =? TOK_FOR) then
    let t := tk in
    next fuel;;
    skip fuel 40;;
    na <- (if t =? TOK_WHILE then
             n <- getPC;;
             a <- test_expr fuel;;
             ret (n, a)
           else
             tk <- get tok;;
             when (negb (tk =? 59)) (expr fuel);;
             skip fuel 59;;
             n <- getPC;;
             tk <- get tok;;
             a <- (if negb (tk =? 59) then test_expr fuel else ret 0);;
             skip fuel 59;;
             tk <- get tok;;
             if negb (tk =? 41) then
               t <- gjmp 0;;
               expr fuel;;
               pc <- getPC;;
               gjmp (rel_to n pc);;
               gsym fuel t;;
               ret (wrap32 (t + 4), a)
             else ret (n, a));;
    let '(n, a) := na in
    skip fuel 41;;
    l' <- push_frame a;;
    block l';;
    a <- pop_frame;;
    pc <- getPC;;
    gjmp (rel_to n pc);;               (* jmp *)
    gsym fuel a
  else if tk =? 123 then               (* '{' *)
    next fuel;;
    (* declarations *)
    decl 1;;
    while0 fuel (fun st => negb (tok st =? 125)) (block l);;
    next fuel
  else
    (if tk =? TOK_RETURN then
       next fuel;;
       tk <- get tok;;
       when (negb (tk =? 59)) (expr fuel);;
       r <- get rsym;;
       s <- gjmp r;;                   (* jmp *)
       modify (set_rsym s)
     else if tk =? TOK_BREAK then
       next fuel;;
       h <- peek_frame l;;
       s <- gjmp h;;
       poke_frame l s
     else
       when (negb (tk =? 59)) (expr fuel));;
    skip fuel 59.

(** The compiler's own [oad(n, t)], which forwards to [oadHack]. *)
Definition compiler_oad (n t : Z) : M Z := X86CodeGenerator.oadHack n t.

(** The body of [decl(l)]; 'l' is true if local declarations. *)
Definition decl_body (fuel : nat) (block : Z -> M unit) (l : Z) : M unit :=
  while0 fuel
    (fun st => (tok st =? TOK_INT) || (negb (tok st =? -1) && (l =? 0)))
    (tk <- get tok;;
     if tk =? TOK_INT then
       next fuel;;
       while0 fuel (fun st => negb (tok st =? 59))
         (tk <- get tok;;
          (if negb (l =? 0) then
             modify (fun st => set_loc (wrap32 (loc st + 4)) st);;
             lc <- get loc;;
             poke_var tk (wrap32 (- lc))
           else
             g <- get glo;;
             poke_var tk g;;
             modify (set_glo (wrap32 (g + 4))));;
          next fuel;;
          tk <- get tok;;
          when (tk =? 44) (next fuel));;
       skip fuel 59
     else
       (* patch forward references *)
       h <- peek_var (wrap32 (tk + 4));;
       gsym fuel h;;
       (* put function address *)
       pc <- getPC;;
       poke_var tk pc;;
       next fuel;;
       skip fuel 40;;
       while_ fuel (fun _ st => negb (tok st =? 41))
         (fun a =>
            (* read param name and compute offset *)
            tk <- get tok;;
            poke_var tk a;;
            next fuel;;
            tk <- get tok;;
            when (tk =? 44) (next fuel);;
            ret (wrap32 (a + 4)))
         8;;
       next fuel;;                     (* skip ')' *)
       modify (set_loc 0);;
       modify (set_rsym 0);;
       o 0xe58955;;                    (* push %ebp, mov %esp, %ebp *)
       a <- compiler_oad 0xec81 0;;    (* sub $xxx, %esp *)
       block 0;;
       r <- get rsym;;
       gsym fuel r;;
       o 0xc3c9;;                      (* leave, ret *)
       lc <- get loc;;
       poke_code a lc).                (* save local variables *)

(** [block(l)] and [decl(l)] *)
Fixpoint block (fuel : nat) (l : Z) : M unit :=
  match fuel with
  | O => timeout
  | S fuel' => block_body fuel' (block fuel') (decl fuel') l
  end
with decl (fuel : nat) (l : Z) : M unit :=
  match fuel with
  | O => timeout
  | S fuel' => decl_body fuel' (block fuel') l
  end.

(* ===================================================================== *)
(** ** compile, run, dump *)

(** What the process finds around it: the files that can be opened and
    their contents, the standard input, the addresses [calloc] hands out for
    the four arenas, the dynamic symbols, and what a call into generated
    code returns. *)
Record host := mkHost {
  fopen_r : string -> option (list Z);
  stdin : list Z;
  fopen_w : string -> bool;
  calloc_code : Z;
  calloc_sym : Z;
  calloc_glo : Z;
  calloc_vars : Z;
  host_dlsym : list Z -> Z;
  native_call : CodeBuf.t -> Z -> list string -> Z
}.

(** The fields after [cleanup(); clear();] and the allocations of
    [compile]: the keyword string sits at the start of the symbol heap and
    [dstk] is [sym_stk + TOK_STR_SIZE]. *)
Definition compile_init (h : host) (input : list Z) : state :=
  mkState 0 0 0 0 (calloc_vars h) 0 0 (calloc_glo h) (calloc_sym h) 0 0 0
    (bytes_of_string keywords) input 0
    (CodeBuf.init (calloc_code h) ALLOC_SIZE) ∅ ∅ [] (host_dlsym h).

(** [compile(in)] *)
Definition compile (fuel : nat) (h : host) (input : list Z) : result Z :=
  (inp;;
   next fuel;;
   decl fuel 0;;
   ret 0) (compile_init h input).

(** What a process writes to [stderr]. *)
Inductive diag :=
| Msg (text : string) (arg : string)
| MsgInt (text : string) (arg : Z)
| ErrorAt (offset : Z) (text : string).

(** [run(argc, argv)]: the diagnostics and the value returned. *)
Definition run (h : host) (argv : list string) (st : state)
    : list diag * Z :=
  let aMain := load32 (varmem st) (wrap32 (vars st + TOK_MAIN)) in
  if aMain =? 0
  then ([Msg "Could not find function main."%string EmptyString], -1)
  else ([], native_call h (codeBuf st) aMain argv).

(** [dump(out)]: the bytes [fwrite] sends to [out]. *)
Definition dump_bytes (st : state) : list Z :=
  dump (CodeBuf.bytes (codeBuf st)) (CodeBuf.pProgramBase (codeBuf st))
       (Z.to_nat (CodeBuf.getSize (codeBuf st))).

(* ===================================================================== *)
(** ** The driver: main *)

(** How the process ends: its exit status with what it wrote to [stderr]
    and to the output file, a null dereference, or no end within the fuel. *)
Inductive process :=
| Exited (status : Z) (err : list diag) (out : option (string * list Z))
| Killed
| Unfinished.

Definition is_flag (arg : string) : option string :=
  match arg with
  | String "-"%char rest => Some rest
  | _ => None
  end.

(** The argument loop of [main]: the exit it takes, or [doTest], [inFile],
    [outFile] and the index [i] it stops at. *)
Fixpoint main_args (args : list string) (i : Z) (doTest : bool)
    (inFile outFile : option string)
    : process + (bool * option string * option string * Z) :=
  match args with
  | [] => inr (doTest, inFile, outFile, i)
  | arg :: rest =>
      match is_flag arg with
      | Some flag =>
          match flag with
          | String "T"%char _ =>
              match rest with
              | [] => inl (Exited 2 [Msg "Expected filename after -T"%string EmptyString] None)
              | f :: rest' => main_args rest' (i + 2) true inFile (Some f)
              end
          | _ => inl (Exited 3 [Msg "Unrecognized flag"%string arg] None)
          end
      | None =>
          match inFile with
          | None => main_args rest (i + 1) doTest (Some arg) outFile
          | Some _ => inr (doTest, inFile, outFile, i)
          end
      end
  end.

(** [main(argc, argv)] *)
Definition main (fuel : nat) (h : host) (argv : list string) : process :=
  match main_args (tail argv) 1 false None None with
  | inl p => p
  | inr (doTest, inFile, outFile, i) =>
      let opened :=
        match inFile with
        | Some f => fopen_r h f
        | None => Some (stdin h)
        end in
      match opened with
      | None =>
          Exited 1 [Msg "Could not open input file" (default EmptyString inFile)] None
      | Some input =>
          match compile fuel h input with
          | Exit status offset msg => Exited status [ErrorAt offset msg] None
          | Fault => Killed
          | OutOfFuel => Unfinished
          | Ok compileResult st =>
              if negb (compileResult =? 0)
              then Exited 6 [MsgInt "Compile failed:"%string compileResult] None
              else if doTest then
                let f := default EmptyString outFile in
                if fopen_w h f
                then Exited 0 [] (Some (f, dump_bytes st))
                else Exited 5 [Msg "Could not open output file"%string f] None
              else
                let codeArgv :=
                  default "stdin"%string inFile :: drop (Z.to_nat i) argv in
                let '(err, r) := run h codeArgv st in
                Exited r err None
          end
      end
  end.

(* ===================================================================== *)
(** * The vocabulary of the properties *)

Definition respects (R : state -> state -> Prop) {A} (m : M A) : Prop :=
  forall st x st', m st = Ok x st' -> R st st'.

(** ** What the lexer leaves alone *)

Definition R_lex (st st' : state) : Prop :=
  codeBuf st' = codeBuf st /\ frames st' = frames st /\ rsym st' = rsym st /\
  loc st' = loc st /\ glo st' = glo st /\ glomem st' = glomem st /\
  vars st' = vars st /\ sym_stk st' = sym_stk st /\ dlsym st' = dlsym st.

(** ** How a computation can fail *)

(** [fails_with P F m]: whenever [m] leaves through [error] its status,
    offset and message satisfy [P], and it can only fault if [F]. *)
Definition fails_with (P : Z -> Z -> string -> Prop) (F : Prop) {A} (m : M A)
    : Prop :=
  forall st,
    match m st with
    | Exit s p e => P s p e
    | Fault => F
    | _ => True
    end.

(** The lexer has no failure path at all. *)
Abbreviation never_fails := (fails_with (fun _ _ _ => False) False).

(** Every exit is [exit(1)]; a fault is possible. *)
Abbreviation exits_1 := (fails_with (fun s _ _ => s = 1) True).

(** ** The statuses of the driver *)

(** The statuses of the driver's own failure returns, by message. *)
Definition driver_status (text : string) (s : Z) : Prop :=
  (text = "Could not open input file"%string /\ s = 1) \/
  (text = "Expected filename after -T"%string /\ s = 2) \/
  (text = "Unrecognized flag"%string /\ s = 3) \/
  (text = "Could not open output file"%string /\ s = 5) \/
  (text = "Compile failed:"%string /\ s = 6) \/
  (text = "Could not find function main."%string /\ s = -1).

(** ** Running the lexer *)

Definition isidc (c : Z) : bool := isalnum c || (c =? 95).

(** What [fgetc] delivers next: the head of the file, or EOF. *)
Definition peek (f : list Z) : Z := match f with [] => -1 | c :: _ => c end.
Definition fadv (f : list Z) (p : Z) : Z := match f with [] => p | _ :: _ => p + 1 end.

(** ** Keywords *)

(** The eight keywords and the ids the parser switches on. *)
Definition keyword_ids : list (string * Z) :=
  [("int"%string, TOK_INT); ("if"%string, TOK_IF); ("else"%string, TOK_ELSE);
   ("while"%string, TOK_WHILE); ("break"%string, TOK_BREAK);
   ("return"%string, TOK_RETURN); ("for"%string, TOK_FOR);
   ("define"%string, TOK_DEFINE)].

(** The lexer stands on the word [w], read from the file, and [f] follows. *)
Definition lexer_at (st : state) (w f : list Z) : Prop :=
  dptr st = 0 /\ ch st :: file st = w ++ f /\ isidc (peek f) = false.

(** The symbol heap still starts with the keyword string and lies in the
    address range of an [int]. *)
Definition heap_ready (st : state) : Prop :=
  is_prefix (bytes_of_string keywords) (heap st) = true /\
  -2147483648 <= sym_stk st /\
  sym_stk st + Z.of_nat (length (heap st)) + 1 < 2147483648.

(** ** A block comment that is not closed *)

(** [star_closed l]: somewhere in [l] a '*' is followed by '/' or by a NUL,
    which is what ends the comment loop of [next]. *)
Fixpoint star_closed (l : list Z) : bool :=
  match l with
  | [] => false
  | c :: l' =>
      ((c =? 42) && match l' with
                    | [] => false
                    | d :: _ => (d =? 47) || (d =? 0)
                    end)
      || star_closed l'
  end.

(** The text after an opening "/*" leaves the comment open. *)
Definition comment_open (body : list Z) : bool :=
  negb (peek body =? 0) && negb (star_closed body).

(** The characters still to come, the current one first. *)
Definition ahead (c : Z) (f : list Z) : list Z := c :: f.

(** ** A macro whose body is its own name *)

(** In the middle of the replay of the macro [c0 :: w], whose captured line
    follows [Hpre] in the heap: the first character of the body has been
    read. *)
Definition replaying (c0 : Z) (w Hpre Hpost : list Z) (vs sy : Z) (vm : mem)
    (r : list Z) tk tkc tkl rs lc gl dc li f fp cb gm fr dl : state :=
  mkState tk tkc tkl 32 vs rs lc gl sy (sy + Z.of_nat (length Hpre) + 1) dc li
    ((Hpre ++ 32 :: (c0 :: w) ++ 10 :: Hpost) ++ r) f fp cb vm gm fr dl.

(** ** Fuel: a finished run does not depend on it *)

(** [m'] finishes wherever [m] does, with the same outcome. *)
Definition approx {A} (m m' : M A) : Prop :=
  forall st, m st = OutOfFuel \/ m st = m' st.

(** ** A use of a macro whose body is its own name *)

(** The lexer stands, reading the file, on a use of the macro [c0 :: w]
    that a "#define" made of its own name: the heap starts with [Hpre], in
    which the name is found at offset [i], then the captured line (a space,
    the name, the newline), and the symbol's cells say "define" and point to
    that line. *)
Definition self_macro_use (st : state) (c0 : Z) (w Hpre Hpost f : list Z)
    (i : Z) : Prop :=
  let name := c0 :: w in
  let H := Hpre ++ 32 :: name ++ 10 :: Hpost in
  let t := wrap32 (wrap32 (wrap32 i * 8) + TOK_IDENT) in
  forallb isidc name = true /\
  isdigit c0 = false /\
  strstr (cstr H) (TAG_TOK :: name ++ [TAG_TOK]) = Some i /\
  (TOK_DEFINE <? t) = true /\
  load32 (varmem st) (wrap32 (vars st + t)) = SYM_DEFINE /\
  load32 (varmem st) (wrap32 (wrap32 (vars st + t) + 4))
  = sym_stk st + Z.of_nat (length Hpre) /\
  0 < sym_stk st /\
  is_prefix H (heap st) = true /\
  dptr st = 0 /\ ch st = c0 /\ file st = w ++ f /\ isidc (peek f) = false.

(** ** What the parsers leave alone *)

Abbreviation ind_of st := (CodeBuf.ind (codeBuf st)).
Abbreviation code_of st := (CodeBuf.bytes (codeBuf st)).

(** Code is only appended: the cursor never moves back. *)
Definition R_code (st st' : state) : Prop :=
  ind_of st <= ind_of st' /\
  CodeBuf.pProgramBase (codeBuf st') = CodeBuf.pProgramBase (codeBuf st).

(** An expression leaves the loop cells, the return chain and the frame
    size alone. *)
Definition R_expr (st st' : state) : Prop :=
  R_code st st' /\ frames st' = frames st /\ rsym st' = rsym st /\ loc st' = loc st.

(** ** Emitted code stays as it is *)

(** The cursor is an address a positive [int] can hold. *)
Definition bounded (st : state) : Prop := ind_of st < 2147483648.

(** [R_above b]: an expression-level step that leaves the bytes below [b]
    alone, as long as the cursor stays an [int]. *)
Definition R_above (b : Z) (st st' : state) : Prop :=
  R_expr st st' /\
  (0 < b -> bounded st' ->
   forall x, x < b -> load8 (code_of st') x = load8 (code_of st) x).

(** [R_good]: a step that leaves all the code emitted before it alone. *)
Definition R_good (st st' : state) : Prop := R_above (ind_of st) st st'.

(** ** The operator level and code of the current token *)

(** Level 9 is only given with code 0 and level 10 only with code 1: the
    entries of [&&] and [||] in the operator table. *)
Definition pair_ok (p : Z * Z) : bool :=
  implb (snd p =? 9) (fst p =? 0) && implb (snd p =? 10) (fst p =? 1).

Definition tok_ok (st : state) : Prop := pair_ok (tokc st, tokl st) = true.

(** The [(tokc, tokl)] pairs the table scan can leave. *)
Fixpoint scan_pairs (fuel : nat) (t : list Z) (tc tl : Z) : list (Z * Z) :=
  match fuel with
  | O => [(tc, tl)]
  | S fuel' =>
      match t with
      | l :: a :: t' =>
          let '(tc', tl', rest) := op_code t' 0 in
          (tc', tl') :: scan_pairs fuel' rest tc' tl'
      | _ => [(tc, tl)]
      end
  end.

Definition R_tc (st st' : state) : Prop :=
  tokl st' = tokl st /\ tokc st' = tokc st.

Definition R_tl (st st' : state) : Prop := tokl st' = tokl st.

Definition R_ok (st st' : state) : Prop := tok_ok st -> tok_ok st'.

(** [post Q m]: [Q] holds whenever [m] returns. *)
Definition post {A} (Q : state -> Prop) (m : M A) : Prop :=
  forall st x st', m st = Ok x st' -> Q st'.

(** [post_from P Q m]: [Q] holds whenever [m] returns from a state in [P]. *)
Definition post_from {A} (P Q : state -> Prop) (m : M A) : Prop :=
  forall st x st', m st = Ok x st' -> P st -> Q st'.

(** ** What the generator's instructions leave in the buffer *)

(** [test %eax, %eax; je/jne] at [p]: 85 c0 0f 84+t. *)
Definition test_jcc (m : mem) (p t : Z) : Prop :=
  load8 m p = 0x85 /\ load8 m (p + 1) = 0xc0 /\ load8 m (p + 2) = 0x0f /\
  load8 m (p + 3) = 0x84 + t.

(** ** The code of [&&] and [||] *)

(** What [sum] leaves for an operator of level [l] (9 or 10) whose left
    operand ended at [st1]: the test and the conditional jump at the cursor
    of [st1], the jump resolved to the last instruction of the whole
    expression, and the first right operand compiled in between. *)
Definition short_circuit_code (operand : M unit) (l : Z) (st1 st' : state) : Prop :=
  let p := ind_of st1 in
  let e := ind_of st' - 5 in
  test_jcc (code_of st') p (l - 9) /\
  load32 (code_of st') (p + 4) = e - (p + 8) /\
  load8 (code_of st') e = 0xb8 /\
  load32 (code_of st') (e + 1) = l - 9 /\
  exists st2 st3,
    operand st2 = Ok tt st3 /\ ind_of st2 = p + 8 /\ ind_of st3 + 18 <= e.

(** The invariant of the operator loop of [sum] at levels 9 and 10. *)
Definition andor_inv (operand : M unit) (l p : Z) (st1 : state)
    (at_ : Z * Z) (s : state) : Prop :=
  bounded s ->
  R_above p st1 s /\ p <= ind_of s /\ tok_ok s /\
  exists ss,
    linked (code_of s) (fst at_) ss = true /\ all_apart ss = true /\
    (forall x, In x ss -> p + 4 <= x /\ x + 4 <= ind_of s) /\
    ((fst at_ = 0 /\ s = st1) \/
     (fst at_ <> 0 /\ snd at_ = l - 9 /\ test_jcc (code_of s) p (l - 9) /\
      In (p + 4) ss /\ p + 8 <= ind_of s /\
      exists st2 st3,
        operand st2 = Ok tt st3 /\ ind_of st2 = p + 8 /\ ind_of st3 <= ind_of s)).

(** ** The processor, as far as the instructions of [gtst], [li] and [gjmp]
    go *)

(** The generator documents what it emits: 85 c0 is [test %eax, %eax],
    0f 84 / 0f 85 are [je] / [jne] with a 32-bit displacement counted from
    the end of the instruction, b8 is [mov $imm, %eax] and e9 is [jmp]. *)
Record cpu := mkCpu { cpu_pc : Z; cpu_eax : Z; cpu_zf : bool }.

Definition x86_step (m : mem) (c : cpu) : option cpu :=
  let p := cpu_pc c in
  let b0 := load8 m p in
  let b1 := load8 m (p + 1) in
  if (b0 =? 0x85) && (b1 =? 0xc0) then
    Some (mkCpu (p + 2) (cpu_eax c) (cpu_eax c =? 0))
  else if (b0 =? 0x0f) && (b1 =? 0x84) then
    Some (mkCpu (if cpu_zf c then wrap32 (p + 6 + load32 m (p + 2)) else p + 6)
                (cpu_eax c) (cpu_zf c))
  else if (b0 =? 0x0f) && (b1 =? 0x85) then
    Some (mkCpu (if cpu_zf c then p + 6 else wrap32 (p + 6 + load32 m (p + 2)))
                (cpu_eax c) (cpu_zf c))
  else if b0 =? 0xb8 then
    Some (mkCpu (p + 5) (load32 m (p + 1)) (cpu_zf c))
  else if b0 =? 0xe9 then
    Some (mkCpu (wrap32 (p + 5 + load32 m (p + 1))) (cpu_eax c) (cpu_zf c))
  else None.

Fixpoint x86_run (n : nat) (m : mem) (c : cpu) : option cpu :=
  match n with
  | O => Some c
  | S n' =>
      match x86_step m c with
      | Some c' => x86_run n' m c'
      | None => None
      end
  end.

(** The left operand decides: 0 for [&&] (level 9), not 0 for [||]
    (level 10). *)
Definition decides (l v : Z) : Prop := (l = 9 -> v = 0) /\ (l = 10 -> v <> 0).

(** ** The break chains of the loops being parsed *)

(** [css] lists, for each live [a] cell, the patch sites of its chain. *)
Fixpoint all_linked (m : mem) (hs : list Z) (css : list (list Z)) : bool :=
  match hs, css with
  | [], [] => true
  | h :: hs', ss :: css' => linked m h ss && all_linked m hs' css'
  | _, _ => false
  end.

Definition sites_below (b : Z) (ss : list Z) : bool :=
  forallb (fun x => (0 <? x) && (x + 4 <=? b)) ss.

(** Every cell heads its chain in the code, no two sites of any chains
    overlap, and all sites lie in the emitted code. *)
Definition chains_ok (st : state) (css : list (list Z)) : Prop :=
  all_linked (code_of st) (frames st) css && all_apart (concat css)
  && sites_below (ind_of st) (concat css) = true.

(** The chains after the sites [ns] were put in front of the chain of the
    cell at address [l]. *)
Definition extend (l : Z) (ns : list Z) (css : list (list Z)) : list (list Z) :=
  if l <=? 0 then css
  else match css !! Z.to_nat (l - 1) with
       | Some ss => <[Z.to_nat (l - 1) := ns ++ ss]> css
       | None => css
       end.

Definition spread (ss : list Z) : Prop :=
  NoDup ss /\ forall x y, In x ss -> In y ss -> x <> y -> apart x y = true.

(** ** Statements and the chains of the live cells *)

(** Chains with the heads [hs], in a store [m] whose cursor is [b]. *)
Definition chains_at (m : mem) (b : Z) (hs : list Z) (css : list (list Z)) : Prop :=
  Forall2 (fun h ss => linked m h ss = true) hs css /\
  spread (concat css) /\
  (forall x, In x (concat css) -> 0 < x /\ x + 4 <= b).

(** A jump emitted with the link 0 and not yet resolved. *)
Definition fresh_site (b a : Z) (s : state) : Prop :=
  b <= a /\ a + 4 <= ind_of s /\ 0 < a /\ load32 (code_of s) a = 0.

(** The chain a head stands for when nothing was linked to it yet. *)
Definition chain_of (a : Z) : list Z := if a =? 0 then [] else [a].

(** What a statement leaves alone apart from the lexer's fields. *)
Definition R_cf (st st' : state) : Prop :=
  codeBuf st' = codeBuf st /\ frames st' = frames st.

(** [R_blk l]: a statement parsed with the cell address [l] only moves the
    cursor on, keeps the code emitted before it, and keeps every chain of
    the live cells, the chain of cell [l] gaining new sites [ns]. *)
Definition R_blk (l : Z) (st st' : state) : Prop :=
  R_code st st' /\
  forall css, chains_ok st css -> 0 < ind_of st -> bounded st' ->
    (forall x, x < ind_of st -> load8 (code_of st') x = load8 (code_of st) x) /\
    exists ns, chains_ok st' (extend l ns css) /\
               (forall x, In x ns -> ind_of st <= x).

(** [reach st0 css0 l LH LS s]: [s] continues [st0], whose chains were
    [css0], inside one statement; [LH] and [LS] are the heads and sites of
    the chains the statement keeps in local variables. *)
Definition reach (st0 : state) (css0 : list (list Z)) (l : Z)
    (LH : list Z) (LS : list (list Z)) (s : state) : Prop :=
  ind_of st0 <= ind_of s /\
  (forall x, x < ind_of st0 -> load8 (code_of s) x = load8 (code_of st0) x) /\
  length (frames s) = length css0 /\
  (forall x, In x (concat LS) -> ind_of st0 <= x) /\
  exists ns,
    chains_at (code_of s) (ind_of s) (frames s ++ LH) (extend l ns css0 ++ LS) /\
    (forall x, In x ns -> ind_of st0 <= x).

(** ** Examples: code buffers *)

(** A buffer holding a chain of two jumps, the second linked to the first. *)
Definition chain_buf : CodeBuf.t :=
  let r1 := CodeBuf.oad 0xe9 0 (CodeBuf.init 0x10000 ALLOC_SIZE) in
  snd (CodeBuf.oad 0xe9 (fst r1) (snd r1)).

(** 20000 times [mov $-1, %eax] in a buffer of [ALLOC_SIZE] bytes. *)
Definition overrun_buf : CodeBuf.t :=
  Pos.iter (fun cb => snd (CodeBuf.oad 0xb8 (-1) cb))
    (CodeBuf.init 0x10000 ALLOC_SIZE) 20000.

(** ** Examples: the lexer *)

(** A host with no files, whose [calloc] hands out four arenas. *)
Definition sample_host : host :=
  mkHost (fun _ => None) [] (fun _ => true) 0x10000 0x30000 0x50000 0x70000
         (fun _ => 0) (fun _ _ _ => 0).

(** The state a run has reached, or [d] when it did not return. *)
Definition state_after {A} (r : result A) (d : state) : state :=
  match r with
  | Ok _ s => s
  | _ => d
  end.

(** The lexer on an input, before its first token and on it. *)
Definition lexer_start (input : string) : state :=
  state_after (inp (compile_init sample_host (bytes_of_string input)))
              (compile_init sample_host (bytes_of_string input)).

Definition lexer_on (fuel : nat) (input : string) : state :=
  state_after (next fuel (lexer_start input)) (lexer_start input).

Definition newline : string := String (ascii_of_nat 10) EmptyString.

(** The lexer stands on "/*" and the comment [body] is not closed. *)
Definition at_open_comment (st : state) (body : list Z) : Prop :=
  dptr st = 0 /\ ch st = 47 /\ file st = 42 :: body /\ comment_open body = true.

(** The lexer stands on a quote followed by [f], not by a backslash. *)
Definition at_char_literal (st : state) (f : list Z) : Prop :=
  dptr st = 0 /\ ch st = 39 /\ file st = f /\ peek f <> 92.

(** The states after "#define X X" and a ";": the lexer stands on a use of
    [X]. *)
Definition self_macro_state : state :=
  lexer_on 30 ("#define X X" ++ newline ++ ";X").

(** ** Examples: the driver *)

(** A host with the one file [name], whose generated code returns [ret]. *)
Definition host_with (name : string) (content : string) (ret : Z) : host :=
  mkHost (fun f => if String.eqb f name then Some (bytes_of_string content) else None)
         [] (fun _ => true) 0x10000 0x30000 0x50000 0x70000
         (fun _ => 0) (fun _ _ _ => ret).

(** ** The keyword string stays at the start of the symbol heap *)

(** The symbol heap only grows. *)
Definition R_heap (st st' : state) : Prop :=
  sym_stk st' = sym_stk st /\ exists r, heap st' = heap st ++ r.

(** ** Examples: the parser *)

(** The parser on "0&&f();": before the expression and after it. *)
Definition andand_state : state := lexer_on 30 "0&&f();".

Definition andand_final : state :=
  state_after (sum 30 10 andand_state) andand_state.

(** The parser on the body of a loop whose [a] is the one live cell. *)
Definition loop_body_state : state :=
  set_frames [0] (lexer_on 30 "{while(2){break;}break;}").

Definition loop_body_final : state :=
  state_after (block 40 1 loop_body_state) loop_body_state.

(** ** What [o] writes, read back *)

(** The number a list of bytes stands for, low byte first. *)
Definition le_value (bs : list Z) : Z :=
  fold_right (fun b acc => b + 256 * acc) 0 bs.

(** The bytes [f] has added to a buffer. *)
Definition written (cb cb' : CodeBuf.t) : list Z :=
  dump (CodeBuf.bytes cb') (CodeBuf.ind cb)
       (Z.to_nat (CodeBuf.ind cb' - CodeBuf.ind cb)).

(** ** What the lexer, an expression and the declarations leave alone *)

(** The parser on "1+2*x;" and after the expression. *)
Definition arith_state : state := lexer_on 30 "1+2*x;".

Definition arith_final : state :=
  state_after (expr 30 arith_state) arith_state.

(** The parser on a declaration list and two functions. *)
Definition unit_state : state :=
  lexer_on 30 "int g; f(a){int x; x=a; return x;} main(){return f(7);}".

Definition unit_final : state :=
  state_after (decl 60 0 unit_state) unit_state.

(** ** Numbers, escapes and white space *)

(** The symbol heap lies in the address range of an [int]. *)
Definition heap_in_int (st : state) : Prop :=
  -2147483648 <= sym_stk st /\
  sym_stk st + Z.of_nat (length (heap st)) + 1 < 2147483648.

(** The value of a run of decimal digits. *)
Definition decimal (ds : list Z) : Z :=
  fold_left (fun a d => a * 10 + (d - 48)) ds 0.

(** The lexer stands on a quote followed by a backslash, [c] and [f]. *)
Definition at_escaped_literal (st : state) (c : Z) (f : list Z) : Prop :=
  dptr st = 0 /\ ch st = 39 /\ file st = 92 :: c :: f.

(** The lexer stands, reading the file, on the white space [ws], and [f]
    follows. *)
Definition at_white_space (st : state) (ws f : list Z) : Prop :=
  dptr st = 0 /\ ch st :: file st = ws ++ f /\ ws <> [] /\
  forallb isspace ws = true /\
  isspace (peek f) = false /\ peek f <> 35.

(** The state once the lexer has read up to the character before [f]. *)
Definition resumed (st : state) (n : nat) (f : list Z) : state :=
  set_fpos (fadv f (fpos st + Z.of_nat n)) (set_file (tail f) (set_ch (peek f) st)).

Definition number_state : state := lexer_start "123abc;".
Definition escape_state : state := lexer_start "'\t'".
Definition blank_state : state := lexer_start "   x".

(** ** The diagnostics of the parser *)

(** The four messages [skip] is called for: a parenthesis, a star or a
    semicolon that is not there. *)
Definition expected (s _ : Z) (e : string) : Prop :=
  s = 1 /\
  (e = "'(' expected"%string \/ e = "')' expected"%string \/
   e = "'*' expected"%string \/ e = "';' expected"%string).

(** A program whose expression lacks the closing parenthesis. *)
Definition missing_paren : list Z := bytes_of_string "main(){return (1;}".

(** ** Local declarations *)

(** [R_local]: a step that emits nothing, touches no loop cell, no return
    chain and no global, and reserves [k] words of the frame. *)
Definition R_local (st st' : state) : Prop :=
  codeBuf st' = codeBuf st /\ frames st' = frames st /\ rsym st' = rsym st /\
  glo st' = glo st /\ glomem st' = glomem st /\
  exists k, 0 <= k /\ wrap32 (loc st') = wrap32 (loc st + 4 * k).

(** The parser on the declarations that open a block. *)
Definition locals_state : state := lexer_on 30 "int a, b; int c; a = 1;".

Definition locals_final : state :=
  state_after (decl 30 1 locals_state) locals_state.

(** ** Names and their tokens *)

(** A name: letters, digits and underscores, the first of them no digit. *)
Definition is_name (w : list Z) : bool :=
  match w with
  | [] => false
  | c :: _ => negb (isdigit c) && forallb isidc w
  end.

(** The name between two tags, as [next] hands it to [strstr]. *)
Definition tagged (w : list Z) : list Z := TAG_TOK :: w ++ [TAG_TOK].

(** The token [next] computes for the name [w] on top of the heap of [st]:
    [(strstr(sym_stk, last_id - 1) - sym_stk) * 8 + TOK_IDENT], and
    [vars + tok] behind the keywords. *)
Definition ident_token (st : state) (w : list Z) : Z :=
  let t := wrap32 (wrap32 (match strstr (cstr (heap st ++ tagged w)) (tagged w) with
                           | Some i => wrap32 i
                           | None => wrap32 (0 - sym_stk st)
                           end * 8) + TOK_IDENT) in
  if TOK_DEFINE <? t then wrap32 (vars st + t) else t.

(** No "#define" has made a macro of [w]. *)
Definition plain_name (st : state) (w : list Z) : Prop :=
  load32 (varmem st) (ident_token st w) <> SYM_DEFINE.

(** No NUL among the bytes pushed on the heap. *)
Definition no_nul (h : list Z) : bool := forallb (fun b => negb (b =? 0)) h.

(** A later state of the lexer: same arenas, and the heap of [st] with the
    name [w] and then nothing, or what starts with the tag of a later
    token. *)
Definition later_on (st : state) (w : list Z) (st2 : state) : Prop :=
  sym_stk st2 = sym_stk st /\ vars st2 = vars st /\
  exists r, heap st2 = heap st ++ TAG_TOK :: w ++ r /\
            (r = [] \/ exists r', r = TAG_TOK :: r').

(** The tokens of the heap of [st] are addresses of the symbol arena that
    an [int] holds. *)
Definition tokens_in_int (st : state) : Prop :=
  0 <= vars st /\
  vars st + 8 * Z.of_nat (length (heap st)) + TOK_IDENT < 2147483648.

(** The lexer on "x+x;" and on "x+y;": on the first name, and on the second
    one. *)
Definition twice_first : state := lexer_start "x+x;".
Definition twice_second : state :=
  state_after (next 9 (lexer_on 9 "x+x;")) twice_first.

Definition other_first : state := lexer_start "x+y;".
Definition other_second : state :=
  state_after (next 9 (lexer_on 9 "x+y;")) other_first.

(** ** The jumps of [if] *)

(** The code of an [if] between the cursors of [st] and [st']: the test and
    its [je] at [p], which lands at [e]; [e] is the end of the statement,
    or the start of the [else] part, right behind a [jmp] that lands at the
    end. *)
Definition if_code (st st' : state) (p e : Z) : Prop :=
  ind_of st <= p /\ p + 8 <= e /\ e <= ind_of st' /\
  test_jcc (code_of st') p 0 /\
  load32 (code_of st') (p + 4) = e - (p + 8) /\
  (e = ind_of st' \/
   (p + 13 <= e /\ load8 (code_of st') (e - 5) = 0xe9 /\
    load32 (code_of st') (e - 4) = ind_of st' - e)).

(** The parser on an [if] with an [else], no loop around it. *)
Definition if_state : state := lexer_on 30 "if(x)y=1;else y=2;z".

Definition if_final : state := state_after (block 30 0 if_state) if_state.

(** ** The jumps of [while] *)

(** The parser on a [while] with a [break] in its body, no loop around
    it. *)
Definition while_state : state := lexer_on 30 "while(x){y=1;break;}z".

Definition while_final : state := state_after (block 30 0 while_state) while_state.

(** ** Replaying a macro *)

(** [n] calls of [inp] in a row. *)
Fixpoint inps (n : nat) : M unit :=
  match n with
  | O => ret tt
  | S n' => inp;; inps n'
  end.

(** [dptr] stands in the heap of [st] at offset [k], on the bytes [body]
    of a captured line and the tag that ends it. *)
Definition replay_at (st : state) (k : nat) (body rest : list Z) : Prop :=
  dptr st = sym_stk st + Z.of_nat k /\
  drop k (heap st) = body ++ TAG_MACRO :: rest /\
  Forall (fun b => 0 <= b < 256 /\ b <> TAG_MACRO) body /\
  0 < sym_stk st /\
  sym_stk st + Z.of_nat (length (heap st)) < 2147483648.

(** The lexer after "#define N 42" and a line, [dptr] set on the captured
    line as a use of [N] sets it. *)
Definition replay_state : state :=
  set_dptr (0x30000 + 58) (lexer_on 30 ("#define N 42" ++ newline ++ ";")).

(** ** A "#define" line *)

(** The heap once the word "define" of a directive is on it. *)
Definition with_define (st : state) : state :=
  set_heap (heap st ++ bytes_of_string " define") st.

(** The lexer stands on the '#' of a "#define" of [name]; [line] is the
    rest of the line and [f] follows the line end. *)
Definition at_define (st : state) (name line f : list Z) : Prop :=
  dptr st = 0 /\ ch st = 35 /\
  file st = bytes_of_string "define " ++ name ++ line ++ 10 :: f /\
  is_name name = true /\ isidc (peek (line ++ [10])) = false /\
  Forall (fun c => 0 <= c < 256 /\ c <> 10) line /\
  isspace (peek f) = false /\ peek f <> 35.

(** The two cells of the symbol [t] lie in the arena [vars], and the arena
    in the addresses an [int] holds. *)
Definition symbol_cells (st : state) (t : Z) : Prop :=
  0 < vars st /\ vars st <= t /\ t + 8 <= vars st + ALLOC_SIZE /\
  vars st + ALLOC_SIZE < 2147483648.

(** The bytes a "#define" of [name] with the rest [line] pushes. *)
Definition define_bytes (name line : list Z) : list Z :=
  bytes_of_string " define" ++ TAG_TOK :: name ++ TAG_TOK :: line ++ [10; TAG_MACRO].

Definition define_state : state :=
  lexer_start ("#define N 42" ++ newline ++ ";").

(** ** A string literal *)

(** The parser stands on a string literal: the opening quote is the token,
    [body] are the characters of the string, read from the file, none of
    them a quote or a backslash; behind the closing quote comes [c], one of
    ')', ',' and ';', and then [f]. *)
Definition at_string (st : state) (body : list Z) (c : Z) (f : list Z) : Prop :=
  tok st = 34 /\ dptr st = 0 /\ ch st :: file st = body ++ 34 :: c :: f /\
  Forall (fun x => x <> 34 /\ x <> 92) body /\
  (c = 41 \/ c = 44 \/ c = 59).

(** The bytes [l] stored from the address [a] on. *)
Fixpoint store_bytes (m : mem) (a : Z) (l : list Z) : mem :=
  match l with
  | [] => m
  | c :: l' => store_bytes (store8 m a c) (a + 1) l'
  end.

Definition string_state : state :=
  lexer_on 30 (String (ascii_of_nat 34) ("abc" ++ String (ascii_of_nat 34) ";")).

(** ** A block comment that is closed *)

(** The lexer stands on "/*"; [body] is the text of the comment, in which
    no '*' is followed by '/' or by a NUL and which does not start with a
    NUL, "*/" closes it and [f] follows. *)
Definition at_comment (st : state) (body f : list Z) : Prop :=
  dptr st = 0 /\ ch st = 47 /\ file st = 42 :: body ++ 42 :: 47 :: f /\
  peek (body ++ [42]) <> 0 /\ star_closed (body ++ [42]) = false.

Definition comment_state : state := lexer_start "/* a*b **/x".

(** ** Where the declarations end *)

(** A program of one global and one function, and the state [compile]
    leaves. *)
Definition small_program : list Z :=
  bytes_of_string "int g; main(){g=7; return g;}".

Definition small_compiled : state :=
  state_after (compile 60 sample_host small_program)
              (compile_init sample_host small_program).

(** ** The jump of [return] *)

(** The parser on a [return] with a value, the function's chain of returns
    already holding a site. *)
Definition return_state : state :=
  set_rsym 0x10007 (lexer_on 30 "return x+1;}").

Definition return_final : state :=
  state_after (block 30 0 return_state) return_state.

(** ** The chain of returns beside the break chains *)

(** The state with [rsym] as one more cell, in front of the cells of the
    loops: the chain of returns is then the chain of the first cell. *)
Definition with_returns (s : state) : state := set_frames (rsym s :: frames s) s.

(** Every chain of [css'] is the chain of [css] at its place with new
    sites, none below [b], in front. *)
Definition grows (b : Z) (css css' : list (list Z)) : Prop :=
  Forall2 (fun ss ss' => exists ns, ss' = ns ++ ss /\ forall x, In x ns -> b <= x)
    css css'.

(** [R_ret]: a statement only moves the cursor on, keeps the code emitted
    before it, and keeps the chain of returns and the chains of the live
    cells, each gaining new sites at most. *)
Definition R_ret (st st' : state) : Prop :=
  R_code st st' /\
  forall css, chains_ok (with_returns st) css -> 0 < ind_of st -> bounded st' ->
    (forall x, x < ind_of st -> load8 (code_of st') x = load8 (code_of st) x) /\
    exists css', chains_ok (with_returns st') css' /\ grows (ind_of st) css css'.

(** [reach_ret st0 css0 LH LS s]: [s] continues [st0] inside one statement,
    the chains [css0] of [st0] having grown; [LH] and [LS] are the heads and
    sites of the chains the statement keeps in local variables. *)
Definition reach_ret (st0 : state) (css0 : list (list Z))
    (LH : list Z) (LS : list (list Z)) (s : state) : Prop :=
  exists css1, grows (ind_of st0) css0 css1 /\
               reach (with_returns st0) css1 0 LH LS (with_returns s).

(** The parser on a loop that is left by [return] and by [break]. *)
Definition returns_state : state := lexer_on 40 "while(x){if(y)return 1;break;}z".

Definition returns_final : state :=
  state_after (block 40 0 returns_state) returns_state.

(** ** A function definition *)

(** The parser on a function that returns from two places. *)
Definition function_state : state := lexer_on 40 "f(a){if(a)return 1;return 2;}".

Definition function_final : state :=
  state_after (decl 42 0 function_state) function_state.

(** The same with one call of the function compiled before: the call
    stands at the start of the code with the link 0, and the cell next to
    the symbol of the function holds its site. *)
Definition forward_state : state :=
  set_varmem (store32 (varmem function_state) (tok function_state + 4) 0x10001)
    (set_codeBuf (snd (CodeBuf.oad 0xe8 0 (codeBuf function_state))) function_state).

Definition forward_final : state :=
  state_after (decl 42 0 forward_state) forward_state.

(** ** The stack around a call *)

(** The parser on a call with two arguments of a function defined at
    0x10700. *)
Definition call_state : state :=
  let s := lexer_on 30 "f(1,x);" in
  set_varmem (store32 (varmem s) (tok s) 0x10700) s.

Definition call_final : state := state_after (unary 30 1 call_state) call_state.

(** ** The operands of a binary operator *)

(** The parser on a sum of three terms. *)
Definition operands_state : state := lexer_on 30 "x+2-y;".

Definition operands_final : state :=
  state_after (sum 30 3 operands_state) operands_state.

(** ** The jumps of [for] *)

(** The parser on a [for] with its three expressions. *)
Definition for_state : state := lexer_on 30 "for(i=0;i<9;i=i+1){y=i;}z".

Definition for_final : state := state_after (block 30 0 for_state) for_state.

(** Where the head of a [for] leaves its jumps: [n0] is the start of the
    test, [q] the jump over the increment and [r] the jump from the
    increment back to the test. *)
Definition for_head_at (m : mem) (n0 n a e : Z) : Prop :=
  (a = 0 \/ n0 + 4 <= a /\ load32 m a = 0) /\
  (n = n0 /\ (a = 0 \/ a + 4 <= e) \/
   exists q r,
     n = q + 5 /\ n0 <= q /\ q + 5 <= r /\ e = r + 5 /\ (a = 0 \/ a + 4 <= q) /\
     load8 m q = 0xe9 /\ load32 m (q + 1) = r - q /\
     load8 m r = 0xe9 /\ load32 m (r + 1) = n0 - (r + 5)).

(* ===================================================================== *)
(** * Properties *)

Local Open Scope M_scope.

(** ** Machine integers *)

Lemma wrap32_range x : -2147483648 <= wrap32 x < 2147483648.
Proof. unfold wrap32. pose proof (Z.mod_pos_bound (x + 2147483648) 4294967296). lia. Qed.

Lemma wrap32_small x : -2147483648 <= x < 2147483648 -> wrap32 x = x.
Proof. intros H. unfold wrap32. rewrite Z.mod_small by lia. lia. Qed.

Lemma wrap32_idem x : wrap32 (wrap32 x) = wrap32 x.
Proof. apply wrap32_small, wrap32_range. Qed.

Lemma wrap32_mod x : wrap32 x mod 4294967296 = x mod 4294967296.
Proof.
  unfold wrap32.
  rewrite Zminus_mod, Zmod_mod, <- Zminus_mod.
  f_equal. lia.
Qed.

Lemma wrap32_eq x y : x mod 4294967296 = y mod 4294967296 -> wrap32 x = wrap32 y.
Proof.
  intros H. unfold wrap32. f_equal.
  rewrite (Zplus_mod x), (Zplus_mod y), H. reflexivity.
Qed.

Lemma wrap32_add_l x y : wrap32 (wrap32 x + y) = wrap32 (x + y).
Proof. apply wrap32_eq. rewrite Zplus_mod, wrap32_mod, <- Zplus_mod. reflexivity. Qed.

Lemma wrap32_add_r x y : wrap32 (x + wrap32 y) = wrap32 (x + y).
Proof. rewrite Z.add_comm, wrap32_add_l. f_equal. lia. Qed.

Lemma wrap32_sub_l x y : wrap32 (wrap32 x - y) = wrap32 (x - y).
Proof. unfold Z.sub. apply wrap32_add_l. Qed.

Lemma wrap32_sub_r x y : wrap32 (x - wrap32 y) = wrap32 (x - y).
Proof. apply wrap32_eq. rewrite Zminus_mod, wrap32_mod, <- Zminus_mod. reflexivity. Qed.

(** ** Byte stores *)

Lemma byte_of_range v : 0 <= byte_of v < 256.
Proof. unfold byte_of. apply Z.mod_pos_bound. lia. Qed.

Lemma load8_store8 m a v b :
  load8 (store8 m a v) b = if decide (a = b) then byte_of v else load8 m b.
Proof.
  unfold load8, store8. rewrite lookup_insert. destruct (decide (a = b)); reflexivity.
Qed.

Lemma load8_store8_eq m a v : load8 (store8 m a v) a = byte_of v.
Proof. rewrite load8_store8. destruct (decide (a = a)); congruence. Qed.

Lemma load8_store8_ne m a v b : a <> b -> load8 (store8 m a v) b = load8 m b.
Proof. intros. rewrite load8_store8. destruct (decide (a = b)); congruence. Qed.

Lemma load8_store32_out m a v b :
  b < a \/ a + 4 <= b -> load8 (store32 m a v) b = load8 m b.
Proof.
  intros H. unfold store32. rewrite !load8_store8_ne by lia. reflexivity.
Qed.

Lemma load8_empty a : load8 ∅ a = 0.
Proof. unfold load8. rewrite lookup_empty. reflexivity. Qed.

Lemma load32_ext m m' a :
  (forall i, a <= i < a + 4 -> load8 m' i = load8 m i) ->
  load32 m' a = load32 m a.
Proof.
  intros H. unfold load32. rewrite !H by lia. reflexivity.
Qed.

Lemma le_bytes v :
  byte_of v + 256 * byte_of (Z.shiftr v 8) + 65536 * byte_of (Z.shiftr v 16)
  + 16777216 * byte_of (Z.shiftr v 24) = v mod 4294967296.
Proof.
  unfold byte_of. rewrite !Z.shiftr_div_pow2 by lia.
  change (2 ^ 8) with 256. change (2 ^ 16) with (256 * 256).
  change (2 ^ 24) with (256 * 256 * 256).
  rewrite <- !Z.div_div by lia.
  set (q1 := v / 256). set (q2 := q1 / 256). set (q3 := q2 / 256).
  pose proof (Z.div_mod v 256 ltac:(lia)).
  pose proof (Z.div_mod q1 256 ltac:(lia)).
  pose proof (Z.div_mod q2 256 ltac:(lia)).
  pose proof (Z.div_mod q3 256 ltac:(lia)).
  pose proof (Z.mod_pos_bound v 256 ltac:(lia)).
  pose proof (Z.mod_pos_bound q1 256 ltac:(lia)).
  pose proof (Z.mod_pos_bound q2 256 ltac:(lia)).
  pose proof (Z.mod_pos_bound q3 256 ltac:(lia)).
  fold q1 in H. fold q2 in H0. fold q3 in H1.
  apply Z.mod_unique_pos with (q := q3 / 256); lia.
Qed.

Lemma load32_store32 m a v : load32 (store32 m a v) a = wrap32 v.
Proof.
  unfold load32, store32.
  rewrite load8_store8_eq.
  rewrite (load8_store8_ne _ (a + 3) _ (a + 2)), load8_store8_eq by lia.
  rewrite (load8_store8_ne _ (a + 3) _ (a + 1)), (load8_store8_ne _ (a + 2) _ (a + 1)), load8_store8_eq by lia.
  rewrite !(load8_store8_ne _ _ _ a), load8_store8_eq by lia.
  apply wrap32_eq.
  replace (byte_of v + 256 * byte_of (Z.shiftr v 8) + 65536 * byte_of (Z.shiftr v 16) +
     16777216 * byte_of (Z.shiftr v 24)) with (v mod 4294967296) by (rewrite <- le_bytes; lia).
  apply Zmod_mod.
Qed.

Lemma load32_store32_apart m a v b :
  apart a b = true -> load32 (store32 m a v) b = load32 m b.
Proof.
  unfold apart. intros H. apply load32_ext. intros i Hi.
  apply load8_store32_out. lia.
Qed.

(** ** CodeBuf *)

Lemma o_loop_stop fuel n cb :
  n = 0 \/ n = -1 -> CodeBuf.o_loop fuel n cb = cb.
Proof. intros [-> | ->]; destruct fuel; reflexivity. Qed.

Lemma shiftr8_bound k n :
  0 <= k ->
  - 2 ^ (8 * (k + 1)) <= 2 * n + 1 <= 2 ^ (8 * (k + 1)) ->
  - 2 ^ (8 * k) <= 2 * Z.shiftr n 8 + 1 <= 2 ^ (8 * k).
Proof.
  intros Hk H. rewrite Z.shiftr_div_pow2 by lia. change (2 ^ 8) with 256.
  replace (8 * (k + 1)) with (8 * k + 8) in H by lia.
  rewrite Z.pow_add_r in H by lia. change (2 ^ 8) with 256 in H.
  pose proof (Z.div_mod n 256 ltac:(lia)).
  pose proof (Z.mod_pos_bound n 256 ltac:(lia)).
  assert (0 < 2 ^ (8 * k)) by (apply Z.pow_pos_nonneg; lia).
  nia.
Qed.

Lemma o_loop_fuel fuel k n cb :
  - 2 ^ (8 * Z.of_nat fuel) <= 2 * n + 1 <= 2 ^ (8 * Z.of_nat fuel) ->
  CodeBuf.o_loop (fuel + k) n cb = CodeBuf.o_loop fuel n cb.
Proof.
  revert n cb. induction fuel as [|fuel IH]; intros n cb H.
  - simpl in H. change (2 ^ 0) with 1 in H.
    rewrite o_loop_stop by lia. reflexivity.
  - simpl. destruct ((n =? 0) || (n =? -1)); [reflexivity|].
    apply IH. apply shiftr8_bound; [lia|].
    replace (Z.of_nat fuel + 1) with (Z.of_nat (S fuel)) by lia. exact H.
Qed.

Lemma o_loop_ind fuel n cb :
  CodeBuf.ind cb <= CodeBuf.ind (CodeBuf.o_loop fuel n cb)
  <= CodeBuf.ind cb + Z.of_nat fuel.
Proof.
  revert n cb. induction fuel as [|fuel IH]; intros n cb; simpl; [lia|].
  destruct ((n =? 0) || (n =? -1)); [lia|].
  specialize (IH (Z.shiftr n 8) (CodeBuf.ob n cb)). simpl in IH. lia.
Qed.

Lemma o_loop_base fuel n cb :
  CodeBuf.pProgramBase (CodeBuf.o_loop fuel n cb) = CodeBuf.pProgramBase cb.
Proof.
  revert n cb. induction fuel as [|fuel IH]; intros n cb; simpl; [reflexivity|].
  destruct ((n =? 0) || (n =? -1)); [reflexivity|]. rewrite IH. reflexivity.
Qed.

Lemma o_loop_bytes fuel n cb a :
  a < CodeBuf.ind cb \/ CodeBuf.ind (CodeBuf.o_loop fuel n cb) <= a ->
  load8 (CodeBuf.bytes (CodeBuf.o_loop fuel n cb)) a = load8 (CodeBuf.bytes cb) a.
Proof.
  revert n cb. induction fuel as [|fuel IH]; intros n cb; simpl; [reflexivity|].
  destruct ((n =? 0) || (n =? -1)); [reflexivity|]. intros H.
  rewrite IH.
  - simpl. apply load8_store8_ne.
    pose proof (o_loop_ind fuel (Z.shiftr n 8) (CodeBuf.ob n cb)). simpl in *. lia.
  - simpl. lia.
Qed.

Lemma o_ind n cb :
  CodeBuf.ind cb <= CodeBuf.ind (CodeBuf.o n cb) <= CodeBuf.ind cb + 4.
Proof. apply (o_loop_ind 4). Qed.

Lemma o_base n cb : CodeBuf.pProgramBase (CodeBuf.o n cb) = CodeBuf.pProgramBase cb.
Proof. apply o_loop_base. Qed.

Lemma o_bytes n cb a :
  a < CodeBuf.ind cb \/ CodeBuf.ind (CodeBuf.o n cb) <= a ->
  load8 (CodeBuf.bytes (CodeBuf.o n cb)) a = load8 (CodeBuf.bytes cb) a.
Proof. apply o_loop_bytes. Qed.

(** One byte values. *)
Lemma o_one_byte n cb : 1 <= n <= 255 -> CodeBuf.o n cb = CodeBuf.ob n cb.
Proof.
  intros H. unfold CodeBuf.o. rewrite wrap32_small by lia.
  cbn [CodeBuf.o_loop].
  replace ((n =? 0) || (n =? -1)) with false
    by (symmetry; apply orb_false_iff; split; apply Z.eqb_neq; lia).
  assert (Z.shiftr n 8 = 0) as ->.
  { rewrite Z.shiftr_div_pow2 by lia. apply Z.div_small. change (2 ^ 8) with 256. lia. }
  reflexivity.
Qed.

Lemma o_unfold n cb :
  -2147483648 <= n < 2147483648 -> n <> 0 -> n <> -1 ->
  CodeBuf.o n cb = CodeBuf.o (Z.shiftr n 8) (CodeBuf.ob n cb).
Proof.
  intros H H0 H1. unfold CodeBuf.o.
  assert (-8388608 <= Z.shiftr n 8 < 8388608).
  { rewrite Z.shiftr_div_pow2 by lia. change (2 ^ 8) with 256.
    pose proof (Z.div_mod n 256 ltac:(lia)).
    pose proof (Z.mod_pos_bound n 256 ltac:(lia)). lia. }
  rewrite !wrap32_small by lia.
  change (CodeBuf.o_loop 4 n cb) with
    (if (n =? 0) || (n =? -1) then cb
     else CodeBuf.o_loop 3 (Z.shiftr n 8) (CodeBuf.ob n cb)).
  replace ((n =? 0) || (n =? -1)) with false
    by (symmetry; apply orb_false_iff; split; apply Z.eqb_neq; lia).
  symmetry. apply (o_loop_fuel 3 1).
  change (2 ^ (8 * Z.of_nat 3)) with 16777216. lia.
Qed.

(** ** Chains *)

Lemma all_apart_cons s ss :
  all_apart (s :: ss) = true <-> (forall x, In x ss -> apart s x = true) /\ all_apart ss = true.
Proof.
  simpl. rewrite andb_true_iff, forallb_forall. reflexivity.
Qed.

Lemma linked_ext m m' t ss :
  (forall s i, In s ss -> s <= i < s + 4 -> load8 m' i = load8 m i) ->
  linked m' t ss = linked m t ss.
Proof.
  revert t. induction ss as [|s ss IH]; intros t H; simpl; [reflexivity|].
  rewrite (load32_ext m m' s) by (intros; apply (H s); simpl; auto).
  rewrite IH; [reflexivity|]. intros s' i Hs Hi. apply (H s'); simpl; auto.
Qed.

Lemma gsym_step_spec s cb :
  let '(n, cb') := CodeBuf.gsym_step s cb in
  n = load32 (CodeBuf.bytes cb) s /\
  CodeBuf.ind cb' = CodeBuf.ind cb /\
  CodeBuf.pProgramBase cb' = CodeBuf.pProgramBase cb /\
  load32 (CodeBuf.bytes cb') s = wrap32 (CodeBuf.getPC cb - s - 4) /\
  (forall a, a < s \/ s + 4 <= a ->
     load8 (CodeBuf.bytes cb') a = load8 (CodeBuf.bytes cb) a).
Proof.
  unfold CodeBuf.gsym_step. cbn [CodeBuf.ind CodeBuf.pProgramBase CodeBuf.bytes]. repeat split.
  - rewrite load32_store32, wrap32_idem, wrap32_sub_l. reflexivity.
  - intros a Ha. apply load8_store32_out. exact Ha.
Qed.

Lemma gsym_zero fuel cb : CodeBuf.gsym fuel 0 cb = Some cb.
Proof. destruct fuel; reflexivity. Qed.

Lemma gsym_S fuel s cb :
  (s =? 0) = false ->
  CodeBuf.gsym (S fuel) s cb =
  CodeBuf.gsym fuel (fst (CodeBuf.gsym_step s cb)) (snd (CodeBuf.gsym_step s cb)).
Proof. intros H. cbn [CodeBuf.gsym]. rewrite H. reflexivity. Qed.

Lemma gsym_O s cb : (s =? 0) = false -> CodeBuf.gsym O s cb = None.
Proof. intros H. cbn [CodeBuf.gsym]. rewrite H. reflexivity. Qed.

Lemma gsym_chain ss : forall t cb,
  linked (CodeBuf.bytes cb) t ss = true ->
  all_apart ss = true ->
  exists cb',
    CodeBuf.gsym (length ss) t cb = Some cb' /\
    (forall k, (k < length ss)%nat -> CodeBuf.gsym k t cb = None) /\
    CodeBuf.ind cb' = CodeBuf.ind cb /\
    CodeBuf.pProgramBase cb' = CodeBuf.pProgramBase cb /\
    (forall s, In s ss ->
       load32 (CodeBuf.bytes cb') s = wrap32 (CodeBuf.getPC cb - s - 4)) /\
    (forall a, (forall s, In s ss -> a < s \/ s + 4 <= a) ->
       load8 (CodeBuf.bytes cb') a = load8 (CodeBuf.bytes cb) a).
Proof.
  induction ss as [|s ss IH]; intros t cb Hl Ha.
  - cbn [linked] in Hl. apply Z.eqb_eq in Hl; subst t. exists cb.
    cbn [length]. rewrite gsym_zero.
    split; [reflexivity|]. split; [intros k Hk; lia|].
    split; [reflexivity|]. split; [reflexivity|].
    split; [intros s []|reflexivity].
  - cbn [linked] in Hl. apply andb_true_iff in Hl as [Hl Hl2].
    apply andb_true_iff in Hl as [Ht Hs].
    apply Z.eqb_eq in Ht; subst t. apply negb_true_iff in Hs.
    apply all_apart_cons in Ha as [Has Ha].
    pose proof (gsym_step_spec s cb) as Hstep.
    destruct (CodeBuf.gsym_step s cb) as [n cb1] eqn:E.
    destruct Hstep as (Hn & Hi & Hb & Hv & Hf).
    destruct (IH n cb1) as (cb' & Hg & Hnone & Hi' & Hb' & Hv' & Hf'); [|exact Ha|].
    { subst n. rewrite (linked_ext (CodeBuf.bytes cb)); [exact Hl2|].
      intros s' i Hs' Hi0. apply Hf. specialize (Has s' Hs'). unfold apart in Has. lia. }
    exists cb'. repeat split.
    + cbn [length]. rewrite gsym_S, E by exact Hs. exact Hg.
    + intros k Hk. destruct k as [|k]; [apply gsym_O; exact Hs|].
      rewrite gsym_S, E by exact Hs. apply Hnone. cbn [length] in Hk. lia.
    + congruence.
    + congruence.
    + intros s' [<- | Hs'].
      * rewrite <- Hv. apply load32_ext. intros i Hi0. apply Hf'.
        intros s' Hs'. specialize (Has s' Hs'). unfold apart in Has. lia.
      * rewrite (Hv' s' Hs'). unfold CodeBuf.getPC. rewrite Hi. reflexivity.
    + intros a Hout. rewrite Hf' by (intros; apply Hout; simpl; auto).
      apply Hf. apply Hout. simpl; auto.
Qed.

(** ** Reasoning about the monad *)

Ltac sst :=
  unfold set_tok, set_tokc, set_tokl, set_ch, set_rsym, set_loc, set_glo,
    set_dptr, set_dch, set_last_id, set_heap, set_file, set_fpos,
    set_codeBuf, set_varmem, set_glomem, set_frames in *;
  cbn [tok tokc tokl ch vars rsym loc glo sym_stk dptr dch last_id heap file
       fpos codeBuf varmem glomem frames dlsym
       CodeBuf.ind CodeBuf.pProgramBase CodeBuf.bytes fst snd] in *.

Lemma bind_Ok {A B} (m : M A) (k : A -> M B) st y st' :
  bind m k st = Ok y st' ->
  exists x st1, m st = Ok x st1 /\ k x st1 = Ok y st'.
Proof.
  unfold bind. destruct (m st) as [x st1| | |]; try discriminate. eauto.
Qed.

Lemma bind_Ok_intro {A B} (m : M A) (k : A -> M B) st x st1 :
  m st = Ok x st1 -> bind m k st = k x st1.
Proof. intros H. unfold bind. rewrite H. reflexivity. Qed.

Lemma while_unfold {A} fuel (cond : A -> state -> bool) body a st :
  while_ fuel cond body a st =
  if cond a st then
    match fuel with
    | O => OutOfFuel
    | S fuel' => bind (body a) (while_ fuel' cond body) st
    end
  else Ok a st.
Proof. destruct fuel; reflexivity. Qed.

Section Respects.
Context (R : state -> state -> Prop) `{!PreOrder R}.

Lemma respects_ret {A} (a : A) : respects R (ret a).
Proof. intros st x st' H. inversion H; subst. reflexivity. Qed.

Lemma respects_get {A} (f : state -> A) : respects R (get f).
Proof. intros st x st' H. inversion H; subst. reflexivity. Qed.

Lemma respects_bind {A B} (m : M A) (k : A -> M B) :
  respects R m -> (forall x, respects R (k x)) -> respects R (bind m k).
Proof.
  intros Hm Hk st y st' H. apply bind_Ok in H as (x & st1 & H1 & H2).
  transitivity st1; [eapply Hm | eapply Hk]; eauto.
Qed.

Lemma respects_modify (f : state -> state) :
  (forall st, R st (f st)) -> respects R (modify f).
Proof. intros Hf st x st' H. inversion H; subst. apply Hf. Qed.

Lemma respects_when b (m : M unit) : respects R m -> respects R (when b m).
Proof. intros Hm. destruct b; [exact Hm | apply respects_ret]. Qed.

Lemma respects_while {A} fuel (cond : A -> state -> bool) body a :
  (forall a, respects R (body a)) -> respects R (while_ fuel cond body a).
Proof.
  intros Hb. revert a. induction fuel as [|fuel IH]; intros a st x st' H;
    rewrite while_unfold in H; destruct (cond a st); try discriminate.
  - inversion H; subst. reflexivity.
  - eapply (respects_bind _ _ (Hb a) IH). exact H.
  - inversion H; subst. reflexivity.
Qed.

Lemma respects_while0 fuel cond body :
  respects R body -> respects R (while0 fuel cond body).
Proof. intros Hb. apply respects_while. intros _. exact Hb. Qed.

Lemma respects_timeout {A} : respects R (@timeout A).
Proof. intros st x st' H. discriminate. Qed.

Lemma respects_fault {A} : respects R (@fault A).
Proof. intros st x st' H. discriminate. Qed.

Lemma respects_error {A} msg : respects R (@error A msg).
Proof. intros st x st' H. discriminate. Qed.
End Respects.

Lemma respects_weaken (R1 R2 : state -> state -> Prop) {A} (m : M A) :
  (forall a b, R1 a b -> R2 a b) -> respects R1 m -> respects R2 m.
Proof. intros H Hm st x st' E. apply H. eapply Hm. exact E. Qed.

Create HintDb respects.

(** Structural descent through a computation; [leaf] solves [R st (f st)]. *)
Ltac respects_step leaf :=
  match goal with
  | |- PreOrder _ => typeclasses eauto
  | |- respects _ (bind _ _) => apply respects_bind; [typeclasses eauto | | intros ?]
  | |- respects _ (ret _) => apply respects_ret; typeclasses eauto
  | |- respects _ (get _) => apply respects_get; typeclasses eauto
  | |- respects _ (when _ _) => apply respects_when; [typeclasses eauto | ]
  | |- respects _ (while_ _ _ _ _) => apply respects_while; [typeclasses eauto | intros ?]
  | |- respects _ (while0 _ _ _) => apply respects_while0; [typeclasses eauto | ]
  | |- respects _ timeout => apply respects_timeout
  | |- respects _ fault => apply respects_fault
  | |- respects _ (error _) => apply respects_error
  | |- respects _ (modify _) => apply respects_modify; intros ?; sst; leaf
  | |- respects _ (if ?b then _ else _) => destruct b
  | |- respects _ (match ?x with _ => _ end) => destruct x
  | |- respects _ (let '(_, _) := ?x in _) => destruct x
  | |- respects _ _ => eassumption
  | |- respects _ _ => solve [eauto with respects]
  end.

(** ** What the lexer leaves alone *)

#[global] Instance R_lex_preorder : PreOrder R_lex.
Proof.
  split.
  - intros st. unfold R_lex. tauto.
  - intros a b c. unfold R_lex. intuition congruence.
Qed.

Ltac leaf_eq := unfold R_lex; sst; repeat split; reflexivity.

Lemma respects_lex_fgetc : respects R_lex fgetc.
Proof.
  intros st x st' H. unfold fgetc in H. destruct (file st); inversion H; subst; leaf_eq.
Qed.
#[global] Hint Resolve respects_lex_fgetc : respects.

Lemma respects_lex_inp : respects R_lex inp.
Proof. unfold inp. repeat respects_step leaf_eq. Qed.
#[global] Hint Resolve respects_lex_inp : respects.

Lemma respects_lex_pdef c : respects R_lex (pdef c).
Proof. unfold pdef. repeat respects_step leaf_eq. Qed.
#[global] Hint Resolve respects_lex_pdef : respects.

Lemma respects_lex_getq : respects R_lex getq.
Proof. unfold getq. repeat respects_step leaf_eq. Qed.
#[global] Hint Resolve respects_lex_getq : respects.

Lemma respects_lex_poke_var a v : respects R_lex (poke_var a v).
Proof. unfold poke_var. repeat respects_step leaf_eq. Qed.
#[global] Hint Resolve respects_lex_poke_var : respects.

Lemma respects_lex_peek_var a : respects R_lex (peek_var a).
Proof. unfold peek_var. repeat respects_step leaf_eq. Qed.
#[global] Hint Resolve respects_lex_peek_var : respects.

Lemma respects_lex_next fuel : respects R_lex (next fuel).
Proof.
  induction fuel as [|fuel IH]; cbn [next]; [apply respects_timeout|].
  unfold next_body. repeat respects_step leaf_eq.
Qed.
#[global] Hint Resolve respects_lex_next : respects.

Lemma respects_lex_skip fuel c : respects R_lex (skip fuel c).
Proof. unfold skip. repeat respects_step leaf_eq. Qed.
#[global] Hint Resolve respects_lex_skip : respects.

(** ** How a computation can fail *)

Section FailsWith.
Context (P : Z -> Z -> string -> Prop) (F : Prop).

Lemma fails_ret {A} (a : A) : fails_with P F (ret a).
Proof. intros st. exact I. Qed.

Lemma fails_get {A} (f : state -> A) : fails_with P F (get f).
Proof. intros st. exact I. Qed.

Lemma fails_modify f : fails_with P F (modify f).
Proof. intros st. exact I. Qed.

Lemma fails_timeout {A} : fails_with P F (@timeout A).
Proof. intros st. exact I. Qed.

Lemma fails_bind {A B} (m : M A) (k : A -> M B) :
  fails_with P F m -> (forall x, fails_with P F (k x)) ->
  fails_with P F (bind m k).
Proof.
  intros Hm Hk st. unfold bind. specialize (Hm st).
  destruct (m st) as [x st1| | |]; auto. apply Hk.
Qed.

Lemma fails_when b (m : M unit) : fails_with P F m -> fails_with P F (when b m).
Proof. intros Hm. destruct b; [exact Hm | apply fails_ret]. Qed.

Lemma fails_while {A} fuel (cond : A -> state -> bool) body a :
  (forall a, fails_with P F (body a)) -> fails_with P F (while_ fuel cond body a).
Proof.
  intros Hb. revert a. induction fuel as [|fuel IH]; intros a st;
    rewrite while_unfold; destruct (cond a st); try exact I.
  apply (fails_bind _ _ (Hb a) IH).
Qed.

Lemma fails_while0 fuel cond body :
  fails_with P F body -> fails_with P F (while0 fuel cond body).
Proof. intros Hb. apply fails_while. intros _. exact Hb. Qed.
End FailsWith.

Create HintDb fails.

Ltac fails_step :=
  match goal with
  | |- fails_with _ _ (bind _ _) => apply fails_bind; [ | intros ?]
  | |- fails_with _ _ (ret _) => apply fails_ret
  | |- fails_with _ _ (get _) => apply fails_get
  | |- fails_with _ _ (modify _) => apply fails_modify
  | |- fails_with _ _ (when _ _) => apply fails_when
  | |- fails_with _ _ (while_ _ _ _ _) => apply fails_while; intros ?
  | |- fails_with _ _ (while0 _ _ _) => apply fails_while0
  | |- fails_with _ _ timeout => apply fails_timeout
  | |- fails_with _ _ (if ?b then _ else _) => destruct b
  | |- fails_with _ _ (match ?x with _ => _ end) => destruct x
  | |- fails_with _ _ (let '(_, _) := ?x in _) => destruct x
  | |- fails_with _ _ _ => eassumption
  | |- fails_with _ _ _ => solve [eauto with fails]
  end.

Lemma fails_weaken (P P' : Z -> Z -> string -> Prop) (F F' : Prop) {A} (m : M A) :
  (forall s p e, P s p e -> P' s p e) -> (F -> F') ->
  fails_with P F m -> fails_with P' F' m.
Proof.
  intros HP HF H st. specialize (H st). destruct (m st); auto.
Qed.

Lemma fgetc_never_fails : never_fails fgetc.
Proof. intros st. unfold fgetc. destruct (file st); exact I. Qed.
#[global] Hint Resolve fgetc_never_fails : fails.

Lemma inp_never_fails : never_fails inp.
Proof. unfold inp. repeat fails_step. Qed.
#[global] Hint Resolve inp_never_fails : fails.

Lemma pdef_never_fails c : never_fails (pdef c).
Proof. unfold pdef. repeat fails_step. Qed.
#[global] Hint Resolve pdef_never_fails : fails.

Lemma getq_never_fails : never_fails getq.
Proof. unfold getq. repeat fails_step. Qed.
#[global] Hint Resolve getq_never_fails : fails.

Lemma next_never_fails fuel : never_fails (next fuel).
Proof.
  induction fuel as [|fuel IH]; cbn [next]; [apply fails_timeout|].
  unfold next_body, poke_var, peek_var. repeat fails_step.
Qed.

Lemma never_fails_exits_1 {A} (m : M A) : never_fails m -> exits_1 m.
Proof. apply fails_weaken; tauto. Qed.

Lemma next_exits_1 fuel : exits_1 (next fuel).
Proof. apply never_fails_exits_1, next_never_fails. Qed.
#[global] Hint Resolve next_exits_1 : fails.

Lemma inp_exits_1 : exits_1 inp.
Proof. apply never_fails_exits_1, inp_never_fails. Qed.
#[global] Hint Resolve inp_exits_1 : fails.

Lemma getq_exits_1 : exits_1 getq.
Proof. apply never_fails_exits_1, getq_never_fails. Qed.
#[global] Hint Resolve getq_exits_1 : fails.

Lemma error_exits_1 {A} msg : exits_1 (@error A msg).
Proof. intros st. reflexivity. Qed.
#[global] Hint Resolve error_exits_1 : fails.

Lemma skip_exits_1 fuel c : exits_1 (skip fuel c).
Proof. unfold skip. repeat fails_step. Qed.
#[global] Hint Resolve skip_exits_1 : fails.

Lemma emit_exits_1 f : exits_1 (emit f).
Proof. unfold emit. repeat fails_step. Qed.
#[global] Hint Resolve emit_exits_1 : fails.

Lemma oad_exits_1 n t : exits_1 (oad n t).
Proof. intros st. unfold oad. destruct (CodeBuf.oad n t (codeBuf st)). exact I. Qed.
#[global] Hint Resolve oad_exits_1 : fails.

Lemma gsym_exits_1 fuel t : exits_1 (gsym fuel t).
Proof. intros st. unfold gsym. destruct (CodeBuf.gsym fuel t (codeBuf st)); exact I. Qed.
#[global] Hint Resolve gsym_exits_1 : fails.

Lemma peek_frame_exits_1 l : exits_1 (peek_frame l).
Proof.
  intros st. unfold peek_frame. destruct (l <=? 0); [exact I|].
  destruct (frames st !! Z.to_nat (l - 1)); exact I.
Qed.
#[global] Hint Resolve peek_frame_exits_1 : fails.

Lemma poke_frame_exits_1 l v : exits_1 (poke_frame l v).
Proof.
  intros st. unfold poke_frame. destruct (l <=? 0); [exact I|].
  destruct (frames st !! Z.to_nat (l - 1)); exact I.
Qed.
#[global] Hint Resolve poke_frame_exits_1 : fails.

Lemma push_frame_exits_1 a : exits_1 (push_frame a).
Proof. intros st. exact I. Qed.
#[global] Hint Resolve push_frame_exits_1 : fails.

Lemma pop_frame_exits_1 : exits_1 pop_frame.
Proof. intros st. unfold pop_frame. destruct (last (frames st)); exact I. Qed.
#[global] Hint Resolve pop_frame_exits_1 : fails.

Ltac unfold_gen :=
  repeat progress unfold li, gjmp, gtst, gcmp, clearEXC, storeEAXIntoPoppedLVal,
    loadEAXIndirect, leaEAX, compiler_oad, test_expr, expr,
    X86CodeGenerator.li, X86CodeGenerator.gjmp, X86CodeGenerator.gtst,
    X86CodeGenerator.gcmp, X86CodeGenerator.clearECX,
    X86CodeGenerator.pushEAX, X86CodeGenerator.storeEAXIntoPoppedLVal,
    X86CodeGenerator.loadEAXIndirect, X86CodeGenerator.leaEAX,
    X86CodeGenerator.storeEAX, X86CodeGenerator.loadEAX,
    X86CodeGenerator.puzzleAdd, X86CodeGenerator.gmov,
    X86CodeGenerator.allocStackSpaceForArgs, X86CodeGenerator.storeEAToArg,
    X86CodeGenerator.callForward, X86CodeGenerator.callRelative,
    X86CodeGenerator.callIndirect, X86CodeGenerator.adjustStackAfterCall,
    X86CodeGenerator.oHack, X86CodeGenerator.oadHack,
    psym, o, ob, getPC, poke_code, poke_var, peek_var.

Lemma unary_sum_exits_1 fuel :
  (forall l, exits_1 (unary fuel l)) /\ (forall l, exits_1 (sum fuel l)).
Proof.
  induction fuel as [|fuel [IHu IHs]]; (split; intros l); cbn [unary sum];
    try apply fails_timeout.
  - unfold unary_body. unfold_gen. repeat fails_step.
  - unfold sum_body. unfold_gen. repeat fails_step.
Qed.

Lemma expr_exits_1 fuel : exits_1 (expr fuel).
Proof. apply unary_sum_exits_1. Qed.
#[global] Hint Resolve expr_exits_1 : fails.

Lemma sum_exits_1 fuel l : exits_1 (sum fuel l).
Proof. apply unary_sum_exits_1. Qed.
#[global] Hint Resolve sum_exits_1 : fails.

Lemma block_decl_exits_1 fuel :
  (forall l, exits_1 (block fuel l)) /\ (forall l, exits_1 (decl fuel l)).
Proof.
  induction fuel as [|fuel [IHb IHd]]; (split; intros l); cbn [block decl];
    try apply fails_timeout.
  - unfold block_body. unfold_gen. fold (expr fuel). repeat fails_step.
  - unfold decl_body. unfold_gen. repeat fails_step.
Qed.

(** ** The outcomes of compile and of the driver *)

Lemma decl_exits_1 fuel l : exits_1 (decl fuel l).
Proof. apply block_decl_exits_1. Qed.

Lemma compile_outcome fuel h input :
  match compile fuel h input with
  | Ok r _ => r = 0
  | Exit s _ _ => s = 1
  | Fault | OutOfFuel => True
  end.
Proof.
  unfold compile.
  set (st0 := compile_init h input).
  assert (H : exits_1 (inp;; next fuel;; decl fuel 0;; (ret 0 : M Z))).
  { pose proof (decl_exits_1 fuel 0). repeat fails_step. }
  specialize (H st0).
  destruct ((inp;; next fuel;; decl fuel 0;; ret 0) st0) as [r st| | |] eqn:E; auto.
  apply bind_Ok in E as (? & ? & _ & E).
  apply bind_Ok in E as (? & ? & _ & E).
  apply bind_Ok in E as (? & ? & _ & E).
  inversion E. reflexivity.
Qed.

Lemma compile_ok_zero fuel h input r st :
  compile fuel h input = Ok r st -> r = 0.
Proof.
  intros H. pose proof (compile_outcome fuel h input) as C. rewrite H in C. exact C.
Qed.

Lemma compile_exit_status fuel h input s p e :
  compile fuel h input = Exit s p e -> s = 1.
Proof.
  intros H. pose proof (compile_outcome fuel h input) as C. rewrite H in C. exact C.
Qed.

Lemma main_args_exits_n n : forall args, (length args <= n)%nat ->
  forall i doTest inFile outFile p,
  main_args args i doTest inFile outFile = inl p ->
  p = Exited 2 [Msg "Expected filename after -T" EmptyString] None \/
  exists arg, p = Exited 3 [Msg "Unrecognized flag" arg] None.
Proof.
  induction n as [|n IH]; intros args Hn i doTest inFile outFile p H.
  - destruct args; [discriminate | cbn [length] in Hn; lia].
  - destruct args as [|arg rest]; [discriminate|].
    cbn [main_args length] in *.
    destruct (is_flag arg) as [flag|].
    + destruct flag as [|c flag']; [inversion H; eauto|].
      destruct c as [[] [] [] [] [] [] [] []]; try (inversion H; eauto; fail).
      destruct rest as [|f rest']; [inversion H; auto|].
      eapply (IH rest'); [cbn [length] in Hn; lia | exact H].
    + destruct inFile; [discriminate|].
      eapply (IH rest); [lia | exact H].
Qed.

Lemma main_args_exits args i doTest inFile outFile p :
  main_args args i doTest inFile outFile = inl p ->
  p = Exited 2 [Msg "Expected filename after -T" EmptyString] None \/
  exists arg, p = Exited 3 [Msg "Unrecognized flag" arg] None.
Proof. apply (main_args_exits_n (length args)). lia. Qed.


Lemma main_never_reports_compile_failure fuel h argv s err out r :
  main fuel h argv = Exited s err out ->
  ~ In (MsgInt "Compile failed:" r) err.
Proof.
  unfold main. intros H.
  destruct (main_args (tail argv) 1 false None None) as [p|[[[doTest inFile] outFile] i]] eqn:E.
  - apply main_args_exits in E as [-> | [arg ->]]; inversion H; subst;
      intros [?|[]]; discriminate.
  - destruct (match inFile with Some f => fopen_r h f | None => Some (stdin h) end)
      as [input|]; [|inversion H; subst; intros [?|[]]; discriminate].
    destruct (compile fuel h input) as [r' st| | |] eqn:C; try discriminate.
    + apply compile_ok_zero in C as Hr. subst r'. cbn [Z.eqb negb] in H.
      destruct doTest.
      * destruct (fopen_w h (default EmptyString outFile));
          inversion H; subst; [intros [] | intros [?|[]]; discriminate].
      * unfold run in H.
        destruct (load32 (varmem st) (wrap32 (vars st + TOK_MAIN)) =? 0);
          inversion H; subst; [intros [?|[]]; discriminate | intros []].
    + inversion H; subst. intros [?|[]]; discriminate.
Qed.

(** ** Running the lexer *)

Lemma bind_bind {A B C} (m : M A) (k1 : A -> M B) (k2 : B -> M C) st :
  bind (bind m k1) k2 st = bind m (fun x => bind (k1 x) k2) st.
Proof. unfold bind. destruct (m st); reflexivity. Qed.

Lemma bind_ret {A B} (a : A) (k : A -> M B) st : bind (ret a) k st = k a st.
Proof. reflexivity. Qed.

Lemma bind_get {A B} (f : state -> A) (k : A -> M B) st :
  bind (get f) k st = k (f st) st.
Proof. reflexivity. Qed.

Lemma bind_modify {B} (f : state -> state) (k : unit -> M B) st :
  bind (modify f) k st = k tt (f st).
Proof. reflexivity. Qed.

Lemma run_ret {A} (a : A) st : ret a st = Ok a st.
Proof. reflexivity. Qed.

Lemma run_get {A} (f : state -> A) st : get f st = Ok (f st) st.
Proof. reflexivity. Qed.

Lemma run_modify (f : state -> state) st : modify f st = Ok tt (f st).
Proof. reflexivity. Qed.

Lemma bind_run {A B} (m : M A) (k : A -> M B) st x st1 :
  m st = Ok x st1 -> bind m k st = k x st1.
Proof. intros H. unfold bind. rewrite H. reflexivity. Qed.

Lemma bind_timeout {A B} (m : M A) (k : A -> M B) st :
  m st = OutOfFuel -> bind m k st = OutOfFuel.
Proof. intros H. unfold bind. rewrite H. reflexivity. Qed.

Ltac sproj :=
  cbn [tok tokc tokl ch vars rsym loc glo sym_stk dptr dch last_id heap file
       fpos codeBuf varmem glomem frames dlsym
       set_tok set_tokc set_tokl set_ch set_rsym set_loc set_glo set_dptr
       set_dch set_last_id set_heap set_file set_fpos set_codeBuf set_varmem
       set_glomem set_frames when].

(** Administrative steps of a run: binds of [get], [modify] and [ret]. *)
Ltac mrun :=
  repeat (first [ rewrite bind_bind | rewrite bind_ret | rewrite bind_get
                | rewrite bind_modify | rewrite run_ret | rewrite run_get
                | rewrite run_modify ];
          cbv beta; sproj).

Lemma inp_file tk tkc tkl c vs rs lc gl sy dc li h f fp cb vm gm fr dl :
  inp (mkState tk tkc tkl c vs rs lc gl sy 0 dc li h f fp cb vm gm fr dl) =
  Ok tt (mkState tk tkc tkl (peek f) vs rs lc gl sy 0 dc li h (tail f) (fadv f fp) cb vm gm fr dl).
Proof. destruct f; reflexivity. Qed.

Lemma pdef_eq c tk tkc tkl c0 vs rs lc gl sy dp dc li h f fp cb vm gm fr dl :
  pdef c (mkState tk tkc tkl c0 vs rs lc gl sy dp dc li h f fp cb vm gm fr dl) =
  Ok tt (mkState tk tkc tkl c0 vs rs lc gl sy dp dc li (h ++ [byte_of c]) f fp cb vm gm fr dl).
Proof. reflexivity. Qed.

(** The identifier loop over a run of identifier characters read from the
    file. *)
Lemma ident_loop w : forall c fuel tk tkc tkl vs rs lc gl sy dc li h f fp cb vm gm fr dl,
  forallb isidc (c :: w) = true ->
  isidc (peek f) = false ->
  (length w < fuel)%nat ->
  while0 fuel isid (c <- get ch;; pdef c;; inp)
    (mkState tk tkc tkl c vs rs lc gl sy 0 dc li h (w ++ f) fp cb vm gm fr dl) =
  Ok tt (mkState tk tkc tkl (peek f) vs rs lc gl sy 0 dc li
           (h ++ map byte_of (c :: w)) (tail f)
           (fadv f (fp + Z.of_nat (length w))) cb vm gm fr dl).
Proof.
  induction w as [|c' w IH]; intros c fuel tk tkc tkl vs rs lc gl sy dc li h f fp cb vm gm fr dl Hw Hf Hfuel.
  - destruct fuel as [|fuel]; [cbn [length] in Hfuel; lia|].
    unfold while0. rewrite while_unfold. unfold isid at 1. cbn [ch].
    cbn [forallb] in Hw. apply andb_true_iff in Hw as [Hc _].
    fold (isidc c). rewrite Hc. mrun.
    rewrite (bind_run _ _ _ _ _ (pdef_eq _ _ _ _ _ _ _ _ _ _ _ _ _ _ _ _ _ _ _ _ _)).
    rewrite (bind_run _ _ _ _ _ (inp_file _ _ _ _ _ _ _ _ _ _ _ _ _ _ _ _ _ _ _)).
    cbn [app]. rewrite while_unfold. unfold isid at 1. cbn [ch]. fold (isidc (peek f)).
    rewrite Hf. cbn [map length Z.of_nat]. rewrite Z.add_0_r. reflexivity.
  - destruct fuel as [|fuel]; [cbn [length] in Hfuel; lia|].
    unfold while0. rewrite while_unfold. unfold isid at 1. cbn [ch].
    change (forallb isidc (c :: c' :: w)) with (isidc c && forallb isidc (c' :: w)) in Hw.
    apply andb_true_iff in Hw as [Hc Hw].
    fold (isidc c). rewrite Hc. mrun.
    rewrite (bind_run _ _ _ _ _ (pdef_eq _ _ _ _ _ _ _ _ _ _ _ _ _ _ _ _ _ _ _ _ _)).
    rewrite (bind_run _ _ _ _ _ (inp_file _ _ _ _ _ _ _ _ _ _ _ _ _ _ _ _ _ _ _)).
    cbn [app peek tail fadv].
    fold (while0 fuel isid (c <- get ch;; pdef c;; inp)).
    rewrite IH; [|exact Hw|exact Hf|cbn [length] in Hfuel; lia].
    cbn [map length]. rewrite <- app_assoc. cbn [app].
    replace (fp + 1 + Z.of_nat (length w)) with (fp + Z.of_nat (S (length w))) by lia.
    reflexivity.
Qed.

(** ** Lexing an identifier *)

Ltac zbool :=
  repeat match goal with
  | H : _ && _ = true |- _ => apply andb_true_iff in H; destruct H
  | H : _ || _ = true |- _ => apply orb_true_iff in H; destruct H
  | H : _ && _ = false |- _ => apply andb_false_iff in H; destruct H
  | H : _ || _ = false |- _ => apply orb_false_iff in H; destruct H
  | H : negb _ = true |- _ => apply negb_true_iff in H
  | H : negb _ = false |- _ => apply negb_false_iff in H
  | H : (_ <=? _) = true |- _ => apply Z.leb_le in H
  | H : (_ <=? _) = false |- _ => apply Z.leb_gt in H
  | H : (_ <? _) = true |- _ => apply Z.ltb_lt in H
  | H : (_ <? _) = false |- _ => apply Z.ltb_ge in H
  | H : (_ =? _) = true |- _ => apply Z.eqb_eq in H
  | H : (_ =? _) = false |- _ => apply Z.eqb_neq in H
  end.

Ltac zbool_goal :=
  repeat match goal with
  | |- _ && _ = true => apply andb_true_iff; split
  | |- _ || _ = false => apply orb_false_iff; split
  | |- negb _ = true => apply negb_true_iff
  | |- negb _ = false => apply negb_false_iff
  | |- (_ <=? _) = true => apply Z.leb_le
  | |- (_ <=? _) = false => apply Z.leb_gt
  | |- (_ <? _) = true => apply Z.ltb_lt
  | |- (_ <? _) = false => apply Z.ltb_ge
  | |- (_ =? _) = true => apply Z.eqb_eq
  | |- (_ =? _) = false => apply Z.eqb_neq
  end.

Lemma isidc_range c : isidc c = true -> 48 <= c <= 122.
Proof.
  unfold isidc, isalnum, isalpha, isdigit. intros H. zbool; lia.
Qed.

Lemma isidc_not_space c : isidc c = true -> isspace c || (c =? 35) = false.
Proof.
  intros H. apply isidc_range in H. unfold isspace.
  destruct ((9 <=? c) && (c <=? 13)) eqn:E1; [zbool; lia|].
  destruct (c =? 32) eqn:E2; [zbool; lia|].
  destruct (c =? 35) eqn:E3; [zbool; lia|]. reflexivity.
Qed.

Lemma isidc_byte c : isidc c = true -> byte_of c = c.
Proof.
  intros H. apply isidc_range in H. unfold byte_of. apply Z.mod_small. lia.
Qed.

Lemma isidc_bytes w : forallb isidc w = true -> map byte_of w = w.
Proof.
  induction w as [|c w IH]; [reflexivity|]. cbn [forallb map]. intros H.
  apply andb_true_iff in H as [Hc Hw]. rewrite IH, isidc_byte by assumption.
  reflexivity.
Qed.

Lemma cstr_ident w l :
  forallb isidc w = true -> cstr (w ++ l) = w ++ cstr l.
Proof.
  induction w as [|c w IH]; [reflexivity|]. cbn [forallb app cstr]. intros H.
  apply andb_true_iff in H as [Hc Hw]. apply isidc_range in Hc.
  replace (c =? 0) with false by (symmetry; apply Z.eqb_neq; lia).
  rewrite IH by assumption. reflexivity.
Qed.

(** The needle [strstr] is given for the word [w] just pushed on a heap [h]. *)
Lemma needle_eq sy h w :
  -2147483648 <= sy -> sy + Z.of_nat (length h) + 1 < 2147483648 ->
  forallb isidc w = true ->
  cstr (heap_from sy (h ++ TAG_TOK :: w ++ [TAG_TOK])
          (wrap32 (wrap32 (sy + Z.of_nat (length (h ++ [TAG_TOK]))) - 1))) =
  TAG_TOK :: w ++ [TAG_TOK].
Proof.
  intros H1 H2 Hw. rewrite length_app. cbn [length].
  rewrite wrap32_sub_l.
  replace (sy + Z.of_nat (length h + 1) - 1) with (sy + Z.of_nat (length h)) by lia.
  rewrite wrap32_small by lia.
  unfold heap_from.
  replace (sy + Z.of_nat (length h) <? sy) with false by (symmetry; apply Z.ltb_ge; lia).
  replace (sy + Z.of_nat (length h) - sy) with (Z.of_nat (length h)) by lia.
  rewrite Nat2Z.id. rewrite drop_app_length.
  unfold TAG_TOK. cbn [app cstr Z.eqb]. f_equal.
  rewrite cstr_ident by assumption. reflexivity.
Qed.

Lemma isid_eq tk tkc tkl c vs rs lc gl sy dp dc li h f fp cb vm gm fr dl :
  isid (mkState tk tkc tkl c vs rs lc gl sy dp dc li h f fp cb vm gm fr dl) = isidc c.
Proof. reflexivity. Qed.

Lemma while0_false fuel cond body st :
  cond st = false -> while0 fuel cond body st = Ok tt st.
Proof. intros H. unfold while0. rewrite while_unfold, H. reflexivity. Qed.

(** Lexing an identifier read from the file: the token computed from the
    place [strstr] finds it in the heap, and what follows for a symbol. *)
Lemma next_ident fuel c w f tk tkc tkl vs rs lc gl sy dc li h fp cb vm gm fr dl :
  forallb isidc (c :: w) = true ->
  isdigit c = false ->
  isidc (peek f) = false ->
  (length w < fuel)%nat ->
  -2147483648 <= sy -> sy + Z.of_nat (length h) + 1 < 2147483648 ->
  next (S fuel)
    (mkState tk tkc tkl c vs rs lc gl sy 0 dc li h (w ++ f) fp cb vm gm fr dl) =
  let p := strstr (cstr (h ++ TAG_TOK :: c :: w ++ [TAG_TOK]))
             (TAG_TOK :: c :: w ++ [TAG_TOK]) in
  let t := wrap32 (wrap32 (match p with
                           | Some i => wrap32 i
                           | None => wrap32 (0 - sy)
                           end * 8) + TOK_IDENT) in
  let st1 t :=
    mkState t tkc 0 (peek f) vs rs lc gl sy 0 dc
      (wrap32 (sy + Z.of_nat (length (h ++ [TAG_TOK]))))
      (h ++ TAG_TOK :: c :: w) (tail f)
      (fadv f (fp + Z.of_nat (length w))) cb vm gm fr dl in
  if TOK_DEFINE <? t then
    let t' := wrap32 (vs + t) in
    if load32 vm t' =? SYM_DEFINE then
      (inp;; next fuel)
        (mkState t' tkc 0 (peek f) vs rs lc gl sy
           (load32 vm (wrap32 (t' + 4))) (peek f)
           (wrap32 (sy + Z.of_nat (length (h ++ [TAG_TOK]))))
           (h ++ TAG_TOK :: c :: w) (tail f)
           (fadv f (fp + Z.of_nat (length w))) cb vm gm fr dl)
    else Ok tt (st1 t')
  else Ok tt (st1 t).
Proof.
  intros Hw Hd Hf Hfuel Hr1 Hr2.
  assert (Hc : isidc c = true).
  { cbn [forallb] in Hw. apply andb_true_iff in Hw. tauto. }
  cbn [next]. unfold next_body.
  match goal with
  | |- context [bind (while0 ?f ?cd ?b) ?k ?st] =>
      rewrite (bind_run (while0 f cd b) k st tt st
                 (while0_false f cd b st (isidc_not_space c Hc)))
  end.
  mrun. rewrite isid_eq, Hc.
  rewrite (bind_run _ _ _ _ _ (pdef_eq _ _ _ _ _ _ _ _ _ _ _ _ _ _ _ _ _ _ _ _ _)).
  mrun. unfold dstk at 1. sproj.
  rewrite (bind_run _ _ _ _ _ (ident_loop w c fuel _ _ _ _ _ _ _ _ _ _ _ _ _ _ _ _ _ _ Hw Hf Hfuel)).
  mrun. rewrite Hd.
  mrun.
  rewrite (isidc_bytes _ Hw).
  change (byte_of TAG_TOK) with TAG_TOK.
  rewrite <- !app_assoc. cbn [app].
  pose proof (needle_eq sy h (c :: w) Hr1 Hr2 Hw) as Hn. cbn [app] in Hn. rewrite Hn.
  cbv zeta.
  set (t := wrap32 (wrap32 (match strstr _ _ with Some i => wrap32 i | None => _ end * 8) + TOK_IDENT)).
  destruct (TOK_DEFINE <? t); sproj; [|reflexivity].
  mrun. unfold peek_var. mrun.
  destruct (load32 vm (wrap32 (vs + t)) =? SYM_DEFINE); sproj; [|reflexivity].
  mrun. reflexivity.
Qed.

(** ** Keywords *)

Lemma is_prefix_app p : forall l, is_prefix p l = true -> exists r, l = p ++ r.
Proof.
  induction p as [|x p IH]; intros l H.
  - exists l. reflexivity.
  - destruct l as [|y l]; [discriminate|]. cbn [is_prefix] in H.
    apply andb_true_iff in H as [Hx Hp]. apply Z.eqb_eq in Hx. subst y.
    destruct (IH l Hp) as [r ->]. exists r. reflexivity.
Qed.

Ltac compute_strstr :=
  match goal with
  | |- context [strstr ?a ?b] =>
      let v := eval vm_compute in (strstr a b) in
      replace (strstr a b) with v by (vm_compute; reflexivity)
  end.

Lemma keyword_token_run kw id fuel st f :
  In (kw, id) (("main"%string, TOK_MAIN) :: keyword_ids) ->
  heap_ready st ->
  lexer_at st (bytes_of_string kw) f ->
  (6 <= fuel)%nat ->
  exists st',
    (if TOK_DEFINE <? id then
       if load32 (varmem st) (wrap32 (vars st + id)) =? SYM_DEFINE
       then True
       else next (S fuel) st = Ok tt st' /\ tok st' = wrap32 (vars st + id)
     else next (S fuel) st = Ok tt st' /\ tok st' = id) /\
    (dptr st' = 0 /\ ch st' = peek f /\ file st' = tail f).
Proof.
  intros Hin (Hp & Hr1 & Hr2) (Hd & Hw & Hf) Hfuel.
  destruct st as [tk tkc tkl c vs rs lc gl sy dp dc li h fl fp cb vm gm fr dl].
  cbn [dptr ch file heap sym_stk varmem vars] in *. subst dp.
  apply is_prefix_app in Hp as [r ->].
  cbn [In keyword_ids] in Hin.
  repeat (destruct Hin as [Hin|Hin]; [injection Hin as <- <-|]); [..|destruct Hin].
  all: match type of Hw with
       | _ = bytes_of_string ?k ++ _ =>
           let w := eval vm_compute in (tail (bytes_of_string k)) in
           vm_compute in Hw; injection Hw as -> ->;
           match goal with
           | |- context [next _ (mkState ?a1 ?a2 ?a3 ?c ?a5 ?a6 ?a7 ?a8 ?a9 ?a10 ?a11 ?a12 ?h ?fl ?a15 ?a16 ?a17 ?a18 ?a19 ?a20)] =>
               change fl with (w ++ f);
               rewrite (next_ident fuel c w f) by
                 first [ reflexivity | exact Hf | cbn [length]; lia | exact Hr1 | exact Hr2 ]
           end
       end.
  all: cbv zeta; compute_strstr.
  all: match goal with
       | |- context [wrap32 (wrap32 (wrap32 ?i * 8) + TOK_IDENT)] =>
           let v := eval vm_compute in (wrap32 (wrap32 (wrap32 i * 8) + TOK_IDENT)) in
           change (wrap32 (wrap32 (wrap32 i * 8) + TOK_IDENT)) with v
       end.
  all: unfold TOK_DEFINE, TOK_MAIN, TOK_INT, TOK_IF, TOK_ELSE, TOK_WHILE, TOK_BREAK,
         TOK_RETURN, TOK_FOR;
       cbv [Z.ltb Z.compare Pos.compare Pos.compare_cont].
  all: try (eexists; split; [split; reflexivity | sproj; auto]; fail).
  destruct (load32 vm (wrap32 (vs + 592)) =? SYM_DEFINE).
  - exists (mkState 0 0 0 (peek f) 0 0 0 0 0 0 0 0 [] (tail f) 0 cb vm gm [] dl).
    sproj. auto.
  - eexists; split; [split; reflexivity | sproj; auto].
Qed.

(** ** A block comment that is not closed *)

Lemma star_closed_peek f :
  star_closed (peek f :: tail f) = star_closed f.
Proof. destruct f; reflexivity. Qed.

Section Comment.
Variables (tk tkc tkl vs rs lc gl sy dc li : Z) (h : list Z)
          (cb : CodeBuf.t) (vm gm : mem) (fr : list Z) (dl : list Z -> Z).

Let S_ c f fp :=
  mkState tk tkc tkl c vs rs lc gl sy 0 dc li h f fp cb vm gm fr dl.

(** The inner loop [while (ch != '*') inp();] either runs out of fuel or
    stops on a '*', the text ahead still open. *)
Lemma skip_to_star fuel : forall c f fp,
  star_closed (c :: f) = false ->
  while0 fuel (fun st => negb (ch st =? 42)) inp (S_ c f fp) = OutOfFuel \/
  exists f' fp',
    while0 fuel (fun st => negb (ch st =? 42)) inp (S_ c f fp)
    = Ok tt (S_ 42 f' fp') /\
    star_closed (42 :: f') = false.
Proof.
  induction fuel as [|fuel IH]; intros c f fp Hc.
  - unfold while0. rewrite while_unfold. unfold S_. cbv beta. cbn [ch].
    destruct (c =? 42) eqn:E; cbn [negb]; [|left; reflexivity].
    apply Z.eqb_eq in E. subst c. right. exists f, fp. split; [reflexivity|exact Hc].
  - unfold while0. rewrite while_unfold. unfold S_. cbv beta. cbn [ch].
    destruct (c =? 42) eqn:E; cbn [negb].
    + apply Z.eqb_eq in E. subst c. right. exists f, fp. split; [reflexivity|exact Hc].
    + rewrite (bind_run _ _ _ _ _ (inp_file _ _ _ _ _ _ _ _ _ _ _ _ _ _ _ _ _ _ _)).
      apply (IH (peek f) (tail f) (fadv f fp)).
      rewrite star_closed_peek.
      cbn [star_closed] in Hc. rewrite E in Hc. cbn [andb orb] in Hc. exact Hc.
Qed.

(** The outer loop never ends on an open comment. *)
Lemma comment_loop_diverges fuel n : forall c f fp,
  c <> 0 ->
  star_closed (c :: f) = false ->
  while0 n (fun st => negb (ch st =? 0))
    (while0 fuel (fun st => negb (ch st =? 42)) inp;;
     inp;;
     c <- get ch;;
     when (c =? 47) (modify (set_ch 0)))
    (S_ c f fp) = OutOfFuel.
Proof.
  induction n as [|n IH]; intros c f fp Hc0 Hc.
  - unfold while0. rewrite while_unfold. unfold S_. cbv beta. cbn [ch].
    replace (c =? 0) with false by (symmetry; apply Z.eqb_neq; exact Hc0).
    reflexivity.
  - unfold while0. rewrite while_unfold. unfold S_. cbv beta. cbn [ch].
    replace (c =? 0) with false by (symmetry; apply Z.eqb_neq; exact Hc0).
    cbn [negb]. rewrite bind_bind.
    destruct (skip_to_star fuel c f fp Hc) as [E | (f' & fp' & E & Hs)].
    + apply bind_timeout. exact E.
    + unfold S_ in E. unfold while0 in E. rewrite (bind_run _ _ _ _ _ E).
      rewrite bind_bind.
      rewrite (bind_run _ _ _ _ _ (inp_file _ _ _ _ _ _ _ _ _ _ _ _ _ _ _ _ _ _ _)).
      mrun.
      assert (Hp : (peek f' =? 47) = false /\ peek f' <> 0).
      { cbn [star_closed] in Hs. cbn [Z.eqb Pos.eqb andb] in Hs.
        apply orb_false_iff in Hs as [Hs _].
        destruct f' as [|d f'']; [split; [reflexivity | cbn [peek]; lia]|].
        cbn [peek]. apply orb_false_iff in Hs as [H1 H2].
        split; [exact H1 | apply Z.eqb_neq; exact H2]. }
      destruct Hp as [Hp1 Hp2]. rewrite Hp1. sproj. mrun.
      apply (IH (peek f') (tail f') (fadv f' fp') Hp2).
      rewrite star_closed_peek.
      cbn [star_closed] in Hs. apply orb_false_iff in Hs. tauto.
Qed.

End Comment.

(** [next] on "/*" followed by an open comment. *)
Lemma next_open_comment fuel body tk tkc tkl vs rs lc gl sy dc li h fp cb vm gm fr dl :
  comment_open body = true ->
  next fuel (mkState tk tkc tkl 47 vs rs lc gl sy 0 dc li h (42 :: body) fp cb vm gm fr dl)
  = OutOfFuel.
Proof.
  intros Ho. destruct fuel as [|fuel]; [reflexivity|].
  cbn [next]. unfold next_body.
  match goal with
  | |- context [bind (while0 ?f ?cd ?b) ?k ?st] =>
      rewrite (bind_run (while0 f cd b) k st tt st
                 (while0_false f cd b st eq_refl))
  end.
  mrun. rewrite isid_eq. change (isidc 47) with false. cbv iota.
  rewrite (bind_run _ _ _ _ _ (inp_file _ _ _ _ _ _ _ _ _ _ _ _ _ _ _ _ _ _ _)).
  cbn [peek tail fadv]. mrun.
  change (47 =? 39) with false. change ((47 =? 47) && (42 =? 42)) with true. cbv iota.
  rewrite (bind_run _ _ _ _ _ (inp_file _ _ _ _ _ _ _ _ _ _ _ _ _ _ _ _ _ _ _)).
  apply bind_timeout.
  unfold comment_open in Ho. apply andb_true_iff in Ho as [H0 Hs].
  apply negb_true_iff in H0, Hs. apply Z.eqb_neq in H0.
  apply comment_loop_diverges; [exact H0|].
  rewrite star_closed_peek. exact Hs.
Qed.

(** ** A character literal *)

(** [next] on a quote: whatever follows, a number token comes back; the
    character after the quote is its value and the two characters after
    that are dropped, without any check that a quote closes the literal. *)
Lemma next_char_literal fuel f tk tkc tkl vs rs lc gl sy dc li h fp cb vm gm fr dl :
  peek f <> 92 ->
  next (S fuel)
    (mkState tk tkc tkl 39 vs rs lc gl sy 0 dc li h f fp cb vm gm fr dl) =
  Ok tt (mkState TOK_NUM (peek f) 0 (peek (tail (tail f))) vs rs lc gl sy 0 dc li h
           (tail (tail (tail f))) (fadv (tail (tail f)) (fadv (tail f) (fadv f fp)))
           cb vm gm fr dl).
Proof.
  intros Hq. cbn [next]. unfold next_body.
  match goal with
  | |- context [bind (while0 ?f ?cd ?b) ?k ?st] =>
      rewrite (bind_run (while0 f cd b) k st tt st
                 (while0_false f cd b st eq_refl))
  end.
  mrun. rewrite isid_eq. change (isidc 39) with false. cbv iota.
  rewrite (bind_run _ _ _ _ _ (inp_file _ _ _ _ _ _ _ _ _ _ _ _ _ _ _ _ _ _ _)).
  mrun. change (39 =? 39) with true. cbv iota. mrun.
  unfold getq. mrun.
  replace (peek f =? 92) with false by (symmetry; apply Z.eqb_neq; exact Hq).
  sproj. mrun.
  rewrite (bind_run _ _ _ _ _ (inp_file _ _ _ _ _ _ _ _ _ _ _ _ _ _ _ _ _ _ _)).
  rewrite inp_file. reflexivity.
Qed.

(** ** Replaying a macro body from the heap *)

Lemma heap_from_app sy (H r : list Z) k :
  (k <= length H)%nat ->
  heap_from sy (H ++ r) (sy + Z.of_nat k) = drop k H ++ r.
Proof.
  intros Hk. unfold heap_from.
  replace (sy + Z.of_nat k <? sy) with false by (symmetry; apply Z.ltb_ge; lia).
  replace (sy + Z.of_nat k - sy) with (Z.of_nat k) by lia.
  rewrite Nat2Z.id. apply drop_app_le. exact Hk.
Qed.

Lemma inp_heap c rest a tk tkc tkl c0 vs rs lc gl sy dc li h f fp cb vm gm fr dl :
  a <> 0 ->
  heap_from sy h a = c :: rest ->
  0 <= c < 128 -> c <> TAG_MACRO ->
  inp (mkState tk tkc tkl c0 vs rs lc gl sy a dc li h f fp cb vm gm fr dl) =
  Ok tt (mkState tk tkc tkl c vs rs lc gl sy (wrap32 (a + 1)) dc li h f fp cb vm gm fr dl).
Proof.
  intros Ha Hh Hc Hm. unfold inp. mrun.
  replace (a =? 0) with false by (symmetry; apply Z.eqb_neq; exact Ha).
  cbn [negb]. mrun. unfold heap_at. sproj. rewrite Hh.
  assert (char_of_byte c = c) as ->.
  { unfold char_of_byte. replace (c <? 128) with true; [reflexivity|].
    symmetry. apply Z.ltb_lt. lia. }
  replace (c =? TAG_MACRO) with false by (symmetry; apply Z.eqb_neq; exact Hm).
  sproj. reflexivity.
Qed.

Lemma isidc_char c : isidc c = true -> 0 <= c < 128 /\ c <> TAG_MACRO.
Proof. intros H. apply isidc_range in H. unfold TAG_MACRO. lia. Qed.

(** The identifier loop over a run of identifier characters replayed from
    the heap: it stops on the character [d] after them, unless the fuel is
    spent first. *)
Lemma ident_loop_heap w : forall c fuel k H r d tk tkc tkl vs rs lc gl sy dc li f fp cb vm gm fr dl,
  forallb isidc (c :: w) = true ->
  isidc d = false -> 0 <= d < 128 -> d <> TAG_MACRO ->
  (k + length w < length H)%nat ->
  drop k H = w ++ d :: drop (k + length w + 1) H ->
  0 < sy -> sy + Z.of_nat (length H) < 2147483647 ->
  let st := mkState tk tkc tkl c vs rs lc gl sy (sy + Z.of_nat k) dc li (H ++ r) f fp cb vm gm fr dl in
  while0 fuel isid (c <- get ch;; pdef c;; inp) st = OutOfFuel \/
  while0 fuel isid (c <- get ch;; pdef c;; inp) st =
  Ok tt (mkState tk tkc tkl d vs rs lc gl sy (sy + Z.of_nat (k + length w + 1)) dc li
           ((H ++ r) ++ c :: w) f fp cb vm gm fr dl).
Proof.
  induction w as [|c' w IH];
    intros c fuel k H r d tk tkc tkl vs rs lc gl sy dc li f fp cb vm gm fr dl
      Hw Hd Hd1 Hd2 Hk Hdrop Hsy Hr st; subst st.
  - destruct fuel as [|fuel].
    { left. unfold while0. rewrite while_unfold. rewrite isid_eq.
      cbn [forallb] in Hw. apply andb_true_iff in Hw as [-> _]. reflexivity. }
    right. unfold while0. rewrite while_unfold. rewrite isid_eq.
    cbn [forallb] in Hw. apply andb_true_iff in Hw as [Hc _]. rewrite Hc.
    cbv beta. mrun.
    rewrite (bind_run _ _ _ _ _ (pdef_eq _ _ _ _ _ _ _ _ _ _ _ _ _ _ _ _ _ _ _ _ _)).
    rewrite isidc_byte by exact Hc.
    cbn [length app] in *. rewrite Nat.add_0_r in *.
    erewrite bind_run;
      [|apply (inp_heap d (drop (k + 1) H ++ r ++ [c]));
        [lia | rewrite <- app_assoc, heap_from_app by lia; rewrite Hdrop; reflexivity
        | exact Hd1 | exact Hd2]].
    rewrite while_unfold, isid_eq, Hd.
    rewrite wrap32_small by lia.
    replace (sy + Z.of_nat k + 1) with (sy + Z.of_nat (k + 1)) by lia. reflexivity.
  - destruct fuel as [|fuel].
    { left. unfold while0. rewrite while_unfold. rewrite isid_eq.
      cbn [forallb] in Hw. apply andb_true_iff in Hw as [-> _]. reflexivity. }
    unfold while0. rewrite while_unfold. rewrite isid_eq.
    change (forallb isidc (c :: c' :: w)) with (isidc c && forallb isidc (c' :: w)) in Hw.
    apply andb_true_iff in Hw as [Hc Hw]. rewrite Hc.
    cbv beta. mrun.
    rewrite (bind_run _ _ _ _ _ (pdef_eq _ _ _ _ _ _ _ _ _ _ _ _ _ _ _ _ _ _ _ _ _)).
    rewrite isidc_byte by exact Hc.
    assert (Hc' : isidc c' = true).
    { cbn [forallb] in Hw. apply andb_true_iff in Hw. tauto. }
    cbn [length app] in *.
    erewrite bind_run;
      [|apply (inp_heap c' (w ++ d :: drop (k + S (length w) + 1) H ++ r ++ [c]));
        [lia | rewrite <- app_assoc, heap_from_app by lia; rewrite Hdrop;
               cbn [app]; rewrite <- ?app_assoc; reflexivity
        | apply isidc_char; exact Hc' | apply isidc_char; exact Hc']].
    rewrite wrap32_small by lia.
    replace (sy + Z.of_nat k + 1) with (sy + Z.of_nat (k + 1)) by lia.
    fold (while0 fuel isid (c <- get ch;; pdef c;; inp)).
    rewrite <- app_assoc.
    specialize (IH c' fuel (k + 1)%nat H (r ++ [c]) d tk tkc tkl vs rs lc gl sy dc li f fp cb vm gm fr dl
                  Hw Hd Hd1 Hd2 ltac:(lia)).
    replace (k + 1 + length w + 1)%nat with (k + S (length w) + 1)%nat in IH by lia.
    specialize (IH ltac:(rewrite <- drop_drop, Hdrop; reflexivity) Hsy Hr).
    cbv zeta in IH. destruct IH as [IH | IH]; [left; exact IH|].
    right. rewrite IH. rewrite <- !app_assoc. reflexivity.
Qed.

(** ** strstr on a heap that grows *)

Lemma is_prefix_short p : forall l x,
  (length p <= length l)%nat -> is_prefix p (l ++ x) = is_prefix p l.
Proof.
  induction p as [|a p IH]; intros l x Hl; [reflexivity|].
  destruct l as [|b l]; [cbn [length] in Hl; lia|].
  cbn [is_prefix app]. rewrite IH; [reflexivity|]. cbn [length] in Hl. lia.
Qed.

Lemma is_prefix_length p : forall l,
  is_prefix p l = true -> (length p <= length l)%nat.
Proof.
  induction p as [|a p IH]; intros l H; cbn [length]; [lia|].
  destruct l as [|b l]; [discriminate|]. cbn [is_prefix] in H.
  apply andb_true_iff in H as [_ H]. apply IH in H. cbn [length]. lia.
Qed.

Lemma strstr_length hay : forall n i,
  strstr hay n = Some i -> (length n <= length hay)%nat.
Proof.
  induction hay as [|c hay IH]; intros n i H; cbn [strstr] in H.
  - destruct (is_prefix n []) eqn:E; [|discriminate]. apply is_prefix_length. exact E.
  - destruct (is_prefix n (c :: hay)) eqn:E; [apply is_prefix_length; exact E|].
    destruct (strstr hay n) as [j|] eqn:Ej; [|discriminate].
    apply IH in Ej. cbn [length]. lia.
Qed.

Lemma strstr_app hay : forall n i x,
  strstr hay n = Some i -> strstr (hay ++ x) n = Some i.
Proof.
  induction hay as [|c hay IH]; intros n i x H.
  - cbn [strstr] in H. destruct (is_prefix n []) eqn:E; [|discriminate].
    destruct n; [|discriminate]. destruct x; exact H.
  - pose proof (strstr_length _ _ _ H) as Hlen.
    cbn [strstr app] in *.
    change (c :: hay ++ x) with ((c :: hay) ++ x).
    rewrite is_prefix_short by exact Hlen.
    destruct (is_prefix n (c :: hay)); [exact H|].
    destruct (strstr hay n) as [j|] eqn:Ej; [|discriminate].
    rewrite (IH n j x Ej). exact H.
Qed.

Lemma cstr_app H x : exists y, cstr (H ++ x) = cstr H ++ y.
Proof.
  induction H as [|c H [y IH]]; [exists (cstr x); reflexivity|].
  cbn [cstr app]. destruct (c =? 0); [exists []; reflexivity|].
  exists y. rewrite IH. reflexivity.
Qed.

Lemma strstr_cstr_app H x n i :
  strstr (cstr H) n = Some i -> strstr (cstr (H ++ x)) n = Some i.
Proof.
  intros E. destruct (cstr_app H x) as [y ->]. apply strstr_app. exact E.
Qed.

Lemma while0_once fuel cond body st st2 :
  cond st = true -> body st = Ok tt st2 -> cond st2 = false ->
  while0 (S fuel) cond body st = Ok tt st2.
Proof.
  intros H1 H2 H3. unfold while0. rewrite while_unfold, H1. cbv beta.
  rewrite (bind_run _ _ _ _ _ H2). rewrite while_unfold, H3. reflexivity.
Qed.

Lemma while0_O_true cond body st :
  cond st = true -> while0 O cond body st = OutOfFuel.
Proof. intros H. unfold while0. rewrite while_unfold, H. reflexivity. Qed.

(** ** A macro whose body is its own name *)

Section SelfMacro.
(** The name is [c0 :: w]; the heap starts with [Hpre], in which the name
    is found at offset [i], followed by the captured line of the
    definition, a space, the name and the newline. *)
Variables (c0 : Z) (w Hpre Hpost : list Z) (i : Z).
Variables (vs sy : Z) (vm : mem).

Let name := c0 :: w.
Let H := Hpre ++ 32 :: name ++ 10 :: Hpost.
Let b := sy + Z.of_nat (length Hpre).
Let t := wrap32 (wrap32 (wrap32 i * 8) + TOK_IDENT).

Hypothesis Hname : forallb isidc name = true.
Hypothesis Hdigit : isdigit c0 = false.
Hypothesis Hfind : strstr (cstr H) (TAG_TOK :: name ++ [TAG_TOK]) = Some i.
Hypothesis Hvar : (TOK_DEFINE <? t) = true.
Hypothesis Hdef : load32 vm (wrap32 (vs + t)) = SYM_DEFINE.
Hypothesis Hbody : load32 vm (wrap32 (wrap32 (vs + t) + 4)) = b.
Hypothesis Hsy : 0 < sy.

Lemma H_length : length H = (length Hpre + length w + 3 + length Hpost)%nat.
Proof. unfold H, name. rewrite length_app. cbn [length]. rewrite length_app. cbn [length]. lia. Qed.

Lemma drop_body k :
  (k <= length w + 2)%nat ->
  drop (length Hpre + k) H = drop k (32 :: name ++ 10 :: Hpost).
Proof.
  intros Hk. unfold H. rewrite drop_app_ge by lia.
  f_equal. lia.
Qed.

Lemma drop_post : drop (length Hpre + 2 + length w + 1) H = Hpost.
Proof.
  unfold H, name. rewrite drop_app_ge by lia.
  replace (length Hpre + 2 + length w + 1 - length Hpre)%nat
    with (S (S (length w + 1))) by lia.
  cbn [drop app]. rewrite drop_app_ge by lia.
  replace (length w + 1 - length w)%nat with 1%nat by lia. reflexivity.
Qed.

Lemma replay_diverges fuel : forall r tk tkc tkl rs lc gl dc li f fp cb gm fr dl,
  sy + Z.of_nat (length (H ++ r)) + Z.of_nat ((length w + 2) * fuel) + 2 < 2147483648 ->
  next fuel (replaying c0 w Hpre Hpost vs sy vm r tk tkc tkl rs lc gl dc li f fp cb gm fr dl)
  = OutOfFuel.
Proof.
  induction fuel as [|fuel IH]; intros r tk tkc tkl rs lc gl dc li f fp cb gm fr dl Hr;
    [reflexivity|].
  change (Hpre ++ 32 :: (c0 :: w) ++ 10 :: Hpost) with H in Hr.
  pose proof H_length as HL.
  assert (Hc0 : isidc c0 = true).
  { unfold name in Hname. cbn [forallb] in Hname. apply andb_true_iff in Hname. tauto. }
  rewrite length_app in Hr.
  cbn [next]. unfold next_body, replaying.
  change (Hpre ++ 32 :: (c0 :: w) ++ 10 :: Hpost) with H.
  change (sy + Z.of_nat (length Hpre)) with b.
  destruct fuel as [|fuel].
  { apply bind_timeout. apply while0_O_true. reflexivity. }
  match goal with
  | |- context [bind (while0 ?f ?cd ?bd) ?k ?st] =>
      erewrite (bind_run (while0 f cd bd) k st tt);
        [|apply while0_once; [reflexivity| |]]
  end.
  2: { mrun. change (32 =? 35) with false. sproj. mrun.
       apply (inp_heap c0 (w ++ 10 :: Hpost ++ r)); [lia| |apply isidc_char; exact Hc0..].
       unfold b. replace (sy + Z.of_nat (length Hpre) + 1)
         with (sy + Z.of_nat (length Hpre + 1)) by lia.
       rewrite heap_from_app by lia. rewrite drop_body by lia.
       unfold name. cbn [drop app]. rewrite <- app_assoc. reflexivity. }
  2: { cbn [ch]. apply isidc_not_space. exact Hc0. }
  mrun. rewrite isid_eq, Hc0.
  rewrite (bind_run _ _ _ _ _ (pdef_eq _ _ _ _ _ _ _ _ _ _ _ _ _ _ _ _ _ _ _ _ _)).
  mrun. unfold dstk at 1. sproj.
  change (byte_of TAG_TOK) with TAG_TOK.
  rewrite wrap32_small by lia.
  replace (b + 1 + 1) with (sy + Z.of_nat (length Hpre + 2)) by (unfold b; lia).
  rewrite <- app_assoc.
  destruct (ident_loop_heap w c0 (S fuel) (length Hpre + 2) H (r ++ [TAG_TOK]) 10
              c0 tkc 0 vs rs lc gl sy dc
              (wrap32 (sy + Z.of_nat (length (H ++ r ++ [TAG_TOK]))))
              f fp cb vm gm fr dl Hname eq_refl ltac:(lia) ltac:(unfold TAG_MACRO; lia)
              ltac:(lia)) as [E | E].
  { rewrite drop_post, drop_body by lia. unfold name. reflexivity. }
  { exact Hsy. }
  { lia. }
  { apply bind_timeout. exact E. }
  rewrite (bind_run _ _ _ _ _ E). clear E.
  mrun. rewrite Hdigit. mrun.
  rewrite <- !app_assoc. cbn [app].
  pose proof (needle_eq sy (H ++ r) name ltac:(lia) ltac:(rewrite length_app; lia) Hname) as Hn.
  unfold name in Hn. cbn [app] in Hn.
  rewrite <- ?app_assoc in Hn. rewrite ?length_app in *. cbn [length] in *.
  rewrite <- ?app_assoc in Hn. rewrite Hn. clear Hn.
  rewrite (strstr_cstr_app H _ _ i Hfind). fold t. rewrite Hvar. sproj.
  mrun. unfold peek_var. mrun. rewrite Hdef. change (SYM_DEFINE =? SYM_DEFINE) with true.
  sproj. mrun. rewrite Hbody.
  erewrite bind_run;
    [|apply (inp_heap 32 (name ++ 10 :: Hpost ++ r ++ TAG_TOK :: c0 :: w));
      [unfold b; lia| |lia|unfold TAG_MACRO; lia]].
  2: { unfold b. rewrite heap_from_app by lia.
       replace (length Hpre) with (length Hpre + 0)%nat at 1 by lia.
       rewrite drop_body by lia. cbn [drop app]. rewrite <- !app_assoc. reflexivity. }
  rewrite (wrap32_small (b + 1)) by (unfold b; lia).
  apply (IH (r ++ TAG_TOK :: c0 :: w)).
  rewrite !length_app. cbn [length]. lia.
Qed.
End SelfMacro.

(** ** Fuel: a finished run does not depend on it *)

Lemma approx_refl {A} (m : M A) : approx m m.
Proof. intros st. right. reflexivity. Qed.

Lemma approx_timeout {A} (m : M A) : approx timeout m.
Proof. intros st. left. reflexivity. Qed.

Lemma approx_trans {A} (m1 m2 m3 : M A) : approx m1 m2 -> approx m2 m3 -> approx m1 m3.
Proof.
  intros H1 H2 st. destruct (H1 st) as [E|E]; [left; exact E|].
  rewrite E. apply H2.
Qed.

Lemma approx_bind {A B} (m m' : M A) (k k' : A -> M B) :
  approx m m' -> (forall x, approx (k x) (k' x)) -> approx (bind m k) (bind m' k').
Proof.
  intros Hm Hk st. unfold bind. destruct (Hm st) as [E|E].
  - left. rewrite E. reflexivity.
  - rewrite <- E. destruct (m st); auto. apply Hk.
Qed.

Lemma approx_when b (m m' : M unit) : approx m m' -> approx (when b m) (when b m').
Proof. intros H. destruct b; [exact H | apply approx_refl]. Qed.

Lemma approx_while {A} (cond : A -> state -> bool) body body' :
  (forall a, approx (body a) (body' a)) ->
  forall fuel fuel' a, (fuel <= fuel')%nat ->
  approx (while_ fuel cond body a) (while_ fuel' cond body' a).
Proof.
  intros Hb. induction fuel as [|fuel IH]; intros fuel' a Hle st;
    rewrite !while_unfold; destruct (cond a st); auto.
  destruct fuel' as [|fuel']; [lia|].
  apply (approx_bind _ _ _ _ (Hb a)). intros x. apply IH. lia.
Qed.

Lemma approx_while0 cond body body' fuel fuel' :
  approx body body' -> (fuel <= fuel')%nat ->
  approx (while0 fuel cond body) (while0 fuel' cond body').
Proof. intros Hb Hle. apply approx_while; [intros _; exact Hb | exact Hle]. Qed.

Create HintDb approx.

Ltac approx_step :=
  match goal with
  | |- approx ?m ?m => apply approx_refl
  | |- approx timeout _ => apply approx_timeout
  | |- approx (bind _ _) (bind _ _) => apply approx_bind; [ | intros ?]
  | |- approx (when _ _) (when _ _) => apply approx_when
  | |- approx (while_ _ _ _ _) (while_ _ _ _ _) => apply approx_while; [intros ? | lia]
  | |- approx (while0 _ _ _) (while0 _ _ _) => apply approx_while0; [ | lia]
  | |- approx (if ?b then _ else _) (if ?b then _ else _) => destruct b
  | |- approx (match ?x with _ => _ end) (match ?x with _ => _ end) => destruct x
  | |- approx _ _ => eassumption
  | |- approx _ _ => solve [eauto with approx]
  end.

Lemma next_mono fuel : approx (next fuel) (next (S fuel)).
Proof.
  induction fuel as [|fuel IH]; [apply approx_timeout|].
  cbn [next] in *. unfold next_body. repeat approx_step.
Qed.
#[global] Hint Resolve next_mono : approx.

Lemma next_diverges_le n m st :
  (n <= m)%nat -> next m st = OutOfFuel -> next n st = OutOfFuel.
Proof.
  induction 1 as [|m Hle IH]; [auto|]. intros H. apply IH.
  destruct (next_mono m st) as [E|E]; [exact E | congruence].
Qed.

Lemma next_finished n m st :
  (n <= m)%nat -> next n st <> OutOfFuel -> next m st = next n st.
Proof.
  induction 1 as [|m Hle IH]; [auto|]. intros H.
  destruct (next_mono m st) as [E|E].
  - rewrite IH in E by exact H. contradiction.
  - rewrite <- E. apply IH. exact H.
Qed.

Lemma skip_mono fuel c : approx (skip fuel c) (skip (S fuel) c).
Proof. unfold skip. repeat approx_step. Qed.
#[global] Hint Resolve skip_mono : approx.

Lemma codebuf_gsym_mono fuel : forall t cb,
  CodeBuf.gsym fuel t cb = None \/ CodeBuf.gsym fuel t cb = CodeBuf.gsym (S fuel) t cb.
Proof.
  induction fuel as [|fuel IH]; intros t cb.
  - cbn [CodeBuf.gsym]. destruct (t =? 0); auto.
  - change (CodeBuf.gsym (S fuel) t cb) with
      (if t =? 0 then Some cb else
         let '(n, cb') := CodeBuf.gsym_step t cb in CodeBuf.gsym fuel n cb').
    change (CodeBuf.gsym (S (S fuel)) t cb) with
      (if t =? 0 then Some cb else
         let '(n, cb') := CodeBuf.gsym_step t cb in CodeBuf.gsym (S fuel) n cb').
    destruct (t =? 0); auto. destruct (CodeBuf.gsym_step t cb) as [n cb']. apply IH.
Qed.

Lemma gsym_mono fuel t : approx (gsym fuel t) (gsym (S fuel) t).
Proof.
  intros st. unfold gsym. destruct (codebuf_gsym_mono fuel t (codeBuf st)) as [E|E].
  - left. rewrite E. reflexivity.
  - right. rewrite E. reflexivity.
Qed.
#[global] Hint Resolve gsym_mono : approx.

Lemma unary_sum_mono fuel :
  (forall l, approx (unary fuel l) (unary (S fuel) l)) /\
  (forall l, approx (sum fuel l) (sum (S fuel) l)).
Proof.
  induction fuel as [|fuel [IHu IHs]]; [split; intros; apply approx_timeout|].
  split; intros l.
  - change (approx (unary_body fuel (unary fuel) (sum fuel 11) l)
                   (unary_body (S fuel) (unary (S fuel)) (sum (S fuel) 11) l)).
    unfold unary_body. repeat approx_step.
  - change (approx (sum_body fuel (unary fuel) (sum fuel) l)
                   (sum_body (S fuel) (unary (S fuel)) (sum (S fuel)) l)).
    unfold sum_body. repeat approx_step.
Qed.

Lemma expr_mono fuel : approx (expr fuel) (expr (S fuel)).
Proof. apply unary_sum_mono. Qed.
#[global] Hint Resolve expr_mono : approx.

Lemma test_expr_mono fuel : approx (test_expr fuel) (test_expr (S fuel)).
Proof. unfold test_expr. repeat approx_step. Qed.
#[global] Hint Resolve test_expr_mono : approx.

Lemma block_decl_mono fuel :
  (forall l, approx (block fuel l) (block (S fuel) l)) /\
  (forall l, approx (decl fuel l) (decl (S fuel) l)).
Proof.
  induction fuel as [|fuel [IHb IHd]]; [split; intros; apply approx_timeout|].
  split; intros l.
  - change (approx (block_body fuel (block fuel) (decl fuel) l)
                   (block_body (S fuel) (block (S fuel)) (decl (S fuel)) l)).
    unfold block_body. repeat approx_step.
  - change (approx (decl_body fuel (block fuel) l)
                   (decl_body (S fuel) (block (S fuel)) l)).
    unfold decl_body. repeat approx_step.
Qed.

Lemma compile_mono fuel h input :
  compile fuel h input = OutOfFuel \/
  compile (S fuel) h input = compile fuel h input.
Proof.
  unfold compile.
  assert (H : approx (inp;; next fuel;; decl fuel 0;; (ret 0 : M Z))
                     (inp;; next (S fuel);; decl (S fuel) 0;; ret 0)).
  { pose proof (proj2 (block_decl_mono fuel) 0). repeat approx_step. }
  destruct (H (compile_init h input)) as [E|E]; [left; exact E | right; symmetry; exact E].
Qed.

(** ** The lexer on a use of such a macro *)

Lemma self_macro_diverges st c0 w Hpre Hpost f i fuel :
  self_macro_use st c0 w Hpre Hpost f i ->
  sym_stk st + Z.of_nat (length (heap st))
  + Z.of_nat ((length w + 2) * (fuel + length w + 3)) < 2147483648 ->
  next fuel st = OutOfFuel.
Proof.
  intros (Hname & Hdig & Hfind & Hvar & Hdef & Hbody & Hsy & Hpre_ & Hdp & Hch & Hfile & Hf) Hr.
  destruct st as [tk tkc tkl c vs rs lc gl sy dp dc li h fl fp cb vm gm fr dl].
  cbn [dptr ch file heap sym_stk varmem vars] in *. subst dp c fl.
  apply is_prefix_app in Hpre_ as [r ->].
  apply (next_diverges_le fuel (S (fuel + length w + 1))); [lia|].
  rewrite next_ident; [|exact Hname|exact Hdig|exact Hf|lia|lia|lia].
  cbv zeta.
  pose proof (strstr_cstr_app _ (r ++ TAG_TOK :: c0 :: w ++ [TAG_TOK]) _ i Hfind) as Hf2.
  cbn [app] in *. rewrite <- (app_assoc _ r). rewrite Hf2.
  rewrite Hvar, Hdef. change (SYM_DEFINE =? SYM_DEFINE) with true. cbv iota.
  rewrite Hbody.
  rewrite !length_app in Hr. cbn [length] in Hr. rewrite !length_app in Hr. cbn [length] in Hr.
  erewrite bind_run;
    [|apply (inp_heap 32 (c0 :: w ++ 10 :: Hpost ++ r ++ TAG_TOK :: c0 :: w));
      [lia| |lia|unfold TAG_MACRO; lia]].
  2: { rewrite <- ?app_assoc. cbn [app]. rewrite <- ?app_assoc.
       rewrite heap_from_app by lia. rewrite drop_all. reflexivity. }
  rewrite (wrap32_small (sy + Z.of_nat (length Hpre) + 1)) by lia.
  rewrite <- (app_assoc _ r (TAG_TOK :: c0 :: w)).
  apply (replay_diverges c0 w Hpre Hpost i vs sy vm Hname Hdig Hfind Hvar Hdef Hbody Hsy).
  rewrite !length_app. cbn [length]. rewrite !length_app. cbn [length]. lia.
Qed.

(** ** What the parsers leave alone *)

#[global] Instance R_code_preorder : PreOrder R_code.
Proof.
  split.
  - intros st. unfold R_code. split; [lia | reflexivity].
  - intros a b c [H1 H2] [H3 H4]. unfold R_code. split; [lia | congruence].
Qed.

#[global] Instance R_expr_preorder : PreOrder R_expr.
Proof.
  split.
  - intros st. unfold R_expr. split; [reflexivity | tauto].
  - intros a b c (H1 & H2 & H3 & H4) (H5 & H6 & H7 & H8). unfold R_expr.
    split; [etransitivity; eauto | split; [|split]; congruence].
Qed.

Lemma R_lex_expr a b : R_lex a b -> R_expr a b.
Proof.
  unfold R_lex, R_expr, R_code. intros (H1 & H2 & H3 & H4 & _).
  rewrite H1. repeat split; auto; lia.
Qed.

Lemma R_expr_code a b : R_expr a b -> R_code a b.
Proof. unfold R_expr. tauto. Qed.

Ltac leaf_expr :=
  unfold R_expr, R_code; sst; repeat split; try reflexivity; try lia.

Lemma respects_expr_next fuel : respects R_expr (next fuel).
Proof. eapply respects_weaken; [apply R_lex_expr | apply respects_lex_next]. Qed.
#[global] Hint Resolve respects_expr_next : respects.

Lemma respects_expr_skip fuel c : respects R_expr (skip fuel c).
Proof. eapply respects_weaken; [apply R_lex_expr | apply respects_lex_skip]. Qed.
#[global] Hint Resolve respects_expr_skip : respects.

Lemma respects_expr_inp : respects R_expr inp.
Proof. eapply respects_weaken; [apply R_lex_expr | apply respects_lex_inp]. Qed.
#[global] Hint Resolve respects_expr_inp : respects.

Lemma respects_expr_getq : respects R_expr getq.
Proof. eapply respects_weaken; [apply R_lex_expr | apply respects_lex_getq]. Qed.
#[global] Hint Resolve respects_expr_getq : respects.

Lemma respects_expr_peek_var a : respects R_expr (peek_var a).
Proof. eapply respects_weaken; [apply R_lex_expr | apply respects_lex_peek_var]. Qed.
#[global] Hint Resolve respects_expr_peek_var : respects.

Lemma respects_expr_poke_var a v : respects R_expr (poke_var a v).
Proof. eapply respects_weaken; [apply R_lex_expr | apply respects_lex_poke_var]. Qed.
#[global] Hint Resolve respects_expr_poke_var : respects.

Lemma respects_expr_o n : respects R_expr (o n).
Proof.
  intros st x st' H. inversion H; subst. leaf_expr.
  - apply o_ind.
  - apply o_base.
Qed.
#[global] Hint Resolve respects_expr_o : respects.

Lemma respects_expr_ob n : respects R_expr (ob n).
Proof. intros st x st' H. inversion H; subst. unfold CodeBuf.ob. leaf_expr. Qed.
#[global] Hint Resolve respects_expr_ob : respects.

Lemma respects_expr_oad n t : respects R_expr (oad n t).
Proof.
  intros st x st' H. unfold oad, CodeBuf.oad in H. inversion H; subst. leaf_expr.
  - pose proof (o_ind n (codeBuf st)). lia.
  - apply o_base.
Qed.
#[global] Hint Resolve respects_expr_oad : respects.

Lemma respects_expr_poke_code a v : respects R_expr (poke_code a v).
Proof. intros st x st' H. inversion H; subst. leaf_expr. Qed.
#[global] Hint Resolve respects_expr_poke_code : respects.

Lemma respects_expr_getPC : respects R_expr getPC.
Proof. intros st x st' H. inversion H; subst. leaf_expr. Qed.
#[global] Hint Resolve respects_expr_getPC : respects.

Lemma codebuf_gsym_ind fuel : forall t cb cb',
  CodeBuf.gsym fuel t cb = Some cb' ->
  CodeBuf.ind cb' = CodeBuf.ind cb /\
  CodeBuf.pProgramBase cb' = CodeBuf.pProgramBase cb.
Proof.
  induction fuel as [|fuel IH]; intros t cb cb' H; cbn [CodeBuf.gsym] in H;
    destruct (t =? 0); try discriminate; try (inversion H; subst; tauto).
  unfold CodeBuf.gsym_step in H. apply IH in H. cbn [CodeBuf.ind CodeBuf.pProgramBase] in H.
  exact H.
Qed.

Lemma respects_expr_gsym fuel t : respects R_expr (gsym fuel t).
Proof.
  intros st x st' H. unfold gsym in H.
  destruct (CodeBuf.gsym fuel t (codeBuf st)) as [cb'|] eqn:E; [|discriminate].
  inversion H; subst. apply codebuf_gsym_ind in E as [E1 E2]. leaf_expr.
Qed.
#[global] Hint Resolve respects_expr_gsym : respects.

Ltac unfold_x86 :=
  repeat progress unfold li, gjmp, gtst, gcmp, clearEXC, storeEAXIntoPoppedLVal,
    loadEAXIndirect, leaEAX, compiler_oad, test_expr, expr,
    X86CodeGenerator.li, X86CodeGenerator.gjmp, X86CodeGenerator.gtst,
    X86CodeGenerator.gcmp, X86CodeGenerator.clearECX,
    X86CodeGenerator.pushEAX, X86CodeGenerator.storeEAXIntoPoppedLVal,
    X86CodeGenerator.loadEAXIndirect, X86CodeGenerator.leaEAX,
    X86CodeGenerator.storeEAX, X86CodeGenerator.loadEAX,
    X86CodeGenerator.puzzleAdd, X86CodeGenerator.gmov,
    X86CodeGenerator.allocStackSpaceForArgs, X86CodeGenerator.storeEAToArg,
    X86CodeGenerator.callForward, X86CodeGenerator.callRelative,
    X86CodeGenerator.callIndirect, X86CodeGenerator.adjustStackAfterCall,
    X86CodeGenerator.oHack, X86CodeGenerator.oadHack, psym.

Lemma respects_expr_unary_sum fuel :
  (forall l, respects R_expr (unary fuel l)) /\
  (forall l, respects R_expr (sum fuel l)).
Proof.
  induction fuel as [|fuel [IHu IHs]]; (split; intros l); cbn [unary sum];
    try apply respects_timeout.
  - unfold unary_body. unfold_x86. repeat respects_step leaf_expr.
  - unfold sum_body. unfold_x86. repeat respects_step leaf_expr.
Qed.

Lemma respects_expr_sum fuel l : respects R_expr (sum fuel l).
Proof. apply respects_expr_unary_sum. Qed.
#[global] Hint Resolve respects_expr_sum : respects.

Lemma respects_expr_unary fuel l : respects R_expr (unary fuel l).
Proof. apply respects_expr_unary_sum. Qed.
#[global] Hint Resolve respects_expr_unary : respects.

Lemma respects_expr_expr fuel : respects R_expr (expr fuel).
Proof. apply respects_expr_unary_sum. Qed.
#[global] Hint Resolve respects_expr_expr : respects.

(** ** Emitted code stays as it is *)

Lemma R_expr_ind a b : R_expr a b -> ind_of a <= ind_of b.
Proof. unfold R_expr, R_code. tauto. Qed.

#[global] Instance R_above_preorder b : PreOrder (R_above b).
Proof.
  split.
  - intros st. split; [reflexivity | auto].
  - intros s1 s2 s3 [E1 F1] [E2 F2]. split; [etransitivity; eauto|].
    intros Hb Hbd x Hx. pose proof (R_expr_ind _ _ E2) as Hi.
    rewrite F2, F1 by (unfold bounded in *; auto; lia). reflexivity.
Qed.

#[global] Instance R_good_preorder : PreOrder R_good.
Proof.
  split.
  - intros st. unfold R_good. reflexivity.
  - intros s1 s2 s3 [E1 F1] [E2 F2]. split; [etransitivity; eauto|].
    intros Hb Hbd x Hx.
    pose proof (R_expr_ind _ _ E1) as Hi1. pose proof (R_expr_ind _ _ E2) as Hi2.
    rewrite F2, F1 by (unfold bounded in *; auto; lia). reflexivity.
Qed.

Lemma R_good_above b s s' : R_good s s' -> b <= ind_of s -> R_above b s s'.
Proof.
  intros [E F] Hb. split; [exact E|]. intros H0 Hbd x Hx. apply F; auto; lia.
Qed.

Lemma R_above_weaken b b' s s' : R_above b s s' -> b' <= b -> R_above b' s s'.
Proof.
  intros [E F] Hb. split; [exact E|]. intros H0 Hbd x Hx. apply F; auto; lia.
Qed.

Lemma R_lex_good a b : R_lex a b -> R_good a b.
Proof.
  intros H. split; [apply R_lex_expr; exact H|].
  destruct H as (H & _). intros _ _ x _. rewrite H. reflexivity.
Qed.

Lemma respects_good_next fuel : respects R_good (next fuel).
Proof. eapply respects_weaken; [apply R_lex_good | apply respects_lex_next]. Qed.
#[global] Hint Resolve respects_good_next : respects.

Lemma respects_good_skip fuel c : respects R_good (skip fuel c).
Proof. eapply respects_weaken; [apply R_lex_good | apply respects_lex_skip]. Qed.
#[global] Hint Resolve respects_good_skip : respects.

Lemma respects_good_inp : respects R_good inp.
Proof. eapply respects_weaken; [apply R_lex_good | apply respects_lex_inp]. Qed.
#[global] Hint Resolve respects_good_inp : respects.

Lemma respects_good_getq : respects R_good getq.
Proof. eapply respects_weaken; [apply R_lex_good | apply respects_lex_getq]. Qed.
#[global] Hint Resolve respects_good_getq : respects.

Lemma respects_good_peek_var a : respects R_good (peek_var a).
Proof. eapply respects_weaken; [apply R_lex_good | apply respects_lex_peek_var]. Qed.
#[global] Hint Resolve respects_good_peek_var : respects.

Lemma respects_good_poke_var a v : respects R_good (poke_var a v).
Proof. eapply respects_weaken; [apply R_lex_good | apply respects_lex_poke_var]. Qed.
#[global] Hint Resolve respects_good_poke_var : respects.

Lemma respects_good_o n : respects R_good (o n).
Proof.
  intros st x st' H. split; [eapply respects_expr_o; exact H|].
  inversion H; subst. sst. intros _ _ a Ha. apply o_bytes. lia.
Qed.
#[global] Hint Resolve respects_good_o : respects.

Lemma respects_good_ob n : respects R_good (ob n).
Proof.
  intros st x st' H. split; [eapply respects_expr_ob; exact H|].
  inversion H; subst. unfold CodeBuf.ob. sst. intros _ _ a Ha.
  apply load8_store8_ne. lia.
Qed.
#[global] Hint Resolve respects_good_ob : respects.

Lemma respects_good_oad n t : respects R_good (oad n t).
Proof.
  intros st x st' H. split; [eapply respects_expr_oad; exact H|].
  unfold oad, CodeBuf.oad in H. inversion H; subst. sst. intros _ _ a Ha.
  pose proof (o_ind n (codeBuf st)).
  rewrite load8_store32_out by lia. apply o_bytes. lia.
Qed.
#[global] Hint Resolve respects_good_oad : respects.

Lemma respects_good_getPC : respects R_good getPC.
Proof. intros st x st' H. inversion H; subst. reflexivity. Qed.
#[global] Hint Resolve respects_good_getPC : respects.

Ltac leaf_good :=
  unfold R_good, R_above; split; [leaf_expr | sst; intros; reflexivity].

(** What [oad] returns and leaves behind. *)
Lemma oad_site n t st a st' :
  oad n t st = Ok a st' ->
  exists i, a = wrap32 i /\ ind_of st <= i <= ind_of st + 4 /\
            ind_of st' = i + 4 /\
            load32 (code_of st') i = wrap32 t /\
            (forall x, x < ind_of st \/ i + 4 <= x ->
                       load8 (code_of st') x = load8 (code_of st) x) /\
            (forall x, ind_of st <= x < i ->
                       load8 (code_of st') x = load8 (CodeBuf.bytes (CodeBuf.o n (codeBuf st))) x).
Proof.
  intros H. unfold oad, CodeBuf.oad, CodeBuf.getPC in H. inversion H; subst. sst.
  exists (CodeBuf.ind (CodeBuf.o n (codeBuf st))).
  pose proof (o_ind n (codeBuf st)) as Ho.
  repeat split; try lia.
  - apply load32_store32.
  - intros x Hx. rewrite load8_store32_out by lia. apply o_bytes. lia.
  - intros x Hx. apply load8_store32_out. lia.
Qed.

Lemma poke_above b a v st st' :
  poke_code a v st = Ok tt st' ->
  (bounded st -> b <= a) ->
  R_above b st st'.
Proof.
  intros H Ha. inversion H; subst. split; [leaf_expr|].
  sst. intros H0 Hbd x Hx. apply load8_store32_out. specialize (Ha Hbd). lia.
Qed.

(** ** The operator level and code of the current token *)

#[global] Instance R_tc_preorder : PreOrder R_tc.
Proof.
  split.
  - intros st. split; reflexivity.
  - intros a b c [H1 H2] [H3 H4]. split; congruence.
Qed.

#[global] Instance R_tl_preorder : PreOrder R_tl.
Proof.
  split.
  - intros st. reflexivity.
  - intros a b c H1 H2. unfold R_tl in *. congruence.
Qed.

#[global] Instance R_ok_preorder : PreOrder R_ok.
Proof.
  split.
  - intros st H. exact H.
  - intros a b c H1 H2 H. auto.
Qed.

Lemma R_tc_tl a b : R_tc a b -> R_tl a b.
Proof. intros [H _]. exact H. Qed.

Lemma R_tc_ok a b : R_tc a b -> R_ok a b.
Proof. intros [H1 H2] H. unfold tok_ok in *. rewrite H1, H2. exact H. Qed.

Lemma tokl_0_ok st : tokl st = 0 -> tok_ok st.
Proof. intros H. unfold tok_ok, pair_ok. cbn [fst snd]. rewrite H. reflexivity. Qed.

Ltac leaf_tc := unfold R_tc; sst; split; reflexivity.

Lemma respects_tc_fgetc : respects R_tc fgetc.
Proof.
  intros st x st' H. unfold fgetc in H. destruct (file st); inversion H; subst; sst; leaf_tc.
Qed.
#[global] Hint Resolve respects_tc_fgetc : respects.

Lemma respects_tc_inp : respects R_tc inp.
Proof. unfold inp. repeat respects_step leaf_tc. Qed.
#[global] Hint Resolve respects_tc_inp : respects.

Lemma respects_tc_pdef c : respects R_tc (pdef c).
Proof. unfold pdef. repeat respects_step leaf_tc. Qed.
#[global] Hint Resolve respects_tc_pdef : respects.

Lemma respects_tc_getq : respects R_tc getq.
Proof. unfold getq. repeat respects_step leaf_tc. Qed.
#[global] Hint Resolve respects_tc_getq : respects.

Lemma respects_tc_poke_var a v : respects R_tc (poke_var a v).
Proof. unfold poke_var. repeat respects_step leaf_tc. Qed.
#[global] Hint Resolve respects_tc_poke_var : respects.

Lemma respects_tc_peek_var a : respects R_tc (peek_var a).
Proof. unfold peek_var. repeat respects_step leaf_tc. Qed.
#[global] Hint Resolve respects_tc_peek_var : respects.

Lemma op_scan_pairs fuel : forall t tk c tc tl m tc' tl',
  op_scan fuel t tk c tc tl = (m, tc', tl') ->
  In (tc', tl') (scan_pairs fuel t tc tl).
Proof.
  induction fuel as [|fuel IH]; intros t tk c tc tl m tc' tl' H;
    cbn [op_scan scan_pairs] in *.
  - inversion H; subst. left. reflexivity.
  - destruct t as [|l [|a t']]; try (inversion H; subst; left; reflexivity).
    destruct (op_code t' 0) as [[tc1 tl1] rest].
    destruct ((l =? tk) && ((a =? c) || (a =? 64))).
    + inversion H; subst. left. reflexivity.
    + right. eapply IH. exact H.
Qed.

Lemma optable_pairs tc tl :
  forallb pair_ok (scan_pairs (length optable_bytes) optable_bytes tc tl) = true.
Proof. vm_compute. reflexivity. Qed.

Lemma op_scan_ok tk c tc tl m tc' tl' :
  op_scan (length optable_bytes) optable_bytes tk c tc tl = (m, tc', tl') ->
  pair_ok (tc', tl') = true.
Proof.
  intros H. apply op_scan_pairs in H.
  pose proof (optable_pairs tc tl) as Hp. rewrite forallb_forall in Hp.
  apply Hp. exact H.
Qed.

Lemma post_bind {A B} Q (m : M A) (k : A -> M B) :
  (forall x, post Q (k x)) -> post Q (bind m k).
Proof.
  intros Hk st x st' H. apply bind_Ok in H as (y & s1 & _ & H). eapply Hk. exact H.
Qed.

Lemma post_from_bind {A B} (R : relation state) P Q (m : M A) (k : A -> M B) :
  respects R m -> (forall a b, R a b -> P a -> P b) ->
  (forall x, post_from P Q (k x)) -> post_from P Q (bind m k).
Proof.
  intros Hm HR Hk st x st' H HP. apply bind_Ok in H as (y & s1 & H1 & H).
  eapply Hk; [exact H|]. eapply HR; [|exact HP]. eapply Hm. exact H1.
Qed.

Lemma post_post_from {A} P Q (m : M A) : post Q m -> post_from P Q m.
Proof. intros H st x st' E _. eapply H. exact E. Qed.

Lemma respects_post_from {A} (R : relation state) (P Q : state -> Prop) (m : M A) :
  respects R m -> (forall a b, R a b -> P a -> Q b) -> post_from P Q m.
Proof. intros Hm HR st x st' H HP. eapply HR; [|exact HP]. eapply Hm. exact H. Qed.

Lemma R_tl_zero a b : R_tl a b -> tokl a = 0 -> tokl b = 0.
Proof. unfold R_tl. congruence. Qed.

Lemma R_tl_zero_ok a b : R_tl a b -> tokl a = 0 -> tok_ok b.
Proof. intros H H0. apply tokl_0_ok. eapply R_tl_zero; eauto. Qed.

Ltac leaf_tl := unfold R_tl; sst; reflexivity.

Lemma respects_tl_inp : respects R_tl inp.
Proof. eapply respects_weaken; [apply R_tc_tl | apply respects_tc_inp]. Qed.
#[global] Hint Resolve respects_tl_inp : respects.

Lemma respects_tl_pdef c : respects R_tl (pdef c).
Proof. eapply respects_weaken; [apply R_tc_tl | apply respects_tc_pdef]. Qed.
#[global] Hint Resolve respects_tl_pdef : respects.

Lemma respects_tl_getq : respects R_tl getq.
Proof. eapply respects_weaken; [apply R_tc_tl | apply respects_tc_getq]. Qed.
#[global] Hint Resolve respects_tl_getq : respects.

Lemma respects_tl_peek_var a : respects R_tl (peek_var a).
Proof. eapply respects_weaken; [apply R_tc_tl | apply respects_tc_peek_var]. Qed.
#[global] Hint Resolve respects_tl_peek_var : respects.

Ltac tl_solve := solve [ repeat respects_step leaf_tl ].

(** Descent through the part of [next] that follows [tokl = 0]. *)
Ltac zero_step :=
  match goal with
  | |- post_from _ _ (bind _ _) =>
      eapply (post_from_bind R_tl); [tl_solve | apply R_tl_zero | intros ?]
  | |- post_from _ _ (if ?b then _ else _) => destruct b
  | |- post_from _ _ (when ?b _) => unfold when; destruct b
  | |- post_from _ _ _ => apply post_post_from; eassumption
  | |- post_from _ _ _ =>
      eapply (respects_post_from R_tl); [tl_solve | apply R_tl_zero_ok]
  end.

Lemma next_tok_ok fuel : post tok_ok (next fuel).
Proof.
  induction fuel as [|fuel IH]; cbn [next]; [intros st x st' H; discriminate|].
  unfold next_body. apply post_bind. intros _.
  intros st x st' H. apply bind_Ok in H as (y & s1 & H1 & H).
  inversion H1; subst. revert H.
  match goal with |- ?m ?s0 = _ -> _ =>
    intros H; cut (post_from (fun s1 => tokl s1 = 0) tok_ok m);
      [intros HT; eapply HT; [exact H | reflexivity]|]
  end.
  clear H H1 st x st'.
  repeat zero_step.
  (* the operator table *)
  destruct (op_scan _ _ _ _ _ _) as [[m tc'] tl'] eqn:E.
  apply op_scan_ok in E.
  intros st r st' H _.
  apply bind_Ok in H as (y1 & s1 & H1 & H). inversion H1; subst; clear H1.
  apply bind_Ok in H as (y2 & s2 & H2 & H). inversion H2; subst; clear H2.
  assert (Hok : tok_ok (set_tokl tl' (set_tokc tc' st))) by (unfold tok_ok; sst; exact E).
  destruct m.
  - inversion H; subst. exact Hok.
  - inversion H; subst. exact Hok.
  - apply bind_Ok in H as (y3 & s3 & H3 & H). inversion H; subst; clear H.
    apply respects_tc_inp in H3. apply R_tc_ok in H3.
    specialize (H3 Hok). unfold tok_ok in *. sst. exact H3.
Qed.

(** ** The operator level through the expression parser *)

Lemma post_respects {A} (m : M A) : post tok_ok m -> respects R_ok m.
Proof. intros H st x st' E _. eapply H. exact E. Qed.

Lemma respects_ok_next fuel : respects R_ok (next fuel).
Proof. apply post_respects, next_tok_ok. Qed.
#[global] Hint Resolve respects_ok_next : respects.

Ltac leaf_ok := unfold R_ok, tok_ok; sst; let K := fresh in intros K; exact K.

Lemma respects_ok_skip fuel c : respects R_ok (skip fuel c).
Proof. unfold skip. repeat respects_step leaf_ok. Qed.
#[global] Hint Resolve respects_ok_skip : respects.

Lemma respects_ok_inp : respects R_ok inp.
Proof. eapply respects_weaken; [apply R_tc_ok | apply respects_tc_inp]. Qed.
#[global] Hint Resolve respects_ok_inp : respects.

Lemma respects_ok_getq : respects R_ok getq.
Proof. eapply respects_weaken; [apply R_tc_ok | apply respects_tc_getq]. Qed.
#[global] Hint Resolve respects_ok_getq : respects.

Lemma respects_ok_peek_var a : respects R_ok (peek_var a).
Proof. eapply respects_weaken; [apply R_tc_ok | apply respects_tc_peek_var]. Qed.
#[global] Hint Resolve respects_ok_peek_var : respects.

Lemma respects_ok_poke_var a v : respects R_ok (poke_var a v).
Proof. eapply respects_weaken; [apply R_tc_ok | apply respects_tc_poke_var]. Qed.
#[global] Hint Resolve respects_ok_poke_var : respects.

Lemma respects_ok_emit f : respects R_ok (emit f).
Proof. unfold emit. repeat respects_step leaf_ok. Qed.
#[global] Hint Resolve respects_ok_emit : respects.

Lemma respects_ok_oad n t : respects R_ok (oad n t).
Proof.
  intros st x st' H. unfold oad in H.
  destruct (CodeBuf.oad n t (codeBuf st)). inversion H; subst. leaf_ok.
Qed.
#[global] Hint Resolve respects_ok_oad : respects.

Lemma respects_ok_getPC : respects R_ok getPC.
Proof. unfold getPC. repeat respects_step leaf_ok. Qed.
#[global] Hint Resolve respects_ok_getPC : respects.

Lemma respects_ok_gsym fuel t : respects R_ok (gsym fuel t).
Proof.
  intros st x st' H. unfold gsym in H.
  destruct (CodeBuf.gsym fuel t (codeBuf st)); inversion H; subst. leaf_ok.
Qed.
#[global] Hint Resolve respects_ok_gsym : respects.

Ltac unfold_emit := unfold o, ob, poke_code.

Lemma respects_ok_unary_sum fuel :
  (forall l, respects R_ok (unary fuel l)) /\
  (forall l, respects R_ok (sum fuel l)).
Proof.
  induction fuel as [|fuel [IHu IHs]]; (split; intros l); cbn [unary sum];
    try apply respects_timeout.
  - unfold unary_body. unfold_x86. unfold_emit. repeat respects_step leaf_ok.
  - unfold sum_body. unfold_x86. unfold_emit. repeat respects_step leaf_ok.
Qed.

Lemma respects_ok_sum fuel l : respects R_ok (sum fuel l).
Proof. apply respects_ok_unary_sum. Qed.
#[global] Hint Resolve respects_ok_sum : respects.

Lemma respects_ok_unary fuel l : respects R_ok (unary fuel l).
Proof. apply respects_ok_unary_sum. Qed.
#[global] Hint Resolve respects_ok_unary : respects.

Lemma post_bind_l {A B} (m : M A) (k : A -> M B) :
  post tok_ok m -> (forall x, respects R_ok (k x)) -> post tok_ok (bind m k).
Proof.
  intros Hm Hk st x st' H. apply bind_Ok in H as (y & s1 & H1 & H).
  eapply (Hk y); [exact H|]. eapply Hm. exact H1.
Qed.

Ltac post_step :=
  match goal with
  | |- post tok_ok (if ?b then _ else _) => destruct b
  | |- post tok_ok (bind (next _) _) =>
      apply post_bind_l;
        [apply next_tok_ok
        | intros ?; unfold_x86; unfold_emit; solve [repeat respects_step leaf_ok]]
  | |- post tok_ok (bind _ _) => apply post_bind; intros ?
  end.

Lemma unary_tok_ok fuel l : post tok_ok (unary fuel l).
Proof.
  destruct fuel as [|fuel]; cbn [unary]; [intros st x st' H; discriminate|].
  unfold unary_body.
  intros st x st' H.
  apply bind_Ok in H as (t0 & s0 & H0 & H). inversion H0; subst; clear H0.
  apply bind_Ok in H as (nt & s1 & H1 & H).
  assert (Hok : tok_ok s1).
  { revert H1. match goal with |- ?m _ = _ -> _ =>
      intros H1; cut (post tok_ok m); [intros HP; eapply HP; exact H1|] end.
    clear. repeat post_step. }
  revert H. match goal with |- ?m _ = _ -> _ =>
      intros H; cut (respects R_ok m); [intros HP; eapply HP; [exact H | exact Hok]|] end.
  clear. unfold_x86. unfold_emit. repeat respects_step leaf_ok.
Qed.

Lemma sum_tok_ok fuel : forall l, post tok_ok (sum fuel l).
Proof.
  induction fuel as [|fuel IH]; intros l; cbn [sum]; [intros st x st' H; discriminate|].
  unfold sum_body. destruct (l =? 1); [apply unary_tok_ok|].
  apply post_bind_l; [apply IH|].
  intros _. unfold_x86. unfold_emit. repeat respects_step leaf_ok.
Qed.

(** ** What the generator's instructions leave in the buffer *)

Lemma good_frame s s' :
  R_good s s' -> 0 < ind_of s -> bounded s' ->
  forall x, x < ind_of s -> load8 (code_of s') x = load8 (code_of s) x.
Proof. intros [_ H]. exact H. Qed.

Lemma good_ind s s' : R_good s s' -> ind_of s <= ind_of s'.
Proof. intros [H _]. apply R_expr_ind. exact H. Qed.

Lemma above_ind b s s' : R_above b s s' -> ind_of s <= ind_of s'.
Proof. intros [H _]. apply R_expr_ind. exact H. Qed.

Lemma oad_one n t st a st' :
  1 <= n <= 255 -> oad n t st = Ok a st' ->
  ind_of st' = ind_of st + 5 /\ a = wrap32 (ind_of st + 1) /\
  load8 (code_of st') (ind_of st) = n /\
  load32 (code_of st') (ind_of st + 1) = wrap32 t /\
  (forall x, x < ind_of st \/ ind_of st + 5 <= x ->
             load8 (code_of st') x = load8 (code_of st) x).
Proof.
  intros Hn H. unfold oad, CodeBuf.oad, CodeBuf.getPC in H.
  rewrite (o_one_byte n) in H by exact Hn. unfold CodeBuf.ob in H.
  inversion H; subst; clear H. sst.
  split; [lia|]. split; [reflexivity|].
  split.
  { rewrite load8_store32_out by lia. rewrite load8_store8_eq.
    unfold byte_of. apply Z.mod_small. lia. }
  split; [apply load32_store32|].
  intros x Hx. rewrite load8_store32_out by lia. apply load8_store8_ne. lia.
Qed.

Lemma li_spec t st x st' :
  li t st = Ok x st' ->
  ind_of st' = ind_of st + 5 /\
  load8 (code_of st') (ind_of st) = 0xb8 /\
  load32 (code_of st') (ind_of st + 1) = wrap32 t /\
  (forall y, y < ind_of st \/ ind_of st + 5 <= y ->
             load8 (code_of st') y = load8 (code_of st) y).
Proof.
  unfold li, X86CodeGenerator.li. intros H.
  apply bind_Ok in H as (a & s1 & H1 & H). inversion H; subst; clear H.
  apply oad_one in H1; [|lia]. tauto.
Qed.

Lemma test_bytes cb :
  CodeBuf.o 0x0fc085 cb =
  CodeBuf.ob 0x0f (CodeBuf.ob 0xc0 (CodeBuf.ob 0x85 cb)).
Proof.
  rewrite o_unfold by lia. change (Z.shiftr 1032325 8) with 0x0fc0.
  rewrite o_unfold by lia. change (Z.shiftr 4032 8) with 0x0f.
  rewrite o_one_byte by lia.
  unfold CodeBuf.ob, store8. cbn [CodeBuf.ind CodeBuf.pProgramBase CodeBuf.bytes].
  reflexivity.
Qed.

Lemma gtst_spec t a st s st' :
  0 <= t <= 1 -> gtst t a st = Ok s st' ->
  ind_of st' = ind_of st + 8 /\ s = wrap32 (ind_of st + 4) /\
  test_jcc (code_of st') (ind_of st) t /\
  load32 (code_of st') (ind_of st + 4) = wrap32 a /\
  (forall x, x < ind_of st \/ ind_of st + 8 <= x ->
             load8 (code_of st') x = load8 (code_of st) x).
Proof.
  intros Ht H. unfold gtst, X86CodeGenerator.gtst, psym, o, emit in H.
  apply bind_Ok in H as (y & s1 & H1 & H). inversion H1; subst; clear H1.
  rewrite wrap32_small in H by lia.
  apply oad_one in H; [|lia]. rewrite test_bytes in H.
  unfold CodeBuf.ob in H. sst.
  destruct H as (Hi & Hs & Hb & Hl & Hf).
  split; [lia|]. split; [rewrite Hs; f_equal; lia|].
  split.
  { unfold test_jcc.
    rewrite !Hf by lia.
    replace (ind_of st + 1 + 1 + 1) with (ind_of st + 3) in Hb by lia.
    rewrite Hb.
    rewrite (load8_store8_ne _ _ _ (ind_of st)) by lia.
    rewrite (load8_store8_ne _ _ _ (ind_of st)) by lia.
    rewrite load8_store8_eq.
    rewrite (load8_store8_ne _ _ _ (ind_of st + 1)) by lia.
    rewrite load8_store8_eq.
    replace (ind_of st + 2) with (ind_of st + 1 + 1) by lia.
    rewrite load8_store8_eq.
    repeat split; reflexivity. }
  split.
  { rewrite <- Hl. f_equal. lia. }
  intros x Hx. rewrite Hf by lia.
  rewrite !load8_store8_ne by lia. reflexivity.
Qed.

(** ** [gsym] on a chain of the buffer *)

Lemma codebuf_gsym_le k : forall fuel t cb cb',
  CodeBuf.gsym fuel t cb = Some cb' -> CodeBuf.gsym (k + fuel) t cb = Some cb'.
Proof.
  induction k as [|k IH]; intros fuel t cb cb' H; [exact H|].
  change (S k + fuel)%nat with (S (k + fuel)).
  destruct (codebuf_gsym_mono (k + fuel) t cb) as [E|E].
  - rewrite (IH _ _ _ _ H) in E. discriminate.
  - rewrite <- E. apply IH. exact H.
Qed.

Lemma gsym_state fuel a st st' ss :
  gsym fuel a st = Ok tt st' ->
  linked (code_of st) a ss = true -> all_apart ss = true ->
  R_expr st st' /\ ind_of st' = ind_of st /\ R_tc st st' /\
  (forall s, In s ss ->
     load32 (code_of st') s = wrap32 (CodeBuf.getPC (codeBuf st) - s - 4)) /\
  (forall x, (forall s, In s ss -> x < s \/ s + 4 <= x) ->
     load8 (code_of st') x = load8 (code_of st) x).
Proof.
  intros H Hl Ha. unfold gsym in H.
  destruct (gsym_chain ss a (codeBuf st) Hl Ha) as (cb' & E & En & Hi & Hb & Hs & Hf).
  destruct (CodeBuf.gsym fuel a (codeBuf st)) as [cb''|] eqn:E2; [|discriminate].
  inversion H; subst; clear H.
  assert (cb'' = cb') as ->.
  { destruct (Nat.lt_ge_cases fuel (length ss)) as [Hlt|Hge].
    - rewrite (En _ Hlt) in E2. discriminate.
    - apply (codebuf_gsym_le (fuel - length ss)) in E.
      replace (fuel - length ss + length ss)%nat with fuel in E by lia.
      congruence. }
  sst. split.
  { unfold R_expr, R_code. sst. rewrite Hi, Hb. repeat split; reflexivity. }
  split; [exact Hi|]. split; [split; reflexivity|]. split; [exact Hs | exact Hf].
Qed.

Lemma linked_frame m m' b a ss :
  (forall x, x < b -> load8 m' x = load8 m x) ->
  (forall s, In s ss -> s + 4 <= b) ->
  linked m' a ss = linked m a ss.
Proof.
  intros Hf Hs. apply linked_ext. intros s i Hin Hi. apply Hf.
  specialize (Hs s Hin). lia.
Qed.

Lemma linked_head m a ss :
  linked m a ss = true -> a = 0 /\ ss = [] \/ exists ss', ss = a :: ss' /\ a <> 0.
Proof.
  destruct ss as [|s ss']; cbn [linked]; intros H.
  - left. apply Z.eqb_eq in H. auto.
  - right. apply andb_true_iff in H as [H _]. apply andb_true_iff in H as [H1 H2].
    apply Z.eqb_eq in H1. apply negb_true_iff, Z.eqb_neq in H2. subst. eauto.
Qed.

Lemma test_jcc_frame m m' p t :
  test_jcc m p t ->
  (forall x, p <= x < p + 4 -> load8 m' x = load8 m x) ->
  test_jcc m' p t.
Proof.
  unfold test_jcc. intros (H0 & H1 & H2 & H3) Hf.
  rewrite !Hf by lia. auto.
Qed.

(** A loop invariant holds when the loop returns. *)
Lemma while_inv {A} (I : A -> state -> Prop) fuel
    (cond : A -> state -> bool) (body : A -> M A) :
  (forall a s a' s', cond a s = true -> body a s = Ok a' s' -> I a s -> I a' s') ->
  forall a s a' s',
    while_ fuel cond body a s = Ok a' s' -> I a s -> I a' s' /\ cond a' s' = false.
Proof.
  intros Hb. induction fuel as [|fuel IH]; intros a s a' s' H HI.
  - rewrite while_unfold in H. destruct (cond a s) eqn:E; [discriminate|].
    inversion H; subst. auto.
  - rewrite while_unfold in H. destruct (cond a s) eqn:E.
    + apply bind_Ok in H as (a1 & s1 & H1 & H). eapply IH; [exact H|].
      eapply Hb; eauto.
    + inversion H; subst. auto.
Qed.

(** ** The code of [&&] and [||] *)

Lemma respects_good_gtst t a : respects R_good (gtst t a).
Proof. unfold_x86. repeat respects_step leaf_good. Qed.

Lemma respects_good_li t : respects R_good (li t).
Proof. unfold_x86. repeat respects_step leaf_good. Qed.

Lemma respects_good_gjmp t : respects R_good (gjmp t).
Proof. unfold_x86. repeat respects_step leaf_good. Qed.

Lemma tok_ok_level s l :
  tok_ok s -> tokl s = l -> l = 9 \/ l = 10 -> tokc s = l - 9.
Proof.
  unfold tok_ok, pair_ok. cbn [fst snd]. intros H Hl [E|E]; subst l; rewrite E in H;
    cbn [Z.eqb Pos.eqb implb] in H.
  - apply andb_true_iff in H as [H _]. apply Z.eqb_eq in H. lia.
  - apply Z.eqb_eq in H. lia.
Qed.

(** Pushing a test on the chain. *)
Lemma chain_push t a s a1 s2 ss p :
  0 <= t <= 1 ->
  gtst t a s = Ok a1 s2 ->
  0 < p -> p <= ind_of s -> bounded s2 ->
  linked (code_of s) a ss = true -> all_apart ss = true ->
  (forall x, In x ss -> p + 4 <= x /\ x + 4 <= ind_of s) ->
  a1 = ind_of s + 4 /\ ind_of s2 = ind_of s + 8 /\
  test_jcc (code_of s2) (ind_of s) t /\
  (forall x, x < ind_of s -> load8 (code_of s2) x = load8 (code_of s) x) /\
  linked (code_of s2) a1 (a1 :: ss) = true /\ all_apart (a1 :: ss) = true /\
  (forall x, In x (a1 :: ss) -> p + 4 <= x /\ x + 4 <= ind_of s2).
Proof.
  intros Ht H Hp Hps Hbd Hl Ha Hb.
  apply gtst_spec in H as (Hi & Hs & Hj & Hld & Hf); [|exact Ht].
  unfold bounded in Hbd.
  rewrite wrap32_small in Hs by lia.
  split; [exact Hs|]. split; [exact Hi|]. split; [exact Hj|].
  split; [intros x Hx; apply Hf; lia|].
  assert (Har : wrap32 a = a).
  { destruct (linked_head _ _ _ Hl) as [[-> _]|(ss' & -> & _)]; [reflexivity|].
    specialize (Hb a (or_introl eq_refl)). apply wrap32_small. lia. }
  split.
  { cbn [linked]. rewrite Z.eqb_refl.
    replace (a1 =? 0) with false by (symmetry; apply Z.eqb_neq; lia).
    cbn [andb negb]. subst a1. rewrite Hld, Har.
    rewrite (linked_frame (code_of s) (code_of s2) (ind_of s)); [exact Hl| |].
    - intros x Hx. apply Hf. lia.
    - intros x Hx. apply Hb. exact Hx. }
  split.
  { apply all_apart_cons. split; [|exact Ha].
    intros x Hx. specialize (Hb x Hx). unfold apart.
    apply orb_true_iff. right. apply Z.leb_le. lia. }
  intros x [<-|Hx]; [lia|]. specialize (Hb x Hx). lia.
Qed.

(** One turn of the operator loop. *)
Lemma andor_step fuel (sm : M unit) l st1 a t s a' t' s' :
  respects R_good sm -> post tok_ok sm -> l = 9 \/ l = 10 ->
  0 < ind_of st1 -> tokl s = l ->
  (n <- get tok;; t <- get tokc;; next fuel;;
   a <- gtst t a;; sm;; ret (a, t)) s = Ok (a', t') s' ->
  andor_inv sm l (ind_of st1) st1 (a, t) s ->
  andor_inv sm l (ind_of st1) st1 (a', t') s'.
Proof.
  intros Hg Hu Hl Hp Htl H HI Hbd'.
  apply bind_Ok in H as (n & s0 & E & H). inversion E; subst s0 n; clear E.
  apply bind_Ok in H as (t1 & s0 & E & H). inversion E; subst s0 t1; clear E.
  apply bind_Ok in H as ([] & s1 & Hn & H).
  apply bind_Ok in H as (a1 & s2 & Hgt & H).
  apply bind_Ok in H as ([] & s3 & Hs & H).
  inversion H; subst a' t' s'; clear H.
  pose proof (respects_good_next _ _ _ _ Hn) as Gn.
  pose proof (respects_good_gtst _ _ _ _ _ Hgt) as Gt.
  pose proof (Hg _ _ _ Hs) as Gs.
  pose proof (good_ind _ _ Gn) as In1. pose proof (good_ind _ _ Gt) as In2.
  pose proof (good_ind _ _ Gs) as In3.
  assert (Hcb : codeBuf s1 = codeBuf s) by (apply (respects_lex_next _ _ _ _ Hn)).
  unfold bounded in Hbd'.
  destruct HI as (Hab & Hps & Hok & ss & Hlk & Hap & Hbs & Hd);
    [unfold bounded; lia|].
  cbn [fst snd] in *.
  assert (Ht : tokc s = l - 9) by (apply tok_ok_level; assumption).
  rewrite Ht in *.
  rewrite <- Hcb in Hlk, Hbs, Hps.
  destruct (chain_push (l - 9) a s1 a1 s2 ss (ind_of st1))
    as (Ha1 & Hi2 & Hj & Hf2 & Hlk2 & Hap2 & Hbs2); auto;
    [lia | unfold bounded; lia|].
  assert (Hf3 : forall x, x < ind_of s2 -> load8 (code_of s3) x = load8 (code_of s2) x).
  { apply good_frame; [exact Gs | lia | unfold bounded; lia]. }
  split.
  { etransitivity; [exact Hab|]. apply R_good_above; [|rewrite <- Hcb; exact Hps].
    etransitivity; [exact Gn|]. etransitivity; [exact Gt | exact Gs]. }
  split; [lia|]. split; [eapply Hu; exact Hs|].
  exists (a1 :: ss).
  split.
  { rewrite (linked_frame (code_of s2) (code_of s3) (ind_of s2)); [exact Hlk2|exact Hf3|].
    intros x Hx. apply Hbs2. exact Hx. }
  split; [exact Hap2|].
  split; [intros x Hx; specialize (Hbs2 x Hx); lia|].
  right. split; [lia|]. split; [reflexivity|].
  destruct Hd as [[Ha0 Hs0]|(Ha0 & Ht0 & Hj0 & Hin & Hp8 & st2 & st3 & Hop & Hi2' & Hi3')].
  - subst s a. rewrite Hcb in *.
    split; [eapply test_jcc_frame; [exact Hj|]; intros x Hx; apply Hf3; lia|].
    split; [left; lia|]. split; [lia|].
    exists s2, s3. split; [exact Hs|]. split; lia.
  - rewrite <- Hcb in Hj0, Hp8, Hi3'.
    split.
    { eapply test_jcc_frame; [exact Hj0|]. intros x Hx.
      rewrite Hf3 by lia. apply Hf2. lia. }
    split; [right; exact Hin|]. split; [lia|].
    exists st2, st3. split; [exact Hop|]. split; lia.
Qed.

(** The join after the loop: the last test, the two results and [gsym]. *)
Lemma andor_join fuel (sm : M unit) l st1 a t sL st' :
  l = 9 \/ l = 10 -> 0 < ind_of st1 -> a <> 0 ->
  (a' <- gtst t a;; li (Z.lxor t 1);; gjmp 5;; gsym fuel a';; li t) sL = Ok tt st' ->
  andor_inv sm l (ind_of st1) st1 (a, t) sL ->
  bounded st' ->
  R_above (ind_of st1) st1 st' /\ short_circuit_code sm l st1 st'.
Proof.
  intros Hl Hp Ha H HI Hbd'.
  apply bind_Ok in H as (a1 & f1 & Hgt & H).
  apply bind_Ok in H as ([] & f2 & Hli & H).
  apply bind_Ok in H as (j & f3 & Hj & H).
  apply bind_Ok in H as ([] & f4 & Hgs & H).
  pose proof (respects_good_gtst _ _ _ _ _ Hgt) as G1.
  pose proof (respects_good_li _ _ _ _ Hli) as G2.
  pose proof (respects_good_gjmp _ _ _ _ Hj) as G3.
  pose proof (respects_good_li _ _ _ _ H) as G5.
  pose proof (good_ind _ _ G1) as I1. pose proof (good_ind _ _ G2) as I2.
  pose proof (good_ind _ _ G3) as I3. pose proof (good_ind _ _ G5) as I5.
  pose proof (respects_expr_gsym _ _ _ _ _ Hgs) as G4.
  pose proof (R_expr_ind _ _ G4) as I4.
  unfold bounded in Hbd'.
  destruct HI as (Hab & Hps & Hok & ss & Hlk & Hap & Hbs & Hd);
    [unfold bounded; lia|].
  cbn [fst snd] in *.
  destruct Hd as [[Ha0 _]|(_ & Ht0 & Hj0 & Hin & Hp8 & st2 & st3 & Hop & Hi2' & Hi3')];
    [contradiction|].
  subst t.
  destruct (chain_push (l - 9) a sL a1 f1 ss (ind_of st1))
    as (Ha1 & Hi1 & Hjc & Hf1 & Hlk1 & Hap1 & Hbs1); auto;
    [lia | unfold bounded; lia|].
  apply li_spec in Hli as (Hi2 & _ & _ & Hf2).
  unfold gjmp, X86CodeGenerator.gjmp, psym in Hj.
  apply oad_one in Hj as (Hi3 & _ & _ & _ & Hf3); [|lia].
  assert (Hlk3 : linked (code_of f3) a1 (a1 :: ss) = true).
  { rewrite (linked_frame (code_of f1) (code_of f3) (ind_of f1)); [exact Hlk1| |].
    - intros x Hx. rewrite Hf3, Hf2 by lia. reflexivity.
    - intros x Hx. apply Hbs1. exact Hx. }
  destruct (gsym_state _ _ _ _ _ Hgs Hlk3 Hap1) as (_ & Hi4 & _ & Hs4 & Hf4).
  apply li_spec in H as (Hi5 & Hb5 & Hl5 & Hf5).
  assert (Hpc : CodeBuf.getPC (codeBuf f3) = ind_of f3).
  { unfold CodeBuf.getPC. apply wrap32_small. lia. }
  assert (Hlow : forall x, x < ind_of st1 + 4 ->
                           load8 (code_of st') x = load8 (code_of sL) x).
  { intros x Hx. rewrite Hf5 by lia. rewrite Hf4.
    - rewrite Hf3, Hf2 by lia. apply Hf1. lia.
    - intros s Hs. left. specialize (Hbs1 s Hs). lia. }
  split.
  { etransitivity; [exact Hab|]. split.
    - etransitivity; [apply G1|]. etransitivity; [apply G2|].
      etransitivity; [apply G3|]. etransitivity; [exact G4 | apply G5].
    - intros _ _ x Hx. apply Hlow. lia. }
  unfold short_circuit_code. cbv zeta.
  replace (ind_of st' - 5) with (ind_of f3) by lia.
  split.
  { eapply test_jcc_frame; [exact Hj0|]. intros x Hx. apply Hlow. lia. }
  split.
  { rewrite (load32_ext (code_of f4) (code_of st')).
    - rewrite Hs4 by (right; exact Hin). rewrite Hpc.
      rewrite wrap32_small by lia. lia.
    - intros i Hi. apply Hf5. lia. }
  split; [rewrite <- Hi4; exact Hb5|].
  split; [rewrite <- Hi4; rewrite Hl5; apply wrap32_small; lia|].
  exists st2, st3. split; [exact Hop|]. split; lia.
Qed.

(** [sum] at the levels of [&&] and [||]. *)
Lemma sum_body_andor fuel (u sm : Z -> M unit) l0 st st' :
  respects R_good (sm (l0 - 1)) -> post tok_ok (sm (l0 - 1)) ->
  sum_body fuel u sm l0 st = Ok tt st' ->
  l0 = 10 \/ l0 = 11 ->
  0 < ind_of st -> bounded st' ->
  exists st1,
    sm (l0 - 1) st = Ok tt st1 /\
    R_good st1 st' /\
    (tokl st1 = l0 - 1 -> short_circuit_code (sm (l0 - 1)) (l0 - 1) st1 st').
Proof.
  intros Hg Hu H Hl0 Hp Hbd'.
  unfold sum_body in H. cbv zeta in H.
  rewrite (wrap32_small (l0 - 1)) in H by lia.
  replace (l0 =? 1) with false in H by (symmetry; apply Z.eqb_neq; lia).
  replace (8 <? l0 - 1) with true in H by (symmetry; apply Z.ltb_lt; lia).
  cbv iota in H.
  apply bind_Ok in H as ([] & st1 & H1 & H).
  exists st1. split; [exact H1|].
  pose proof (good_ind _ _ (Hg _ _ _ H1)) as I1.
  apply bind_Ok in H as ([a t] & sL & Hloop & H).
  apply (while_inv (andor_inv (sm (l0 - 1)) (l0 - 1) (ind_of st1) st1)) in Hloop.
  - destruct Hloop as [HI Hc]. apply Z.eqb_neq in Hc.
    destruct (a =? 0) eqn:Ea.
    + cbn [negb andb when] in H. inversion H; subst sL; clear H.
      destruct (HI Hbd') as (_ & _ & _ & ss & _ & _ & _ & Hd). cbn [fst snd] in Hd.
      apply Z.eqb_eq in Ea.
      destruct Hd as [[_ ->]|[Hd _]]; [|contradiction].
      split; [reflexivity|]. intros Htl. congruence.
    + cbn [negb andb when] in H. apply Z.eqb_neq in Ea.
      assert (Hl : l0 - 1 = 9 \/ l0 - 1 = 10) by lia.
      assert (Hp1 : 0 < ind_of st1) by lia.
      destruct (andor_join fuel (sm (l0 - 1)) (l0 - 1) st1 a t sL st'
                  Hl Hp1 Ea H HI Hbd') as [Hab Hsc].
      split; [exact Hab | intros _; exact Hsc].
  - intros [a0 t0] s [a1 t1] s' Hc Hb HI. apply Z.eqb_eq in Hc.
    eapply andor_step; eauto; lia.
  - intros Hb. split; [reflexivity|]. split; [lia|].
    split; [eapply Hu; exact H1|].
    exists []. cbn [fst snd linked]. split; [reflexivity|]. split; [reflexivity|].
    split; [intros x []|]. left. auto.
Qed.

(** ** Expressions never rewrite the code emitted before them *)

(** The argument area of a call: [oad] reserves the word that [poke_code]
    fills once the arguments are compiled. *)
Lemma call_segment {B} n t (m0 : M unit) (W : M Z) (K : Z -> M B) :
  respects R_good m0 -> respects R_good W -> (forall l, respects R_good (K l)) ->
  respects R_good (a <- oad n t;; m0;; l <- W;; poke_code a l;; K l).
Proof.
  intros H0 HW HK st x st' H.
  apply bind_Ok in H as (a & s1 & Ha & H).
  apply bind_Ok in H as ([] & s2 & Hm & H).
  apply bind_Ok in H as (l & s3 & Hl & H).
  apply bind_Ok in H as ([] & s4 & Hpk & H).
  pose proof (respects_good_oad _ _ _ _ _ Ha) as G1.
  pose proof (H0 _ _ _ Hm) as G2. pose proof (HW _ _ _ Hl) as G3.
  pose proof (HK _ _ _ _ H) as G5.
  pose proof (good_ind _ _ G1) as I1. pose proof (good_ind _ _ G2) as I2.
  pose proof (good_ind _ _ G3) as I3. pose proof (good_ind _ _ G5) as I5.
  apply oad_site in Ha as (i & -> & Hi & Hi1 & _).
  assert (I4 : ind_of s4 = ind_of s3) by (inversion Hpk; subst; reflexivity).
  assert (G4 : R_above (ind_of st) s3 s4).
  { eapply poke_above; [exact Hpk|]. unfold bounded. intros Hb.
    destruct (Z_lt_le_dec 0 (ind_of st)) as [Hp|Hp].
    - rewrite wrap32_small by lia. lia.
    - pose proof (wrap32_range i). (* below the buffer nothing is stated *)
      destruct (Z_le_gt_dec (ind_of st) (wrap32 i)); [assumption|].
      rewrite wrap32_small in * by lia. lia. }
  unfold R_good.
  etransitivity; [exact G1|].
  etransitivity; [apply R_good_above; [exact G2 | lia]|].
  etransitivity; [apply R_good_above; [exact G3 | lia]|].
  etransitivity; [exact G4|].
  apply R_good_above; [exact G5 | lia].
Qed.

Ltac good_step :=
  first
    [ match goal with
      | |- respects _ (bind (oad _ _) ?k) =>
          match k with
          | context [poke_code] => apply call_segment; [ | | intros ?]
          end
      end
    | match goal with
      | |- respects _ (when (negb _ && false) _) =>
          rewrite andb_false_r; unfold when; apply respects_ret; typeclasses eauto
      end
    | respects_step leaf_good ].

Lemma respects_good_unary_sum fuel :
  (forall l, respects R_good (unary fuel l)) /\
  (forall l, 1 <= l <= 11 -> respects R_good (sum fuel l)).
Proof.
  induction fuel as [|fuel [IHu IHs]]; (split; [intros l | intros l Hl]);
    cbn [unary sum]; try apply respects_timeout.
  - assert (He : respects R_good (sum fuel 11)) by (apply IHs; lia).
    unfold unary_body. unfold_x86. repeat good_step.
  - destruct (Z.eq_dec l 1) as [->|Hl1].
    { unfold sum_body. change (1 =? 1) with true. cbv iota. apply IHu. }
    assert (Hs : respects R_good (sum fuel (l - 1))) by (apply IHs; lia).
    destruct (8 <? l - 1) eqn:E8.
    + apply Z.ltb_lt in E8. intros st [] st' H. split.
      { apply (respects_expr_sum (S fuel) l st tt st'). exact H. }
      intros Hp Hb.
      destruct (sum_body_andor fuel (unary fuel) (sum fuel) l st st')
        as (st1 & H1 & G & _); auto; [apply sum_tok_ok | lia|].
      pose proof (Hs _ _ _ H1) as G1.
      assert (GG : R_good st st') by (etransitivity; eauto).
      apply GG; assumption.
    + unfold sum_body. cbv zeta. rewrite (wrap32_small (l - 1)) by lia.
      replace (l =? 1) with false by (symmetry; apply Z.eqb_neq; lia).
      rewrite E8. unfold_x86. repeat good_step.
Qed.

Lemma respects_good_sum fuel l : 1 <= l <= 11 -> respects R_good (sum fuel l).
Proof. apply respects_good_unary_sum. Qed.

Lemma respects_good_unary fuel l : respects R_good (unary fuel l).
Proof. apply respects_good_unary_sum. Qed.
#[global] Hint Resolve respects_good_unary : respects.

Lemma respects_good_expr fuel : respects R_good (expr fuel).
Proof. apply respects_good_sum. lia. Qed.
#[global] Hint Resolve respects_good_expr : respects.

(** ** The processor, as far as the instructions of [gtst], [li] and [gjmp]
    go *)

Lemma andand_level tc tl :
  op_scan (length optable_bytes) optable_bytes 38 38 tc tl = (DoubleOp, 0, 9).
Proof. vm_compute. reflexivity. Qed.

Lemma oror_level tc tl :
  op_scan (length optable_bytes) optable_bytes 124 124 tc tl = (DoubleOp, 1, 10).
Proof. vm_compute. reflexivity. Qed.

Lemma short_circuit_run m p e l v z :
  l = 9 \/ l = 10 -> 0 < p -> p + 8 <= e -> e < 2147483648 ->
  test_jcc m p (l - 9) -> load32 m (p + 4) = e - (p + 8) ->
  load8 m e = 0xb8 -> load32 m (e + 1) = l - 9 ->
  decides l v ->
  x86_run 2 m (mkCpu p v z) = Some (mkCpu e v (v =? 0)) /\
  x86_run 3 m (mkCpu p v z) = Some (mkCpu (e + 5) (l - 9) (v =? 0)).
Proof.
  intros Hl Hp Hpe He (H0 & H1 & H2 & H3) Hd Hb Hi [Hv9 Hv10].
  assert (S1 : x86_step m (mkCpu p v z) = Some (mkCpu (p + 2) v (v =? 0))).
  { unfold x86_step. cbn [cpu_pc cpu_eax cpu_zf]. rewrite H0, H1. reflexivity. }
  assert (S2 : x86_step m (mkCpu (p + 2) v (v =? 0)) = Some (mkCpu e v (v =? 0))).
  { unfold x86_step. cbn [cpu_pc cpu_eax cpu_zf].
    replace (p + 2 + 1) with (p + 3) by lia.
    replace (p + 2 + 2) with (p + 4) by lia.
    rewrite H2, H3, Hd.
    replace (wrap32 (p + 2 + 6 + (e - (p + 8)))) with e
      by (symmetry; rewrite wrap32_small; lia).
    destruct Hl as [->| ->].
    - rewrite (Hv9 eq_refl). reflexivity.
    - replace (v =? 0) with false by (symmetry; apply Z.eqb_neq; auto).
      reflexivity. }
  assert (S3 : x86_step m (mkCpu e v (v =? 0)) = Some (mkCpu (e + 5) (l - 9) (v =? 0))).
  { unfold x86_step. cbn [cpu_pc cpu_eax cpu_zf]. rewrite Hb, Hi. reflexivity. }
  cbn [x86_run]. rewrite S1, S2, S3. auto.
Qed.

(** C2.  The code [sum] emits for [&&] (level 9) and [||] (level 10) tests
    the left operand and jumps over the right one.  When [sum] at the next
    level returns, the left operand was compiled by [sum] at level [l] up to
    a state [st1]; if an operator of level [l] follows it, a right operand
    is compiled from 8 bytes after the cursor of [st1], and the processor,
    started at that cursor on the final code with a left value that decides
    the result, is after two steps ([test] and the conditional jump) at the
    last instruction of the expression, behind all of the right operand,
    and after the third step at the end with the result 0 or 1 in [%eax]. *)
Theorem short_circuit_skips_right_operand fuel l st st' :
  sum (S fuel) (l + 1) st = Ok tt st' ->
  l = 9 \/ l = 10 -> 0 < ind_of st -> bounded st' ->
  exists st1,
    sum fuel l st = Ok tt st1 /\
    (tokl st1 = l ->
     exists st2 st3,
       sum fuel l st2 = Ok tt st3 /\
       ind_of st2 = ind_of st1 + 8 /\ ind_of st3 < ind_of st' - 5 /\
       forall v z, decides l v ->
         x86_run 2 (code_of st') (mkCpu (ind_of st1) v z)
           = Some (mkCpu (ind_of st' - 5) v (v =? 0)) /\
         x86_run 3 (code_of st') (mkCpu (ind_of st1) v z)
           = Some (mkCpu (ind_of st') (l - 9) (v =? 0))).
Proof.
  intros H Hl Hp Hb.
  change (sum (S fuel) (l + 1)) with (sum_body fuel (unary fuel) (sum fuel) (l + 1)) in H.
  assert (Hg : respects R_good (sum fuel (l + 1 - 1))) by (apply respects_good_sum; lia).
  destruct (sum_body_andor fuel (unary fuel) (sum fuel) (l + 1) st st' Hg)
    as (st1 & H1 & G & Hsc); auto; [apply sum_tok_ok | lia|].
  replace (l + 1 - 1) with l in * by lia.
  exists st1. split; [exact H1|]. intros Htl.
  destruct (Hsc Htl) as (Hj & Hd & Hb8 & Hi & st2 & st3 & Hop & Hi2 & Hi3).
  pose proof (good_ind _ _ (Hg _ _ _ H1)) as I1.
  pose proof (respects_good_sum fuel l ltac:(lia) _ _ _ Hop) as G3.
  apply good_ind in G3.
  unfold bounded in Hb.
  exists st2, st3. split; [exact Hop|]. split; [exact Hi2|]. split; [lia|].
  intros v z Hv.
  replace (ind_of st') with (ind_of st' - 5 + 5) at 2 by lia.
  apply short_circuit_run; auto; lia.
Qed.

(** ** The break chains of the loops being parsed *)

Lemma apart_sym x y : apart x y = apart y x.
Proof. unfold apart. apply orb_comm. Qed.

Lemma apart_irrefl x : apart x x = false.
Proof. unfold apart. apply orb_false_iff. split; apply Z.leb_gt; lia. Qed.

Lemma all_apart_spread ss : all_apart ss = true <-> spread ss.
Proof.
  induction ss as [|s ss IH].
  - split; [|reflexivity]. intros _. split; [constructor|]. intros x y [].
  - rewrite all_apart_cons, IH. split.
    + intros [Hs [Hn Hp]]. split.
      * constructor; [|exact Hn]. intros Hin. apply list_elem_of_In in Hin.
        specialize (Hs s Hin). rewrite apart_irrefl in Hs. discriminate.
      * intros x y [<-|Hx] [<-|Hy] Hxy; auto; try contradiction.
        rewrite apart_sym. auto.
    + intros [Hn Hp]. apply NoDup_cons in Hn as [Hs Hn]. split.
      * intros x Hx. apply Hp; [left; reflexivity | right; exact Hx|].
        intros <-. apply Hs. apply list_elem_of_In. exact Hx.
      * split; [exact Hn|]. intros x y Hx Hy. apply Hp; right; assumption.
Qed.

Lemma spread_perm l l' : Permutation l l' -> spread l -> spread l'.
Proof.
  intros HP [Hn Hp]. split.
  - rewrite <- HP. exact Hn.
  - intros x y Hx Hy. apply Hp; eapply Permutation_in; try eassumption;
      symmetry; exact HP.
Qed.

Lemma spread_app l1 l2 :
  spread l1 -> spread l2 ->
  (forall x y, In x l1 -> In y l2 -> apart x y = true) ->
  spread (l1 ++ l2).
Proof.
  intros [N1 P1] [N2 P2] H. split.
  - apply NoDup_app. split; [exact N1|]. split; [|exact N2].
    intros x Hx Hy. apply list_elem_of_In in Hx, Hy.
    specialize (H x x Hx Hy). rewrite apart_irrefl in H. discriminate.
  - intros x y Hx Hy Hxy. apply in_app_or in Hx, Hy.
    destruct Hx as [Hx|Hx], Hy as [Hy|Hy]; auto.
    rewrite apart_sym. auto.
Qed.

Lemma spread_app_l l1 l2 : spread (l1 ++ l2) -> spread l1.
Proof.
  intros [N P]. apply NoDup_app in N as (N1 & _ & _). split; [exact N1|].
  intros x y Hx Hy. apply P; apply in_or_app; left; assumption.
Qed.

Lemma spread_app_r l1 l2 : spread (l1 ++ l2) -> spread l2.
Proof.
  intros [N P]. apply NoDup_app in N as (_ & _ & N2). split; [exact N2|].
  intros x y Hx Hy. apply P; apply in_or_app; right; assumption.
Qed.

Lemma concat_insert (css : list (list Z)) : forall i ss ns,
  css !! i = Some ss ->
  Permutation (concat (<[i := ns ++ ss]> css)) (ns ++ concat css).
Proof.
  induction css as [|c css IH]; intros i ss ns H; [discriminate|].
  destruct i as [|i]; cbn in H |- *.
  - inversion H; subst. rewrite app_assoc. reflexivity.
  - rewrite (IH _ _ ns H). apply Permutation_app_swap_app.
Qed.

Lemma concat_extend l ns css :
  concat (extend l ns css) = concat css \/
  Permutation (concat (extend l ns css)) (ns ++ concat css).
Proof.
  unfold extend. destruct (l <=? 0); [left; reflexivity|].
  destruct (css !! Z.to_nat (l - 1)) eqn:E; [|left; reflexivity].
  right. apply concat_insert. exact E.
Qed.

Lemma in_concat_extend l ns css x :
  In x (concat (extend l ns css)) -> In x ns \/ In x (concat css).
Proof.
  destruct (concat_extend l ns css) as [-> | HP]; [auto|].
  intros H. apply in_app_or. eapply Permutation_in; eassumption.
Qed.

Lemma all_linked_Forall2 m hs css :
  all_linked m hs css = true <->
  Forall2 (fun h ss => linked m h ss = true) hs css.
Proof.
  revert css. induction hs as [|h hs IH]; intros [|ss css]; cbn [all_linked];
    try (split; [discriminate | intros H; inversion H]).
  - split; [constructor | reflexivity].
  - rewrite andb_true_iff, IH. split.
    + intros [H1 H2]. constructor; assumption.
    + intros H. inversion H; subst. auto.
Qed.

Lemma sites_below_spec b ss :
  sites_below b ss = true <-> forall x, In x ss -> 0 < x /\ x + 4 <= b.
Proof.
  unfold sites_below. rewrite forallb_forall. split; intros H x Hx; specialize (H x Hx).
  - apply andb_true_iff in H as [H1 H2]. apply Z.ltb_lt in H1. apply Z.leb_le in H2. auto.
  - apply andb_true_iff. split; [apply Z.ltb_lt | apply Z.leb_le]; tauto.
Qed.

Lemma chains_ok_iff st css :
  chains_ok st css <->
  Forall2 (fun h ss => linked (code_of st) h ss = true) (frames st) css /\
  spread (concat css) /\
  (forall x, In x (concat css) -> 0 < x /\ x + 4 <= ind_of st).
Proof.
  unfold chains_ok. rewrite !andb_true_iff, all_linked_Forall2, all_apart_spread,
    sites_below_spec. tauto.
Qed.

Lemma extend_nil l css : extend l [] css = css.
Proof.
  unfold extend. destruct (l <=? 0); [reflexivity|].
  destruct (css !! Z.to_nat (l - 1)) eqn:E; [|reflexivity].
  cbn [app]. apply list_insert_id. exact E.
Qed.

Lemma extend_extend l ns1 ns2 css :
  extend l ns2 (extend l ns1 css) = extend l (ns2 ++ ns1) css.
Proof.
  unfold extend. destruct (l <=? 0); [reflexivity|].
  destruct (css !! Z.to_nat (l - 1)) eqn:E.
  - rewrite list_lookup_insert_eq by (eapply lookup_lt_Some; exact E).
    rewrite list_insert_insert_eq, app_assoc. reflexivity.
  - rewrite E. reflexivity.
Qed.

Lemma Forall2_linked_ext m m' hs css :
  (forall s x, In s (concat css) -> s <= x < s + 4 -> load8 m' x = load8 m x) ->
  Forall2 (fun h ss => linked m h ss = true) hs css ->
  Forall2 (fun h ss => linked m' h ss = true) hs css.
Proof.
  intros Hm Hl. induction Hl as [|h ss hs css Hh Hl IH]; constructor.
  - rewrite <- Hh. apply linked_ext. intros s i Hs Hi'. apply (Hm s); [|exact Hi'].
    cbn [concat]. apply in_or_app. left. exact Hs.
  - apply IH. intros s x Hs. apply Hm. cbn [concat]. apply in_or_app. right. exact Hs.
Qed.

(** Chains survive whatever leaves their sites and the cells alone. *)
Lemma chains_ok_frame st st' css :
  chains_ok st css ->
  frames st' = frames st -> ind_of st <= ind_of st' ->
  (forall s x, In s (concat css) -> s <= x < s + 4 ->
               load8 (code_of st') x = load8 (code_of st) x) ->
  chains_ok st' css.
Proof.
  rewrite !chains_ok_iff. intros (Hl & Hs & Hb) Hf Hi Hm.
  split; [|split; [exact Hs|]].
  - rewrite Hf. eapply Forall2_linked_ext; eassumption.
  - intros x Hx. specialize (Hb x Hx). lia.
Qed.

(** ** Statements and the chains of the live cells *)

#[global] Instance R_cf_preorder : PreOrder R_cf.
Proof.
  split.
  - intros st. split; reflexivity.
  - intros a b c [H1 H2] [H3 H4]. split; congruence.
Qed.

Lemma chains_ok_at st css :
  chains_ok st css <-> chains_at (code_of st) (ind_of st) (frames st) css.
Proof. apply chains_ok_iff. Qed.

Lemma extend_length l ns css : length (extend l ns css) = length css.
Proof.
  unfold extend. destruct (l <=? 0); [reflexivity|].
  destruct (css !! Z.to_nat (l - 1)); [apply length_insert | reflexivity].
Qed.

Lemma spread_app_inv l1 l2 :
  spread (l1 ++ l2) ->
  spread l1 /\ spread l2 /\ forall x y, In x l1 -> In y l2 -> apart x y = true.
Proof.
  intros H. split; [eapply spread_app_l; exact H|].
  split; [eapply spread_app_r; exact H|].
  destruct H as [N P]. intros x y Hx Hy. apply P.
  - apply in_or_app. left. exact Hx.
  - apply in_or_app. right. exact Hy.
  - intros <-. apply NoDup_app in N as (_ & N & _).
    apply (N x); apply list_elem_of_In; assumption.
Qed.

Lemma apart_below x y b : x + 4 <= b -> b <= y -> apart x y = true.
Proof. intros. unfold apart. apply orb_true_iff. left. apply Z.leb_le. lia. Qed.

Lemma apart_out a s x : apart a s = true -> s <= x < s + 4 -> x < a \/ a + 4 <= x.
Proof.
  unfold apart. intros H Hx. apply orb_true_iff in H as [H|H]; apply Z.leb_le in H; lia.
Qed.

Lemma chains_at_ext m m' b b' hs css :
  chains_at m b hs css -> b <= b' ->
  (forall s x, In s (concat css) -> s <= x < s + 4 -> load8 m' x = load8 m x) ->
  chains_at m' b' hs css.
Proof.
  intros (Hl & Hs & Hb) Hbb Hm. split; [|split; [exact Hs|]].
  - eapply Forall2_linked_ext; eassumption.
  - intros x Hx. specialize (Hb x Hx). lia.
Qed.

Lemma chains_at_low m m' b b' hs css :
  chains_at m b hs css -> b <= b' ->
  (forall x, x < b -> load8 m' x = load8 m x) ->
  chains_at m' b' hs css.
Proof.
  intros H Hbb Hm. eapply chains_at_ext; [exact H | exact Hbb|].
  intros s x Hs Hx. apply Hm. destruct H as (_ & _ & Hb). specialize (Hb s Hs). lia.
Qed.

#[global] Instance R_blk_preorder l : PreOrder (R_blk l).
Proof.
  split.
  - intros st. split; [reflexivity|]. intros css Hok _ _. split; [reflexivity|].
    exists []. rewrite extend_nil. split; [exact Hok | intros x []].
  - intros a b c [C1 H1] [C2 H2]. split; [etransitivity; eassumption|].
    intros css Hok Hp Hb.
    destruct C1 as [I1 _]. destruct C2 as [I2 _]. unfold bounded in *.
    destruct (H1 css Hok Hp) as (F1 & ns1 & Hok1 & Hn1); [unfold bounded; lia|].
    destruct (H2 _ Hok1) as (F2 & ns2 & Hok2 & Hn2); [lia | exact Hb|].
    split.
    + intros x Hx. rewrite F2, F1 by lia. reflexivity.
    + exists (ns2 ++ ns1). rewrite <- extend_extend. split; [exact Hok2|].
      intros x Hx. apply in_app_or in Hx as [Hx|Hx]; [specialize (Hn2 x Hx); lia | auto].
Qed.

Lemma R_good_blk l st st' : R_good st st' -> R_blk l st st'.
Proof.
  intros [E F]. split; [apply E|]. intros css Hok Hp Hb.
  split; [apply F; assumption|].
  exists []. rewrite extend_nil. split; [|intros x []].
  apply chains_ok_at. apply chains_ok_at in Hok.
  destruct E as ([I _] & -> & _).
  eapply chains_at_low; [exact Hok | exact I | apply F; assumption].
Qed.

Lemma R_cf_blk l st st' : R_cf st st' -> R_blk l st st'.
Proof.
  intros [E F]. split; [unfold R_code; rewrite E; split; [lia | reflexivity]|].
  intros css Hok Hp Hb. rewrite E. split; [reflexivity|].
  exists []. rewrite extend_nil. split; [|intros x []].
  apply chains_ok_at. apply chains_ok_at in Hok. rewrite E, F. exact Hok.
Qed.

Lemma R_lex_cf st st' : R_lex st st' -> R_cf st st'.
Proof. unfold R_lex, R_cf. tauto. Qed.

Lemma R_blk_ind l s s' : R_blk l s s' -> ind_of s <= ind_of s'.
Proof. intros [[H _] _]. exact H. Qed.

(** A statement step in the presence of local chains. *)
Lemma blk_locals l s s' css LH LS :
  R_blk l s s' -> 0 < ind_of s -> bounded s' ->
  length (frames s) = length css ->
  chains_at (code_of s) (ind_of s) (frames s ++ LH) (css ++ LS) ->
  (forall x, x < ind_of s -> load8 (code_of s') x = load8 (code_of s) x) /\
  exists ns,
    chains_at (code_of s') (ind_of s') (frames s' ++ LH) (extend l ns css ++ LS) /\
    length (frames s') = length css /\
    (forall x, In x ns -> ind_of s <= x).
Proof.
  intros [C H] Hp Hb Hlen (Hl & Hs & Hbel).
  apply Forall2_app_inv in Hl as [Hl1 Hl2]; [|exact Hlen].
  rewrite concat_app in Hs, Hbel.
  destruct (spread_app_inv _ _ Hs) as (Hs1 & Hs2 & Hx).
  assert (Hok : chains_ok s css).
  { apply chains_ok_at. split; [exact Hl1|]. split; [exact Hs1|].
    intros x Hin. apply Hbel. apply in_or_app. left. exact Hin. }
  destruct (H css Hok Hp Hb) as (F & ns & Hok' & Hn).
  split; [exact F|]. exists ns.
  apply chains_ok_at in Hok'. destruct Hok' as (Hl' & Hs' & Hb').
  destruct C as [I _].
  split; [|split; [|exact Hn]].
  - split; [|split].
    + apply Forall2_app; [exact Hl'|].
      eapply Forall2_linked_ext; [|exact Hl2].
      intros x y Hin Hy. apply F.
      assert (0 < x /\ x + 4 <= ind_of s) by (apply Hbel, in_or_app; right; exact Hin).
      lia.
    + rewrite concat_app. apply spread_app; [exact Hs' | exact Hs2|].
      intros x y Hin Hy.
      assert (0 < y /\ y + 4 <= ind_of s) by (apply Hbel, in_or_app; right; exact Hy).
      apply in_concat_extend in Hin as [Hin|Hin].
      * specialize (Hn x Hin). rewrite apart_sym. eapply apart_below; [|exact Hn]. lia.
      * apply Hx; assumption.
    + rewrite concat_app. intros x Hin. apply in_app_or in Hin as [Hin|Hin].
      * apply Hb'. exact Hin.
      * assert (0 < x /\ x + 4 <= ind_of s) by (apply Hbel, in_or_app; right; exact Hin).
        lia.
  - apply Forall2_length in Hl'. rewrite Hl'. apply extend_length.
Qed.

(** ** Runs inside one statement *)

Lemma reach_init st0 css0 l : chains_ok st0 css0 -> reach st0 css0 l [] [] st0.
Proof.
  intros Hok. apply chains_ok_at in Hok.
  split; [lia|]. split; [reflexivity|].
  split; [destruct Hok as (Hl & _); apply Forall2_length in Hl; exact Hl|].
  split; [intros x []|].
  exists []. rewrite extend_nil, !app_nil_r. split; [exact Hok | intros x []].
Qed.

Lemma reach_final st0 css0 l s :
  reach st0 css0 l [] [] s ->
  (forall x, x < ind_of st0 -> load8 (code_of s) x = load8 (code_of st0) x) /\
  exists ns, chains_ok s (extend l ns css0) /\ (forall x, In x ns -> ind_of st0 <= x).
Proof.
  intros (_ & F & _ & _ & ns & Hc & Hn). split; [exact F|].
  exists ns. rewrite !app_nil_r in Hc. split; [apply chains_ok_at; exact Hc | exact Hn].
Qed.

Lemma reach_ind st0 css0 l LH LS s : reach st0 css0 l LH LS s -> ind_of st0 <= ind_of s.
Proof. intros (H & _). exact H. Qed.

(** A statement, an expression or the lexer runs. *)
Lemma reach_blk st0 css0 l LH LS s s' :
  reach st0 css0 l LH LS s -> R_blk l s s' -> 0 < ind_of st0 -> bounded s' ->
  reach st0 css0 l LH LS s'.
Proof.
  intros (I & F & Hlen & HLS & ns & Hc & Hn) HR Hp Hb.
  pose proof (R_blk_ind _ _ _ HR) as I'.
  rewrite <- (extend_length l ns css0) in Hlen.
  destruct (blk_locals l s s' _ LH LS HR ltac:(lia) Hb Hlen Hc) as (F' & ns' & Hc' & Hlen' & Hn').
  split; [lia|]. split; [intros x Hx; rewrite F', F by lia; reflexivity|].
  split; [rewrite Hlen'; apply extend_length|]. split; [exact HLS|].
  exists (ns' ++ ns). rewrite <- extend_extend. split; [exact Hc'|].
  intros x Hx. apply in_app_or in Hx as [Hx|Hx]; [specialize (Hn' x Hx); lia | auto].
Qed.

Lemma reach_good st0 css0 l LH LS s s' :
  reach st0 css0 l LH LS s -> R_good s s' -> 0 < ind_of st0 -> bounded s' ->
  reach st0 css0 l LH LS s'.
Proof. intros H HR. eapply reach_blk; [exact H|]. apply R_good_blk. exact HR. Qed.

Lemma reach_cf st0 css0 l LH LS s s' :
  reach st0 css0 l LH LS s -> R_cf s s' -> 0 < ind_of st0 -> bounded s' ->
  reach st0 css0 l LH LS s'.
Proof. intros H HR. eapply reach_blk; [exact H|]. apply R_cf_blk. exact HR. Qed.

(** A jump with the link 0 is emitted and kept in a local variable. *)
Lemma reach_create st0 css0 l LH LS s s' a :
  reach st0 css0 l LH LS s -> R_good s s' -> 0 < ind_of st0 -> bounded s' ->
  fresh_site (ind_of s) a s' ->
  reach st0 css0 l (LH ++ [a]) (LS ++ [[a]]) s'.
Proof.
  intros (I & F & Hlen & HLS & ns & Hc & Hn) HR Hp Hb (Ha1 & Ha2 & Ha3 & Ha4).
  pose proof (good_ind _ _ HR) as I'.
  pose proof (good_frame _ _ HR ltac:(lia) Hb) as F'.
  assert (Hfr : frames s' = frames s) by (destruct HR as [(_ & Hf & _) _]; exact Hf).
  split; [lia|]. split; [intros x Hx; rewrite F', F by lia; reflexivity|].
  split; [rewrite Hfr; exact Hlen|].
  split.
  { rewrite concat_app. intros x Hx. apply in_app_or in Hx as [Hx|Hx]; [auto|].
    cbn in Hx. destruct Hx as [<-|[]]. lia. }
  exists ns. split; [|exact Hn].
  assert (Hc' : chains_at (code_of s') (ind_of s) (frames s ++ LH) (extend l ns css0 ++ LS)).
  { eapply chains_at_low; [exact Hc | lia | exact F']. }
  destruct Hc' as (Hl & Hs & Hbel).
  rewrite Hfr, !app_assoc.
  split; [|split].
  - apply Forall2_app; [exact Hl|]. constructor; [|constructor].
    cbn [linked]. rewrite Z.eqb_refl, Ha4.
    replace (a =? 0) with false by (symmetry; apply Z.eqb_neq; lia). reflexivity.
  - rewrite concat_app. apply spread_app; [exact Hs| |].
    + cbn. split; [apply NoDup_singleton|]. intros x y [<-|[]] [<-|[]]. congruence.
    + intros x y Hx [<-|[]]. specialize (Hbel x Hx). eapply apart_below; [|exact Ha1]. lia.
  - rewrite concat_app. intros x Hx. apply in_app_or in Hx as [Hx|Hx].
    + specialize (Hbel x Hx). lia.
    + cbn in Hx. destruct Hx as [<-|[]]. lia.
Qed.

(** A local variable starts as the empty chain. *)
Lemma reach_zero st0 css0 l LH LS s :
  reach st0 css0 l LH LS s -> reach st0 css0 l (LH ++ [0]) (LS ++ [[]]) s.
Proof.
  intros (I & F & Hlen & HLS & ns & Hc & Hn).
  split; [lia|]. split; [exact F|]. split; [exact Hlen|].
  split; [rewrite concat_app, app_nil_r; exact HLS|].
  exists ns. split; [|exact Hn].
  destruct Hc as (Hl & Hs & Hbel). rewrite !app_assoc.
  split; [|rewrite concat_app; cbn [concat]; rewrite app_nil_r; split; assumption].
  apply Forall2_app; [exact Hl|]. constructor; [reflexivity | constructor].
Qed.

Lemma concat_middle (A B : list (list Z)) ss :
  Permutation (concat (A ++ ss :: B)) (ss ++ concat (A ++ B)).
Proof.
  rewrite !concat_app. cbn [concat]. apply Permutation_app_swap_app.
Qed.

(** [gsym] resolves a local chain. *)
Lemma reach_patch st0 css0 l LH1 LH2 LS1 LS2 h ss fuel s s' :
  reach st0 css0 l (LH1 ++ h :: LH2) (LS1 ++ ss :: LS2) s ->
  length LH1 = length LS1 ->
  gsym fuel h s = Ok tt s' ->
  reach st0 css0 l (LH1 ++ LH2) (LS1 ++ LS2) s'.
Proof.
  intros (I & F & Hlen & HLS & ns & Hc & Hn) HL Hg.
  destruct Hc as (Hl & Hs & Hbel).
  rewrite (app_assoc (frames s) LH1), (app_assoc (extend l ns css0) LS1) in Hl.
  rewrite (app_assoc (extend l ns css0) LS1) in Hs, Hbel.
  assert (Hlen2 : length (frames s ++ LH1) = length (extend l ns css0 ++ LS1)).
  { rewrite !length_app, extend_length. lia. }
  apply Forall2_app_inv in Hl as [Hl1 Hl2]; [|exact Hlen2].
  inversion Hl2 as [|? ? ? ? Hh Hl3]; subst.
  pose proof (spread_perm _ _ (concat_middle _ _ _) Hs) as Hs'.
  destruct (spread_app_inv _ _ Hs') as (Hss & Hrest & Hx).
  apply all_apart_spread in Hss.
  destruct (gsym_state _ _ _ _ _ Hg Hh Hss) as (HE & Hi & _ & _ & Hf).
  assert (Hfr : frames s' = frames s) by (destruct HE as (_ & Hfr & _); exact Hfr).
  assert (Hin : forall x, In x ss -> ind_of st0 <= x).
  { intros x Hx'. apply HLS. rewrite concat_app. apply in_or_app. right.
    cbn [concat]. apply in_or_app. left. exact Hx'. }
  assert (Hkeep : forall s0 x, In s0 (concat ((extend l ns css0 ++ LS1) ++ LS2)) ->
            s0 <= x < s0 + 4 -> load8 (code_of s') x = load8 (code_of s) x).
  { intros s0 x Hs0 Hx0. apply Hf. intros y Hy.
    specialize (Hx y s0 Hy Hs0). eapply apart_out; eassumption. }
  split; [lia|].
  split.
  { intros x Hx0. rewrite Hf; [apply F; exact Hx0|].
    intros y Hy. specialize (Hin y Hy). lia. }
  split; [rewrite Hfr; exact Hlen|].
  split.
  { intros x Hx0. apply HLS. rewrite concat_app in Hx0 |- *.
    apply in_app_or in Hx0. apply in_or_app. cbn [concat].
    destruct Hx0; [left; assumption | right; apply in_or_app; right; assumption]. }
  exists ns. split; [|exact Hn].
  rewrite Hfr, Hi, !app_assoc.
  split; [|split; [exact Hrest|]].
  - eapply Forall2_linked_ext; [exact Hkeep|]. apply Forall2_app; assumption.
  - intros x Hx0. apply Hbel. eapply Permutation_in; [symmetry; apply concat_middle|].
    apply in_or_app. right. exact Hx0.
Qed.

(** ** The pieces of a statement *)

#[global] Hint Resolve respects_good_gjmp respects_good_gtst respects_good_li : respects.

Lemma R_good_code s s' : R_good s s' -> R_code s s'.
Proof. intros [[H _] _]. exact H. Qed.

Lemma R_cf_code s s' : R_cf s s' -> R_code s s'.
Proof. intros [H _]. unfold R_code. rewrite H. split; [lia | reflexivity]. Qed.

Lemma R_blk_code l s s' : R_blk l s s' -> R_code s s'.
Proof. intros [H _]. exact H. Qed.

Lemma R_code_ind s s' : R_code s s' -> ind_of s <= ind_of s'.
Proof. intros [H _]. exact H. Qed.

(** The jump of [test_expr] waits for its target. *)
Lemma test_expr_fresh fuel st a s1 :
  test_expr fuel st = Ok a s1 ->
  R_good st s1 /\ (0 < ind_of st -> bounded s1 -> fresh_site (ind_of st) a s1).
Proof.
  unfold test_expr. intros H.
  apply bind_Ok in H as ([] & e & He & H).
  pose proof (respects_good_expr _ _ _ _ He) as G1.
  pose proof (respects_good_gtst _ _ _ _ _ H) as G2.
  split; [etransitivity; eassumption|].
  intros Hp Hb. apply good_ind in G1. unfold bounded in Hb.
  apply gtst_spec in H as (Hi & Ha & _ & Hl & _); [|lia].
  rewrite wrap32_small in Ha by lia. change (wrap32 0) with 0 in Hl.
  subst a. unfold fresh_site. repeat split; first [lia | exact Hl].
Qed.

(** So does [gjmp(0)]. *)
Lemma gjmp_fresh st n s1 :
  gjmp 0 st = Ok n s1 ->
  R_good st s1 /\ (0 < ind_of st -> bounded s1 -> fresh_site (ind_of st) n s1).
Proof.
  intros H. pose proof (respects_good_gjmp _ _ _ _ H) as G.
  split; [exact G|]. intros Hp Hb. unfold bounded in Hb.
  unfold gjmp, X86CodeGenerator.gjmp, psym in H.
  apply oad_one in H as (Hi & Hn & _ & Hl & _); [|lia].
  rewrite wrap32_small in Hn by lia. change (wrap32 0) with 0 in Hl.
  subst n. unfold fresh_site. repeat split; first [lia | exact Hl].
Qed.

Lemma extend_last (E : list (list Z)) ch ns :
  extend (Z.of_nat (S (length E))) ns (E ++ [ch]) = E ++ [ns ++ ch].
Proof.
  unfold extend.
  replace (Z.of_nat (S (length E)) <=? 0) with false by (symmetry; apply Z.leb_gt; lia).
  replace (Z.to_nat (Z.of_nat (S (length E)) - 1)) with (length E + 0)%nat by lia.
  rewrite lookup_app_r by lia.
  replace (length E + 0 - length E)%nat with 0%nat by lia. cbn [lookup list_lookup].
  rewrite insert_app_r. reflexivity.
Qed.

Lemma push_frame_spec a s l' s1 :
  push_frame a s = Ok l' s1 ->
  l' = Z.of_nat (S (length (frames s))) /\ codeBuf s1 = codeBuf s /\
  frames s1 = frames s ++ [a].
Proof. unfold push_frame. intros H. inversion H; subst. sst. auto. Qed.

Lemma pop_frame_spec s2 a' s3 :
  pop_frame s2 = Ok a' s3 ->
  codeBuf s3 = codeBuf s2 /\ frames s2 = frames s3 ++ [a'].
Proof.
  unfold pop_frame. intros H.
  destruct (last (frames s2)) as [v|] eqn:El; [|discriminate].
  inversion H; subst. sst. split; [reflexivity|].
  apply last_Some in El as [Fr El]. rewrite El, removelast_last. reflexivity.
Qed.

(** The body of a loop statement: its [a] becomes the last cell, the body
    extends that chain only, and [a] is a local variable again. *)
Lemma reach_loop st0 css0 l a ch s l' s1 s2 a' s3 :
  reach st0 css0 l [a] [ch] s ->
  push_frame a s = Ok l' s1 -> R_blk l' s1 s2 -> pop_frame s2 = Ok a' s3 ->
  0 < ind_of st0 -> bounded s2 ->
  codeBuf s1 = codeBuf s /\ codeBuf s3 = codeBuf s2 /\
  exists ns', reach st0 css0 l [a'] [ns' ++ ch] s3.
Proof.
  intros (I & F & Hlen & HLS & ns & Hc & Hn) Hpush HB Hpop Hp Hb.
  apply push_frame_spec in Hpush as (-> & Hc1 & Hf1).
  apply pop_frame_spec in Hpop as (Hc3 & Hf3).
  split; [exact Hc1|]. split; [exact Hc3|].
  assert (Hok1 : chains_ok s1 (extend l ns css0 ++ [ch])).
  { apply chains_ok_at. rewrite Hc1, Hf1. exact Hc. }
  destruct HB as [C HB]. pose proof (R_code_ind _ _ C) as I2.
  rewrite Hc1 in I2.
  destruct (HB _ Hok1) as (F2 & ns' & Hok2 & Hn'); [rewrite Hc1; lia | exact Hb|].
  rewrite Hc1 in F2, Hn'.
  apply chains_ok_at in Hok2.
  rewrite <- (extend_length l ns css0) in Hlen. rewrite Hlen in Hok2.
  rewrite extend_last in Hok2. rewrite Hf3 in Hok2.
  exists ns'. unfold reach. rewrite Hc3.
  split; [lia|]. split; [intros x Hx; rewrite F2, F by lia; reflexivity|].
  split.
  { destruct Hok2 as (Hl2 & _). apply Forall2_length in Hl2.
    rewrite !length_app in Hl2. cbn [length] in Hl2.
    rewrite extend_length in *. lia. }
  split.
  { cbn [concat]. rewrite app_nil_r. intros x Hx. apply in_app_or in Hx as [Hx|Hx].
    - specialize (Hn' x Hx). lia.
    - apply HLS. cbn [concat]. rewrite app_nil_r. exact Hx. }
  exists ns. split; [|exact Hn]. exact Hok2.
Qed.

(** [break]: the new jump becomes the head of the chain of cell [l]. *)
Lemma break_segment l :
  respects (R_blk l) (h <- peek_frame l;; s <- gjmp h;; poke_frame l s).
Proof.
  intros st x st' H.
  apply bind_Ok in H as (h & s0 & Hpk & H).
  unfold peek_frame in Hpk. destruct (l <=? 0) eqn:El; [discriminate|].
  destruct (frames st !! Z.to_nat (l - 1)) as [v|] eqn:Ef; [|discriminate].
  inversion Hpk; subst v s0; clear Hpk.
  apply bind_Ok in H as (s & s1 & Hj & H).
  pose proof (respects_good_gjmp _ _ _ _ Hj) as G.
  assert (Hfr : frames s1 = frames st) by (destruct G as [(_ & Hfr & _) _]; exact Hfr).
  unfold poke_frame in H. rewrite El, Hfr, Ef in H. inversion H; subst st'; clear H.
  split; [apply (R_good_code _ _ G)|].
  intros css Hok Hp Hb. unfold bounded in Hb. sst.
  pose proof (good_frame _ _ G Hp Hb) as F.
  split; [exact F|].
  unfold gjmp, X86CodeGenerator.gjmp, psym in Hj.
  apply oad_one in Hj as (Hi & Hs & _ & Hl & _); [|lia].
  rewrite wrap32_small in Hs by lia.
  apply chains_ok_at in Hok. destruct Hok as (Hlk & Hsp & Hbel).
  destruct (Forall2_lookup_l _ _ _ _ _ Hlk Ef) as (ss & Ec & Hh).
  assert (Hhr : wrap32 h = h).
  { destruct (linked_head _ _ _ Hh) as [[-> _]|(ss' & -> & _)]; [reflexivity|].
    assert (0 < h /\ h + 4 <= ind_of st).
    { apply Hbel. apply in_concat. exists (h :: ss').
      split; [|left; reflexivity]. apply list_elem_of_In. eapply list_elem_of_lookup_2. exact Ec. }
    apply wrap32_small. lia. }
  assert (Hss : forall y, In y ss -> In y (concat css)).
  { intros y Hy. apply in_concat. exists ss. split; [|exact Hy].
    apply list_elem_of_In. eapply list_elem_of_lookup_2. exact Ec. }
  exists [s]. split; [|intros y [<-|[]]; lia].
  apply chains_ok_at. sst. unfold extend. rewrite El, Ec.
  split; [|split].
  - apply Forall2_insert.
    + eapply Forall2_linked_ext; [|exact Hlk]. intros y z Hy Hz. apply F.
      specialize (Hbel y Hy). lia.
    + cbn [app linked]. rewrite Z.eqb_refl.
      replace (s =? 0) with false by (symmetry; apply Z.eqb_neq; lia).
      cbn [andb negb]. subst s. rewrite Hl, Hhr. rewrite <- Hh.
      apply linked_ext. intros y z Hy Hz. apply F.
      specialize (Hbel y (Hss y Hy)). lia.
  - eapply spread_perm; [symmetry; apply concat_insert; exact Ec|].
    apply spread_app; [|exact Hsp|].
    + split; [apply NoDup_singleton|]. intros y z [<-|[]] [<-|[]]. congruence.
    + intros y z [<-|[]] Hz. specialize (Hbel z Hz). rewrite apart_sym.
      eapply (apart_below z s (ind_of st)); lia.
  - intros y Hy. eapply Permutation_in in Hy; [|apply concat_insert; exact Ec].
    apply in_app_or in Hy as [[<-|[]]|Hy]; [lia|]. specialize (Hbel y Hy). lia.
Qed.

(** Local declarations neither emit code nor touch a cell. *)
Lemma respects_cf_next fuel : respects R_cf (next fuel).
Proof. eapply respects_weaken; [apply R_lex_cf | apply respects_lex_next]. Qed.
#[global] Hint Resolve respects_cf_next : respects.

Lemma respects_cf_skip fuel c : respects R_cf (skip fuel c).
Proof. eapply respects_weaken; [apply R_lex_cf | apply respects_lex_skip]. Qed.
#[global] Hint Resolve respects_cf_skip : respects.

Lemma respects_cf_poke_var a v : respects R_cf (poke_var a v).
Proof. eapply respects_weaken; [apply R_lex_cf | apply respects_lex_poke_var]. Qed.
#[global] Hint Resolve respects_cf_poke_var : respects.

Ltac leaf_cf := unfold R_cf; sst; split; reflexivity.

Lemma respects_while0_cond (R : relation state) `{!PreOrder R} fuel cond body :
  (forall st x st', cond st = true -> body st = Ok x st' -> R st st') ->
  respects R (while0 fuel cond body).
Proof.
  intros Hb. unfold while0. generalize tt.
  induction fuel as [|fuel IH]; intros u st x st' H; rewrite while_unfold in H.
  - destruct (cond st); [discriminate|]. inversion H; subst. reflexivity.
  - destruct (cond st) eqn:E.
    + apply bind_Ok in H as (y & s1 & H1 & H).
      etransitivity; [eapply Hb; eassumption|]. eapply IH. exact H.
    + inversion H; subst. reflexivity.
Qed.

Lemma decl_local_cf fuel (blk : Z -> M unit) : respects R_cf (decl_body fuel blk 1).
Proof.
  unfold decl_body. apply respects_while0_cond; [typeclasses eauto|].
  intros st x st' E H.
  change (1 =? 0) with false in E. rewrite andb_false_r, orb_false_r in E.
  apply bind_Ok in H as (tk & s0 & E0 & H). inversion E0; subst tk s0; clear E0.
  rewrite E in H. revert H.
  change (negb (1 =? 0)) with true. cbv iota.
  revert st x st' E. intros st x st' _. revert st x st'.
  match goal with |- forall st x st', ?m st = Ok x st' -> _ =>
    change (respects R_cf m) end.
  repeat respects_step leaf_cf.
Qed.

(** ** Statements keep the break chains apart *)

Lemma blk_of_reach l st st' :
  R_code st st' ->
  (forall css, chains_ok st css -> 0 < ind_of st -> bounded st' ->
               reach st css l [] [] st') ->
  R_blk l st st'.
Proof.
  intros C H. split; [exact C|]. intros css Hok Hp Hb. apply reach_final. auto.
Qed.

Lemma codeBuf_code a b : codeBuf b = codeBuf a -> R_code a b.
Proof. intros E. unfold R_code. rewrite E. split; [lia | reflexivity]. Qed.

Lemma R_expr_to_code a b : R_expr a b -> R_code a b.
Proof. intros [H _]. exact H. Qed.

(** The cursor along a run of steps. *)
Ltac code_chain :=
  match goal with
  | |- R_code ?a ?a => reflexivity
  | G : R_good ?a ?b |- R_code ?a _ =>
      transitivity b; [apply (R_good_code _ _ G)|]; code_chain
  | G : R_blk _ ?a ?b |- R_code ?a _ =>
      transitivity b; [apply (R_blk_code _ _ _ G)|]; code_chain
  | G : R_expr ?a ?b |- R_code ?a _ =>
      transitivity b; [apply (R_expr_to_code _ _ G)|]; code_chain
  | G : R_code ?a ?b |- R_code ?a _ =>
      transitivity b; [exact G|]; code_chain
  | G : codeBuf ?b = codeBuf ?a |- R_code ?a _ =>
      transitivity b; [apply (codeBuf_code _ _ G)|]; code_chain
  end.

Ltac inds :=
  repeat match goal with
  | G : R_good ?a ?b |- _ =>
      lazymatch goal with
      | _ : ind_of a <= ind_of b |- _ => fail
      | _ => pose proof (good_ind _ _ G)
      end
  | G : R_blk _ ?a ?b |- _ =>
      lazymatch goal with
      | _ : ind_of a <= ind_of b |- _ => fail
      | _ => pose proof (R_blk_ind _ _ _ G)
      end
  | G : R_expr ?a ?b |- _ =>
      lazymatch goal with
      | _ : ind_of a <= ind_of b |- _ => fail
      | _ => pose proof (R_expr_ind _ _ G)
      end
  | G : R_code ?a ?b |- _ =>
      lazymatch goal with
      | _ : ind_of a <= ind_of b |- _ => fail
      | _ => pose proof (R_code_ind _ _ G)
      end
  | G : codeBuf ?b = codeBuf ?a |- _ =>
      lazymatch goal with
      | _ : ind_of a <= ind_of b |- _ => fail
      | _ => assert (ind_of a <= ind_of b) by (rewrite G; lia)
      end
  end.

Ltac bnd := unfold bounded in *; lia.

(** One step of a run: [Hr] is the reach fact that moves on. *)
Ltac go_good Hr G := eapply reach_good in Hr; [ | exact G | assumption | bnd ].
Ltac go_blk Hr G := eapply reach_blk in Hr; [ | exact G | assumption | bnd ].
Ltac go_create Hr G Hf :=
  eapply reach_create in Hr; [ | exact G | assumption | bnd | apply Hf; bnd ];
  cbn [app] in Hr.

Lemma chain_of_fresh b a s : fresh_site b a s -> chain_of a = [a].
Proof.
  intros (_ & _ & H & _). unfold chain_of.
  replace (a =? 0) with false by (symmetry; apply Z.eqb_neq; lia). reflexivity.
Qed.

(** The [if] statement. *)
Lemma if_segment fuel l (B : M unit) :
  respects (R_blk l) B ->
  respects (R_blk l)
    (next fuel;;
     skip fuel 40;;
     a <- test_expr fuel;;
     skip fuel 41;;
     B;;
     tk <- get tok;;
     if tk =? TOK_ELSE then
       next fuel;;
       n <- gjmp 0;;
       gsym fuel a;;
       B;;
       gsym fuel n
     else
       gsym fuel a).
Proof.
  intros HB st x st' H.
  apply bind_Ok in H as ([] & s1 & H1 & H). pose proof (respects_good_next _ _ _ _ H1) as G1.
  apply bind_Ok in H as ([] & s2 & H2 & H). pose proof (respects_good_skip _ _ _ _ _ H2) as G2.
  apply bind_Ok in H as (a & s3 & H3 & H). destruct (test_expr_fresh _ _ _ _ H3) as [G3 F3].
  apply bind_Ok in H as ([] & s4 & H4 & H). pose proof (respects_good_skip _ _ _ _ _ H4) as G4.
  apply bind_Ok in H as ([] & s5 & H5 & H). pose proof (HB _ _ _ H5) as G5.
  apply bind_Ok in H as (tk & s0 & E & H). inversion E; subst tk s0; clear E.
  destruct (tok s5 =? TOK_ELSE).
  - apply bind_Ok in H as ([] & s6 & H6 & H). pose proof (respects_good_next _ _ _ _ H6) as G6.
    apply bind_Ok in H as (n & s7 & H7 & H). destruct (gjmp_fresh _ _ _ H7) as [G7 F7].
    apply bind_Ok in H as ([] & s8 & H8 & H). pose proof (respects_expr_gsym _ _ _ _ _ H8) as G8.
    apply bind_Ok in H as ([] & s9 & H9 & H). pose proof (HB _ _ _ H9) as G9.
    destruct x. pose proof (respects_expr_gsym _ _ _ _ _ H) as G10.
    apply blk_of_reach; [code_chain|].
    intros css Hok Hp Hb. inds. apply (reach_init _ _ l) in Hok as Hr.
    go_good Hr G1. go_good Hr G2. go_create Hr G3 F3. go_good Hr G4. go_blk Hr G5.
    go_good Hr G6. go_create Hr G7 F7.
    apply (reach_patch st css l [] [n] [] [[n]] a [a] fuel s7 s8) in Hr;
      [|reflexivity | exact H8]. cbn [app] in Hr.
    go_blk Hr G9.
    apply (reach_patch st css l [] [] [] [] n [n] fuel s9 st') in Hr;
      [|reflexivity | exact H]. exact Hr.
  - destruct x. pose proof (respects_expr_gsym _ _ _ _ _ H) as G6.
    apply blk_of_reach; [code_chain|].
    intros css Hok Hp Hb. inds. apply (reach_init _ _ l) in Hok as Hr.
    go_good Hr G1. go_good Hr G2. go_create Hr G3 F3. go_good Hr G4. go_blk Hr G5.
    apply (reach_patch st css l [] [] [] [] a [a] fuel s5 st') in Hr;
      [|reflexivity | exact H]. exact Hr.
Qed.

(** The head of a [while] or [for] statement leaves a local chain: the
    jump of its test, or nothing. *)
Lemma loop_head fuel (t : Z) st n a s1 :
  (if t =? TOK_WHILE then
     n <- getPC;;
     a <- test_expr fuel;;
     ret (n, a)
   else
     tk <- get tok;;
     when (negb (tk =? 59)) (expr fuel);;
     skip fuel 59;;
     n <- getPC;;
     tk <- get tok;;
     a <- (if negb (tk =? 59) then test_expr fuel else ret 0);;
     skip fuel 59;;
     tk <- get tok;;
     if negb (tk =? 41) then
       t <- gjmp 0;;
       expr fuel;;
       pc <- getPC;;
       gjmp (rel_to n pc);;
       gsym fuel t;;
       ret (wrap32 (t + 4), a)
     else ret (n, a)) st = Ok (n, a) s1 ->
  R_code st s1 /\
  forall st0 css0 l,
    reach st0 css0 l [] [] st -> 0 < ind_of st0 -> bounded s1 ->
    reach st0 css0 l [a] [chain_of a] s1.
Proof.
  intros H. destruct (t =? TOK_WHILE).
  - apply bind_Ok in H as (pc & s0 & E & H). inversion E; subst pc s0; clear E.
    apply bind_Ok in H as (a0 & s2 & H2 & H). inversion H; subst; clear H.
    destruct (test_expr_fresh _ _ _ _ H2) as [G F].
    split; [code_chain|]. intros st0 css0 l Hr Hp Hb.
    pose proof (reach_ind _ _ _ _ _ _ Hr).
    rewrite (chain_of_fresh (ind_of st) a s1) by (apply F; bnd).
    go_create Hr G F. exact Hr.
  - apply bind_Ok in H as (tk & s0 & E & H). inversion E; subst tk s0; clear E.
    apply bind_Ok in H as ([] & s2 & H2 & H).
    assert (G2 : R_good st s2).
    { destruct (negb (tok st =? 59)); cbn [when] in H2.
      - apply (respects_good_expr _ _ _ _ H2).
      - inversion H2; subst. reflexivity. }
    apply bind_Ok in H as ([] & s3 & H3 & H). pose proof (respects_good_skip _ _ _ _ _ H3) as G3.
    apply bind_Ok in H as (pc & s0 & E & H). inversion E; subst pc s0; clear E.
    apply bind_Ok in H as (tk & s0 & E & H). inversion E; subst tk s0; clear E.
    apply bind_Ok in H as (a0 & s4 & H4 & H).
    assert (G4 : R_good s3 s4 /\
                 forall st0 css0 l,
                   reach st0 css0 l [] [] s3 -> 0 < ind_of st0 -> bounded s4 ->
                   reach st0 css0 l [a0] [chain_of a0] s4).
    { destruct (negb (tok s3 =? 59)).
      - destruct (test_expr_fresh _ _ _ _ H4) as [G F]. split; [exact G|].
        intros st0 css0 l Hr Hp Hb. pose proof (reach_ind _ _ _ _ _ _ Hr).
        rewrite (chain_of_fresh (ind_of s3) a0 s4) by (apply F; bnd).
        go_create Hr G F. exact Hr.
      - inversion H4; subst. split; [reflexivity|].
        intros st0 css0 l Hr _ _. apply reach_zero in Hr. exact Hr. }
    destruct G4 as [G4 R4].
    apply bind_Ok in H as ([] & s5 & H5 & H). pose proof (respects_good_skip _ _ _ _ _ H5) as G5.
    apply bind_Ok in H as (tk & s0 & E & H). inversion E; subst tk s0; clear E.
    destruct (negb (tok s5 =? 41)).
    + apply bind_Ok in H as (t1 & s6 & H6 & H). destruct (gjmp_fresh _ _ _ H6) as [G6 F6].
      apply bind_Ok in H as ([] & s7 & H7 & H). pose proof (respects_good_expr _ _ _ _ H7) as G7.
      apply bind_Ok in H as (pc & s0 & E & H). inversion E; subst pc s0; clear E.
      apply bind_Ok in H as (j & s8 & H8 & H). pose proof (respects_good_gjmp _ _ _ _ H8) as G8.
      apply bind_Ok in H as ([] & s9 & H9 & H). pose proof (respects_expr_gsym _ _ _ _ _ H9) as G9.
      inversion H; subst; clear H.
      split; [code_chain|]. intros st0 css0 l Hr Hp Hb.
      pose proof (reach_ind _ _ _ _ _ _ Hr). inds.
      go_good Hr G2. go_good Hr G3. apply R4 in Hr; [|assumption | bnd].
      go_good Hr G5. go_create Hr G6 F6. go_good Hr G7. go_good Hr G8.
      apply (reach_patch st0 css0 l [a] [] [chain_of a] [] t1 [t1] fuel s8 s1) in Hr;
        [|reflexivity | exact H9]. cbn [app] in Hr. exact Hr.
    + inversion H; subst; clear H.
      split; [code_chain|]. intros st0 css0 l Hr Hp Hb.
      pose proof (reach_ind _ _ _ _ _ _ Hr). inds.
      go_good Hr G2. go_good Hr G3. apply R4 in Hr; [|assumption | bnd].
      go_good Hr G5. exact Hr.
Qed.

(** The [while] and [for] statements. *)
Lemma loop_segment fuel l (t : Z) (B : Z -> M unit) (head : M (Z * Z)) :
  (forall l', respects (R_blk l') (B l')) ->
  (forall st n a s1, head st = Ok (n, a) s1 ->
     R_code st s1 /\
     forall st0 css0 l,
       reach st0 css0 l [] [] st -> 0 < ind_of st0 -> bounded s1 ->
       reach st0 css0 l [a] [chain_of a] s1) ->
  respects (R_blk l)
    (next fuel;;
     skip fuel 40;;
     na <- head;;
     let '(n, a) := na in
     skip fuel 41;;
     l' <- push_frame a;;
     B l';;
     a <- pop_frame;;
     pc <- getPC;;
     gjmp (rel_to n pc);;
     gsym fuel a).
Proof.
  intros HB Hhead st x st' H.
  apply bind_Ok in H as ([] & s1 & H1 & H). pose proof (respects_good_next _ _ _ _ H1) as G1.
  apply bind_Ok in H as ([] & s2 & H2 & H). pose proof (respects_good_skip _ _ _ _ _ H2) as G2.
  apply bind_Ok in H as ([n a] & s3 & H3 & H). destruct (Hhead _ _ _ _ H3) as [G3 R3].
  apply bind_Ok in H as ([] & s4 & H4 & H). pose proof (respects_good_skip _ _ _ _ _ H4) as G4.
  apply bind_Ok in H as (l' & s5 & H5 & H).
  destruct (push_frame_spec _ _ _ _ H5) as (_ & G5 & _).
  apply bind_Ok in H as ([] & s6 & H6 & H). pose proof (HB _ _ _ _ H6) as G6.
  apply bind_Ok in H as (a' & s7 & H7 & H).
  destruct (pop_frame_spec _ _ _ H7) as (G7 & _).
  apply bind_Ok in H as (pc & s0 & E & H). inversion E; subst pc s0; clear E.
  apply bind_Ok in H as (j & s8 & H8 & H). pose proof (respects_good_gjmp _ _ _ _ H8) as G8.
  destruct x. pose proof (respects_expr_gsym _ _ _ _ _ H) as G9.
  apply blk_of_reach; [code_chain|].
  intros css Hok Hp Hb. inds. apply (reach_init _ _ l) in Hok as Hr.
  go_good Hr G1. go_good Hr G2. apply R3 in Hr; [|assumption | bnd].
  go_good Hr G4.
  destruct (reach_loop _ _ _ _ _ _ _ _ _ _ _ Hr H5 G6 H7 Hp) as (_ & _ & ns' & Hr'); [bnd|].
  go_good Hr' G8.
  apply (reach_patch st css l [] [] [] [] a' (ns' ++ chain_of a) fuel s8 st') in Hr';
    [|reflexivity | exact H]. exact Hr'.
Qed.

Lemma decl_local_blk fuel l : respects (R_blk l) (decl fuel 1).
Proof.
  eapply respects_weaken; [apply R_cf_blk|].
  destruct fuel as [|fuel]; cbn [decl]; [apply respects_timeout | apply decl_local_cf].
Qed.

Ltac leaf_blk := apply R_cf_blk; leaf_cf.

Ltac blk_step :=
  first
    [ match goal with
      | |- respects (R_blk _) (bind (peek_frame _) _) => apply break_segment
      end
    | respects_step leaf_blk
    | eapply respects_weaken; [apply R_good_blk | solve [eauto with respects]] ].

Lemma respects_blk_block fuel : forall l, respects (R_blk l) (block fuel l).
Proof.
  induction fuel as [|fuel IH]; intros l; cbn [block]; [apply respects_timeout|].
  unfold block_body.
  apply respects_bind; [typeclasses eauto | apply respects_get; typeclasses eauto | intros tk].
  destruct (tk =? TOK_IF).
  { apply if_segment. apply IH. }
  destruct ((tk =? TOK_WHILE) || (tk =? TOK_FOR)).
  { cbv zeta. apply (loop_segment fuel l tk (block fuel)); [exact IH|].
    intros st n a s1. apply loop_head. }
  pose proof (IH l) as IHl. pose proof (decl_local_blk fuel l) as Hd.
  destruct (tk =? 123).
  { repeat blk_step. }
  repeat blk_step.
Qed.

Lemma linked_hd m h ss : linked m h ss = true -> h = hd 0 ss.
Proof.
  intros H. destruct (linked_head _ _ _ H) as [[-> ->]|(ss' & -> & _)]; reflexivity.
Qed.

Lemma chains_heads m hs css :
  Forall2 (fun h ss => linked m h ss = true) hs css -> hs = map (hd 0) css.
Proof.
  induction 1 as [|h ss hs css Hh _ IH]; [reflexivity|].
  cbn [map]. rewrite <- IH, <- (linked_hd _ _ _ Hh). reflexivity.
Qed.

Lemma extend_lookup_ne l ns css (i : nat) :
  i <> Z.to_nat (l - 1) -> extend l ns css !! i = css !! i.
Proof.
  intros Hi. unfold extend. destruct (l <=? 0); [reflexivity|].
  destruct (css !! Z.to_nat (l - 1)); [|reflexivity].
  apply list_lookup_insert_ne. auto.
Qed.


(** ** The code buffer: chains, capacity and o *)

(** C1.  [gsym(t)] on a backpatch chain: when the links stored in the
    buffer lead from [t] through the sites [ss] to 0 and the sites do not
    overlap, the walk ends after exactly [length ss] turns (with fewer it is
    still under way), the cursor stays where it is, every site holds the
    displacement [cursor - site - 4], so that the address after the site
    plus the displacement is the cursor, and no byte outside the sites
    changes. *)
Theorem gsym_resolves_chain ss t cb :
  linked (CodeBuf.bytes cb) t ss = true ->
  all_apart ss = true ->
  exists cb',
    CodeBuf.gsym (length ss) t cb = Some cb' /\
    (forall k, (k < length ss)%nat -> CodeBuf.gsym k t cb = None) /\
    CodeBuf.ind cb' = CodeBuf.ind cb /\
    (forall s, In s ss ->
       load32 (CodeBuf.bytes cb') s = wrap32 (CodeBuf.getPC cb - s - 4) /\
       wrap32 (s + 4 + load32 (CodeBuf.bytes cb') s) = CodeBuf.getPC cb) /\
    (forall a, (forall s, In s ss -> a < s \/ s + 4 <= a) ->
       load8 (CodeBuf.bytes cb') a = load8 (CodeBuf.bytes cb) a).
Proof.
  intros Hl Ha.
  destruct (gsym_chain ss t cb Hl Ha) as (cb' & E & En & Hi & _ & Hs & Hf).
  exists cb'. split; [exact E|]. split; [exact En|]. split; [exact Hi|].
  split; [|exact Hf].
  intros s Hin. split; [apply Hs; exact Hin|].
  rewrite (Hs s Hin). rewrite wrap32_add_r.
  replace (s + 4 + (CodeBuf.getPC cb - s - 4)) with (CodeBuf.getPC cb) by lia.
  unfold CodeBuf.getPC. apply wrap32_idem.
Qed.

Lemma gsym_resolves_chain_witness :
  exists cb',
    CodeBuf.gsym 2 0x10006 chain_buf = Some cb' /\
    (forall k, (k < 2)%nat -> CodeBuf.gsym k 0x10006 chain_buf = None) /\
    CodeBuf.ind cb' = CodeBuf.ind chain_buf /\
    (forall s, In s [0x10006; 0x10001] ->
       load32 (CodeBuf.bytes cb') s = wrap32 (CodeBuf.getPC chain_buf - s - 4) /\
       wrap32 (s + 4 + load32 (CodeBuf.bytes cb') s) = CodeBuf.getPC chain_buf) /\
    (forall a, (forall s, In s [0x10006; 0x10001] -> a < s \/ s + 4 <= a) ->
       load8 (CodeBuf.bytes cb') a = load8 (CodeBuf.bytes chain_buf) a).
Proof.
  apply (gsym_resolves_chain [0x10006; 0x10001] 0x10006 chain_buf);
    vm_compute; reflexivity.
Defined.

Lemma ob_ind n cb : CodeBuf.ind (CodeBuf.ob n cb) = CodeBuf.ind cb + 1.
Proof. reflexivity. Qed.

(** C3, as the code has it.  The code buffer and the symbol heap keep no
    capacity: [ob], [o], [oad] and [pdef] return on every state, whatever
    the cursor, and move it on by 1, by 0 to 4, by 4 to 8 bytes and by 1
    byte; the base stays, so [base <= cursor] is kept, and nothing bounds
    the cursor from above. *)
Theorem emission_is_unchecked (st : state) (n t : Z) :
  (exists st', ob n st = Ok tt st' /\ ind_of st' = ind_of st + 1 /\
               CodeBuf.pProgramBase (codeBuf st') = CodeBuf.pProgramBase (codeBuf st)) /\
  (exists st', o n st = Ok tt st' /\
               ind_of st <= ind_of st' <= ind_of st + 4 /\
               CodeBuf.pProgramBase (codeBuf st') = CodeBuf.pProgramBase (codeBuf st)) /\
  (exists a st', oad n t st = Ok a st' /\
               ind_of st + 4 <= ind_of st' <= ind_of st + 8 /\
               CodeBuf.pProgramBase (codeBuf st') = CodeBuf.pProgramBase (codeBuf st)) /\
  (exists st', pdef n st = Ok tt st' /\ heap st' = heap st ++ [byte_of n]).
Proof.
  split; [|split; [|split]].
  - eexists. split; [reflexivity|]. sst. split; reflexivity.
  - eexists. split; [reflexivity|]. sst. split; [apply o_ind | apply o_base].
  - unfold oad, CodeBuf.oad. eexists _, _. split; [reflexivity|]. sst.
    pose proof (o_ind n (codeBuf st)). split; [lia | apply o_base].
  - eexists. split; [reflexivity|]. sst. reflexivity.
Qed.

Lemma emission_overruns_capacity :
  CodeBuf.getSize overrun_buf = 100000 /\
  ALLOC_SIZE < CodeBuf.getSize overrun_buf /\
  load8 (CodeBuf.bytes overrun_buf)
        (CodeBuf.pProgramBase overrun_buf + ALLOC_SIZE) = 255.
Proof. vm_compute. repeat split; reflexivity. Qed.

(** C10, as the code has it.  [o(n)] writes the low byte of [n] and goes on
    with [n >> 8] until what is left is 0 or -1: [o(0)] and [o(-1)] write
    nothing, for [1 <= n <= 255] exactly the byte [n] is written (0xFF for
    255), and otherwise the low byte is written, be it 0x00 or 0xFF, before
    the rest; [ob(n)] always writes the one byte [n mod 256]. *)
Theorem o_writes_low_bytes_first (n : Z) (cb : CodeBuf.t) :
  (n = 0 \/ n = -1 -> CodeBuf.o n cb = cb) /\
  (1 <= n <= 255 -> CodeBuf.o n cb = CodeBuf.ob n cb) /\
  (-2147483648 <= n < 2147483648 -> n <> 0 -> n <> -1 ->
   CodeBuf.o n cb = CodeBuf.o (Z.shiftr n 8) (CodeBuf.ob n cb)) /\
  CodeBuf.ind (CodeBuf.ob n cb) = CodeBuf.ind cb + 1 /\
  load8 (CodeBuf.bytes (CodeBuf.ob n cb)) (CodeBuf.ind cb) = n mod 256.
Proof.
  split; [|split; [|split; [|split]]].
  - intros H. unfold CodeBuf.o. apply o_loop_stop.
    destruct H as [-> | ->]; [left | right]; reflexivity.
  - apply o_one_byte.
  - apply o_unfold.
  - reflexivity.
  - unfold CodeBuf.ob. cbn [CodeBuf.bytes]. apply load8_store8_eq.
Qed.

Lemma o_writes_low_bytes_first_witness :
  CodeBuf.o 255 (CodeBuf.init 0 16) = CodeBuf.ob 255 (CodeBuf.init 0 16) /\
  CodeBuf.o 0x100 (CodeBuf.init 0 16)
  = CodeBuf.o (Z.shiftr 0x100 8) (CodeBuf.ob 0x100 (CodeBuf.init 0 16)).
Proof.
  split.
  - apply (proj1 (proj2 (o_writes_low_bytes_first 255 (CodeBuf.init 0 16)))). lia.
  - apply (proj1 (proj2 (proj2 (o_writes_low_bytes_first 0x100 (CodeBuf.init 0 16)))));
      lia.
Defined.

Lemma o_emits_00_and_ff :
  dump (CodeBuf.bytes (CodeBuf.o 255 (CodeBuf.init 0 16))) 0 1 = [255] /\
  dump (CodeBuf.bytes (CodeBuf.o 0x100 (CodeBuf.init 0 16))) 0 2 = [0; 1].
Proof. vm_compute. split; reflexivity. Qed.

(** ** The lexer: macros, comments, literals and keywords *)

Lemma next_never_exits fuel st s p e : next fuel st <> Exit s p e.
Proof.
  intros H. pose proof (next_never_fails fuel st) as N. rewrite H in N. exact N.
Qed.

Lemma open_comment_diverges fuel st body :
  at_open_comment st body -> next fuel st = OutOfFuel.
Proof.
  intros (Hd & Hc & Hf & Ho).
  destruct st as [tk tkc tkl c vs rs lc gl sy dp dc li h fl fp cb vm gm fr dl].
  cbn [dptr ch file] in *. subst. apply next_open_comment. exact Ho.
Qed.

Lemma char_literal_accepted fuel st f :
  at_char_literal st f ->
  exists st', next (S fuel) st = Ok tt st' /\ tok st' = TOK_NUM /\ tokc st' = peek f.
Proof.
  intros (Hd & Hc & Hf & Hq).
  destruct st as [tk tkc tkl c vs rs lc gl sy dp dc li h fl fp cb vm gm fr dl].
  cbn [dptr ch file] in *. subst. eexists. split; [apply next_char_literal; exact Hq|].
  split; reflexivity.
Qed.

(** C5, as the code has it.  Nothing guards a macro whose body names the
    macro itself: on a use of it [next] replays the body again and again
    and raises no error.  With any fuel that keeps the addresses of the
    growing symbol heap within an [int], the lexer is still running when
    the fuel is used up, and no state makes it leave through [error]. *)
Theorem self_macro_never_returns st c0 w Hpre Hpost f i fuel :
  self_macro_use st c0 w Hpre Hpost f i ->
  sym_stk st + Z.of_nat (length (heap st))
  + Z.of_nat ((length w + 2) * (fuel + length w + 3)) < 2147483648 ->
  next fuel st = OutOfFuel /\ forall s p e, next fuel st <> Exit s p e.
Proof.
  intros Hu Hr. split; [eapply self_macro_diverges; eassumption|].
  intros s p e. apply next_never_exits.
Qed.

Lemma self_macro_state_use :
  self_macro_use self_macro_state 88 [] (firstn 58 (heap self_macro_state)) [2] [] 55.
Proof. vm_compute. repeat split; reflexivity. Qed.

Lemma self_macro_never_returns_witness :
  next 1000 self_macro_state = OutOfFuel /\
  forall s p e, next 1000 self_macro_state <> Exit s p e.
Proof.
  apply (self_macro_never_returns self_macro_state 88 []
           (firstn 58 (heap self_macro_state)) [2] [] 55).
  - vm_compute. repeat split; reflexivity.
  - vm_compute. reflexivity.
Defined.

Lemma self_macro_not_reported : next 4000 self_macro_state = OutOfFuel.
Proof.
  apply (self_macro_diverges self_macro_state 88 []
           (firstn 58 (heap self_macro_state)) [2] [] 55);
    [exact self_macro_state_use | vm_compute; reflexivity].
Qed.







(** ** compile and the driver *)





(** ** The keyword string stays at the start of the symbol heap *)

#[global] Instance R_heap_preorder : PreOrder R_heap.
Proof.
  split.
  - intros st. split; [reflexivity|]. exists []. rewrite app_nil_r. reflexivity.
  - intros a b c [H1 [r1 E1]] [H2 [r2 E2]]. split; [congruence|].
    exists (r1 ++ r2). rewrite E2, E1, app_assoc. reflexivity.
Qed.

Ltac leaf_heap :=
  unfold R_heap; sst; split;
    [reflexivity
    | first [ exists []; rewrite app_nil_r; reflexivity
            | eexists; reflexivity ] ].

Lemma respects_heap_fgetc : respects R_heap fgetc.
Proof.
  intros st x st' H. unfold fgetc in H. destruct (file st); inversion H; subst; leaf_heap.
Qed.
#[global] Hint Resolve respects_heap_fgetc : respects.

Lemma respects_heap_inp : respects R_heap inp.
Proof. unfold inp. repeat respects_step leaf_heap. Qed.
#[global] Hint Resolve respects_heap_inp : respects.

Lemma respects_heap_pdef c : respects R_heap (pdef c).
Proof. unfold pdef. repeat respects_step leaf_heap. Qed.
#[global] Hint Resolve respects_heap_pdef : respects.

Lemma respects_heap_getq : respects R_heap getq.
Proof. unfold getq. repeat respects_step leaf_heap. Qed.
#[global] Hint Resolve respects_heap_getq : respects.

Lemma respects_heap_poke_var a v : respects R_heap (poke_var a v).
Proof. unfold poke_var. repeat respects_step leaf_heap. Qed.
#[global] Hint Resolve respects_heap_poke_var : respects.

Lemma respects_heap_peek_var a : respects R_heap (peek_var a).
Proof. unfold peek_var. repeat respects_step leaf_heap. Qed.
#[global] Hint Resolve respects_heap_peek_var : respects.

Lemma respects_heap_next fuel : respects R_heap (next fuel).
Proof.
  induction fuel as [|fuel IH]; cbn [next]; [apply respects_timeout|].
  unfold next_body. repeat respects_step leaf_heap.
Qed.
#[global] Hint Resolve respects_heap_next : respects.

Lemma respects_heap_skip fuel c : respects R_heap (skip fuel c).
Proof. unfold skip. repeat respects_step leaf_heap. Qed.
#[global] Hint Resolve respects_heap_skip : respects.

Lemma respects_heap_emit f : respects R_heap (emit f).
Proof. unfold emit. repeat respects_step leaf_heap. Qed.
#[global] Hint Resolve respects_heap_emit : respects.

Lemma respects_heap_oad n t : respects R_heap (oad n t).
Proof.
  intros st x st' H. unfold oad in H.
  destruct (CodeBuf.oad n t (codeBuf st)). inversion H; subst. leaf_heap.
Qed.
#[global] Hint Resolve respects_heap_oad : respects.

Lemma respects_heap_getPC : respects R_heap getPC.
Proof. unfold getPC. repeat respects_step leaf_heap. Qed.
#[global] Hint Resolve respects_heap_getPC : respects.

Lemma respects_heap_gsym fuel t : respects R_heap (gsym fuel t).
Proof.
  intros st x st' H. unfold gsym in H.
  destruct (CodeBuf.gsym fuel t (codeBuf st)); inversion H; subst. leaf_heap.
Qed.
#[global] Hint Resolve respects_heap_gsym : respects.

Lemma respects_heap_peek_frame l : respects R_heap (peek_frame l).
Proof.
  intros st x st' H. unfold peek_frame in H. destruct (l <=? 0); [discriminate|].
  destruct (frames st !! Z.to_nat (l - 1)); inversion H; subst. reflexivity.
Qed.
#[global] Hint Resolve respects_heap_peek_frame : respects.

Lemma respects_heap_poke_frame l v : respects R_heap (poke_frame l v).
Proof.
  intros st x st' H. unfold poke_frame in H. destruct (l <=? 0); [discriminate|].
  destruct (frames st !! Z.to_nat (l - 1)); inversion H; subst. leaf_heap.
Qed.
#[global] Hint Resolve respects_heap_poke_frame : respects.

Lemma respects_heap_push_frame a : respects R_heap (push_frame a).
Proof. intros st x st' H. unfold push_frame in H. inversion H; subst. leaf_heap. Qed.
#[global] Hint Resolve respects_heap_push_frame : respects.

Lemma respects_heap_pop_frame : respects R_heap pop_frame.
Proof.
  intros st x st' H. unfold pop_frame in H.
  destruct (last (frames st)); inversion H; subst. leaf_heap.
Qed.
#[global] Hint Resolve respects_heap_pop_frame : respects.

Ltac unfold_gen_heap := unfold_x86; unfold o, ob, poke_code.

Lemma respects_heap_unary_sum fuel :
  (forall l, respects R_heap (unary fuel l)) /\
  (forall l, respects R_heap (sum fuel l)).
Proof.
  induction fuel as [|fuel [IHu IHs]]; (split; intros l); cbn [unary sum];
    try apply respects_timeout.
  - unfold unary_body. unfold_gen_heap. repeat respects_step leaf_heap.
  - unfold sum_body. unfold_gen_heap. repeat respects_step leaf_heap.
Qed.

Lemma respects_heap_block_decl fuel :
  (forall l, respects R_heap (block fuel l)) /\
  (forall l, respects R_heap (decl fuel l)).
Proof.
  induction fuel as [|fuel [IHb IHd]]; (split; intros l); cbn [block decl];
    try apply respects_timeout.
  - pose proof (proj2 (respects_heap_unary_sum fuel) 11) as He.
    unfold block_body. unfold_gen_heap. repeat respects_step leaf_heap.
  - unfold decl_body. unfold_gen_heap. repeat respects_step leaf_heap.
Qed.

Lemma is_prefix_grows p : forall l r, is_prefix p l = true -> is_prefix p (l ++ r) = true.
Proof.
  induction p as [|x p IH]; intros l r H; [reflexivity|].
  destruct l as [|y l]; [discriminate|]. cbn [is_prefix app] in *.
  apply andb_true_iff in H as [H1 H2]. rewrite H1. cbn [andb]. apply IH. exact H2.
Qed.

(** The keyword string is where [compile] put it, and neither the lexer nor
    the parser moves it. *)
Lemma keywords_stay fuel l st st' :
  decl fuel l st = Ok tt st' \/ next fuel st = Ok tt st' ->
  is_prefix (bytes_of_string keywords) (heap st) = true ->
  is_prefix (bytes_of_string keywords) (heap st') = true.
Proof.
  intros H Hp.
  assert (R : R_heap st st').
  { destruct H as [H|H].
    - apply (proj2 (respects_heap_block_decl fuel) l _ _ _ H).
    - apply (respects_heap_next fuel _ _ _ H). }
  destruct R as [_ [r ->]]. apply is_prefix_grows. exact Hp.
Qed.

Lemma keywords_at_start h input :
  is_prefix (bytes_of_string keywords) (heap (compile_init h input)) = true.
Proof. vm_compute. reflexivity. Qed.

(** ** The parser on examples *)

Lemma short_circuit_skips_right_operand_witness :
  exists st1,
    sum 29 9 andand_state = Ok tt st1 /\
    (tokl st1 = 9 ->
     exists st2 st3,
       sum 29 9 st2 = Ok tt st3 /\
       ind_of st2 = ind_of st1 + 8 /\ ind_of st3 < ind_of andand_final - 5 /\
       forall v z, decides 9 v ->
         x86_run 2 (code_of andand_final) (mkCpu (ind_of st1) v z)
           = Some (mkCpu (ind_of andand_final - 5) v (v =? 0)) /\
         x86_run 3 (code_of andand_final) (mkCpu (ind_of st1) v z)
           = Some (mkCpu (ind_of andand_final) (9 - 9) (v =? 0))).
Proof.
  apply (short_circuit_skips_right_operand 29 9 andand_state andand_final);
    [vm_compute; reflexivity | left; reflexivity
    | vm_compute; reflexivity | vm_compute; reflexivity].
Defined.


(** ** What [o] writes, read back *)

Lemma dump_ext m m' n : forall a,
  (forall x, a <= x < a + Z.of_nat n -> load8 m' x = load8 m x) ->
  dump m' a n = dump m a n.
Proof.
  induction n as [|n IH]; intros a H; [reflexivity|]. cbn [dump].
  rewrite H by lia. f_equal. apply IH. intros x Hx. apply H. lia.
Qed.

Lemma dump_app m n1 : forall a n2,
  dump m a (n1 + n2) = dump m a n1 ++ dump m (a + Z.of_nat n1) n2.
Proof.
  induction n1 as [|n1 IH]; intros a n2.
  - cbn [dump Nat.add app]. f_equal. lia.
  - cbn [dump Nat.add app]. f_equal. rewrite IH. f_equal. f_equal. lia.
Qed.

Lemma dump_length m n : forall a, length (dump m a n) = n.
Proof. induction n as [|n IH]; intros a; cbn [dump length]; auto. Qed.

Lemma o_loop_value fuel : forall n cb,
  - 2 ^ (8 * Z.of_nat fuel) <= 2 * n + 1 <= 2 ^ (8 * Z.of_nat fuel) ->
  let cb' := CodeBuf.o_loop fuel n cb in
  let k := CodeBuf.ind cb' - CodeBuf.ind cb in
  0 <= k <= Z.of_nat fuel /\
  le_value (written cb cb') + (if n <? 0 then - 256 ^ k else 0) = n /\
  (n = 0 \/ n = -1 -> k = 0) /\
  (0 < n -> 256 ^ (k - 1) <= n) /\
  (n < -1 -> n < - 256 ^ (k - 1)).
Proof.
  induction fuel as [|fuel IH]; intros n cb Hn; cbv zeta.
  - cbn [CodeBuf.o_loop]. change (2 ^ (8 * Z.of_nat 0)) with 1 in Hn.
    unfold written. replace (CodeBuf.ind cb - CodeBuf.ind cb) with 0 by lia.
    change (Z.to_nat 0) with 0%nat. cbn [dump le_value fold_right].
    split; [lia|]. split; [|lia].
    destruct (n <? 0) eqn:E; [apply Z.ltb_lt in E | apply Z.ltb_ge in E];
      change (256 ^ 0) with 1; lia.
  - cbn [CodeBuf.o_loop].
    destruct ((n =? 0) || (n =? -1)) eqn:E.
    + unfold written. replace (CodeBuf.ind cb - CodeBuf.ind cb) with 0 by lia.
      change (Z.to_nat 0) with 0%nat. cbn [dump le_value fold_right].
      split; [lia|].
      apply orb_true_iff in E as [E|E]; apply Z.eqb_eq in E; subst n;
        (split; [reflexivity | lia]).
    + apply orb_false_iff in E as [E0 E1]. apply Z.eqb_neq in E0, E1.
      replace (8 * Z.of_nat (S fuel)) with (8 * Z.of_nat fuel + 8) in Hn by lia.
      rewrite Z.pow_add_r in Hn by lia. change (2 ^ 8) with 256 in Hn.
      pose proof (Z.div_mod n 256 ltac:(lia)) as Hdm.
      pose proof (Z.mod_pos_bound n 256 ltac:(lia)) as Hmb.
      assert (Hs : Z.shiftr n 8 = n / 256).
      { rewrite Z.shiftr_div_pow2 by lia. reflexivity. }
      specialize (IH (Z.shiftr n 8) (CodeBuf.ob n cb)).
      rewrite Hs in *.
      destruct IH as (Hk & Hv & Hz & Hpos & Hneg); [lia|].
      set (cb' := CodeBuf.o_loop fuel (n / 256) (CodeBuf.ob n cb)) in *.
      change (CodeBuf.ind (CodeBuf.ob n cb)) with (CodeBuf.ind cb + 1) in *.
      set (k' := CodeBuf.ind cb' - (CodeBuf.ind cb + 1)) in *.
      assert (Ek : CodeBuf.ind cb' - CodeBuf.ind cb = k' + 1) by (unfold k'; lia).
      split; [lia|].
      assert (Hw : written cb cb' = n mod 256 :: written (CodeBuf.ob n cb) cb').
      { unfold written.
        change (CodeBuf.ind (CodeBuf.ob n cb)) with (CodeBuf.ind cb + 1).
        fold k'. rewrite Ek.
        replace (Z.to_nat (k' + 1)) with (S (Z.to_nat k')) by lia.
        cbn [dump]. f_equal.
        unfold cb'. rewrite o_loop_bytes by (left; cbn [CodeBuf.ind CodeBuf.ob]; lia).
        unfold CodeBuf.ob. cbn [CodeBuf.bytes]. apply load8_store8_eq. }
      rewrite Hw, Ek. cbn [le_value fold_right].
      fold (le_value (written (CodeBuf.ob n cb) cb')).
      rewrite Z.pow_add_r by lia. change (256 ^ 1) with 256.
      replace (k' + 1 - 1) with k' by lia.
      assert (Hsg : (n / 256 <? 0) = (n <? 0)).
      { destruct (n <? 0) eqn:En; [apply Z.ltb_lt in En; apply Z.ltb_lt
                                   | apply Z.ltb_ge in En; apply Z.ltb_ge]; lia. }
      rewrite Hsg in Hv.
      assert (Hp : forall j, 0 < j -> 256 ^ j = 256 * 256 ^ (j - 1)).
      { intros j Hj. replace j with (j - 1 + 1) at 1 by lia.
        rewrite Z.pow_add_r by lia. change (256 ^ 1) with 256. lia. }
      split; [destruct (n <? 0); lia|].
      split; [lia|].
      split.
      * intros Hn0. destruct (Z.eq_dec (n / 256) 0) as [Eq|Eq].
        { rewrite (Hz ltac:(lia)). change (256 ^ 0) with 1. lia. }
        specialize (Hpos ltac:(lia)).
        destruct (Z.eq_dec k' 0) as [E|E].
        { rewrite E. change (256 ^ 0) with 1. lia. }
        rewrite (Hp k') by lia. lia.
      * intros Hn0. destruct (Z.eq_dec (n / 256) (-1)) as [Eq|Eq].
        { rewrite (Hz ltac:(lia)). change (256 ^ 0) with 1. lia. }
        specialize (Hneg ltac:(lia)).
        destruct (Z.eq_dec k' 0) as [E|E].
        { rewrite E. change (256 ^ 0) with 1. lia. }
        rewrite (Hp k') by lia. lia.
Qed.

(** X1.  [o(n)], read back: for every [int] [n], [o] writes at most four
    bytes, low byte first, and as few as possible; read as a little-endian
    number and extended by zeros ([n >= 0]) or by ones ([n < 0]) they give
    [n] back.  The base and the bytes written before stay. *)
Theorem o_little_endian (n : Z) (cb : CodeBuf.t) :
  -2147483648 <= n < 2147483648 ->
  let cb' := CodeBuf.o n cb in
  let k := CodeBuf.ind cb' - CodeBuf.ind cb in
  0 <= k <= 4 /\
  le_value (written cb cb') + (if n <? 0 then - 256 ^ k else 0) = n /\
  (0 < n -> 256 ^ (k - 1) <= n) /\
  (n < -1 -> n < - 256 ^ (k - 1)) /\
  CodeBuf.pProgramBase cb' = CodeBuf.pProgramBase cb /\
  (forall a, a < CodeBuf.ind cb ->
             load8 (CodeBuf.bytes cb') a = load8 (CodeBuf.bytes cb) a).
Proof.
  intros Hn. cbv zeta. unfold CodeBuf.o. rewrite wrap32_small by exact Hn.
  destruct (o_loop_value 4 n cb) as (Hk & Hv & _ & Hp & Hm).
  { change (2 ^ (8 * Z.of_nat 4)) with 4294967296. lia. }
  split; [exact Hk|]. split; [exact Hv|]. split; [exact Hp|]. split; [exact Hm|].
  split; [apply o_loop_base|]. intros a Ha. apply o_loop_bytes. left. exact Ha.
Qed.

Lemma o_little_endian_witness :
  let cb := CodeBuf.init 0x10000 ALLOC_SIZE in
  let cb' := CodeBuf.o 0xe58955 cb in
  let k := CodeBuf.ind cb' - CodeBuf.ind cb in
  0 <= k <= 4 /\
  le_value (written cb cb') + (if 0xe58955 <? 0 then - 256 ^ k else 0) = 0xe58955 /\
  (0 < 0xe58955 -> 256 ^ (k - 1) <= 0xe58955) /\
  (0xe58955 < -1 -> 0xe58955 < - 256 ^ (k - 1)) /\
  CodeBuf.pProgramBase cb' = CodeBuf.pProgramBase cb /\
  (forall a, a < CodeBuf.ind cb ->
             load8 (CodeBuf.bytes cb') a = load8 (CodeBuf.bytes cb) a).
Proof.
  apply (o_little_endian 0xe58955 (CodeBuf.init 0x10000 ALLOC_SIZE)). lia.
Defined.

(** ** What the lexer, an expression and the declarations leave alone *)

(** X2.  [oad(n, t)] and [psym(n, t)] return the address of the word they
    reserve: it lies behind the bytes of [n], the cursor ends four bytes
    after it, reading the word gives [t] back, and nothing before the old
    cursor changes. *)
Theorem oad_returns_its_site (n t : Z) (st : state) (a : Z) (st' : state) :
  oad n t st = Ok a st' ->
  exists i,
    a = wrap32 i /\ ind_of st <= i <= ind_of st + 4 /\ ind_of st' = i + 4 /\
    load32 (code_of st') i = wrap32 t /\
    psym n t st = Ok a st' /\
    (forall x, x < ind_of st ->
               load8 (code_of st') x = load8 (code_of st) x).
Proof.
  intros H. destruct (oad_site n t st a st' H) as (i & Ha & Hi & Hi' & Hl & Hf & _).
  exists i. repeat split; try tauto; try lia.
  intros x Hx. apply Hf. left. exact Hx.
Qed.

Lemma oad_returns_its_site_witness :
  exists i,
    0x10001 = wrap32 i /\
    ind_of (compile_init sample_host []) <= i <= ind_of (compile_init sample_host []) + 4 /\
    ind_of (state_after (oad 0xe9 77 (compile_init sample_host []))
                        (compile_init sample_host [])) = i + 4 /\
    load32 (code_of (state_after (oad 0xe9 77 (compile_init sample_host []))
                                 (compile_init sample_host []))) i = wrap32 77 /\
    psym 0xe9 77 (compile_init sample_host [])
    = Ok 0x10001 (state_after (oad 0xe9 77 (compile_init sample_host []))
                              (compile_init sample_host [])) /\
    (forall x, x < ind_of (compile_init sample_host []) ->
       load8 (code_of (state_after (oad 0xe9 77 (compile_init sample_host []))
                                   (compile_init sample_host []))) x
       = load8 (code_of (compile_init sample_host [])) x).
Proof.
  apply (oad_returns_its_site 0xe9 77 (compile_init sample_host []) 0x10001).
  vm_compute. reflexivity.
Defined.





(** X5.  An expression only appends code: when [expr] returns, the cursor
    has not moved back, the base is the same, the cells of the loops, [rsym]
    and [loc] are untouched, and (the cursor being a positive [int]) what
    [dump] would write before the expression is the start of what it writes
    after it. *)
Theorem expr_only_appends fuel st st' :
  expr fuel st = Ok tt st' ->
  0 < CodeBuf.pProgramBase (codeBuf st) <= ind_of st -> bounded st' ->
  ind_of st <= ind_of st' /\
  CodeBuf.pProgramBase (codeBuf st') = CodeBuf.pProgramBase (codeBuf st) /\
  frames st' = frames st /\ rsym st' = rsym st /\ loc st' = loc st /\
  dump_bytes st'
  = dump_bytes st
    ++ dump (code_of st') (ind_of st) (Z.to_nat (ind_of st' - ind_of st)).
Proof.
  intros H Hb Hbd.
  destruct (respects_good_expr fuel st tt st' H) as [[[Hi Hbase] (Hf & Hr & Hl)] Hfr].
  split; [exact Hi|]. split; [exact Hbase|]. split; [exact Hf|].
  split; [exact Hr|]. split; [exact Hl|].
  unfold dump_bytes, CodeBuf.getSize. rewrite Hbase.
  replace (Z.to_nat (ind_of st' - CodeBuf.pProgramBase (codeBuf st)))
    with (Z.to_nat (ind_of st - CodeBuf.pProgramBase (codeBuf st))
          + Z.to_nat (ind_of st' - ind_of st))%nat by lia.
  rewrite dump_app. f_equal.
  - apply dump_ext. intros x Hx. apply Hfr; [lia | exact Hbd | lia].
  - f_equal. lia.
Qed.

Lemma expr_only_appends_witness :
  ind_of arith_state <= ind_of arith_final /\
  CodeBuf.pProgramBase (codeBuf arith_final)
  = CodeBuf.pProgramBase (codeBuf arith_state) /\
  frames arith_final = frames arith_state /\ rsym arith_final = rsym arith_state /\
  loc arith_final = loc arith_state /\
  dump_bytes arith_final
  = dump_bytes arith_state
    ++ dump (code_of arith_final) (ind_of arith_state)
            (Z.to_nat (ind_of arith_final - ind_of arith_state)).
Proof.
  apply (expr_only_appends 30); vm_compute; try reflexivity.
  split; [reflexivity | discriminate].
Defined.

(** ** Numbers, escapes and white space *)

(** *** strtol on decimal digits *)

Lemma strtol_digits_sat ds : forall acc,
  0 <= acc -> forallb isdigit ds = true ->
  strtol_digits 10 ds (Z.min acc LONG_MAX)
  = Z.min (fold_left (fun a d => a * 10 + (d - 48)) ds acc) LONG_MAX.
Proof.
  induction ds as [|d ds IH]; intros acc Ha Hd; [reflexivity|].
  cbn [forallb] in Hd. apply andb_true_iff in Hd as [Hd Hds].
  cbn [strtol_digits fold_left]. unfold digit_val. rewrite Hd.
  unfold isdigit in Hd. zbool.
  replace (d - 48 <? 10) with true by (symmetry; apply Z.ltb_lt; lia).
  rewrite <- IH by (try assumption; lia). f_equal.
  unfold LONG_MAX. lia.
Qed.

Lemma strtol_digits_app ds r : forall acc,
  forallb isdigit ds = true -> isdigit (peek r) = false ->
  strtol_digits 10 (ds ++ r) acc = strtol_digits 10 ds acc.
Proof.
  induction ds as [|d ds IH]; intros acc Hd Hr.
  - destruct r as [|x r]; [reflexivity|]. cbn [app strtol_digits peek] in *.
    unfold digit_val. rewrite Hr.
    destruct ((97 <=? x) && (x <=? 122)) eqn:E1.
    { zbool. replace (x - 87 <? 10) with false by (symmetry; apply Z.ltb_ge; lia).
      reflexivity. }
    destruct ((65 <=? x) && (x <=? 90)) eqn:E2; [|reflexivity].
    zbool; replace (x - 55 <? 10) with false by (symmetry; apply Z.ltb_ge; lia);
      reflexivity.
  - cbn [forallb] in Hd. apply andb_true_iff in Hd as [Hd Hds].
    cbn [app strtol_digits]. unfold digit_val. rewrite Hd.
    destruct (d - 48 <? 10); [|reflexivity]. apply IH; assumption.
Qed.

Lemma strtol_decimal c ds r :
  isdigit c = true -> c <> 48 -> forallb isdigit ds = true ->
  isdigit (peek r) = false ->
  strtol (c :: ds ++ r) = Z.min (decimal (c :: ds)) LONG_MAX.
Proof.
  intros Hc H0 Hds Hr.
  assert (E : strtol (c :: ds ++ r) = strtol_digits 10 (c :: ds ++ r) 0).
  { unfold isdigit in Hc. zbool.
    assert (Hcase : c = 49 \/ c = 50 \/ c = 51 \/ c = 52 \/ c = 53 \/ c = 54 \/
                    c = 55 \/ c = 56 \/ c = 57) by lia.
    repeat (destruct Hcase as [-> | Hcase]; [reflexivity|]). subst c. reflexivity. }
  rewrite E. change (c :: ds ++ r) with ((c :: ds) ++ r).
  rewrite strtol_digits_app; [|cbn [forallb]; rewrite Hc, Hds; reflexivity|exact Hr].
  change 0 with (Z.min 0 LONG_MAX) at 1.
  apply strtol_digits_sat; [lia|]. cbn [forallb]. rewrite Hc, Hds. reflexivity.
Qed.

(** *** A number *)

Lemma last_id_string sy h w :
  -2147483648 <= sy -> sy + Z.of_nat (length h) + 1 < 2147483648 ->
  forallb isidc w = true ->
  cstr (heap_from sy (h ++ TAG_TOK :: w)
          (wrap32 (sy + Z.of_nat (length (h ++ [TAG_TOK]))))) = w.
Proof.
  intros H1 H2 Hw. rewrite length_app. cbn [length].
  rewrite wrap32_small by lia. unfold heap_from.
  replace (sy + Z.of_nat (length h + 1) <? sy) with false
    by (symmetry; apply Z.ltb_ge; lia).
  replace (sy + Z.of_nat (length h + 1) - sy) with (Z.of_nat (length h + 1)) by lia.
  rewrite Nat2Z.id.
  change (h ++ TAG_TOK :: w) with (h ++ [TAG_TOK] ++ w). rewrite app_assoc.
  replace (length h + 1)%nat with (length (h ++ [TAG_TOK]))
    by (rewrite length_app; reflexivity).
  rewrite drop_app_length.
  rewrite <- (app_nil_r w) at 1. rewrite cstr_ident by exact Hw.
  cbn [cstr]. apply app_nil_r.
Qed.

Lemma isdigit_isidc c : isdigit c = true -> isidc c = true.
Proof.
  intros H. unfold isidc, isalnum. rewrite H. rewrite orb_true_r. reflexivity.
Qed.

Lemma next_number fuel c w f tk tkc tkl vs rs lc gl sy dc li h fp cb vm gm fr dl :
  forallb isidc (c :: w) = true ->
  isdigit c = true ->
  isidc (peek f) = false ->
  (length w < fuel)%nat ->
  -2147483648 <= sy -> sy + Z.of_nat (length h) + 1 < 2147483648 ->
  next (S fuel)
    (mkState tk tkc tkl c vs rs lc gl sy 0 dc li h (w ++ f) fp cb vm gm fr dl) =
  Ok tt (mkState TOK_NUM (strtol (c :: w)) 0 (peek f) vs rs lc gl sy 0 dc
           (wrap32 (sy + Z.of_nat (length (h ++ [TAG_TOK]))))
           (h ++ TAG_TOK :: c :: w) (tail f)
           (fadv f (fp + Z.of_nat (length w))) cb vm gm fr dl).
Proof.
  intros Hw Hd Hf Hfuel Hr1 Hr2.
  assert (Hc : isidc c = true) by (apply isdigit_isidc; exact Hd).
  cbn [next]. unfold next_body.
  match goal with
  | |- context [bind (while0 ?f ?cd ?b) ?k ?st] =>
      rewrite (bind_run (while0 f cd b) k st tt st
                 (while0_false f cd b st (isidc_not_space c Hc)))
  end.
  mrun. rewrite isid_eq, Hc.
  rewrite (bind_run _ _ _ _ _ (pdef_eq _ _ _ _ _ _ _ _ _ _ _ _ _ _ _ _ _ _ _ _ _)).
  mrun. unfold dstk at 1. sproj.
  rewrite (bind_run _ _ _ _ _ (ident_loop w c fuel _ _ _ _ _ _ _ _ _ _ _ _ _ _ _ _ _ _ Hw Hf Hfuel)).
  mrun. rewrite Hd.
  mrun.
  rewrite (isidc_bytes _ Hw).
  change (byte_of TAG_TOK) with TAG_TOK.
  rewrite <- !app_assoc. cbn [app].
  rewrite (last_id_string sy h (c :: w) Hr1 Hr2 Hw). reflexivity.
Qed.

(** *** A character literal with a backslash *)

Lemma next_escaped_literal fuel c f tk tkc tkl vs rs lc gl sy dc li h fp cb vm gm fr dl :
  next (S fuel)
    (mkState tk tkc tkl 39 vs rs lc gl sy 0 dc li h (92 :: c :: f) fp cb vm gm fr dl) =
  Ok tt (mkState TOK_NUM (if c =? 110 then 10 else c) 0 (peek (tail f)) vs rs lc gl
           sy 0 dc li h (tail (tail f)) (fadv (tail f) (fadv f (fp + 2)))
           cb vm gm fr dl).
Proof.
  cbn [next]. unfold next_body.
  match goal with
  | |- context [bind (while0 ?f ?cd ?b) ?k ?st] =>
      rewrite (bind_run (while0 f cd b) k st tt st
                 (while0_false f cd b st eq_refl))
  end.
  mrun. rewrite isid_eq. change (isidc 39) with false. cbv iota.
  rewrite (bind_run _ _ _ _ _ (inp_file _ _ _ _ _ _ _ _ _ _ _ _ _ _ _ _ _ _ _)).
  mrun. change (39 =? 39) with true. cbv iota. mrun.
  unfold getq. mrun. cbn [peek tail fadv].
  change (92 =? 92) with true. sproj. mrun.
  rewrite (bind_run _ _ _ _ _ (inp_file _ _ _ _ _ _ _ _ _ _ _ _ _ _ _ _ _ _ _)).
  cbn [peek tail fadv]. mrun.
  replace (fp + 1 + 1) with (fp + 2) by lia.
  destruct (c =? 110); sproj; mrun;
    rewrite (bind_run _ _ _ _ _ (inp_file _ _ _ _ _ _ _ _ _ _ _ _ _ _ _ _ _ _ _));
    rewrite inp_file; reflexivity.
Qed.

(** *** White space *)

Lemma isspace_not_hash c : isspace c = true -> (c =? 35) = false.
Proof.
  unfold isspace. intros H. apply Z.eqb_neq. zbool; lia.
Qed.

Lemma space_loop (d : M unit) ws : forall c fuel tk tkc tkl vs rs lc gl sy dc li h f fp cb vm gm fr dl,
  forallb isspace (c :: ws) = true ->
  isspace (peek f) = false -> peek f <> 35 ->
  (length ws < fuel)%nat ->
  while0 fuel (fun st => isspace (ch st) || (ch st =? 35))
    (c <- get ch;; when (c =? 35) d;; inp)
    (mkState tk tkc tkl c vs rs lc gl sy 0 dc li h (ws ++ f) fp cb vm gm fr dl) =
  Ok tt (mkState tk tkc tkl (peek f) vs rs lc gl sy 0 dc li h (tail f)
           (fadv f (fp + Z.of_nat (length ws))) cb vm gm fr dl).
Proof.
  induction ws as [|c' ws IH];
    intros c fuel tk tkc tkl vs rs lc gl sy dc li h f fp cb vm gm fr dl Hw Hf Hh Hfuel;
    (destruct fuel as [|fuel]; [cbn [length] in Hfuel; lia|]);
    cbn [forallb] in Hw; apply andb_true_iff in Hw as [Hc Hw];
    unfold while0; rewrite while_unfold; cbv beta; cbn [ch]; rewrite Hc;
    cbn [orb]; mrun; rewrite (isspace_not_hash c Hc); sproj; mrun;
    rewrite (bind_run _ _ _ _ _ (inp_file _ _ _ _ _ _ _ _ _ _ _ _ _ _ _ _ _ _ _)).
  - cbn [app]. rewrite while_unfold. cbv beta. cbn [ch]. rewrite Hf.
    replace (peek f =? 35) with false by (symmetry; apply Z.eqb_neq; exact Hh).
    cbn [orb length Z.of_nat]. rewrite Z.add_0_r. reflexivity.
  - cbn [app peek tail fadv].
    match goal with
    | |- while_ ?n ?cd ?b tt ?s = _ =>
        change (while_ n cd b tt s)
          with (while0 n (fun st => isspace (ch st) || (ch st =? 35))
                  (c <- get ch;; when (c =? 35) d;; inp) s)
    end.
    rewrite IH; [|exact Hw|exact Hf|exact Hh|cbn [length] in Hfuel; lia].
    cbn [length].
    replace (fp + 1 + Z.of_nat (length ws)) with (fp + Z.of_nat (S (length ws))) by lia.
    reflexivity.
Qed.

(** X6.  A number: on a digit the lexer takes every letter, digit and
    underscore that follows, pushes them on the symbol heap behind a tag and
    gives [strtol] of them as a number token; for decimal digits followed by
    anything else the value is their decimal value, at most [LONG_MAX], and
    the letters after them are dropped without a word. *)
Theorem number_token c w f fuel st :
  lexer_at st (c :: w) f -> isdigit c = true -> forallb isidc w = true ->
  heap_in_int st -> (length w < fuel)%nat ->
  exists st',
    next (S fuel) st = Ok tt st' /\
    tok st' = TOK_NUM /\ tokc st' = strtol (c :: w) /\ tokl st' = 0 /\
    ch st' = peek f /\ file st' = tail f /\ dptr st' = 0 /\
    heap st' = heap st ++ TAG_TOK :: c :: w /\
    R_lex st st' /\
    (forall ds r, w = ds ++ r -> c <> 48 -> forallb isdigit ds = true ->
                  isdigit (peek r) = false ->
                  tokc st' = Z.min (decimal (c :: ds)) LONG_MAX).
Proof.
  intros (Hd & Hw & Hf) Hc Hws (Hr1 & Hr2) Hfuel.
  destruct st as [tk tkc tkl c0 vs rs lc gl sy dp dc li h fl fp cb vm gm fr dl].
  cbn [dptr ch file heap sym_stk] in *. subst dp.
  cbn [app] in Hw. injection Hw as -> ->.
  eexists. split.
  - apply next_number; try assumption.
    cbn [forallb]. rewrite (isdigit_isidc c Hc), Hws. reflexivity.
  - sproj. repeat split; try reflexivity.
    intros ds r -> H0 Hds Hr. apply strtol_decimal; assumption.
Qed.

Lemma number_token_witness :
  exists st',
    next 7 number_state = Ok tt st' /\
    tok st' = TOK_NUM /\ tokc st' = 123 /\
    ch st' = 59 /\
    heap st' = heap number_state ++ TAG_TOK :: bytes_of_string "123abc".
Proof.
  destruct (number_token 49 (bytes_of_string "23abc") (bytes_of_string ";") 6
              number_state)
    as (st' & H & Ht & _ & _ & Hc & _ & _ & Hh & _ & Hdec).
  - vm_compute. repeat split; reflexivity.
  - reflexivity.
  - reflexivity.
  - vm_compute. split; [discriminate | reflexivity].
  - vm_compute. lia.
  - exists st'. split; [exact H|]. split; [exact Ht|].
    split; [|split; [exact Hc | exact Hh]].
    apply (Hdec [50; 51] (bytes_of_string "abc")); [reflexivity | lia | reflexivity..].
Defined.

(** X7.  A character literal with a backslash: only "\n" is translated, to
    the line feed; after any other backslash the character itself is the
    value (so a quote, a backslash, but also 't' for "\t" and '0' for "\0").
    The character after it is dropped unlooked-at and the one after that
    becomes [ch]. *)
Theorem escaped_char_literal fuel st c f :
  at_escaped_literal st c f ->
  exists st',
    next (S fuel) st = Ok tt st' /\
    tok st' = TOK_NUM /\ tokc st' = (if c =? 110 then 10 else c) /\
    ch st' = peek (tail f) /\ file st' = tail (tail f) /\
    heap st' = heap st /\ R_lex st st'.
Proof.
  intros (Hd & Hc & Hf).
  destruct st as [tk tkc tkl c0 vs rs lc gl sy dp dc li h fl fp cb vm gm fr dl].
  cbn [dptr ch file] in *. subst. eexists. split; [apply next_escaped_literal|].
  sproj. repeat split; reflexivity.
Qed.

Lemma escaped_char_literal_witness :
  exists st',
    next 1 escape_state = Ok tt st' /\
    tok st' = TOK_NUM /\ tokc st' = (if 116 =? 110 then 10 else 116) /\
    ch st' = peek (tail [39]) /\ file st' = tail (tail [39]) /\
    heap st' = heap escape_state /\ R_lex escape_state st'.
Proof.
  apply (escaped_char_literal 0 escape_state 116 [39]).
  vm_compute. repeat split; reflexivity.
Defined.

(** X8.  White space means nothing to the lexer: standing on blanks, tabs
    and line ends read from the file, [next] does what it does on the first
    character after them, the offset in the file apart. *)
Theorem white_space_is_skipped fuel st ws f :
  at_white_space st ws f -> (length ws <= fuel)%nat ->
  next (S fuel) st = next (S fuel) (resumed st (length ws - 1) f).
Proof.
  intros (Hd & Hw & Hne & Hs & Hf & Hh) Hfuel.
  destruct st as [tk tkc tkl c0 vs rs lc gl sy dp dc li h fl fp cb vm gm fr dl].
  cbn [dptr ch file] in *. subst dp.
  destruct ws as [|c ws]; [congruence|]. cbn [app] in Hw. injection Hw as -> ->.
  unfold resumed. sproj.
  cbn [next]. unfold next_body.
  match goal with
  | |- bind (while0 ?n ?cd (c1 <- get ch;; when (c1 =? 35) ?d;; inp)) ?k ?s = _ =>
      rewrite (bind_run _ k s tt _
                 (space_loop d ws c n _ _ _ _ _ _ _ _ _ _ _ _ _ _ _ _ _ _ Hs Hf Hh
                    ltac:(cbn [length] in Hfuel; lia)))
  end.
  match goal with
  | |- _ = bind (while0 ?n ?cd ?b) ?k ?s =>
      rewrite (bind_run (while0 n cd b) k s tt s)
  end.
  - cbn [length]. replace (S (length ws) - 1)%nat with (length ws) by lia. reflexivity.
  - apply while0_false. cbn [ch]. rewrite Hf.
    replace (peek f =? 35) with false by (symmetry; apply Z.eqb_neq; exact Hh).
    reflexivity.
Qed.

Lemma white_space_is_skipped_witness :
  next 4 blank_state
  = next 4 (resumed blank_state (length (bytes_of_string "   ") - 1)
              (bytes_of_string "x")).
Proof.
  apply (white_space_is_skipped 3 blank_state (bytes_of_string "   ")
           (bytes_of_string "x")).
  - vm_compute. repeat split; try reflexivity; discriminate.
  - vm_compute. lia.
Defined.

(** ** The diagnostics of the parser *)

Section Expected.
Context (F : Prop).

Lemma lexer_expected {A} (m : M A) : never_fails m -> fails_with expected F m.
Proof. apply fails_weaken; tauto. Qed.

Lemma next_expected fuel : fails_with expected F (next fuel).
Proof. apply lexer_expected, next_never_fails. Qed.

Lemma inp_expected : fails_with expected F inp.
Proof. apply lexer_expected, inp_never_fails. Qed.

Lemma getq_expected : fails_with expected F getq.
Proof. apply lexer_expected, getq_never_fails. Qed.

Lemma emit_expected f : fails_with expected F (emit f).
Proof. unfold emit. repeat fails_step. Qed.

Lemma oad_expected n t : fails_with expected F (oad n t).
Proof. intros st. unfold oad. destruct (CodeBuf.oad n t (codeBuf st)). exact I. Qed.

Lemma gsym_expected fuel t : fails_with expected F (gsym fuel t).
Proof. intros st. unfold gsym. destruct (CodeBuf.gsym fuel t (codeBuf st)); exact I. Qed.

Lemma skip_expected fuel c :
  c = 40 \/ c = 41 \/ c = 42 \/ c = 59 -> fails_with expected F (skip fuel c).
Proof.
  intros Hc. unfold skip. apply fails_bind; [apply fails_get|]. intros t.
  destruct (negb (t =? c)); [|apply next_expected].
  intros st. unfold error, expected. split; [reflexivity|].
  destruct Hc as [-> | [-> | [-> | ->]]]; cbv; tauto.
Qed.
End Expected.

#[global] Hint Resolve next_expected inp_expected getq_expected emit_expected
  oad_expected gsym_expected : fails.
#[global] Hint Extern 1 (fails_with expected _ (skip _ _)) =>
  apply skip_expected; tauto : fails.

Lemma push_frame_expected a : fails_with expected True (push_frame a).
Proof. intros st. exact I. Qed.

Lemma pop_frame_expected : fails_with expected True pop_frame.
Proof. intros st. unfold pop_frame. destruct (last (frames st)); exact I. Qed.

Lemma peek_frame_expected l : fails_with expected True (peek_frame l).
Proof.
  intros st. unfold peek_frame. destruct (l <=? 0); [exact I|].
  destruct (frames st !! Z.to_nat (l - 1)); exact I.
Qed.

Lemma poke_frame_expected l v : fails_with expected True (poke_frame l v).
Proof.
  intros st. unfold poke_frame. destruct (l <=? 0); [exact I|].
  destruct (frames st !! Z.to_nat (l - 1)); exact I.
Qed.
#[global] Hint Resolve push_frame_expected pop_frame_expected peek_frame_expected
  poke_frame_expected : fails.

Lemma unary_sum_expected fuel :
  (forall l, fails_with expected True (unary fuel l)) /\
  (forall l, fails_with expected True (sum fuel l)).
Proof.
  induction fuel as [|fuel [IHu IHs]]; (split; intros l); cbn [unary sum];
    try apply fails_timeout.
  - unfold unary_body. unfold_gen. repeat fails_step.
  - unfold sum_body. unfold_gen. repeat fails_step.
Qed.

Lemma expr_expected fuel : fails_with expected True (expr fuel).
Proof. apply unary_sum_expected. Qed.
#[global] Hint Resolve expr_expected : fails.

Lemma block_decl_expected fuel :
  (forall l, fails_with expected True (block fuel l)) /\
  (forall l, fails_with expected True (decl fuel l)).
Proof.
  induction fuel as [|fuel [IHb IHd]]; (split; intros l); cbn [block decl];
    try apply fails_timeout.
  - unfold block_body. unfold_gen. fold (expr fuel). repeat fails_step.
  - unfold decl_body. unfold_gen. repeat fails_step.
Qed.

(** X9.  The compiler has four diagnostics and no other: when [compile]
    (or a statement, a declaration or an expression on its own) ends in
    [error], the status is 1 and the message says that a '(', a ')', a '*'
    or a ';' was expected.  Nothing else about the input is ever reported. *)
Theorem only_skip_reports fuel h input l st s p e :
  compile fuel h input = Exit s p e \/ decl fuel l st = Exit s p e \/
  block fuel l st = Exit s p e \/ expr fuel st = Exit s p e ->
  s = 1 /\
  (e = "'(' expected"%string \/ e = "')' expected"%string \/
   e = "'*' expected"%string \/ e = "';' expected"%string).
Proof.
  intros [H | [H | [H | H]]].
  - unfold compile in H.
    assert (K : fails_with expected True
                  (inp;; next fuel;; decl fuel 0;; (ret 0 : M Z))).
    { pose proof (proj2 (block_decl_expected fuel) 0). repeat fails_step. }
    specialize (K (compile_init h input)). rewrite H in K. exact K.
  - pose proof (proj2 (block_decl_expected fuel) l st) as K. rewrite H in K. exact K.
  - pose proof (proj1 (block_decl_expected fuel) l st) as K. rewrite H in K. exact K.
  - pose proof (expr_expected fuel st) as K. rewrite H in K. exact K.
Qed.

Lemma only_skip_reports_witness :
  1 = 1 /\
  ("')' expected"%string = "'(' expected"%string \/
   "')' expected"%string = "')' expected"%string \/
   "')' expected"%string = "'*' expected"%string \/
   "')' expected"%string = "';' expected"%string).
Proof.
  apply (only_skip_reports 40 sample_host missing_paren 0
           (compile_init sample_host missing_paren) 1 18 "')' expected").
  left. vm_compute. reflexivity.
Defined.

(** ** Local declarations *)

#[global] Instance R_local_preorder : PreOrder R_local.
Proof.
  split.
  - intros st. unfold R_local. repeat split; try reflexivity.
    exists 0. split; [lia|]. f_equal. lia.
  - intros a b c (A1 & A2 & A3 & A4 & A5 & k1 & K1 & L1)
                 (B1 & B2 & B3 & B4 & B5 & k2 & K2 & L2).
    unfold R_local. repeat split; try congruence.
    exists (k1 + k2). split; [lia|].
    rewrite L2, <- wrap32_add_l, L1, wrap32_add_l. f_equal. lia.
Qed.

Lemma R_lex_local a b : R_lex a b -> R_local a b.
Proof.
  unfold R_lex, R_local. intros (H1 & H2 & H3 & H4 & H5 & H6 & _).
  repeat split; try assumption. exists 0. split; [lia|]. rewrite H4. f_equal. lia.
Qed.

Lemma respects_local_next fuel : respects R_local (next fuel).
Proof. eapply respects_weaken; [exact R_lex_local | apply respects_lex_next]. Qed.

Lemma respects_local_skip fuel c : respects R_local (skip fuel c).
Proof. eapply respects_weaken; [exact R_lex_local | apply respects_lex_skip]. Qed.

Lemma respects_local_poke_var a v : respects R_local (poke_var a v).
Proof. eapply respects_weaken; [exact R_lex_local | apply respects_lex_poke_var]. Qed.
#[global] Hint Resolve respects_local_next respects_local_skip
  respects_local_poke_var : respects.

Ltac leaf_local :=
  unfold R_local; sst; repeat split; try reflexivity;
  first [ exists 0; split; [lia | f_equal; lia]
        | exists 1; split; [lia | rewrite wrap32_idem; f_equal; lia] ].

Lemma decl_local fuel (blk : Z -> M unit) : respects R_local (decl_body fuel blk 1).
Proof.
  unfold decl_body. apply respects_while0_cond; [typeclasses eauto|].
  intros st x st' E H.
  change (1 =? 0) with false in E. rewrite andb_false_r, orb_false_r in E.
  apply bind_Ok in H as (tk & s0 & E0 & H). inversion E0; subst tk s0; clear E0.
  rewrite E in H. revert H.
  change (negb (1 =? 0)) with true. cbv iota.
  revert st x st' E. intros st x st' _. revert st x st'.
  match goal with |- forall st x st', ?m st = Ok x st' -> _ =>
    change (respects R_local m) end.
  repeat respects_step leaf_local.
Qed.



(** ** Names and their tokens *)

(** *** strstr finds a place where the needle is *)

Lemma strstr_found hay : forall n i,
  strstr hay n = Some i ->
  exists pre post, hay = pre ++ post /\ Z.of_nat (length pre) = i /\
                   is_prefix n post = true.
Proof.
  induction hay as [|c hay IH]; intros n i H.
  - cbn [strstr] in H. destruct (is_prefix n []) eqn:E; [|discriminate].
    inversion H; subst. exists [], []. auto.
  - cbn [strstr] in H. destruct (is_prefix n (c :: hay)) eqn:E.
    + inversion H; subst. exists [], (c :: hay). auto.
    + destruct (strstr hay n) as [j|] eqn:Ej; [|discriminate].
      cbn [option_map] in H. inversion H; subst.
      destruct (IH n j Ej) as (pre & post & -> & Hl & Hp).
      exists (c :: pre), post. cbn [app length]. repeat split; [lia | exact Hp].
Qed.

Lemma strstr_exists pre : forall post n,
  is_prefix n post = true ->
  exists i, strstr (pre ++ post) n = Some i /\ 0 <= i <= Z.of_nat (length pre).
Proof.
  induction pre as [|c pre IH]; intros post n H.
  - exists 0. cbn [app length]. split; [|lia].
    destruct post; cbn [strstr]; rewrite H; reflexivity.
  - cbn [app strstr]. destruct (is_prefix n (c :: pre ++ post)).
    + exists 0. cbn [length]. split; [reflexivity | lia].
    + destruct (IH post n H) as (i & -> & Hi). exists (Z.succ i).
      cbn [option_map length]. split; [reflexivity | lia].
Qed.

Lemma is_prefix_refl l : is_prefix l l = true.
Proof.
  induction l as [|c l IH]; [reflexivity|]. cbn [is_prefix].
  rewrite Z.eqb_refl. exact IH.
Qed.

Lemma cstr_no_nul l x : no_nul l = true -> cstr (l ++ x) = l ++ cstr x.
Proof.
  induction l as [|c l IH]; [reflexivity|]. cbn [no_nul forallb app cstr].
  intros H. apply andb_true_iff in H as [Hc Hl]. apply negb_true_iff in Hc.
  rewrite Hc. fold (no_nul l) in Hl. rewrite IH by exact Hl. reflexivity.
Qed.

Lemma cstr_no_nul_id l : no_nul l = true -> cstr l = l.
Proof.
  intros H. rewrite <- (app_nil_r l) at 1. rewrite cstr_no_nul by exact H.
  cbn [cstr]. apply app_nil_r.
Qed.

Lemma isidc_no_nul w : forallb isidc w = true -> no_nul w = true.
Proof.
  induction w as [|c w IH]; [reflexivity|]. cbn [forallb no_nul]. intros H.
  apply andb_true_iff in H as [Hc Hw]. apply isidc_range in Hc.
  apply andb_true_iff. split; [|apply IH; exact Hw].
  apply negb_true_iff, Z.eqb_neq. lia.
Qed.

Lemma no_nul_app a b : no_nul (a ++ b) = no_nul a && no_nul b.
Proof. unfold no_nul. apply forallb_app. Qed.

Lemma tagged_no_nul w : forallb isidc w = true -> no_nul (tagged w) = true.
Proof.
  intros H. unfold tagged. change (TAG_TOK :: w ++ [TAG_TOK]) with ([TAG_TOK] ++ w ++ [TAG_TOK]).
  rewrite !no_nul_app, (isidc_no_nul w H). reflexivity.
Qed.

(** Two names that start at the same place are one name. *)
Lemma names_at_one_place w1 : forall w2 l,
  forallb isidc w1 = true -> forallb isidc w2 = true ->
  is_prefix (w1 ++ [TAG_TOK]) l = true -> is_prefix (w2 ++ [TAG_TOK]) l = true ->
  w1 = w2.
Proof.
  induction w1 as [|c w1 IH]; intros w2 l H1 H2 P1 P2.
  - destruct w2 as [|c2 w2]; [reflexivity|]. exfalso.
    destruct l as [|y l]; [discriminate|]. cbn [app is_prefix forallb] in *.
    apply andb_true_iff in H2 as [Hc2 _]. apply andb_true_iff in P1 as [E1 _].
    apply andb_true_iff in P2 as [E2 _]. apply Z.eqb_eq in E1, E2.
    apply isidc_range in Hc2. unfold TAG_TOK in *. lia.
  - destruct l as [|y l]; [discriminate|]. cbn [app is_prefix forallb] in *.
    apply andb_true_iff in H1 as [Hc H1]. apply andb_true_iff in P1 as [E1 P1].
    apply Z.eqb_eq in E1. subst y.
    destruct w2 as [|c2 w2].
    + exfalso. cbn [app is_prefix] in P2. apply andb_true_iff in P2 as [E2 _].
      apply Z.eqb_eq in E2. apply isidc_range in Hc. unfold TAG_TOK in *. lia.
    + cbn [app is_prefix forallb] in *.
      apply andb_true_iff in H2 as [Hc2 H2]. apply andb_true_iff in P2 as [E2 P2].
      apply Z.eqb_eq in E2. subst c2. f_equal. eapply IH; eassumption.
Qed.

Lemma tagged_at_one_place w1 w2 l :
  forallb isidc w1 = true -> forallb isidc w2 = true ->
  is_prefix (tagged w1) l = true -> is_prefix (tagged w2) l = true -> w1 = w2.
Proof.
  intros H1 H2 P1 P2. unfold tagged in *.
  destruct l as [|y l]; [discriminate|]. cbn [is_prefix] in *.
  apply andb_true_iff in P1 as [_ P1]. apply andb_true_iff in P2 as [_ P2].
  eapply names_at_one_place; eassumption.
Qed.

Lemma is_name_idc w : is_name w = true -> forallb isidc w = true.
Proof.
  destruct w as [|c w]; [discriminate|]. unfold is_name. intros H.
  apply andb_true_iff in H. tauto.
Qed.

(** *** Lexing a name that is no macro *)

Lemma next_plain_ident fuel w f st :
  is_name w = true -> lexer_at st w f -> heap_in_int st ->
  (length w <= fuel)%nat -> plain_name st w ->
  exists st',
    next (S fuel) st = Ok tt st' /\ tok st' = ident_token st w /\
    heap st' = heap st ++ TAG_TOK :: w /\
    ch st' = peek f /\ file st' = tail f /\ dptr st' = 0 /\
    heap_string st' (last_id st') = w /\ R_lex st st' /\
    varmem st' = varmem st /\ dch st' = dch st.
Proof.
  intros Hn (Hd & Hw & Hf) (Hr1 & Hr2) Hfuel Hp.
  pose proof (is_name_idc w Hn) as Hidc.
  destruct w as [|c w]; [discriminate|].
  unfold is_name in Hn. apply andb_true_iff in Hn as [Hdig _].
  apply negb_true_iff in Hdig.
  destruct st as [tk tkc tkl c0 vs rs lc gl sy dp dc li h fl fp cb vm gm fr dl].
  unfold plain_name, ident_token, tagged in Hp.
  cbn [dptr ch file heap sym_stk vars varmem app] in *. subst dp.
  injection Hw as -> ->.
  rewrite (next_ident fuel c w f) by
    first [ assumption | cbn [length] in Hfuel; lia ].
  cbv zeta. unfold ident_token, tagged. cbn [heap sym_stk vars app].
  set (t := wrap32 (wrap32 (match strstr _ _ with Some i => wrap32 i | None => _ end * 8)
                    + TOK_IDENT)) in *.
  assert (Hs : heap_string
                 (mkState 0 0 0 0 vs rs lc gl sy 0 dc
                    (wrap32 (sy + Z.of_nat (length (h ++ [TAG_TOK]))))
                    (h ++ TAG_TOK :: c :: w) [] 0 cb vm gm fr dl)
                 (wrap32 (sy + Z.of_nat (length (h ++ [TAG_TOK])))) = c :: w).
  { unfold heap_string. cbn [sym_stk heap]. apply last_id_string; assumption. }
  unfold heap_string in *. cbn [sym_stk heap last_id] in Hs.
  destruct (TOK_DEFINE <? t) eqn:Et.
  - apply Z.eqb_neq in Hp. rewrite Hp.
    eexists. split; [reflexivity|]. sproj. cbn [sym_stk heap last_id].
    repeat split; try reflexivity. exact Hs.
  - eexists. split; [reflexivity|]. sproj. cbn [sym_stk heap last_id].
    repeat split; try reflexivity. exact Hs.
Qed.

(** The token of a name from the place [strstr] finds it. *)
Lemma ident_token_at st w i :
  strstr (cstr (heap st ++ tagged w)) (tagged w) = Some i ->
  0 <= i <= Z.of_nat (length (heap st)) -> tokens_in_int st ->
  ident_token st w
  = (if TOK_DEFINE <? 8 * i + TOK_IDENT then vars st + (8 * i + TOK_IDENT)
     else 8 * i + TOK_IDENT).
Proof.
  intros E Hi (Hv & Hb). unfold ident_token. rewrite E.
  unfold TOK_IDENT, TOK_DEFINE in *.
  rewrite (wrap32_small i) by lia.
  rewrite (wrap32_small (i * 8)) by lia.
  rewrite (wrap32_small (i * 8 + 256)) by lia.
  replace (i * 8 + 256) with (8 * i + 256) by lia.
  destruct (536 <? 8 * i + 256); [|reflexivity].
  apply wrap32_small. lia.
Qed.

(** The place of a name on a heap without NUL. *)
Lemma name_place st w :
  no_nul (heap st) = true -> forallb isidc w = true ->
  exists i, strstr (cstr (heap st ++ tagged w)) (tagged w) = Some i /\
            0 <= i <= Z.of_nat (length (heap st)).
Proof.
  intros Hh Hw.
  rewrite cstr_no_nul by exact Hh.
  rewrite (cstr_no_nul_id (tagged w)) by (apply tagged_no_nul; exact Hw).
  apply strstr_exists, is_prefix_refl.
Qed.

(** The heap of a later state, the tag of the next name on it, continues
    the heap of the earlier one with its name between the tags. *)
Lemma later_heap st w st2 w2 :
  later_on st w st2 ->
  exists x, heap st2 ++ tagged w2 = (heap st ++ tagged w) ++ x.
Proof.
  intros (_ & _ & r & Hh & Hr). rewrite Hh. unfold tagged.
  destruct Hr as [-> | [r' ->]].
  - exists (w2 ++ [TAG_TOK]). rewrite <- !app_assoc. cbn [app].
    rewrite <- !app_assoc. reflexivity.
  - exists (r' ++ TAG_TOK :: w2 ++ [TAG_TOK]). rewrite <- !app_assoc. cbn [app].
    rewrite <- !app_assoc. reflexivity.
Qed.

Lemma app_same_length {A} (a b c d : list A) :
  a ++ b = c ++ d -> length a = length c -> a = c /\ b = d.
Proof.
  revert c. induction a as [|x a IH]; intros [|y c] H L; try discriminate.
  - auto.
  - cbn [app length] in *. injection H as -> H. injection L as L.
    destruct (IH c H L) as [-> ->]. auto.
Qed.

Lemma same_token_same_name st1 st2 w1 w2 :
  forallb isidc w1 = true -> forallb isidc w2 = true ->
  later_on st1 w1 st2 -> no_nul (heap st2) = true -> tokens_in_int st2 ->
  ident_token st1 w1 = ident_token st2 w2 -> w1 = w2.
Proof.
  intros H1 H2 Hl Hn2 Hb2 E.
  pose proof Hl as (Hsy & Hvs & r & Hh & Hr).
  assert (Hn1 : no_nul (heap st1) = true).
  { rewrite Hh, no_nul_app in Hn2. apply andb_true_iff in Hn2. tauto. }
  assert (Hb1 : tokens_in_int st1).
  { destruct Hb2 as [Hv Hb]. rewrite Hvs, Hh, length_app in Hb. rewrite Hvs in Hv.
    split; [exact Hv|]. lia. }
  destruct (name_place st1 w1 Hn1 H1) as (i1 & E1 & Hi1).
  destruct (name_place st2 w2 Hn2 H2) as (i2 & E2 & Hi2).
  rewrite (ident_token_at st1 w1 i1 E1 Hi1 Hb1) in E.
  rewrite (ident_token_at st2 w2 i2 E2 Hi2 Hb2) in E.
  assert (Hi : i1 = i2).
  { destruct Hb2 as [Hv Hb]. rewrite Hvs in *. unfold TOK_DEFINE, TOK_IDENT in *.
    destruct (536 <? 8 * i1 + 256) eqn:C1; destruct (536 <? 8 * i2 + 256) eqn:C2;
      zbool; lia. }
  subst i2.
  destruct (later_heap st1 w1 st2 w2 Hl) as [x Hx].
  rewrite cstr_no_nul in E1 by exact Hn1.
  rewrite (cstr_no_nul_id (tagged w1)) in E1 by (apply tagged_no_nul; exact H1).
  rewrite cstr_no_nul in E2 by exact Hn2.
  rewrite (cstr_no_nul_id (tagged w2)) in E2 by (apply tagged_no_nul; exact H2).
  apply strstr_found in E1 as (pre1 & post1 & Eh1 & L1 & P1).
  apply strstr_found in E2 as (pre2 & post2 & Eh2 & L2 & P2).
  rewrite Hx, Eh1, <- app_assoc in Eh2.
  destruct (app_same_length _ _ _ _ Eh2 ltac:(lia)) as [-> Hpost].
  subst post2.
  apply (tagged_at_one_place w1 w2 (post1 ++ x) H1 H2); [|exact P2].
  apply is_prefix_grows. exact P1.
Qed.

Lemma later_same_token st1 st2 w :
  forallb isidc w = true -> later_on st1 w st2 -> no_nul (heap st1) = true ->
  ident_token st2 w = ident_token st1 w.
Proof.
  intros Hw Hl Hn.
  pose proof Hl as (Hsy & Hvs & _).
  destruct (name_place st1 w Hn Hw) as (i & E & _).
  destruct (later_heap st1 w st2 w Hl) as [x Hx].
  unfold ident_token. rewrite Hx, (strstr_cstr_app _ x _ _ E), E, Hvs.
  reflexivity.
Qed.

(** X11.  The same name, the same token: once a name has been lexed, lexing
    it again later gives the token it got the first time, however the heap
    has grown, as long as what was pushed right after the name started with
    the tag of a later token (as every name, number and "#define" does). *)
Theorem same_name_same_token fuel w st1 f1 st2 f2 :
  is_name w = true ->
  lexer_at st1 w f1 -> heap_in_int st1 -> plain_name st1 w ->
  no_nul (heap st1) = true ->
  lexer_at st2 w f2 -> heap_in_int st2 -> plain_name st2 w ->
  later_on st1 w st2 ->
  (length w <= fuel)%nat ->
  exists st1' st2',
    next (S fuel) st1 = Ok tt st1' /\ next (S fuel) st2 = Ok tt st2' /\
    heap st1' = heap st1 ++ TAG_TOK :: w /\
    tok st2' = tok st1'.
Proof.
  intros Hn L1 R1 P1 N1 L2 R2 P2 Hl Hfuel.
  destruct (next_plain_ident fuel w f1 st1 Hn L1 R1 Hfuel P1)
    as (st1' & E1 & T1 & Hh1 & _).
  destruct (next_plain_ident fuel w f2 st2 Hn L2 R2 Hfuel P2)
    as (st2' & E2 & T2 & _).
  exists st1', st2'. repeat split; try assumption.
  rewrite T1, T2. apply later_same_token; [apply is_name_idc|..]; assumption.
Qed.

Lemma same_name_same_token_witness :
  exists st1' st2',
    next 2 twice_first = Ok tt st1' /\ next 2 twice_second = Ok tt st2' /\
    heap st1' = heap twice_first ++ TAG_TOK :: [120] /\
    tok st2' = tok st1'.
Proof.
  apply (same_name_same_token 1 [120] twice_first [43; 120; 59] twice_second [59]).
  - reflexivity.
  - vm_compute. repeat split; reflexivity.
  - vm_compute. split; [discriminate | reflexivity].
  - vm_compute. discriminate.
  - reflexivity.
  - vm_compute. repeat split; reflexivity.
  - vm_compute. split; [discriminate | reflexivity].
  - vm_compute. discriminate.
  - unfold later_on. split; [reflexivity|]. split; [reflexivity|].
    exists []. split; [vm_compute; reflexivity | left; reflexivity].
  - cbn [length]. lia.
Defined.

(** X12.  Two names, two tokens: a name lexed after another one never gets
    the token of the first, on a heap without NUL whose tokens an [int]
    holds, as long as what was pushed right after the first name started
    with the tag of a later token. *)
Theorem other_name_other_token fuel w1 w2 st1 f1 st2 f2 :
  is_name w1 = true -> is_name w2 = true -> w1 <> w2 ->
  lexer_at st1 w1 f1 -> heap_in_int st1 -> plain_name st1 w1 ->
  lexer_at st2 w2 f2 -> heap_in_int st2 -> plain_name st2 w2 ->
  later_on st1 w1 st2 ->
  no_nul (heap st2) = true -> tokens_in_int st2 ->
  (length w1 <= fuel)%nat -> (length w2 <= fuel)%nat ->
  exists st1' st2',
    next (S fuel) st1 = Ok tt st1' /\ next (S fuel) st2 = Ok tt st2' /\
    tok st2' <> tok st1'.
Proof.
  intros Hn1 Hn2 Hne L1 R1 P1 L2 R2 P2 Hl N2 B2 Hf1 Hf2.
  destruct (next_plain_ident fuel w1 f1 st1 Hn1 L1 R1 Hf1 P1)
    as (st1' & E1 & T1 & _).
  destruct (next_plain_ident fuel w2 f2 st2 Hn2 L2 R2 Hf2 P2)
    as (st2' & E2 & T2 & _).
  exists st1', st2'. repeat split; try assumption.
  rewrite T1, T2. intros E. apply Hne.
  apply (same_token_same_name st1 st2 w1 w2);
    [apply is_name_idc; assumption | apply is_name_idc; assumption | ..];
    try assumption.
  symmetry. exact E.
Qed.

Lemma other_name_other_token_witness :
  exists st1' st2',
    next 2 other_first = Ok tt st1' /\ next 2 other_second = Ok tt st2' /\
    tok st2' <> tok st1'.
Proof.
  apply (other_name_other_token 1 [120] [121] other_first [43; 121; 59]
           other_second [59]).
  - reflexivity.
  - reflexivity.
  - discriminate.
  - vm_compute. repeat split; reflexivity.
  - vm_compute. split; [discriminate | reflexivity].
  - vm_compute. discriminate.
  - vm_compute. repeat split; reflexivity.
  - vm_compute. split; [discriminate | reflexivity].
  - vm_compute. discriminate.
  - unfold later_on. split; [reflexivity|]. split; [reflexivity|].
    exists []. split; [vm_compute; reflexivity | left; reflexivity].
  - reflexivity.
  - vm_compute. split; [discriminate | reflexivity].
  - cbn [length]. lia.
  - cbn [length]. lia.
Defined.

(** ** The jumps of [if] *)

Lemma linked_one m a :
  a <> 0 -> load32 m a = 0 -> linked m a [a] = true.
Proof.
  intros Ha Hl. cbn [linked]. rewrite Z.eqb_refl, Hl.
  replace (a =? 0) with false by (symmetry; apply Z.eqb_neq; exact Ha).
  reflexivity.
Qed.

Lemma gsym_one fuel a s s' :
  gsym fuel a s = Ok tt s' -> 0 < a -> load32 (code_of s) a = 0 ->
  a + 4 <= ind_of s -> bounded s ->
  ind_of s' = ind_of s /\
  load32 (code_of s') a = ind_of s - (a + 4) /\
  (forall x, x < a \/ a + 4 <= x -> load8 (code_of s') x = load8 (code_of s) x).
Proof.
  intros H Ha Hl Hi Hb.
  destruct (gsym_state fuel a s s' [a] H (linked_one _ a ltac:(lia) Hl) eq_refl)
    as (_ & Hind & _ & Hs & Hf).
  split; [exact Hind|]. split.
  - rewrite (Hs a) by (left; reflexivity). unfold CodeBuf.getPC.
    unfold bounded in Hb. rewrite (wrap32_small (ind_of s)) by lia.
    rewrite wrap32_small by lia. lia.
  - intros x Hx. apply Hf. intros y [<-|[]]. exact Hx.
Qed.

Lemma test_expr_code fuel st a s1 :
  test_expr fuel st = Ok a s1 -> 0 < ind_of st -> bounded s1 ->
  R_good st s1 /\
  exists p, ind_of st <= p /\ ind_of s1 = p + 8 /\ a = p + 4 /\
            test_jcc (code_of s1) p 0 /\ load32 (code_of s1) (p + 4) = 0.
Proof.
  intros H Hp Hb. destruct (test_expr_fresh _ _ _ _ H) as [G _].
  split; [exact G|].
  unfold test_expr in H. apply bind_Ok in H as ([] & se & He & Hg).
  pose proof (good_ind _ _ (respects_good_expr _ _ _ _ He)) as Ie.
  apply gtst_spec in Hg as (Hi & Ha & Ht & Hl & _); [|lia].
  unfold bounded in Hb. rewrite wrap32_small in Ha by lia.
  change (wrap32 0) with 0 in Hl.
  exists (ind_of se). split; [exact Ie|]. split; [exact Hi|]. split; [exact Ha|].
  split; [exact Ht | exact Hl].
Qed.

Lemma gjmp_code st n s1 :
  gjmp 0 st = Ok n s1 -> 0 < ind_of st -> bounded s1 ->
  ind_of s1 = ind_of st + 5 /\ n = ind_of st + 1 /\
  load8 (code_of s1) (ind_of st) = 0xe9 /\
  load32 (code_of s1) (ind_of st + 1) = 0.
Proof.
  intros H Hp Hb. unfold gjmp, X86CodeGenerator.gjmp, psym in H.
  apply oad_one in H as (Hi & Hn & Hb8 & Hl & _); [|lia].
  unfold bounded in Hb. rewrite wrap32_small in Hn by lia.
  change (wrap32 0) with 0 in Hl.
  repeat split; assumption.
Qed.

Lemma reach_frame st0 css0 l LH LS s s' :
  reach st0 css0 l LH LS s -> R_blk l s s' -> 0 < ind_of st0 -> bounded s' ->
  forall x, x < ind_of s -> load8 (code_of s') x = load8 (code_of s) x.
Proof.
  intros (I & F & Hlen & HLS & ns & Hc & Hn) HR Hp Hb.
  rewrite <- (extend_length l ns css0) in Hlen.
  destruct (blk_locals l s s' _ LH LS HR ltac:(lia) Hb Hlen Hc) as (F' & _).
  exact F'.
Qed.

Lemma test_jcc_keep m m' p t :
  test_jcc m p t -> (forall x, x < p + 4 -> load8 m' x = load8 m x) ->
  test_jcc m' p t.
Proof. intros H F. eapply test_jcc_frame; [exact H|]. intros x Hx. apply F. lia. Qed.

Lemma load32_keep m m' a b :
  (forall x, x < b -> load8 m' x = load8 m x) -> a + 4 <= b ->
  load32 m' a = load32 m a.
Proof. intros F H. apply load32_ext. intros i Hi. apply F. lia. Qed.

(** The [if] statement, with the places of its jumps. *)
Lemma if_segment_code fuel l (B : M unit) st st' css :
  respects (R_blk l) B ->
  (next fuel;;
   skip fuel 40;;
   a <- test_expr fuel;;
   skip fuel 41;;
   B;;
   tk <- get tok;;
   if tk =? TOK_ELSE then
     next fuel;;
     n <- gjmp 0;;
     gsym fuel a;;
     B;;
     gsym fuel n
   else
     gsym fuel a) st = Ok tt st' ->
  chains_ok st css -> 0 < ind_of st -> bounded st' ->
  exists p e, if_code st st' p e.
Proof.
  intros HB H Hok Hp Hb.
  apply bind_Ok in H as ([] & s1 & H1 & H). pose proof (respects_good_next _ _ _ _ H1) as G1.
  apply bind_Ok in H as ([] & s2 & H2 & H). pose proof (respects_good_skip _ _ _ _ _ H2) as G2.
  apply bind_Ok in H as (a & s3 & H3 & H). destruct (test_expr_fresh _ _ _ _ H3) as [G3 F3].
  apply bind_Ok in H as ([] & s4 & H4 & H). pose proof (respects_good_skip _ _ _ _ _ H4) as G4.
  apply bind_Ok in H as ([] & s5 & H5 & H). pose proof (HB _ _ _ H5) as G5.
  apply bind_Ok in H as (tk & s0 & E & H). inversion E; subst tk s0; clear E.
  destruct (tok s5 =? TOK_ELSE).
  - apply bind_Ok in H as ([] & s6 & H6 & H). pose proof (respects_good_next _ _ _ _ H6) as G6.
    apply bind_Ok in H as (n & s7 & H7 & H). destruct (gjmp_fresh _ _ _ H7) as [G7 F7].
    apply bind_Ok in H as ([] & s8 & H8 & H). pose proof (respects_expr_gsym _ _ _ _ _ H8) as G8.
    apply bind_Ok in H as ([] & s9 & H9 & H). pose proof (HB _ _ _ H9) as G9.
    pose proof (respects_expr_gsym _ _ _ _ _ H) as G10.
    inds. apply (reach_init _ _ l) in Hok as Hr.
    go_good Hr G1. go_good Hr G2.
    destruct (test_expr_code _ _ _ _ H3 ltac:(lia) ltac:(bnd))
      as (_ & p & Ip & I3 & -> & T3 & L3).
    go_create Hr G3 F3.
    pose proof (good_frame _ _ G4 ltac:(lia) ltac:(bnd)) as K4.
    go_good Hr G4.
    pose proof (reach_frame _ _ _ _ _ _ _ Hr G5 Hp ltac:(bnd)) as K5.
    go_blk Hr G5.
    pose proof (good_frame _ _ G6 ltac:(lia) ltac:(bnd)) as K6.
    go_good Hr G6.
    pose proof (good_frame _ _ G7 ltac:(lia) ltac:(bnd)) as K7.
    destruct (gjmp_code _ _ _ H7 ltac:(lia) ltac:(bnd)) as (I7 & -> & J7 & L7).
    go_create Hr G7 F7.
    assert (T7 : test_jcc (code_of s7) p 0).
    { eapply test_jcc_keep; [exact T3|]. intros x Hx.
      rewrite K7, K6, K5, K4 by lia. reflexivity. }
    assert (A7 : load32 (code_of s7) (p + 4) = 0).
    { rewrite <- L3. apply load32_ext. intros i Hi.
      rewrite K7, K6, K5, K4 by lia. reflexivity. }
    destruct (gsym_one _ _ _ _ H8 ltac:(lia) A7 ltac:(lia) ltac:(bnd))
      as (I8 & A8 & K8).
    apply (reach_patch st css l [] [ind_of s6 + 1] [] [[ind_of s6 + 1]]
             (p + 4) [p + 4] fuel s7 s8) in Hr; [|reflexivity | exact H8].
    cbn [app] in Hr.
    pose proof (reach_frame _ _ _ _ _ _ _ Hr G9 Hp ltac:(bnd)) as K9.
    assert (L9 : load32 (code_of s9) (ind_of s6 + 1) = 0).
    { rewrite <- L7. apply load32_ext. intros i Hi.
      rewrite K9, K8 by lia. reflexivity. }
    destruct (gsym_one _ _ _ _ H ltac:(lia) L9 ltac:(lia) ltac:(bnd))
      as (I10 & A10 & K10).
    exists p, (ind_of s7). unfold if_code.
    split; [lia|]. split; [lia|]. split; [lia|].
    split.
    { eapply test_jcc_keep; [exact T7|]. intros x Hx.
      rewrite K10, K9, K8 by lia. reflexivity. }
    split.
    { replace (ind_of s7 - (p + 8)) with (ind_of s7 - (p + 4 + 4)) by lia.
      rewrite <- A8.
      apply load32_ext. intros i Hi. rewrite K10, K9 by lia. reflexivity. }
    right. split; [lia|]. split.
    { rewrite K10, K9, K8 by lia. rewrite <- J7. f_equal. lia. }
    replace (ind_of s7 - 4) with (ind_of s6 + 1) by lia. rewrite A10. lia.
  - pose proof (respects_expr_gsym _ _ _ _ _ H) as G6.
    inds. apply (reach_init _ _ l) in Hok as Hr.
    go_good Hr G1. go_good Hr G2.
    destruct (test_expr_code _ _ _ _ H3 ltac:(lia) ltac:(bnd))
      as (_ & p & Ip & I3 & -> & T3 & L3).
    go_create Hr G3 F3.
    pose proof (good_frame _ _ G4 ltac:(lia) ltac:(bnd)) as K4.
    go_good Hr G4.
    pose proof (reach_frame _ _ _ _ _ _ _ Hr G5 Hp ltac:(bnd)) as K5.
    assert (A5 : load32 (code_of s5) (p + 4) = 0).
    { rewrite <- L3. apply load32_ext. intros i Hi.
      rewrite K5, K4 by lia. reflexivity. }
    destruct (gsym_one _ _ _ _ H ltac:(lia) A5 ltac:(lia) ltac:(bnd))
      as (I6 & A6 & K6).
    exists p, (ind_of st'). unfold if_code.
    split; [lia|]. split; [lia|]. split; [lia|].
    split.
    { eapply test_jcc_keep; [exact T3|]. intros x Hx.
      rewrite K6, K5, K4 by lia. reflexivity. }
    split; [rewrite A6; lia|]. left. reflexivity.
Qed.



(** ** The jumps of [while] *)

(** The body of a loop statement, with what it keeps and where the sites
    it adds to the chain of the loop lie. *)
Lemma reach_loop_sites st0 css0 l a ch s l' s1 s2 a' s3 :
  reach st0 css0 l [a] [ch] s ->
  push_frame a s = Ok l' s1 -> R_blk l' s1 s2 -> pop_frame s2 = Ok a' s3 ->
  0 < ind_of st0 -> bounded s2 ->
  codeBuf s1 = codeBuf s /\ codeBuf s3 = codeBuf s2 /\
  (forall x, x < ind_of s -> load8 (code_of s2) x = load8 (code_of s) x) /\
  exists ns', reach st0 css0 l [a'] [ns' ++ ch] s3 /\
              (forall x, In x ns' -> ind_of s <= x).
Proof.
  intros (I & F & Hlen & HLS & ns & Hc & Hn) Hpush HB Hpop Hp Hb.
  apply push_frame_spec in Hpush as (-> & Hc1 & Hf1).
  apply pop_frame_spec in Hpop as (Hc3 & Hf3).
  split; [exact Hc1|]. split; [exact Hc3|].
  assert (Hok1 : chains_ok s1 (extend l ns css0 ++ [ch])).
  { apply chains_ok_at. rewrite Hc1, Hf1. exact Hc. }
  destruct HB as [C HB]. pose proof (R_code_ind _ _ C) as I2.
  rewrite Hc1 in I2.
  destruct (HB _ Hok1) as (F2 & ns' & Hok2 & Hn'); [rewrite Hc1; lia | exact Hb|].
  rewrite Hc1 in F2, Hn'.
  split; [exact F2|].
  apply chains_ok_at in Hok2.
  rewrite <- (extend_length l ns css0) in Hlen. rewrite Hlen in Hok2.
  rewrite extend_last in Hok2. rewrite Hf3 in Hok2.
  exists ns'. split; [|exact Hn']. unfold reach. rewrite Hc3.
  split; [lia|]. split; [intros x Hx; rewrite F2, F by lia; reflexivity|].
  split.
  { destruct Hok2 as (Hl2 & _). apply Forall2_length in Hl2.
    rewrite !length_app in Hl2. cbn [length] in Hl2.
    rewrite extend_length in *. lia. }
  split.
  { cbn [concat]. rewrite app_nil_r. intros x Hx. apply in_app_or in Hx as [Hx|Hx].
    - specialize (Hn' x Hx). lia.
    - apply HLS. cbn [concat]. rewrite app_nil_r. exact Hx. }
  exists ns. split; [|exact Hn]. exact Hok2.
Qed.

(** The chain a local variable heads, from the chains of a statement. *)
Lemma reach_local st0 css0 l h ss s :
  reach st0 css0 l [h] [ss] s ->
  linked (code_of s) h ss = true /\ all_apart ss = true /\
  (forall x, In x ss -> 0 < x /\ x + 4 <= ind_of s).
Proof.
  intros (I & F & Hlen & HLS & ns & Hc & Hn).
  destruct Hc as (Hl & Hs & Hbel).
  rewrite <- (extend_length l ns css0) in Hlen.
  apply Forall2_app_inv in Hl as [_ Hl2]; [|exact Hlen].
  inversion Hl2 as [|? ? ? ? Hh _]; subst.
  rewrite concat_app in Hs, Hbel. cbn [concat] in Hs, Hbel. rewrite app_nil_r in Hs, Hbel.
  destruct (spread_app_inv _ _ Hs) as (_ & Hss & _).
  split; [exact Hh|]. split; [apply all_apart_spread; exact Hss|].
  intros x Hx. apply Hbel. apply in_or_app. right. exact Hx.
Qed.

Lemma gjmp_back st t n s1 :
  gjmp t st = Ok n s1 -> 0 < ind_of st -> bounded s1 ->
  ind_of s1 = ind_of st + 5 /\
  load8 (code_of s1) (ind_of st) = 0xe9 /\
  load32 (code_of s1) (ind_of st + 1) = wrap32 t /\
  (forall x, x < ind_of st -> load8 (code_of s1) x = load8 (code_of st) x).
Proof.
  intros H Hp Hb. unfold gjmp, X86CodeGenerator.gjmp, psym in H.
  apply oad_one in H as (Hi & _ & Hb8 & Hl & Hf); [|lia].
  repeat split; try assumption. intros x Hx. apply Hf. left. exact Hx.
Qed.

(** The [while] statement, with the places of its jumps. *)
Lemma while_segment_code fuel (B : Z -> M unit) st st' css :
  (forall l', respects (R_blk l') (B l')) ->
  (next fuel;;
   skip fuel 40;;
   na <- (n <- getPC;;
          a <- test_expr fuel;;
          ret (n, a));;
   let '(n, a) := na in
   skip fuel 41;;
   l' <- push_frame a;;
   B l';;
   a <- pop_frame;;
   pc <- getPC;;
   gjmp (rel_to n pc);;
   gsym fuel a) st = Ok tt st' ->
  chains_ok st css -> 0 < ind_of st -> bounded st' ->
  exists p,
    ind_of st <= p /\ p + 13 <= ind_of st' /\
    test_jcc (code_of st') p 0 /\
    load32 (code_of st') (p + 4) = ind_of st' - (p + 8) /\
    load8 (code_of st') (ind_of st' - 5) = 0xe9 /\
    load32 (code_of st') (ind_of st' - 4) = ind_of st - ind_of st'.
Proof.
  intros HB H Hok Hp Hb.
  apply bind_Ok in H as ([] & s1 & H1 & H). pose proof (respects_good_next _ _ _ _ H1) as G1.
  pose proof (respects_lex_next _ _ _ _ H1) as (C1 & _).
  apply bind_Ok in H as ([] & s2 & H2 & H). pose proof (respects_good_skip _ _ _ _ _ H2) as G2.
  pose proof (respects_lex_skip _ _ _ _ _ H2) as (C2 & _).
  apply bind_Ok in H as ([n a] & s3 & H3 & H).
  apply bind_Ok in H3 as (n0 & s0 & E & H3). inversion E; subst n0 s0; clear E.
  apply bind_Ok in H3 as (a0 & s3' & H3 & E). inversion E; subst; clear E.
  destruct (test_expr_fresh _ _ _ _ H3) as [G3 F3].
  apply bind_Ok in H as ([] & s4 & H4 & H). pose proof (respects_good_skip _ _ _ _ _ H4) as G4.
  apply bind_Ok in H as (l' & s5 & H5 & H).
  destruct (push_frame_spec _ _ _ _ H5) as (_ & G5 & _).
  apply bind_Ok in H as ([] & s6 & H6 & H). pose proof (HB _ _ _ _ H6) as G6.
  apply bind_Ok in H as (a' & s7 & H7 & H).
  destruct (pop_frame_spec _ _ _ H7) as (G7 & _).
  apply bind_Ok in H as (pc & s0 & E & H). inversion E; subst pc s0; clear E.
  apply bind_Ok in H as (j & s8 & H8 & H). pose proof (respects_good_gjmp _ _ _ _ H8) as G8.
  pose proof (respects_expr_gsym _ _ _ _ _ H) as G9.
  inds. apply (reach_init _ _ 0) in Hok as Hr.
  go_good Hr G1. go_good Hr G2.
  destruct (test_expr_code _ _ _ _ H3 ltac:(lia) ltac:(bnd))
    as (_ & p & Ip & I3 & -> & T3 & L3).
  go_create Hr G3 F3.
  pose proof (good_frame _ _ G4 ltac:(lia) ltac:(bnd)) as K4.
  go_good Hr G4.
  destruct (reach_loop_sites _ _ _ _ _ _ _ _ _ _ _ Hr H5 G6 H7 Hp)
    as (_ & _ & K6 & ns' & Hr' & Hn'); [bnd|].
  destruct (gjmp_back _ _ _ _ H8 ltac:(lia) ltac:(bnd)) as (I8 & J8 & L8 & K8).
  destruct (reach_local _ _ _ _ _ _ Hr') as (Hlk & Hap & Hbel).
  assert (Hlk8 : linked (code_of s8) a' (ns' ++ [p + 4]) = true).
  { rewrite <- Hlk. apply (linked_frame _ _ (ind_of s7)); [exact K8|].
    intros s Hin. apply Hbel. exact Hin. }
  destruct (gsym_state _ _ _ _ _ H Hlk8 Hap) as (_ & I9 & _ & Hs & Hf).
  assert (Eind : ind_of s2 = ind_of st) by (rewrite C2, C1; reflexivity).
  assert (E67 : ind_of s7 = ind_of s6) by (rewrite G7; reflexivity).
  assert (E45 : ind_of s5 = ind_of s4) by (rewrite G5; reflexivity).
  assert (Hsite : forall s, In s (ns' ++ [p + 4]) -> p + 4 <= s /\ s + 4 <= ind_of s7).
  { intros s Hin. specialize (Hbel s Hin).
    apply in_app_or in Hin as [Hin|[<-|[]]].
    - specialize (Hn' s Hin). lia.
    - lia. }
  exists p.
  split; [lia|]. split; [lia|].
  split.
  { eapply test_jcc_keep; [exact T3|]. intros x Hx.
    rewrite Hf by (intros s Hin; specialize (Hsite s Hin); lia).
    rewrite K8 by lia. rewrite G7. rewrite K6 by lia. rewrite K4 by lia. reflexivity. }
  split.
  { rewrite (Hs (p + 4)) by (apply in_or_app; right; left; reflexivity).
    unfold CodeBuf.getPC. unfold bounded in Hb.
    rewrite (wrap32_small (ind_of s8)) by lia. rewrite wrap32_small by lia. lia. }
  split.
  { rewrite Hf by (intros s Hin; specialize (Hsite s Hin); lia).
    rewrite <- J8. f_equal. lia. }
  transitivity (load32 (code_of s8) (ind_of s7 + 1)).
  { replace (ind_of st' - 4) with (ind_of s7 + 1) by lia.
    apply load32_ext. intros i Hi. apply Hf.
    intros s Hin. specialize (Hsite s Hin). lia. }
  rewrite L8. unfold rel_to, CodeBuf.getPC. unfold bounded in Hb.
  rewrite (wrap32_small (ind_of s2)) by lia.
  rewrite (wrap32_small (ind_of s7)) by lia.
  rewrite (wrap32_small (ind_of s2 - ind_of s7)) by lia.
  rewrite wrap32_idem. rewrite wrap32_small by lia. lia.
Qed.



(** ** Replaying a macro *)

Lemma inp_from_heap st k b rest :
  dptr st = sym_stk st + Z.of_nat k -> 0 < sym_stk st ->
  sym_stk st + Z.of_nat (length (heap st)) < 2147483648 ->
  drop k (heap st) = b :: rest -> 0 <= b < 256 ->
  inp st =
  Ok tt (if b =? TAG_MACRO
         then set_ch (dch st) (set_dptr 0 st)
         else set_dptr (sym_stk st + Z.of_nat (S k)) (set_ch (char_of_byte b) st)).
Proof.
  intros Hd Hs Hr Hk Hbyte.
  assert (Hlen : (k < length (heap st))%nat).
  { destruct (Nat.lt_ge_cases k (length (heap st))) as [|Hge]; [assumption|].
    rewrite drop_ge in Hk by exact Hge. discriminate. }
  destruct st as [tk tkc tkl c vs rs lc gl sy dp dc li h f fp cb vm gm fr dl].
  cbn [dptr sym_stk heap dch] in *. subst dp.
  unfold inp. mrun.
  replace (sy + Z.of_nat k =? 0) with false by (symmetry; apply Z.eqb_neq; lia).
  cbn [negb]. mrun. unfold heap_at, heap_from. sproj.
  replace (sy + Z.of_nat k <? sy) with false by (symmetry; apply Z.ltb_ge; lia).
  replace (sy + Z.of_nat k - sy) with (Z.of_nat k) by lia. rewrite Nat2Z.id, Hk.
  rewrite wrap32_small by lia.
  replace (sy + Z.of_nat k + 1) with (sy + Z.of_nat (S k)) by lia.
  destruct (b =? TAG_MACRO) eqn:E.
  - apply Z.eqb_eq in E. subst b. change (char_of_byte TAG_MACRO) with TAG_MACRO.
    change (TAG_MACRO =? TAG_MACRO) with true. sproj. mrun. reflexivity.
  - assert (Hc : (char_of_byte b =? TAG_MACRO) = false).
    { apply Z.eqb_neq in E. apply Z.eqb_neq. unfold char_of_byte, TAG_MACRO in *.
      destruct (b <? 128) eqn:E1; [exact E|]. apply Z.ltb_ge in E1. lia. }
    rewrite Hc. sproj. reflexivity.
Qed.

Lemma last_default (l : list Z) c x :
  default c (last (x :: l)) = default x (last l).
Proof.
  destruct l as [|z l]; [reflexivity|].
  change (last (x :: z :: l)) with (last (z :: l)).
  destruct (last (z :: l)) eqn:E; [reflexivity|].
  apply last_None in E. discriminate.
Qed.

Lemma replay_steps body : forall st k rest,
  dptr st = sym_stk st + Z.of_nat k ->
  drop k (heap st) = body ++ rest ->
  Forall (fun b => 0 <= b < 256 /\ b <> TAG_MACRO) body ->
  0 < sym_stk st ->
  sym_stk st + Z.of_nat (length (heap st)) < 2147483648 ->
  exists s,
    inps (length body) st = Ok tt s /\
    dptr s = sym_stk st + Z.of_nat (k + length body) /\
    ch s = default (ch st) (last (map char_of_byte body)) /\
    heap s = heap st /\ file s = file st /\ fpos s = fpos st /\ dch s = dch st /\
    sym_stk s = sym_stk st.
Proof.
  induction body as [|b body IH]; intros st k rest Hd Hk Hb Hs Hr.
  - exists st. cbn [length inps map]. rewrite Nat.add_0_r.
    split; [reflexivity|]. split; [exact Hd|]. repeat split; reflexivity.
  - cbn [app] in Hk. inversion Hb as [|? ? [Hb0 Hb1] Hb2]; subst.
    pose proof (inp_from_heap st k b _ Hd Hs Hr Hk Hb0) as E.
    replace (b =? TAG_MACRO) with false in E by (symmetry; apply Z.eqb_neq; exact Hb1).
    set (s1 := set_dptr (sym_stk st + Z.of_nat (S k)) (set_ch (char_of_byte b) st)) in *.
    destruct (IH s1 (S k) rest) as (s & Hi & Hdp & Hch & Hh & Hf & Hp & Hdc & Hsy).
    { unfold s1. destruct st as [tk tkc tkl c vs rs lc gl sy dp dc li h f fp cb vm gm fr dl].
      reflexivity. }
    { unfold s1. destruct st as [tk tkc tkl c vs rs lc gl sy dp dc li h f fp cb vm gm fr dl].
      sproj. cbn [heap] in *.
      replace (S k) with (k + 1)%nat by lia. rewrite <- drop_drop, Hk. reflexivity. }
    { exact Hb2. }
    { unfold s1. destruct st as [tk tkc tkl c vs rs lc gl sy dp dc li h f fp cb vm gm fr dl].
      exact Hs. }
    { unfold s1. destruct st as [tk tkc tkl c vs rs lc gl sy dp dc li h f fp cb vm gm fr dl].
      exact Hr. }
    exists s. cbn [length inps]. rewrite (bind_run _ _ _ _ _ E).
    split; [exact Hi|].
    destruct st as [tk tkc tkl c vs rs lc gl sy dp dc li h f fp cb vm gm fr dl].
    unfold s1 in *. sproj. cbn [ch heap file fpos dch sym_stk map] in *.
    split; [rewrite Hdp; f_equal; lia|].
    split; [rewrite Hch; symmetry; apply last_default|].
    repeat split; assumption.
Qed.

Lemma inps_snoc n : forall st, inps (S n) st = (inps n;; inp) st.
Proof.
  induction n as [|n IH]; intros st.
  - cbn [inps]. rewrite bind_ret. unfold bind.
    destruct (inp st) as [[] s| | |]; reflexivity.
  - change (inps (S (S n))) with (inp;; inps (S n)).
    change (inps (S n)) with (inp;; inps n) at 2. rewrite bind_bind.
    unfold bind at 1 2. destruct (inp st) as [[] s| | |]; try reflexivity.
    apply IH.
Qed.

(** X15.  A macro is replayed by [inp]: with [dptr] on a captured line,
    the calls of [inp] deliver its bytes one after the other (as [char]s),
    the file and the heap staying as they are; the call that reads the tag
    behind the line gives back the character saved in [dch] and clears
    [dptr], so that the next call reads the file again. *)
Theorem macro_body_is_replayed st k body rest :
  replay_at st k body rest ->
  (forall i b, body !! i = Some b ->
     exists s, inps (S i) st = Ok tt s /\ ch s = char_of_byte b /\
               file s = file st /\ fpos s = fpos st /\ heap s = heap st) /\
  (exists s, inps (S (length body)) st = Ok tt s /\ ch s = dch st /\
             dptr s = 0 /\ file s = file st /\ fpos s = fpos st /\
             heap s = heap st).
Proof.
  intros (Hd & Hk & Hb & Hs & Hr). split.
  - intros i b Hi.
    pose proof (lookup_lt_Some _ _ _ Hi) as Hlt.
    destruct (replay_steps (take i body ++ [b]) st k
                (drop (S i) body ++ TAG_MACRO :: rest) Hd)
      as (s & Hi' & _ & Hch & Hh & Hf & Hp & _); try assumption.
    { rewrite Hk. rewrite (app_assoc (take i body ++ [b])).
      rewrite <- (take_S_r _ _ _ Hi), take_drop. reflexivity. }
    { rewrite <- (take_S_r _ _ _ Hi). apply Forall_take. exact Hb. }
    exists s. rewrite length_app, length_take in Hi'. cbn [length] in Hi'.
    replace (i `min` length body + 1)%nat with (S i) in Hi' by lia.
    split; [exact Hi'|]. split; [|auto].
    rewrite Hch, map_app. cbn [map]. rewrite last_snoc. reflexivity.
  - destruct (replay_steps body st k (TAG_MACRO :: rest) Hd Hk Hb Hs Hr)
      as (s & Hi & Hdp & _ & Hh & Hf & Hp & Hdc & Hsy).
    assert (E : inp s = Ok tt (set_ch (dch s) (set_dptr 0 s))).
    { rewrite (inp_from_heap s (k + length body) TAG_MACRO rest).
      - reflexivity.
      - rewrite Hsy. exact Hdp.
      - rewrite Hsy. exact Hs.
      - rewrite Hsy, Hh. exact Hr.
      - rewrite Hh, <- drop_drop, Hk, drop_app_length. reflexivity.
      - unfold TAG_MACRO. lia. }
    exists (set_ch (dch s) (set_dptr 0 s)).
    rewrite inps_snoc, (bind_run _ _ _ _ _ Hi).
    split; [exact E|].
    destruct s as [tk tkc tkl c vs rs lc gl sy dp dc li h f fp cb vm gm fr dl].
    sproj. cbn [dch file fpos heap] in *. auto.
Qed.

Lemma macro_body_is_replayed_witness :
  (forall i b, [32; 52; 50; 10] !! i = Some b ->
     exists s, inps (S i) replay_state = Ok tt s /\ ch s = char_of_byte b /\
               file s = file replay_state /\ fpos s = fpos replay_state /\
               heap s = heap replay_state) /\
  (exists s, inps 5 replay_state = Ok tt s /\
             ch s = dch replay_state /\
             dptr s = 0 /\ file s = file replay_state /\
             fpos s = fpos replay_state /\ heap s = heap replay_state).
Proof.
  apply (macro_body_is_replayed replay_state 58 [32; 52; 50; 10] []).
  unfold replay_at. split; [reflexivity|]. split; [vm_compute; reflexivity|].
  split; [|split; [reflexivity | vm_compute; reflexivity]].
  repeat constructor; vm_compute; congruence.
Defined.

(** ** A "#define" line *)

(** The loop that captures the rest of a directive line. *)
Lemma line_loop line : forall c fuel tk tkc tkl vs rs lc gl sy dc li h f fp cb vm gm fr dl,
  Forall (fun c => 0 <= c < 256 /\ c <> 10) (c :: line) ->
  (length line < fuel)%nat ->
  while0 fuel (fun st => negb (ch st =? 10)) (c <- get ch;; pdef c;; inp)
    (mkState tk tkc tkl c vs rs lc gl sy 0 dc li h (line ++ 10 :: f) fp cb vm gm fr dl) =
  Ok tt (mkState tk tkc tkl 10 vs rs lc gl sy 0 dc li (h ++ c :: line) f
           (fp + Z.of_nat (S (length line))) cb vm gm fr dl).
Proof.
  induction line as [|c' line IH];
    intros c fuel tk tkc tkl vs rs lc gl sy dc li h f fp cb vm gm fr dl Hl Hfuel;
    (destruct fuel as [|fuel]; [cbn [length] in Hfuel; lia|]);
    inversion Hl as [|? ? [Hc0 Hc1] Hl']; subst;
    unfold while0; rewrite while_unfold; cbv beta; cbn [ch];
    (replace (c =? 10) with false by (symmetry; apply Z.eqb_neq; exact Hc1));
    cbn [negb]; mrun;
    rewrite (bind_run _ _ _ _ _ (pdef_eq _ _ _ _ _ _ _ _ _ _ _ _ _ _ _ _ _ _ _ _ _));
    rewrite (bind_run _ _ _ _ _ (inp_file _ _ _ _ _ _ _ _ _ _ _ _ _ _ _ _ _ _ _));
    (replace (byte_of c) with c by (unfold byte_of; rewrite Z.mod_small; lia)).
  - cbn [app peek tail fadv]. rewrite while_unfold. cbv beta. cbn [ch].
    change (10 =? 10) with true. cbn [negb length]. reflexivity.
  - cbn [app peek tail fadv].
    match goal with
    | |- while_ ?n ?cd ?b tt ?s = _ =>
        change (while_ n cd b tt s)
          with (while0 n (fun st => negb (ch st =? 10)) (c <- get ch;; pdef c;; inp) s)
    end.
    rewrite IH; [|exact Hl'|cbn [length] in Hfuel; lia].
    rewrite <- app_assoc. cbn [app length].
    replace (fp + 1 + Z.of_nat (S (length line)))
      with (fp + Z.of_nat (S (S (length line)))) by lia.
    reflexivity.
Qed.

(** The blank between "define" and the name. *)
Lemma next_after_blank fuel f tk tkc tkl vs rs lc gl sy dc lid h fp cb vm gm fr dl :
  isspace (peek f) || (peek f =? 35) = false -> (1 <= fuel)%nat ->
  next (S fuel)
    (mkState tk tkc tkl 32 vs rs lc gl sy 0 dc lid h f fp cb vm gm fr dl) =
  next (S fuel)
    (resumed (mkState tk tkc tkl 32 vs rs lc gl sy 0 dc lid h f fp cb vm gm fr dl) 0 f).
Proof.
  intros Hf Hfuel. apply orb_false_iff in Hf as [Hf1 Hf2]. apply Z.eqb_neq in Hf2.
  unfold resumed. sproj.
  cbn [next]. unfold next_body.
  match goal with
  | |- bind (while0 ?n ?cd (c1 <- get ch;; when (c1 =? 35) ?d;; inp)) ?k ?s = _ =>
      rewrite (bind_run _ k s tt _
                 (space_loop d [] 32 n _ _ _ _ _ _ _ _ _ _ _ _ _ _ _ _ _ _ eq_refl Hf1 Hf2
                    ltac:(cbn [length]; lia)))
  end.
  match goal with
  | |- _ = bind (while0 ?n ?cd ?b) ?k ?s =>
      rewrite (bind_run (while0 n cd b) k s tt s)
  end.
  - reflexivity.
  - apply while0_false. cbn [ch]. rewrite Hf1.
    replace (peek f =? 35) with false by (symmetry; apply Z.eqb_neq; exact Hf2).
    reflexivity.
Qed.

(** The word "define" behind a '#'. *)
Lemma next_define_word fuel f tk tkc tkl vs rs lc gl sy dc li r fp cb vm gm fr dl :
  isidc (peek f) = false -> (5 < fuel)%nat ->
  -2147483648 <= sy ->
  sy + Z.of_nat (length (bytes_of_string keywords ++ r)) + 1 < 2147483648 ->
  next (S fuel)
    (mkState tk tkc tkl 100 vs rs lc gl sy 0 dc li (bytes_of_string keywords ++ r)
       ([101; 102; 105; 110; 101] ++ f) fp cb vm gm fr dl) =
  Ok tt (mkState TOK_DEFINE tkc 0 (peek f) vs rs lc gl sy 0 dc
           (wrap32 (sy + Z.of_nat (length ((bytes_of_string keywords ++ r) ++ [TAG_TOK]))))
           ((bytes_of_string keywords ++ r) ++ bytes_of_string " define") (tail f)
           (fadv f (fp + 5)) cb vm gm fr dl).
Proof.
  intros Hf Hfuel Hr1 Hr2.
  rewrite (next_ident fuel 100 [101; 102; 105; 110; 101] f) by
    first [ reflexivity | exact Hf | cbn [length]; lia | exact Hr1 | exact Hr2 ].
  cbv zeta. compute_strstr.
  change (wrap32 (wrap32 (wrap32 35 * 8) + TOK_IDENT)) with 536.
  change (TOK_DEFINE <? 536) with false. cbv iota.
  change TOK_DEFINE with 536. reflexivity.
Qed.

Lemma line_loop_any line c0 fl f fuel tk tkc tkl vs rs lc gl sy dc li h fp cb vm gm fr dl :
  c0 :: fl = line ++ 10 :: f ->
  Forall (fun c => 0 <= c < 256 /\ c <> 10) line ->
  (length line <= fuel)%nat ->
  while0 fuel (fun st => negb (ch st =? 10)) (c <- get ch;; pdef c;; inp)
    (mkState tk tkc tkl c0 vs rs lc gl sy 0 dc li h fl fp cb vm gm fr dl) =
  Ok tt (mkState tk tkc tkl 10 vs rs lc gl sy 0 dc li (h ++ line) f
           (fp + Z.of_nat (length line)) cb vm gm fr dl).
Proof.
  intros E Hl Hfuel. destruct line as [|c line].
  - cbn [app] in E. injection E as -> ->. rewrite while0_false by reflexivity.
    rewrite app_nil_r. cbn [length Z.of_nat]. rewrite Z.add_0_r. reflexivity.
  - cbn [app] in E. injection E as -> ->.
    apply line_loop; [exact Hl | cbn [length] in Hfuel; lia].
Qed.

Lemma define_line fuel st name line f :
  at_define st name line f -> heap_ready st ->
  heap_in_int (set_heap (heap st ++ define_bytes name line) st) ->
  plain_name (with_define st) name ->
  symbol_cells st (ident_token (with_define st) name) ->
  (length name + length line + 8 <= fuel)%nat ->
  exists st',
    next (S fuel) st = next (S fuel) st' /\
    dptr st' = 0 /\ ch st' = peek f /\ file st' = tail f /\
    heap st' = heap st ++ define_bytes name line /\
    load32 (varmem st') (ident_token (with_define st) name) = SYM_DEFINE /\
    load32 (varmem st') (ident_token (with_define st) name + 4)
    = sym_stk st + Z.of_nat (length (heap st) + length name + 9) /\
    R_lex st st'.
Proof.
  intros (Hd & Hc & Hfile & Hn & Hsep & Hline & Hsp & Hh) (Hp & Hr1 & Hr2) Hint
         Hplain (Hv0 & Hv1 & Hv2 & Hv3) Hfuel.
  destruct fuel as [|fuel]; [lia|].
  assert (Hint' : heap_in_int (with_define st)).
  { destruct Hint as [Hi1 Hi2].
    destruct st as [tk tkc tkl c0 vs rs lc gl sy dp dc li h fl fp cb vm gm fr dl].
    unfold with_define, heap_in_int, define_bytes in *.
    cbn [heap sym_stk set_heap] in *. rewrite !length_app in *.
    split; [exact Hi1 | lia]. }
  set (t := ident_token (with_define st) name) in *.
  destruct st as [tk tkc tkl c0 vs rs lc gl sy dp dc li h fl fp cb vm gm fr dl].
  cbn [dptr ch file heap sym_stk vars] in *. subst dp c0 fl.
  apply is_prefix_app in Hp as [r ->].
  (* the name, behind the blank *)
  set (s1 := mkState TOK_DEFINE tkc 0 32 vs rs lc gl sy 0 dc
           (wrap32 (sy + Z.of_nat (length ((bytes_of_string keywords ++ r) ++ [TAG_TOK]))))
           ((bytes_of_string keywords ++ r) ++ bytes_of_string " define")
           (name ++ line ++ 10 :: f) (fp + 1 + 5 + 1) cb vm gm fr dl).
  assert (N1 : next (S fuel)
                 (mkState tk tkc tkl 100 vs rs lc gl sy 0 dc li (bytes_of_string keywords ++ r)
                    ([101; 102; 105; 110; 101] ++ 32 :: name ++ line ++ 10 :: f)
                    (fp + 1) cb vm gm fr dl) = Ok tt s1).
  { rewrite next_define_word; [reflexivity| reflexivity | lia | lia | lia]. }
  destruct (next_plain_ident fuel name (line ++ 10 :: f)
              (resumed s1 0 (name ++ line ++ 10 :: f)))
    as (s2 & N2 & T2 & H2 & C2 & F2 & D2 & _ & R2 & V2 & DC2).
  { exact Hn. }
  { unfold resumed, s1, lexer_at. sproj. cbn [dptr ch file].
    split; [reflexivity|]. split.
    - destruct name as [|c w]; [discriminate|]. reflexivity.
    - destruct line; exact Hsep. }
  { unfold resumed, s1. sproj. exact Hint'. }
  { lia. }
  { unfold resumed, s1. sproj. exact Hplain. }
  assert (N2' : next (S fuel) s1 = Ok tt s2).
  { rewrite <- N2. apply next_after_blank.
    - destruct name as [|c w]; [discriminate|]. cbn [app peek].
      pose proof (is_name_idc _ Hn) as Hi. cbn [forallb] in Hi.
      apply andb_true_iff in Hi as [Hi _]. apply isidc_not_space. exact Hi.
    - lia. }
  change (ident_token (resumed s1 0 (name ++ line ++ 10 :: f)) name) with t in T2.
  destruct R2 as (Rcb & Rfr & Rrs & Rlc & Rgl & Rgm & Rvs & Rsy & Rdl).
  destruct s2 as [tk2 tkc2 tkl2 c2 vs2 rs2 lc2 gl2 sy2 dp2 dc2 li2 h2 fl2 fp2 cb2 vm2 gm2 fr2 dl2].
  unfold resumed in T2, H2, C2, F2, D2, Rcb, Rfr, Rrs, Rlc, Rgl, Rgm, Rvs, Rsy, Rdl, V2, DC2.
  unfold s1 in T2, H2, C2, F2, D2, Rcb, Rfr, Rrs, Rlc, Rgl, Rgm, Rvs, Rsy, Rdl, V2, DC2.
  cbn [tok tokc tokl ch vars rsym loc glo sym_stk dptr dch last_id heap file
       fpos codeBuf varmem glomem frames dlsym
       set_ch set_file set_fpos] in T2, H2, C2, F2, D2, Rcb, Rfr, Rrs, Rlc, Rgl, Rgm, Rvs, Rsy, Rdl, V2, DC2.
  subst tk2 h2 c2 fl2 dp2 cb2 fr2 rs2 lc2 gl2 gm2 vs2 sy2 dl2 vm2 dc2.
  set (H2 := ((bytes_of_string keywords ++ r) ++ bytes_of_string " define")
              ++ TAG_TOK :: name) in *.
  set (D := wrap32 (sy + Z.of_nat (length (H2 ++ [TAG_TOK])))).
  exists (mkState t tkc2 tkl2 (peek f) vs rs lc gl sy 0 dc li2
            (H2 ++ TAG_TOK :: line ++ [10; TAG_MACRO]) (tail f)
            (fadv f (fp2 + Z.of_nat (length line))) cb
            (store32 (store32 vm t SYM_DEFINE) (wrap32 (t + 4)) D) gm fr dl).
  split.
  - change (next (S (S fuel))) with (next_body (S fuel) (next (S fuel))).
    unfold next_body.
    match goal with
    | |- bind (while0 ?n ?cd ?b) ?k ?s = bind _ _ ?s' =>
        assert (W : while0 n cd b s = Ok tt s');
          [ apply while0_once; [reflexivity | | ]
          | rewrite (bind_run _ _ _ _ _ W);
            rewrite (bind_run _ k s' tt s' (while0_false n cd b s' ltac:(
              cbn [ch]; rewrite Hsp;
              replace (peek f =? 35) with false by (symmetry; apply Z.eqb_neq; exact Hh);
              reflexivity)));
            reflexivity ]
    end.
    + mrun. change (35 =? 35) with true. sproj. mrun.
      rewrite (bind_run _ _ _ _ _ (inp_file _ _ _ _ _ _ _ _ _ _ _ _ _ _ _ _ _ _ _)).
      change (bytes_of_string "define ") with [100; 101; 102; 105; 110; 101; 32].
      cbn [app peek tail fadv]. cbn [app] in N1. mrun.
      rewrite (bind_run _ _ _ _ _ N1). unfold s1 at 1. mrun.
      change (TOK_DEFINE =? TOK_DEFINE) with true. sproj. mrun.
      rewrite (bind_run _ _ _ _ _ N2'). mrun.
      rewrite (bind_run _ _ _ _ _ (pdef_eq _ _ _ _ _ _ _ _ _ _ _ _ _ _ _ _ _ _ _ _ _)).
      mrun. unfold poke_var. mrun. unfold dstk. sproj. mrun.
      change (byte_of TAG_TOK) with TAG_TOK. fold H2. fold D.
      erewrite bind_run;
        [|apply (line_loop_any line _ _ f);
          [ destruct line; reflexivity | exact Hline | lia ]].
      mrun.
      rewrite (bind_run _ _ _ _ _ (pdef_eq _ _ _ _ _ _ _ _ _ _ _ _ _ _ _ _ _ _ _ _ _)).
      rewrite (bind_run _ _ _ _ _ (pdef_eq _ _ _ _ _ _ _ _ _ _ _ _ _ _ _ _ _ _ _ _ _)).
      rewrite inp_file.
      change (byte_of 10) with 10. change (byte_of TAG_MACRO) with TAG_MACRO.
      rewrite <- !app_assoc. cbn [app]. reflexivity.
    + cbn [ch]. rewrite Hsp.
      replace (peek f =? 35) with false by (symmetry; apply Z.eqb_neq; exact Hh).
      reflexivity.
  - sproj. cbn [dptr ch file heap varmem].
    assert (Ht4 : wrap32 (t + 4) = t + 4) by (apply wrap32_small; unfold ALLOC_SIZE in *; lia).
    assert (HD : D = sy + Z.of_nat (length (bytes_of_string keywords ++ r) + length name + 9)).
    { unfold D, H2. destruct Hint as [Hi1 Hi2]. unfold define_bytes in Hi2.
      cbn [heap sym_stk set_heap] in Hi2. rewrite !length_app in *.
      cbn [length] in *. rewrite !length_app in Hi2. cbn [length] in Hi2.
      change (length (bytes_of_string " define")) with 7%nat in *.
      rewrite wrap32_small by lia. lia. }
    split; [reflexivity|]. split; [reflexivity|]. split; [reflexivity|].
    split.
    { unfold H2, define_bytes. repeat (rewrite <- app_assoc; cbn [app]).
      reflexivity. }
    split.
    { rewrite Ht4. rewrite load32_store32_apart
        by (unfold apart; apply orb_true_iff; right; apply Z.leb_le; lia).
      apply load32_store32. }
    split.
    { rewrite Ht4, load32_store32. rewrite HD. apply wrap32_small.
      destruct Hint as [Hi1 Hi2]. unfold define_bytes in Hi2.
      cbn [heap sym_stk set_heap] in Hi2. rewrite !length_app in Hi2.
      cbn [length] in Hi2. rewrite !length_app in Hi2. cbn [length] in Hi2.
      change (length (bytes_of_string " define")) with 7%nat in Hi2.
      rewrite length_app. lia. }
    unfold R_lex. sproj. repeat split; reflexivity.
Qed.

(** X16.  A "#define" line: the lexer takes the name, marks its symbol as
    a macro and makes it point to the rest of the line, which it has copied
    to the heap byte for byte (blanks and all, nothing tokenised) with the
    line end and the tag behind it; then it goes on with the text after the
    line as if the directive had not been there. *)
Theorem define_captures_line fuel st name line f :
  at_define st name line f -> heap_ready st ->
  heap_in_int (set_heap (heap st ++ define_bytes name line) st) ->
  plain_name (with_define st) name ->
  symbol_cells st (ident_token (with_define st) name) ->
  (length name + length line + 8 <= fuel)%nat ->
  exists st' k,
    next (S fuel) st = next (S fuel) st' /\
    dptr st' = 0 /\ ch st' = peek f /\ file st' = tail f /\
    heap st' = heap st ++ define_bytes name line /\
    load32 (varmem st') (ident_token (with_define st) name) = SYM_DEFINE /\
    load32 (varmem st') (ident_token (with_define st) name + 4)
    = sym_stk st + Z.of_nat k /\
    drop k (heap st') = line ++ [10; TAG_MACRO] /\
    R_lex st st'.
Proof.
  intros Ha Hr Hi Hp Hc Hfuel.
  destruct (define_line fuel st name line f Ha Hr Hi Hp Hc Hfuel)
    as (st' & E & Hd & Hch & Hf & Hh & H1 & H2 & HR).
  exists st', (length (heap st) + length name + 9)%nat.
  split; [exact E|]. split; [exact Hd|]. split; [exact Hch|]. split; [exact Hf|].
  split; [exact Hh|]. split; [exact H1|]. split; [exact H2|]. split; [|exact HR].
  rewrite Hh.
  replace (heap st ++ define_bytes name line)
    with ((heap st ++ bytes_of_string " define" ++ TAG_TOK :: name ++ [TAG_TOK])
          ++ line ++ [10; TAG_MACRO])
    by (unfold define_bytes; repeat (rewrite <- app_assoc; cbn [app]); reflexivity).
  apply drop_app_length'. rewrite !length_app. cbn [length]. rewrite length_app.
  change (length (bytes_of_string " define")) with 7%nat. cbn [length]. lia.
Qed.

Lemma define_captures_line_witness :
  exists st' k,
    next 30 define_state = next 30 st' /\
    dptr st' = 0 /\ ch st' = peek [59] /\ file st' = tail [59] /\
    heap st' = heap define_state ++ define_bytes [78] [32; 52; 50] /\
    load32 (varmem st') (ident_token (with_define define_state) [78]) = SYM_DEFINE /\
    load32 (varmem st') (ident_token (with_define define_state) [78] + 4)
    = sym_stk define_state + Z.of_nat k /\
    drop k (heap st') = [32; 52; 50] ++ [10; TAG_MACRO] /\
    R_lex define_state st'.
Proof.
  apply (define_captures_line 29 define_state [78] [32; 52; 50] [59]).
  - unfold at_define. split; [reflexivity|]. split; [reflexivity|].
    split; [vm_compute; reflexivity|]. split; [reflexivity|].
    split; [reflexivity|]. split; [|split; [reflexivity | discriminate]].
    repeat constructor; lia.
  - vm_compute. repeat split; try reflexivity; discriminate.
  - vm_compute. split; [discriminate | reflexivity].
  - vm_compute. discriminate.
  - vm_compute. repeat split; try reflexivity; discriminate.
  - vm_compute. lia.
Defined.

(** ** A string literal *)

Lemma store_bytes_out l : forall m a x,
  x < a \/ a + Z.of_nat (length l) <= x ->
  load8 (store_bytes m a l) x = load8 m x.
Proof.
  induction l as [|c l IH]; intros m a x Hx; [reflexivity|].
  cbn [store_bytes length] in *. rewrite IH by lia. apply load8_store8_ne. lia.
Qed.

Lemma store_bytes_at l : forall m a i c,
  l !! i = Some c -> load8 (store_bytes m a l) (a + Z.of_nat i) = byte_of c.
Proof.
  induction l as [|c0 l IH]; intros m a i c Hi; [discriminate|].
  destruct i as [|i]; cbn [store_bytes].
  - injection Hi as ->. rewrite store_bytes_out by lia.
    rewrite Z.add_0_r. apply load8_store8_eq.
  - cbn in Hi. replace (a + Z.of_nat (S i)) with (a + 1 + Z.of_nat i) by lia.
    apply IH. exact Hi.
Qed.

Lemma align4 x : Z.land x (-4) = 4 * (x / 4).
Proof.
  change (-4) with (Z.lnot (Z.ones 2)). rewrite <- Z.ldiff_land.
  rewrite Z.ldiff_ones_r by lia. rewrite Z.shiftl_mul_pow2, Z.shiftr_div_pow2 by lia.
  change (2 ^ 2) with 4. lia.
Qed.

(** The loop that copies the characters of the string. *)
Lemma string_loop body : forall c0 fl f fuel tk tkc tkl vs rs lc g sy dc li h fp cb vm gm fr dl,
  c0 :: fl = body ++ 34 :: f ->
  Forall (fun x => x <> 34 /\ x <> 92) body ->
  0 <= g -> g + Z.of_nat (length body) < 2147483648 ->
  (length body <= fuel)%nat ->
  while0 fuel (fun st => negb (ch st =? 34))
    (getq;;
     c <- get ch;;
     modify (fun st =>
               set_glo (wrap32 (glo st + 1))
                 (set_glomem (store8 (glomem st) (glo st) c) st));;
     inp)
    (mkState tk tkc tkl c0 vs rs lc g sy 0 dc li h fl fp cb vm gm fr dl) =
  Ok tt (mkState tk tkc tkl 34 vs rs lc (g + Z.of_nat (length body)) sy 0 dc li h f
           (fp + Z.of_nat (length body)) cb vm (store_bytes gm g body) fr dl).
Proof.
  induction body as [|c body IH];
    intros c0 fl f fuel tk tkc tkl vs rs lc g sy dc li h fp cb vm gm fr dl E Hb Hg0 Hg Hfuel.
  - cbn [app] in E. injection E as -> ->. rewrite while0_false by reflexivity.
    cbn [length Z.of_nat store_bytes]. rewrite !Z.add_0_r. reflexivity.
  - cbn [app] in E. injection E as -> ->.
    destruct fuel as [|fuel]; [cbn [length] in Hfuel; lia|].
    inversion Hb as [|? ? [Hc1 Hc2] Hb']; subst.
    unfold while0. rewrite while_unfold. cbv beta. cbn [ch].
    replace (c =? 34) with false by (symmetry; apply Z.eqb_neq; exact Hc1).
    cbn [negb]. unfold getq. mrun.
    replace (c =? 92) with false by (symmetry; apply Z.eqb_neq; exact Hc2).
    sproj. mrun.
    cbn [length] in Hg. rewrite wrap32_small by lia.
    rewrite (bind_run _ _ _ _ _ (inp_file _ _ _ _ _ _ _ _ _ _ _ _ _ _ _ _ _ _ _)).
    match goal with
    | |- while_ ?n ?cd ?b tt ?s = _ =>
        change (while_ n cd b tt s) with (while0 n (fun st => cd tt st) (b tt) s)
    end.
    cbv beta.
    erewrite (IH (peek (body ++ 34 :: f)) (tail (body ++ 34 :: f)) f);
      [|destruct body; reflexivity|exact Hb'|lia|lia|cbn [length] in Hfuel; lia].
    cbn [length store_bytes].
    replace (fadv (body ++ 34 :: f) fp) with (fp + 1) by (destruct body; reflexivity).
    replace (g + 1 + Z.of_nat (length body)) with (g + Z.of_nat (S (length body))) by lia.
    replace (fp + 1 + Z.of_nat (length body)) with (fp + Z.of_nat (S (length body))) by lia.
    reflexivity.
Qed.

(** A parenthesis, a comma or a semicolon is its own token. *)
Lemma next_punct fuel c f tk tkc tkl vs rs lc gl sy dc li h fp cb vm gm fr dl :
  c = 41 \/ c = 44 \/ c = 59 ->
  next (S fuel)
    (mkState tk tkc tkl c vs rs lc gl sy 0 dc li h f fp cb vm gm fr dl) =
  Ok tt (mkState c 0 0 (peek f) vs rs lc gl sy 0 dc li h (tail f) (fadv f fp)
           cb vm gm fr dl).
Proof.
  intros Hc. cbn [next]. unfold next_body.
  destruct Hc as [-> | [-> | ->]].
  all: match goal with
       | |- context [bind (while0 ?f ?cd ?b) ?k ?st] =>
           rewrite (bind_run (while0 f cd b) k st tt st
                      (while0_false f cd b st eq_refl))
       end.
  all: mrun; rewrite isid_eq.
  - change (isidc 41) with false. cbv iota.
    rewrite (bind_run _ _ _ _ _ (inp_file _ _ _ _ _ _ _ _ _ _ _ _ _ _ _ _ _ _ _)).
    mrun. change (41 =? 39) with false. change (41 =? 47) with false.
    cbn [andb]. cbv iota. mrun.
    replace (op_scan (length optable_bytes) optable_bytes 41 (peek f) tkc 0)
      with (NoOp, 0, 0) by (vm_compute; reflexivity).
    mrun. reflexivity.
  - change (isidc 44) with false. cbv iota.
    rewrite (bind_run _ _ _ _ _ (inp_file _ _ _ _ _ _ _ _ _ _ _ _ _ _ _ _ _ _ _)).
    mrun. change (44 =? 39) with false. change (44 =? 47) with false.
    cbn [andb]. cbv iota. mrun.
    replace (op_scan (length optable_bytes) optable_bytes 44 (peek f) tkc 0)
      with (NoOp, 0, 0) by (vm_compute; reflexivity).
    mrun. reflexivity.
  - change (isidc 59) with false. cbv iota.
    rewrite (bind_run _ _ _ _ _ (inp_file _ _ _ _ _ _ _ _ _ _ _ _ _ _ _ _ _ _ _)).
    mrun. change (59 =? 39) with false. change (59 =? 47) with false.
    cbn [andb]. cbv iota. mrun.
    replace (op_scan (length optable_bytes) optable_bytes 59 (peek f) tkc 0)
      with (NoOp, 0, 0) by (vm_compute; reflexivity).
    mrun. reflexivity.
Qed.

Lemma unary_string fuel l body c f tkc tkl vs rs lc g sy dc lid h c0 fl fp cb vm gm fr dl :
  c0 :: fl = body ++ 34 :: c :: f ->
  Forall (fun x => x <> 34 /\ x <> 92) body ->
  c = 41 \/ c = 44 \/ c = 59 ->
  0 <= g -> g + Z.of_nat (length body) + 4 < 2147483648 ->
  (length body < fuel)%nat ->
  unary (S fuel) l
    (mkState 34 tkc tkl c0 vs rs lc g sy 0 dc lid h fl fp cb vm gm fr dl) =
  Ok tt (mkState c 0 0 (peek f) vs rs lc
           (Z.land (g + Z.of_nat (length body) + 4) (-4)) sy 0 dc lid h (tail f)
           (fadv f (fp + Z.of_nat (length body) + 1))
           (snd (CodeBuf.oad 0xb8 g cb)) vm
           (store8 (store_bytes gm g body) (g + Z.of_nat (length body)) 0) fr dl).
Proof.
  intros E Hb Hc Hg0 Hg Hfuel.
  destruct fuel as [|fuel]; [lia|].
  change (unary (S (S fuel)) l)
    with (unary_body (S fuel) (unary (S fuel)) (sum (S fuel) 11) l).
  unfold unary_body. mrun. change (34 =? 34) with true. cbv iota. mrun.
  unfold li, X86CodeGenerator.li. mrun.
  unfold oad at 1. unfold bind at 1. cbn [codeBuf].
  destruct (CodeBuf.oad 184 g cb) as [a cb'] eqn:Eo. cbn [snd]. sproj. mrun.
  erewrite bind_run; [|apply (string_loop body c0 fl (c :: f)); try assumption; lia].
  mrun.
  rewrite (wrap32_small (g + Z.of_nat (length body) + 4)) by lia.
  rewrite (bind_run _ _ _ _ _ (inp_file _ _ _ _ _ _ _ _ _ _ _ _ _ _ _ _ _ _ _)).
  cbn [peek tail fadv]. mrun.
  rewrite (bind_run _ _ _ _ _ (next_punct fuel c f _ _ _ _ _ _ _ _ _ _ _ _ _ _ _ _ _ Hc)).
  mrun.
  replace (c =? 40) with false
    by (symmetry; apply Z.eqb_neq; destruct Hc as [-> | [-> | ->]]; lia).
  sproj. reflexivity.
Qed.

(** X17.  A string literal: [unary] emits [mov $glo, %eax] with the
    address the string gets, copies the characters to the globals from
    there on, puts a NUL behind them and moves [glo] to the next multiple of
    four behind the NUL; the token behind the closing quote is the next
    one. *)
Theorem string_literal_is_stored fuel l st body c f :
  at_string st body c f ->
  0 <= glo st -> glo st + Z.of_nat (length body) + 4 < 2147483648 ->
  (length body < fuel)%nat ->
  exists st',
    unary (S fuel) l st = Ok tt st' /\
    ind_of st' = ind_of st + 5 /\
    load8 (code_of st') (ind_of st) = 0xb8 /\
    load32 (code_of st') (ind_of st + 1) = glo st /\
    (forall i x, body !! i = Some x ->
                 load8 (glomem st') (glo st + Z.of_nat i) = byte_of x) /\
    load8 (glomem st') (glo st + Z.of_nat (length body)) = 0 /\
    (forall a, a < glo st \/ glo st + Z.of_nat (length body) < a ->
               load8 (glomem st') a = load8 (glomem st) a) /\
    glo st' = 4 * ((glo st + Z.of_nat (length body) + 4) / 4) /\
    tok st' = c /\ ch st' = peek f /\ file st' = tail f.
Proof.
  intros (Ht & Hd & E & Hb & Hc) Hg0 Hg Hfuel.
  destruct st as [tk tkc tkl c0 vs rs lc g sy dp dc li h fl fp cb vm gm fr dl].
  cbn [tok dptr ch file glo codeBuf glomem] in *. subst tk dp.
  eexists. split; [apply (unary_string fuel l body c f); assumption|].
  sproj. cbn [codeBuf glomem glo tok ch file].
  assert (Ho : oad 0xb8 g
                 (mkState 34 tkc tkl c0 vs rs lc g sy 0 dc li h fl fp cb vm gm fr dl)
               = Ok (fst (CodeBuf.oad 0xb8 g cb))
                    (set_codeBuf (snd (CodeBuf.oad 0xb8 g cb))
                       (mkState 34 tkc tkl c0 vs rs lc g sy 0 dc li h fl fp cb vm gm fr dl))).
  { unfold oad. cbn [codeBuf]. destruct (CodeBuf.oad 184 g cb). reflexivity. }
  apply oad_one in Ho as (Hi & _ & Hb8 & Hl & _); [|lia].
  sst.
  split; [exact Hi|]. split; [exact Hb8|].
  split; [rewrite Hl; apply wrap32_small; lia|].
  split.
  { intros i x Hix. pose proof (lookup_lt_Some _ _ _ Hix).
    rewrite load8_store8_ne by lia. apply store_bytes_at. exact Hix. }
  split.
  { rewrite load8_store8_eq. reflexivity. }
  split.
  { intros a Ha. rewrite load8_store8_ne by lia. apply store_bytes_out. lia. }
  split; [apply align4|]. repeat split; reflexivity.
Qed.

Lemma string_literal_is_stored_witness :
  exists st',
    unary 5 0 string_state = Ok tt st' /\
    ind_of st' = ind_of string_state + 5 /\
    load8 (code_of st') (ind_of string_state) = 0xb8 /\
    load32 (code_of st') (ind_of string_state + 1) = glo string_state /\
    (forall i x, bytes_of_string "abc" !! i = Some x ->
                 load8 (glomem st') (glo string_state + Z.of_nat i) = byte_of x) /\
    load8 (glomem st') (glo string_state + Z.of_nat (length (bytes_of_string "abc"))) = 0 /\
    (forall a, a < glo string_state \/
               glo string_state + Z.of_nat (length (bytes_of_string "abc")) < a ->
               load8 (glomem st') a = load8 (glomem string_state) a) /\
    glo st' = 4 * ((glo string_state + Z.of_nat (length (bytes_of_string "abc")) + 4) / 4) /\
    tok st' = 59 /\ ch st' = peek [] /\ file st' = tail [].
Proof.
  apply (string_literal_is_stored 4 0 string_state (bytes_of_string "abc") 59 []).
  - unfold at_string. split; [reflexivity|]. split; [reflexivity|].
    split; [vm_compute; reflexivity|]. split; [|right; right; reflexivity].
    repeat constructor; discriminate.
  - vm_compute. discriminate.
  - vm_compute. reflexivity.
  - vm_compute. lia.
Defined.

(** ** A block comment that is closed *)

(** The text up to its first '*'. *)
Lemma first_star (body : list Z) :
  exists pre s, body = pre ++ s /\ Forall (fun c => c <> 42) pre /\
                (s = [] \/ exists body', s = 42 :: body').
Proof.
  induction body as [|c body (pre & s & -> & Hp & Hs)].
  - exists [], []. auto.
  - destruct (Z.eq_dec c 42) as [-> | Hc].
    + exists [], (42 :: pre ++ s). split; [reflexivity|]. split; [constructor|].
      right. eauto.
    + exists (c :: pre), s. split; [reflexivity|]. split; [constructor; assumption|].
      exact Hs.
Qed.

Lemma star_closed_suffix a : forall b,
  star_closed (a ++ b) = false -> star_closed b = false.
Proof.
  induction a as [|c a IH]; intros b H; [exact H|].
  cbn [app star_closed] in H. apply orb_false_iff in H as [_ H]. apply IH. exact H.
Qed.

Section ClosedComment.
Variables (tk tkc tkl vs rs lc gl sy dc lid : Z) (h : list Z)
          (cb : CodeBuf.t) (vm gm : mem) (fr : list Z) (dl : list Z -> Z).

Let S_ c f fp :=
  mkState tk tkc tkl c vs rs lc gl sy 0 dc lid h f fp cb vm gm fr dl.

(** The inner loop runs up to the first '*'. *)
Lemma to_star pre : forall c f0 rest fp fuel,
  c :: f0 = pre ++ 42 :: rest -> Forall (fun c => c <> 42) pre ->
  (length pre <= fuel)%nat ->
  while0 fuel (fun st => negb (ch st =? 42)) inp (S_ c f0 fp)
  = Ok tt (S_ 42 rest (fp + Z.of_nat (length pre))).
Proof.
  unfold S_.
  induction pre as [|p pre IH]; intros c f0 rest fp fuel E Hp Hfuel.
  - cbn [app] in E. injection E as -> ->. rewrite while0_false by reflexivity.
    cbn [length Z.of_nat]. rewrite Z.add_0_r. reflexivity.
  - cbn [app] in E. injection E as -> ->.
    destruct fuel as [|fuel]; [cbn [length] in Hfuel; lia|].
    inversion Hp as [|? ? Hc Hp']; subst.
    unfold while0. rewrite while_unfold. cbv beta. cbn [ch].
    replace (p =? 42) with false by (symmetry; apply Z.eqb_neq; exact Hc).
    cbn [negb].
    rewrite (bind_run _ _ _ _ _ (inp_file _ _ _ _ _ _ _ _ _ _ _ _ _ _ _ _ _ _ _)).
    fold (while0 fuel (fun st => negb (ch st =? 42)) inp).
    rewrite (IH _ _ rest); [|destruct pre; reflexivity|exact Hp'|cbn [length] in Hfuel; lia].
    replace (fadv (pre ++ 42 :: rest) fp) with (fp + 1) by (destruct pre; reflexivity).
    cbn [length]. do 2 f_equal. lia.
Qed.

(** The outer loop ends behind the "*/". *)
Lemma comment_loop_closes fuel n : forall body c f0 f fp,
  (length body < n)%nat ->
  c :: f0 = body ++ 42 :: 47 :: f -> c <> 0 ->
  star_closed (body ++ [42]) = false ->
  (length body <= fuel)%nat ->
  while0 n (fun st => negb (ch st =? 0))
    (while0 fuel (fun st => negb (ch st =? 42)) inp;;
     inp;;
     c <- get ch;;
     when (c =? 47) (modify (set_ch 0)))
    (S_ c f0 fp)
  = Ok tt (S_ 0 f (fp + Z.of_nat (length body) + 1)).
Proof.
  pose proof to_star as TS. unfold S_ in *.
  induction n as [|n IH]; intros body c f0 f fp Hn E Hc Hs Hfuel; [lia|].
  destruct (first_star body) as (pre & s & -> & Hp & Hcase).
  unfold while0. rewrite while_unfold. cbv beta. cbn [ch].
  replace (c =? 0) with false by (symmetry; apply Z.eqb_neq; exact Hc).
  cbn [negb]. rewrite bind_bind.
  rewrite length_app in Hn, Hfuel.
  destruct Hcase as [-> | [body' ->]].
  - rewrite app_nil_r in *.
    rewrite (bind_run _ _ _ _ _ (TS pre c f0 (47 :: f) fp fuel E Hp ltac:(cbn [length] in Hfuel; lia))).
    rewrite bind_bind.
    rewrite (bind_run _ _ _ _ _ (inp_file _ _ _ _ _ _ _ _ _ _ _ _ _ _ _ _ _ _ _)).
    cbn [peek tail fadv]. mrun. change (47 =? 47) with true. sproj. mrun.
    rewrite while_unfold. cbv beta. cbn [ch negb Z.eqb]. reflexivity.
  - rewrite <- app_assoc in E. cbn [app] in E.
    rewrite (bind_run _ _ _ _ _ (TS pre c f0 (body' ++ 42 :: 47 :: f) fp fuel E Hp
                                   ltac:(lia))).
    rewrite bind_bind.
    rewrite (bind_run _ _ _ _ _ (inp_file _ _ _ _ _ _ _ _ _ _ _ _ _ _ _ _ _ _ _)).
    replace (fadv (body' ++ 42 :: 47 :: f) (fp + Z.of_nat (length pre)))
      with (fp + Z.of_nat (length pre) + 1) by (destruct body'; reflexivity).
    mrun.
    rewrite <- app_assoc in Hs. apply star_closed_suffix in Hs.
    cbn [app star_closed] in Hs. apply orb_false_iff in Hs as [Hd Hs].
    change (42 =? 42) with true in Hd. cbn [andb] in Hd.
    assert (Hd' : (peek (body' ++ 42 :: 47 :: f) =? 47) = false /\
                  peek (body' ++ 42 :: 47 :: f) <> 0).
    { destruct body' as [|d body'']; cbn [app peek] in *.
      - apply orb_false_iff in Hd as [H1 H2]. split; [exact H1 | apply Z.eqb_neq; exact H2].
      - apply orb_false_iff in Hd as [H1 H2]. split; [exact H1 | apply Z.eqb_neq; exact H2]. }
    destruct Hd' as [Hd1 Hd2]. rewrite Hd1. sproj. mrun.
    match goal with
    | |- while_ ?m ?cd ?b tt ?s = _ =>
        change (while_ m cd b tt s) with (while0 m (fun st => cd tt st) (b tt) s)
    end.
    cbv beta.
    rewrite (IH body' _ _ f); [| |destruct body'; reflexivity|exact Hd2|exact Hs|].
    + rewrite length_app. cbn [length]. do 2 f_equal. lia.
    + cbn [length] in Hn. lia.
    + cbn [length] in Hfuel. lia.
Qed.
End ClosedComment.

Lemma next_closed_comment fuel body f tk tkc tkl vs rs lc gl sy dc lid h fp cb vm gm fr dl :
  peek (body ++ [42]) <> 0 -> star_closed (body ++ [42]) = false ->
  (length body < fuel)%nat ->
  next (S fuel)
    (mkState tk tkc tkl 47 vs rs lc gl sy 0 dc lid h (42 :: body ++ 42 :: 47 :: f) fp
       cb vm gm fr dl)
  = next fuel
      (mkState 47 tkc 0 (peek f) vs rs lc gl sy 0 dc lid h (tail f)
         (fadv f (fp + Z.of_nat (length body) + 3)) cb vm gm fr dl).
Proof.
  intros Hc Hs Hfuel. cbn [next]. unfold next_body.
  match goal with
  | |- context [bind (while0 ?f ?cd ?b) ?k ?st] =>
      rewrite (bind_run (while0 f cd b) k st tt st
                 (while0_false f cd b st eq_refl))
  end.
  mrun. rewrite isid_eq. change (isidc 47) with false. cbv iota.
  rewrite (bind_run _ _ _ _ _ (inp_file _ _ _ _ _ _ _ _ _ _ _ _ _ _ _ _ _ _ _)).
  cbn [peek tail fadv]. mrun.
  change (47 =? 39) with false. change ((47 =? 47) && (42 =? 42)) with true. cbv iota.
  rewrite (bind_run _ _ _ _ _ (inp_file _ _ _ _ _ _ _ _ _ _ _ _ _ _ _ _ _ _ _)).
  replace (fadv (body ++ 42 :: 47 :: f) (fp + 1)) with (fp + 1 + 1)
    by (destruct body; reflexivity).
  erewrite bind_run;
    [|apply (comment_loop_closes _ _ _ _ _ _ _ _ _ _ _ _ _ _ _ _ fuel fuel body _ _ f);
      [ lia | destruct body; reflexivity
      | destruct body; cbn [app peek] in *; [lia | exact Hc]
      | exact Hs | lia ]].
  rewrite (bind_run _ _ _ _ _ (inp_file _ _ _ _ _ _ _ _ _ _ _ _ _ _ _ _ _ _ _)).
  replace (fp + 1 + 1 + Z.of_nat (length body) + 1)
    with (fp + Z.of_nat (length body) + 3) by lia.
  reflexivity.
Qed.

(** X18.  A closed comment means nothing to the lexer: standing on "/*"
    with the comment closed by the first "*/" (no '*' before it followed by
    a NUL), [next] does what the recursive call does on the character after
    the comment. *)
Theorem comment_is_skipped fuel st body f :
  at_comment st body f -> (length body < fuel)%nat ->
  next (S fuel) st
  = next fuel (set_tok 47 (set_tokl 0 (resumed st (length body + 3) f))).
Proof.
  intros (Hd & Hc & Hf & H0 & Hs) Hfuel.
  destruct st as [tk tkc tkl c0 vs rs lc gl sy dp dc lid h fl fp cb vm gm fr dl].
  cbn [dptr ch file] in *. subst dp c0 fl.
  rewrite (next_closed_comment fuel body f) by assumption.
  unfold resumed. sproj. do 3 f_equal. lia.
Qed.

Lemma comment_is_skipped_witness :
  next 9 comment_state
  = next 8 (set_tok 47 (set_tokl 0
              (resumed comment_state (length (bytes_of_string " a*b *") + 3)
                 (bytes_of_string "x")))).
Proof.
  apply (comment_is_skipped 8 comment_state (bytes_of_string " a*b *")
           (bytes_of_string "x")).
  - unfold at_comment. split; [reflexivity|]. split; [reflexivity|].
    split; [reflexivity|]. split; [vm_compute; discriminate | reflexivity].
  - vm_compute. lia.
Defined.

(** ** Where the declarations end *)

Lemma while0_exit fuel cond body st st' :
  while0 fuel cond body st = Ok tt st' -> cond st' = false.
Proof.
  unfold while0. intros H.
  destruct (while_inv (fun _ _ => True) fuel (fun _ => cond) (fun _ => body)
              ltac:(auto) tt st tt st' H I) as [_ E].
  exact E.
Qed.

Lemma decl_exit fuel l st st' :
  decl fuel l st = Ok tt st' ->
  tok st' <> TOK_INT /\ (l = 0 -> tok st' = -1).
Proof.
  destruct fuel as [|fuel]; [discriminate|]. cbn [decl]. unfold decl_body.
  intros H. apply while0_exit in H.
  apply orb_false_iff in H as [H1 H2]. apply Z.eqb_neq in H1.
  split; [exact H1|]. intros ->. change (0 =? 0) with true in H2.
  rewrite andb_true_r in H2. apply negb_false_iff, Z.eqb_eq in H2. exact H2.
Qed.

(** X19.  [compile] returns only at the end of the input: when it returns,
    the current token is the end-of-file token -1; a text that does not
    parse to its end makes it leave through [error], run on or crash, never
    return early.  In the same way the declarations that open a block
    ([decl(1)]) end at the first token that is not [int]. *)
Theorem compile_reads_to_the_end fuel h input :
  (forall r st, compile fuel h input = Ok r st -> tok st = -1) /\
  (forall l s s', decl fuel l s = Ok tt s' ->
                  tok s' <> TOK_INT /\ (l = 0 -> tok s' = -1)).
Proof.
  split.
  - intros r st H. unfold compile in H.
    apply bind_Ok in H as ([] & s1 & _ & H).
    apply bind_Ok in H as ([] & s2 & _ & H).
    apply bind_Ok in H as ([] & s3 & Hd & H).
    inversion H; subst. apply (decl_exit fuel 0 s2 st Hd). reflexivity.
  - intros l s s' Hd. apply (decl_exit fuel l s s' Hd).
Qed.

Lemma compile_reads_to_the_end_witness : tok small_compiled = -1.
Proof.
  apply (proj1 (compile_reads_to_the_end 60 sample_host small_program) 0
           small_compiled).
  vm_compute. reflexivity.
Defined.

(** ** The jump of [return] *)

Lemma return_segment fuel st st' :
  (next fuel;;
   tk <- get tok;;
   when (negb (tk =? 59)) (expr fuel);;
   r <- get rsym;;
   s <- gjmp r;;
   modify (set_rsym s)) st = Ok tt st' ->
  0 < ind_of st -> bounded st' ->
  ind_of st + 5 <= ind_of st' /\
  rsym st' = ind_of st' - 4 /\
  load8 (code_of st') (ind_of st' - 5) = 0xe9 /\
  load32 (code_of st') (rsym st') = wrap32 (rsym st) /\
  frames st' = frames st /\ loc st' = loc st /\
  (forall x, x < ind_of st -> load8 (code_of st') x = load8 (code_of st) x).
Proof.
  intros H Hp Hb.
  apply bind_Ok in H as ([] & s1 & H1 & H).
  pose proof (respects_good_next _ _ _ _ H1) as G1.
  apply bind_Ok in H as (tk & s0 & E & H). inversion E; subst tk s0; clear E.
  apply bind_Ok in H as ([] & s2 & H2 & H).
  assert (G2 : R_good s1 s2).
  { destruct (negb (tok s1 =? 59)); cbn [when] in H2.
    - apply (respects_good_expr _ _ _ _ H2).
    - inversion H2; subst. reflexivity. }
  apply bind_Ok in H as (r & s0 & E & H). inversion E; subst r s0; clear E.
  apply bind_Ok in H as (s & s3 & H3 & H). inversion H; subst st'; clear H.
  pose proof (good_ind _ _ G1) as I1. pose proof (good_ind _ _ G2) as I2.
  destruct G1 as [(_ & F1 & R1 & L1) K1]. destruct G2 as [(_ & F2 & R2 & L2) K2].
  destruct (respects_good_gjmp _ _ _ _ H3) as [(_ & F3 & R3 & L3) _].
  unfold gjmp, X86CodeGenerator.gjmp, psym in H3.
  apply oad_one in H3 as (I3 & Hs & Hb8 & Hl & Hf); [|lia].
  unfold bounded in *. sst.
  rewrite wrap32_small in Hs by lia. subst s.
  split; [lia|]. split; [lia|].
  split; [rewrite <- Hb8; f_equal; lia|].
  split; [rewrite Hl, R2, R1; reflexivity|].
  split; [congruence|]. split; [congruence|].
  intros x Hx. rewrite Hf by lia. rewrite K2 by (unfold bounded; lia).
  apply K1; [lia | unfold bounded; lia | lia].
Qed.

(** X20.  The jump of a [return]: when [block] returns from a [return]
    statement, the last instruction emitted is a [jmp] whose operand holds
    the old [rsym], and [rsym] is the address of that operand: the jump is
    the new head of the function's chain of returns, which [decl] resolves
    to the epilogue.  The loop cells, [loc] and the code emitted before are
    as they were. *)
Theorem return_links_the_chain fuel l st st' :
  tok st = TOK_RETURN -> block fuel l st = Ok tt st' ->
  0 < ind_of st -> bounded st' ->
  ind_of st + 5 <= ind_of st' /\
  rsym st' = ind_of st' - 4 /\
  load8 (code_of st') (ind_of st' - 5) = 0xe9 /\
  load32 (code_of st') (rsym st') = wrap32 (rsym st) /\
  frames st' = frames st /\ loc st' = loc st /\
  (forall x, x < ind_of st -> load8 (code_of st') x = load8 (code_of st) x).
Proof.
  intros Ht H Hp Hb. destruct fuel as [|fuel]; [discriminate|].
  cbn [block] in H. unfold block_body in H.
  rewrite bind_get, Ht in H.
  change (TOK_RETURN =? TOK_IF) with false in H.
  change ((TOK_RETURN =? TOK_WHILE) || (TOK_RETURN =? TOK_FOR)) with false in H.
  change (TOK_RETURN =? 123) with false in H.
  change (TOK_RETURN =? TOK_RETURN) with true in H. cbv iota in H.
  apply bind_Ok in H as ([] & s1 & H1 & H2).
  pose proof (respects_lex_skip _ _ _ _ _ H2) as (C & F & R & L & _).
  rewrite C. rewrite R, F, L.
  apply (return_segment fuel st s1 H1 Hp). unfold bounded in *. rewrite <- C. exact Hb.
Qed.

Lemma return_links_the_chain_witness :
  ind_of return_state + 5 <= ind_of return_final /\
  rsym return_final = ind_of return_final - 4 /\
  load8 (code_of return_final) (ind_of return_final - 5) = 0xe9 /\
  load32 (code_of return_final) (rsym return_final) = wrap32 (rsym return_state) /\
  frames return_final = frames return_state /\ loc return_final = loc return_state /\
  (forall x, x < ind_of return_state ->
             load8 (code_of return_final) x = load8 (code_of return_state) x).
Proof.
  apply (return_links_the_chain 30 0 return_state return_final);
    vm_compute; reflexivity.
Defined.

(** ** The chain of returns beside the break chains *)

Lemma grows_refl b css : grows b css css.
Proof.
  induction css as [|ss css IH]; constructor; [|exact IH].
  exists []. split; [reflexivity | intros x []].
Qed.

Lemma grows_trans b b' css1 css2 css3 :
  grows b css1 css2 -> grows b' css2 css3 -> b <= b' -> grows b css1 css3.
Proof.
  intros H1. revert css3.
  induction H1 as [|ss1 ss2 css1 css2 (n1 & -> & Hn1) _ IH]; intros css3 H2 Hb;
    inversion H2 as [|? ss3 ? css3' (n2 & -> & Hn2) H2']; subst; constructor.
  - exists (n2 ++ n1). split; [apply app_assoc|].
    intros x Hx. apply in_app_or in Hx as [Hx|Hx]; [specialize (Hn2 x Hx); lia | auto].
  - apply IH; assumption.
Qed.

Lemma grows_extend b l ns css :
  (forall x, In x ns -> b <= x) -> grows b css (extend l ns css).
Proof.
  intros Hn. unfold extend. destruct (l <=? 0); [apply grows_refl|].
  destruct (css !! Z.to_nat (l - 1)) as [ss|] eqn:E; [|apply grows_refl].
  pose proof (Forall2_insert _ css css ss (ns ++ ss) (Z.to_nat (l - 1))
                (grows_refl b css)) as H.
  rewrite list_insert_id in H by exact E. apply H. exists ns. auto.
Qed.

Lemma grows_in b css css' x :
  grows b css css' -> In x (concat css') -> In x (concat css) \/ b <= x.
Proof.
  induction 1 as [|ss ss' css css' (ns & -> & Hn) _ IH]; cbn [concat]; intros Hx;
    [contradiction|].
  apply in_app_or in Hx as [Hx|Hx].
  - apply in_app_or in Hx as [Hx|Hx]; [right; auto|].
    left. apply in_or_app. left. exact Hx.
  - destruct (IH Hx) as [H|H]; [|right; exact H].
    left. apply in_or_app. right. exact H.
Qed.

(** What the chains look at in a state. *)
Lemma chains_ok_same a b css :
  codeBuf b = codeBuf a -> frames b = frames a -> chains_ok a css -> chains_ok b css.
Proof. unfold chains_ok. intros -> ->. auto. Qed.

Lemma good_with_returns s s' : R_good s s' -> R_good (with_returns s) (with_returns s').
Proof.
  unfold R_good, R_above, R_expr, R_code, bounded, with_returns. sst.
  intros [(C & Hf & Hr & Hl) F]. rewrite Hf, Hr. auto.
Qed.

Lemma ret_of_blk l st st' W :
  R_blk l (with_returns st) W ->
  codeBuf W = codeBuf st' -> frames W = rsym st' :: frames st' ->
  R_ret st st'.
Proof.
  intros [C H] Hc Hf. unfold R_code, bounded, with_returns in *. sst.
  rewrite Hc in C. split; [exact C|].
  intros css Hok Hp Hb. rewrite Hc in H.
  destruct (H css Hok Hp Hb) as (F & ns & Hok' & Hn).
  split; [exact F|]. exists (extend l ns css).
  split; [|apply grows_extend; exact Hn].
  revert Hok'. apply chains_ok_same; sst; [symmetry; exact Hc | symmetry; exact Hf].
Qed.

Lemma R_good_ret st st' : R_good st st' -> R_ret st st'.
Proof.
  intros G. apply (ret_of_blk 0 st st' (with_returns st')); [|reflexivity..].
  apply R_good_blk, good_with_returns, G.
Qed.

Lemma R_local_ret st st' : R_local st st' -> R_ret st st'.
Proof.
  intros (Hc & Hf & Hr & _). apply (ret_of_blk 0 st st' (with_returns st')); [|reflexivity..].
  apply R_cf_blk. unfold R_cf, with_returns. sst. rewrite Hc, Hf, Hr. auto.
Qed.

Lemma R_ret_code s s' : R_ret s s' -> R_code s s'.
Proof. intros [H _]. exact H. Qed.

#[global] Instance R_ret_preorder : PreOrder R_ret.
Proof.
  split.
  - intros st. apply R_good_ret. reflexivity.
  - intros a b c [C1 H1] [C2 H2]. split; [etransitivity; eassumption|].
    intros css Hok Hp Hb.
    destruct C1 as [I1 _]. destruct C2 as [I2 _]. unfold bounded in *.
    destruct (H1 css Hok Hp) as (F1 & css1 & Hok1 & Hg1); [unfold bounded; lia|].
    destruct (H2 _ Hok1) as (F2 & css2 & Hok2 & Hg2); [lia | exact Hb|].
    split.
    + intros x Hx. rewrite F2, F1 by lia. reflexivity.
    + exists css2. split; [exact Hok2|]. eapply grows_trans; eassumption.
Qed.

(** [return] and [break]: a jump that becomes the head of a chain. *)
Lemma gjmp_with_returns h st s s1 :
  gjmp h st = Ok s s1 -> gjmp h (with_returns st) = Ok s (with_returns s1).
Proof.
  unfold gjmp, X86CodeGenerator.gjmp, psym, oad, with_returns. sst.
  destruct (CodeBuf.oad 233 h (codeBuf st)) as [a cb]. intros H.
  inversion H; subst. reflexivity.
Qed.

Lemma return_segment_ret :
  respects R_ret (r <- get rsym;; s <- gjmp r;; modify (set_rsym s)).
Proof.
  intros st x st' H.
  apply bind_Ok in H as (r & s0 & E & H). inversion E; subst r s0; clear E.
  apply bind_Ok in H as (s & s1 & Hj & H).
  inversion H; subst st'; clear H.
  pose proof (respects_good_gjmp _ _ _ _ Hj) as G.
  assert (Hfr : frames s1 = frames st) by (destruct G as [(_ & Hfr & _) _]; exact Hfr).
  assert (Hrs : rsym s1 = rsym st) by (destruct G as [(_ & _ & Hrs & _) _]; exact Hrs).
  apply gjmp_with_returns in Hj.
  assert (HV : (h <- peek_frame 1;; s <- gjmp h;; poke_frame 1 s) (with_returns st)
               = Ok tt (set_frames (s :: frames s1) s1)).
  { unfold bind at 1. change (peek_frame 1 (with_returns st))
      with (Ok (rsym st) (with_returns st) : result Z).
    cbv iota beta. unfold bind. rewrite Hj.
    unfold poke_frame, with_returns. sst. reflexivity. }
  apply (ret_of_blk 1 _ _ _ (break_segment 1 _ _ _ HV)); sst; reflexivity.
Qed.

Lemma break_segment_ret l :
  respects R_ret (h <- peek_frame l;; s <- gjmp h;; poke_frame l s).
Proof.
  intros st x st' H.
  apply bind_Ok in H as (h & s0 & Hpk & H).
  unfold peek_frame in Hpk. destruct (l <=? 0) eqn:El; [discriminate|].
  destruct (frames st !! Z.to_nat (l - 1)) as [v|] eqn:Ef; [|discriminate].
  inversion Hpk; subst v s0; clear Hpk.
  apply bind_Ok in H as (s & s1 & Hj & H).
  pose proof (respects_good_gjmp _ _ _ _ Hj) as G.
  assert (Hfr : frames s1 = frames st) by (destruct G as [(_ & Hfr & _) _]; exact Hfr).
  assert (Hrs : rsym s1 = rsym st) by (destruct G as [(_ & _ & Hrs & _) _]; exact Hrs).
  unfold poke_frame in H. rewrite El, Hfr, Ef in H. inversion H; subst st'; clear H.
  apply gjmp_with_returns in Hj. apply Z.leb_gt in El.
  assert (Hk : Z.to_nat (l + 1 - 1) = S (Z.to_nat (l - 1))) by lia.
  assert (HV : (h <- peek_frame (l + 1);; s <- gjmp h;; poke_frame (l + 1) s)
                 (with_returns st)
               = Ok tt (set_frames (rsym st :: <[Z.to_nat (l - 1) := s]> (frames st)) s1)).
  { unfold bind at 1. unfold peek_frame at 1.
    replace (l + 1 <=? 0) with false by (symmetry; apply Z.leb_gt; lia).
    rewrite Hk. unfold with_returns at 1. sst.
    change ((rsym st :: frames st) !! S (Z.to_nat (l - 1)))
      with (frames st !! Z.to_nat (l - 1)). rewrite Ef.
    unfold bind. rewrite Hj. unfold poke_frame.
    replace (l + 1 <=? 0) with false by (symmetry; apply Z.leb_gt; lia).
    rewrite Hk. unfold with_returns. sst. rewrite Hfr, Hrs.
    change ((rsym st :: frames st) !! S (Z.to_nat (l - 1)))
      with (frames st !! Z.to_nat (l - 1)). rewrite Ef. reflexivity. }
  apply (ret_of_blk (l + 1) _ _ _ (break_segment (l + 1) _ _ _ HV)); sst;
    [reflexivity | rewrite Hrs; reflexivity].
Qed.

(** ** Runs inside one statement, the chain of returns included *)

Lemma locals_drop m b hs css LH LS :
  chains_at m b (hs ++ LH) (css ++ LS) -> length hs = length css ->
  chains_at m b hs css.
Proof.
  intros (Hl & Hs & Hbel) Hlen.
  apply Forall2_app_inv in Hl as [Hl1 _]; [|exact Hlen].
  rewrite concat_app in Hs, Hbel.
  split; [exact Hl1|]. split; [eapply spread_app_l; exact Hs|].
  intros x Hx. apply Hbel, in_or_app. left. exact Hx.
Qed.

(** Local chains below the cursor stay what they are when the other
    chains grow above it. *)
Lemma locals_keep m b hs css LH LS m' b' hs' css' :
  chains_at m b (hs ++ LH) (css ++ LS) -> length hs = length css ->
  chains_at m' b' hs' css' -> b <= b' ->
  (forall x, x < b -> load8 m' x = load8 m x) ->
  (forall x, In x (concat css') -> In x (concat css) \/ b <= x) ->
  chains_at m' b' (hs' ++ LH) (css' ++ LS).
Proof.
  intros (Hl & Hs & Hbel) Hlen (Hl' & Hs' & Hb') Hbb F Hin.
  apply Forall2_app_inv in Hl as [Hl1 Hl2]; [|exact Hlen].
  rewrite concat_app in Hs, Hbel.
  destruct (spread_app_inv _ _ Hs) as (Hs1 & Hs2 & Hx).
  split; [|split].
  - apply Forall2_app; [exact Hl'|].
    eapply Forall2_linked_ext; [|exact Hl2].
    intros x y Hi Hy. apply F.
    assert (0 < x /\ x + 4 <= b) by (apply Hbel, in_or_app; right; exact Hi).
    lia.
  - rewrite concat_app. apply spread_app; [exact Hs' | exact Hs2|].
    intros x y Hi Hy.
    assert (0 < y /\ y + 4 <= b) by (apply Hbel, in_or_app; right; exact Hy).
    destruct (Hin x Hi) as [Ho|Hn].
    + apply Hx; assumption.
    + rewrite apart_sym. eapply apart_below; [|exact Hn]. lia.
  - rewrite concat_app. intros x Hi. apply in_app_or in Hi as [Hi|Hi].
    + apply Hb'. exact Hi.
    + assert (0 < x /\ x + 4 <= b) by (apply Hbel, in_or_app; right; exact Hi).
      lia.
Qed.

Lemma rr_init st0 css0 :
  chains_ok (with_returns st0) css0 -> reach_ret st0 css0 [] [] st0.
Proof.
  intros H. exists css0. split; [apply grows_refl | apply reach_init; exact H].
Qed.

Lemma rr_final st0 css0 s :
  reach_ret st0 css0 [] [] s ->
  (forall x, x < ind_of st0 -> load8 (code_of s) x = load8 (code_of st0) x) /\
  exists css', chains_ok (with_returns s) css' /\ grows (ind_of st0) css0 css'.
Proof.
  intros (css1 & Hg & Hr). apply reach_final in Hr as (F & ns & Hok & _).
  split; [exact F|]. exists css1. split; [exact Hok | exact Hg].
Qed.

Lemma rr_ind st0 css0 LH LS s : reach_ret st0 css0 LH LS s -> ind_of st0 <= ind_of s.
Proof. intros (css1 & _ & Hr). apply reach_ind in Hr. exact Hr. Qed.

Lemma rr_good st0 css0 LH LS s s' :
  reach_ret st0 css0 LH LS s -> R_good s s' -> 0 < ind_of st0 -> bounded s' ->
  reach_ret st0 css0 LH LS s'.
Proof.
  intros (css1 & Hg & Hr) G Hp Hb. exists css1. split; [exact Hg|].
  eapply reach_good; [exact Hr | apply good_with_returns; exact G | exact Hp | exact Hb].
Qed.

Lemma rr_create st0 css0 LH LS s s' a :
  reach_ret st0 css0 LH LS s -> R_good s s' -> 0 < ind_of st0 -> bounded s' ->
  fresh_site (ind_of s) a s' ->
  reach_ret st0 css0 (LH ++ [a]) (LS ++ [[a]]) s'.
Proof.
  intros (css1 & Hg & Hr) G Hp Hb Hf. exists css1. split; [exact Hg|].
  eapply reach_create;
    [exact Hr | apply good_with_returns; exact G | exact Hp | exact Hb | exact Hf].
Qed.

Lemma rr_zero st0 css0 LH LS s :
  reach_ret st0 css0 LH LS s -> reach_ret st0 css0 (LH ++ [0]) (LS ++ [[]]) s.
Proof.
  intros (css1 & Hg & Hr). exists css1. split; [exact Hg | apply reach_zero; exact Hr].
Qed.

Lemma gsym_with_returns fuel h s s' :
  gsym fuel h s = Ok tt s' -> gsym fuel h (with_returns s) = Ok tt (with_returns s').
Proof.
  unfold gsym, with_returns. sst.
  destruct (CodeBuf.gsym fuel h (codeBuf s)) as [cb|]; [|discriminate].
  intros H. inversion H; subst. reflexivity.
Qed.

Lemma rr_patch st0 css0 LH1 LH2 LS1 LS2 h ss fuel s s' :
  reach_ret st0 css0 (LH1 ++ h :: LH2) (LS1 ++ ss :: LS2) s ->
  length LH1 = length LS1 ->
  gsym fuel h s = Ok tt s' ->
  reach_ret st0 css0 (LH1 ++ LH2) (LS1 ++ LS2) s'.
Proof.
  intros (css1 & Hg & Hr) HL H. exists css1. split; [exact Hg|].
  eapply reach_patch; [exact Hr | exact HL | apply gsym_with_returns; exact H].
Qed.

(** A statement runs. *)
Lemma rr_stmt st0 css0 LH LS s s' :
  reach_ret st0 css0 LH LS s -> R_ret s s' -> 0 < ind_of st0 -> bounded s' ->
  reach_ret st0 css0 LH LS s'.
Proof.
  intros (css1 & Hg & (I & F & Hlen & HLS & ns & Hc & Hn)) [C HR] Hp Hb.
  change (extend 0 ns css1) with css1 in Hc.
  pose proof (R_code_ind _ _ C) as I'.
  assert (Hok : chains_ok (with_returns s) css1).
  { apply chains_ok_at. eapply locals_drop; [exact Hc | exact Hlen]. }
  change (ind_of (with_returns st0)) with (ind_of st0) in *.
  change (ind_of (with_returns s)) with (ind_of s) in *.
  change (code_of (with_returns s)) with (code_of s) in *.
  change (code_of (with_returns st0)) with (code_of st0) in *.
  destruct (HR css1 Hok ltac:(lia) Hb) as (F' & css2 & Hok2 & Hg2).
  exists css2. split; [eapply grows_trans; [exact Hg | exact Hg2 | lia]|].
  apply chains_ok_at in Hok2.
  split; [exact (Z.le_trans _ _ _ I I')|].
  split; [intros x Hx; change (code_of (with_returns s')) with (code_of s');
          rewrite F' by (change (ind_of (with_returns st0)) with (ind_of st0) in Hx; lia);
          apply F; exact Hx|].
  split; [destruct Hok2 as (Hl2 & _); apply Forall2_length in Hl2; exact Hl2|].
  split; [exact HLS|].
  exists []. split; [|intros x []].
  change (extend 0 [] css2) with css2.
  eapply locals_keep; [exact Hc | exact Hlen | exact Hok2 | exact I' | exact F'|].
  intros x Hx. eapply grows_in; [exact Hg2 | exact Hx].
Qed.

(** The body of a loop statement: its [a] becomes the last cell and is a
    local variable again afterwards. *)
Lemma rr_loop st0 css0 a ch s l' s1 s2 a' s3 :
  reach_ret st0 css0 [a] [ch] s ->
  push_frame a s = Ok l' s1 -> R_ret s1 s2 -> pop_frame s2 = Ok a' s3 ->
  0 < ind_of st0 -> bounded s2 ->
  exists ns', reach_ret st0 css0 [a'] [ns' ++ ch] s3.
Proof.
  intros (css1 & Hg & (I & F & Hlen & HLS & ns & Hc & Hn)) Hpush [C HB] Hpop Hp Hb.
  change (extend 0 ns css1) with css1 in Hc.
  unfold push_frame in Hpush. inversion Hpush; subst l' s1; clear Hpush.
  unfold pop_frame in Hpop.
  destruct (last (frames s2)) as [v|] eqn:El; [|discriminate].
  inversion Hpop; subst v s3; clear Hpop.
  apply last_Some in El as [Fr El].
  pose proof (R_code_ind _ _ C) as I'.
  unfold with_returns in *. sst.
  assert (Hok1 : chains_ok (set_frames (rsym s :: frames s ++ [a]) s) (css1 ++ [ch])).
  { apply chains_ok_at. sst. exact Hc. }
  destruct (HB _ Hok1 ltac:(lia) Hb) as (F2 & css2' & Hok2 & Hg2).
  apply Forall2_app_inv_l in Hg2 as (css2 & k2 & Hg2 & Hk & ->).
  inversion Hk as [|? ch' ? ? (ns' & -> & Hn') Hk']; subst. inversion Hk'; subst.
  apply chains_ok_at in Hok2. sst. rewrite El in Hok2 |- *. rewrite removelast_last.
  exists ns', css2. split; [eapply grows_trans; [exact Hg | exact Hg2 | lia]|].
  unfold reach, with_returns. sst.
  split; [lia|].
  split; [intros x Hx; rewrite F2 by lia; apply F; exact Hx|].
  split.
  { destruct Hok2 as (Hl2 & _). apply Forall2_length in Hl2.
    cbn [length] in Hl2 |- *. rewrite !length_app in Hl2. cbn [length] in Hl2. lia. }
  split.
  { cbn [concat]. rewrite app_nil_r. intros x Hx. apply in_app_or in Hx as [Hx|Hx].
    - specialize (Hn' x Hx). lia.
    - apply HLS. cbn [concat]. rewrite app_nil_r. exact Hx. }
  exists []. split; [|intros x []].
  change (extend 0 [] css2) with css2. exact Hok2.
Qed.

Lemma ret_of_reach st st' :
  R_code st st' ->
  (forall css, chains_ok (with_returns st) css -> 0 < ind_of st -> bounded st' ->
               reach_ret st css [] [] st') ->
  R_ret st st'.
Proof.
  intros C H. split; [exact C|]. intros css Hok Hp Hb. apply rr_final. auto.
Qed.

Ltac rgo_good Hr G := eapply rr_good in Hr; [ | exact G | assumption | bnd ].
Ltac rgo_stmt Hr G := eapply rr_stmt in Hr; [ | exact G | assumption | bnd ].
Ltac rgo_create Hr G Hf :=
  eapply rr_create in Hr; [ | exact G | assumption | bnd | apply Hf; bnd ];
  cbn [app] in Hr.

(** The [if] statement. *)
Lemma if_segment_ret fuel (B : M unit) :
  respects R_ret B ->
  respects R_ret
    (next fuel;;
     skip fuel 40;;
     a <- test_expr fuel;;
     skip fuel 41;;
     B;;
     tk <- get tok;;
     if tk =? TOK_ELSE then
       next fuel;;
       n <- gjmp 0;;
       gsym fuel a;;
       B;;
       gsym fuel n
     else
       gsym fuel a).
Proof.
  intros HB st x st' H.
  apply bind_Ok in H as ([] & s1 & H1 & H). pose proof (respects_good_next _ _ _ _ H1) as G1.
  apply bind_Ok in H as ([] & s2 & H2 & H). pose proof (respects_good_skip _ _ _ _ _ H2) as G2.
  apply bind_Ok in H as (a & s3 & H3 & H). destruct (test_expr_fresh _ _ _ _ H3) as [G3 F3].
  apply bind_Ok in H as ([] & s4 & H4 & H). pose proof (respects_good_skip _ _ _ _ _ H4) as G4.
  apply bind_Ok in H as ([] & s5 & H5 & H). pose proof (HB _ _ _ H5) as G5.
  pose proof (R_ret_code _ _ G5) as C5.
  apply bind_Ok in H as (tk & s0 & E & H). inversion E; subst tk s0; clear E.
  destruct (tok s5 =? TOK_ELSE).
  - apply bind_Ok in H as ([] & s6 & H6 & H). pose proof (respects_good_next _ _ _ _ H6) as G6.
    apply bind_Ok in H as (n & s7 & H7 & H). destruct (gjmp_fresh _ _ _ H7) as [G7 F7].
    apply bind_Ok in H as ([] & s8 & H8 & H). pose proof (respects_expr_gsym _ _ _ _ _ H8) as G8.
    apply bind_Ok in H as ([] & s9 & H9 & H). pose proof (HB _ _ _ H9) as G9.
    pose proof (R_ret_code _ _ G9) as C9.
    destruct x. pose proof (respects_expr_gsym _ _ _ _ _ H) as G10.
    apply ret_of_reach; [code_chain|].
    intros css Hok Hp Hb. inds. apply rr_init in Hok as Hr.
    rgo_good Hr G1. rgo_good Hr G2. rgo_create Hr G3 F3. rgo_good Hr G4. rgo_stmt Hr G5.
    rgo_good Hr G6. rgo_create Hr G7 F7.
    apply (rr_patch st css [] [n] [] [[n]] a [a] fuel s7 s8) in Hr;
      [|reflexivity | exact H8]. cbn [app] in Hr.
    rgo_stmt Hr G9.
    apply (rr_patch st css [] [] [] [] n [n] fuel s9 st') in Hr;
      [|reflexivity | exact H]. exact Hr.
  - destruct x. pose proof (respects_expr_gsym _ _ _ _ _ H) as G6.
    apply ret_of_reach; [code_chain|].
    intros css Hok Hp Hb. inds. apply rr_init in Hok as Hr.
    rgo_good Hr G1. rgo_good Hr G2. rgo_create Hr G3 F3. rgo_good Hr G4. rgo_stmt Hr G5.
    apply (rr_patch st css [] [] [] [] a [a] fuel s5 st') in Hr;
      [|reflexivity | exact H]. exact Hr.
Qed.

(** The head of a [while] or [for] statement. *)
Lemma loop_head_ret fuel (t : Z) st n a s1 :
  (if t =? TOK_WHILE then
     n <- getPC;;
     a <- test_expr fuel;;
     ret (n, a)
   else
     tk <- get tok;;
     when (negb (tk =? 59)) (expr fuel);;
     skip fuel 59;;
     n <- getPC;;
     tk <- get tok;;
     a <- (if negb (tk =? 59) then test_expr fuel else ret 0);;
     skip fuel 59;;
     tk <- get tok;;
     if negb (tk =? 41) then
       t <- gjmp 0;;
       expr fuel;;
       pc <- getPC;;
       gjmp (rel_to n pc);;
       gsym fuel t;;
       ret (wrap32 (t + 4), a)
     else ret (n, a)) st = Ok (n, a) s1 ->
  R_code st s1 /\
  forall st0 css0,
    reach_ret st0 css0 [] [] st -> 0 < ind_of st0 -> bounded s1 ->
    reach_ret st0 css0 [a] [chain_of a] s1.
Proof.
  intros H. destruct (t =? TOK_WHILE).
  - apply bind_Ok in H as (pc & s0 & E & H). inversion E; subst pc s0; clear E.
    apply bind_Ok in H as (a0 & s2 & H2 & H). inversion H; subst; clear H.
    destruct (test_expr_fresh _ _ _ _ H2) as [G F].
    split; [code_chain|]. intros st0 css0 Hr Hp Hb.
    pose proof (rr_ind _ _ _ _ _ Hr).
    rewrite (chain_of_fresh (ind_of st) a s1) by (apply F; bnd).
    rgo_create Hr G F. exact Hr.
  - apply bind_Ok in H as (tk & s0 & E & H). inversion E; subst tk s0; clear E.
    apply bind_Ok in H as ([] & s2 & H2 & H).
    assert (G2 : R_good st s2).
    { destruct (negb (tok st =? 59)); cbn [when] in H2.
      - apply (respects_good_expr _ _ _ _ H2).
      - inversion H2; subst. reflexivity. }
    apply bind_Ok in H as ([] & s3 & H3 & H). pose proof (respects_good_skip _ _ _ _ _ H3) as G3.
    apply bind_Ok in H as (pc & s0 & E & H). inversion E; subst pc s0; clear E.
    apply bind_Ok in H as (tk & s0 & E & H). inversion E; subst tk s0; clear E.
    apply bind_Ok in H as (a0 & s4 & H4 & H).
    assert (G4 : R_good s3 s4 /\
                 forall st0 css0,
                   reach_ret st0 css0 [] [] s3 -> 0 < ind_of st0 -> bounded s4 ->
                   reach_ret st0 css0 [a0] [chain_of a0] s4).
    { destruct (negb (tok s3 =? 59)).
      - destruct (test_expr_fresh _ _ _ _ H4) as [G F]. split; [exact G|].
        intros st0 css0 Hr Hp Hb. pose proof (rr_ind _ _ _ _ _ Hr).
        rewrite (chain_of_fresh (ind_of s3) a0 s4) by (apply F; bnd).
        rgo_create Hr G F. exact Hr.
      - inversion H4; subst. split; [reflexivity|].
        intros st0 css0 Hr _ _. apply rr_zero in Hr. exact Hr. }
    destruct G4 as [G4 R4].
    apply bind_Ok in H as ([] & s5 & H5 & H). pose proof (respects_good_skip _ _ _ _ _ H5) as G5.
    apply bind_Ok in H as (tk & s0 & E & H). inversion E; subst tk s0; clear E.
    destruct (negb (tok s5 =? 41)).
    + apply bind_Ok in H as (t1 & s6 & H6 & H). destruct (gjmp_fresh _ _ _ H6) as [G6 F6].
      apply bind_Ok in H as ([] & s7 & H7 & H). pose proof (respects_good_expr _ _ _ _ H7) as G7.
      apply bind_Ok in H as (pc & s0 & E & H). inversion E; subst pc s0; clear E.
      apply bind_Ok in H as (j & s8 & H8 & H). pose proof (respects_good_gjmp _ _ _ _ H8) as G8.
      apply bind_Ok in H as ([] & s9 & H9 & H). pose proof (respects_expr_gsym _ _ _ _ _ H9) as G9.
      inversion H; subst; clear H.
      split; [code_chain|]. intros st0 css0 Hr Hp Hb.
      pose proof (rr_ind _ _ _ _ _ Hr). inds.
      rgo_good Hr G2. rgo_good Hr G3. apply R4 in Hr; [|assumption | bnd].
      rgo_good Hr G5. rgo_create Hr G6 F6. rgo_good Hr G7. rgo_good Hr G8.
      apply (rr_patch st0 css0 [a] [] [chain_of a] [] t1 [t1] fuel s8 s1) in Hr;
        [|reflexivity | exact H9]. cbn [app] in Hr. exact Hr.
    + inversion H; subst; clear H.
      split; [code_chain|]. intros st0 css0 Hr Hp Hb.
      pose proof (rr_ind _ _ _ _ _ Hr). inds.
      rgo_good Hr G2. rgo_good Hr G3. apply R4 in Hr; [|assumption | bnd].
      rgo_good Hr G5. exact Hr.
Qed.

(** The [while] and [for] statements. *)
Lemma loop_segment_ret fuel (B : Z -> M unit) (head : M (Z * Z)) :
  (forall l', respects R_ret (B l')) ->
  (forall st n a s1, head st = Ok (n, a) s1 ->
     R_code st s1 /\
     forall st0 css0,
       reach_ret st0 css0 [] [] st -> 0 < ind_of st0 -> bounded s1 ->
       reach_ret st0 css0 [a] [chain_of a] s1) ->
  respects R_ret
    (next fuel;;
     skip fuel 40;;
     na <- head;;
     let '(n, a) := na in
     skip fuel 41;;
     l' <- push_frame a;;
     B l';;
     a <- pop_frame;;
     pc <- getPC;;
     gjmp (rel_to n pc);;
     gsym fuel a).
Proof.
  intros HB Hhead st x st' H.
  apply bind_Ok in H as ([] & s1 & H1 & H). pose proof (respects_good_next _ _ _ _ H1) as G1.
  apply bind_Ok in H as ([] & s2 & H2 & H). pose proof (respects_good_skip _ _ _ _ _ H2) as G2.
  apply bind_Ok in H as ([n a] & s3 & H3 & H). destruct (Hhead _ _ _ _ H3) as [G3 R3].
  apply bind_Ok in H as ([] & s4 & H4 & H). pose proof (respects_good_skip _ _ _ _ _ H4) as G4.
  apply bind_Ok in H as (l' & s5 & H5 & H).
  destruct (push_frame_spec _ _ _ _ H5) as (_ & G5 & _).
  apply bind_Ok in H as ([] & s6 & H6 & H). pose proof (HB _ _ _ _ H6) as G6.
  pose proof (R_ret_code _ _ G6) as C6.
  apply bind_Ok in H as (a' & s7 & H7 & H).
  destruct (pop_frame_spec _ _ _ H7) as (G7 & _).
  apply bind_Ok in H as (pc & s0 & E & H). inversion E; subst pc s0; clear E.
  apply bind_Ok in H as (j & s8 & H8 & H). pose proof (respects_good_gjmp _ _ _ _ H8) as G8.
  destruct x. pose proof (respects_expr_gsym _ _ _ _ _ H) as G9.
  apply ret_of_reach; [code_chain|].
  intros css Hok Hp Hb. inds. apply rr_init in Hok as Hr.
  rgo_good Hr G1. rgo_good Hr G2. apply R3 in Hr; [|assumption | bnd].
  rgo_good Hr G4.
  destruct (rr_loop _ _ _ _ _ _ _ _ _ _ Hr H5 G6 H7 Hp) as (ns' & Hr'); [bnd|].
  rgo_good Hr' G8.
  apply (rr_patch st css [] [] [] [] a' (ns' ++ chain_of a) fuel s8 st') in Hr';
    [|reflexivity | exact H]. exact Hr'.
Qed.

Lemma decl_local_ret fuel : respects R_ret (decl fuel 1).
Proof.
  eapply respects_weaken; [apply R_local_ret|].
  destruct fuel as [|fuel]; cbn [decl]; [apply respects_timeout | apply decl_local].
Qed.

Ltac ret_step :=
  first
    [ match goal with
      | |- respects R_ret (bind (peek_frame _) _) => apply break_segment_ret
      | |- respects R_ret (bind (get rsym) _) => apply return_segment_ret
      end
    | respects_step idtac
    | eapply respects_weaken; [apply R_good_ret | solve [eauto with respects]] ].

Lemma respects_ret_block fuel : forall l, respects R_ret (block fuel l).
Proof.
  induction fuel as [|fuel IH]; intros l; cbn [block]; [apply respects_timeout|].
  unfold block_body.
  apply respects_bind; [typeclasses eauto | apply respects_get; typeclasses eauto | intros tk].
  destruct (tk =? TOK_IF).
  { apply if_segment_ret. apply IH. }
  destruct ((tk =? TOK_WHILE) || (tk =? TOK_FOR)).
  { cbv zeta. apply (loop_segment_ret fuel (block fuel)); [exact IH|].
    intros st n a s1. apply loop_head_ret. }
  pose proof (IH l) as IHl. pose proof (decl_local_ret fuel) as Hd.
  destruct (tk =? 123).
  { repeat ret_step. }
  repeat ret_step.
Qed.

Lemma linked_unique m : forall ss h ss',
  linked m h ss = true -> linked m h ss' = true -> ss = ss'.
Proof.
  induction ss as [|s ss IH]; intros h [|s' ss'] H1 H2.
  - reflexivity.
  - destruct (linked_head _ _ _ H1) as [[-> _]|(? & ? & _)]; [|discriminate].
    destruct (linked_head _ _ _ H2) as [[_ ?]|(? & _ & ?)]; [discriminate | congruence].
  - destruct (linked_head _ _ _ H2) as [[-> _]|(? & ? & _)]; [|discriminate].
    destruct (linked_head _ _ _ H1) as [[_ ?]|(? & _ & ?)]; [discriminate | congruence].
  - cbn [linked] in H1, H2.
    apply andb_true_iff in H1 as [H1 L1]. apply andb_true_iff in H1 as [H1 _].
    apply andb_true_iff in H2 as [H2 L2]. apply andb_true_iff in H2 as [H2 _].
    apply Z.eqb_eq in H1, H2. subst s s'. f_equal. eapply IH; eassumption.
Qed.

Lemma chains_unique m hs css css' :
  Forall2 (fun h ss => linked m h ss = true) hs css ->
  Forall2 (fun h ss => linked m h ss = true) hs css' -> css = css'.
Proof.
  intros H. revert css'. induction H as [|h ss hs css Hh _ IH]; intros css' H';
    inversion H'; subst; [reflexivity|].
  f_equal; [eapply linked_unique; eassumption | apply IH; assumption].
Qed.

(** A statement keeps the chain of returns, as it keeps the break chains:
    if before it [rsym] heads a chain of patch sites [rs] in the code and
    every live cell heads its chain of [css], no two sites of all these
    overlapping, then after it the same holds, the chain of returns having
    gained sites [nr] in the code emitted in between and the chain of cell
    [l] sites [ns] not below the old cursor; the sites there were are all
    kept, whatever the statements in between patched. *)
Theorem return_chain_only_grows fuel l st st' rs css :
  block fuel l st = Ok tt st' ->
  chains_ok (with_returns st) (rs :: css) -> 0 < ind_of st -> bounded st' ->
  exists nr ns,
    chains_ok (with_returns st') ((nr ++ rs) :: extend l ns css) /\
    (forall x, In x nr -> ind_of st <= x /\ x + 4 <= ind_of st') /\
    (forall x, In x ns -> ind_of st <= x).
Proof.
  intros H Hok Hp Hb.
  destruct (respects_ret_block fuel l st tt st' H) as [_ HR].
  destruct (HR _ Hok Hp Hb) as (_ & css' & Hok' & Hg).
  inversion Hg as [|? ss' ? css'' (nr & -> & Hnr) Hg']; subst.
  assert (Hok0 : chains_ok st css).
  { apply chains_ok_at. apply chains_ok_at in Hok. destruct Hok as (Hl & Hs & Hbel).
    unfold with_returns in *. sst. inversion Hl; subst.
    cbn [concat] in Hs, Hbel.
    split; [assumption|]. split; [eapply spread_app_r; exact Hs|].
    intros x Hx. apply Hbel, in_or_app. right. exact Hx. }
  destruct (respects_blk_block fuel l st tt st' H) as [_ HB].
  destruct (HB css Hok0 Hp Hb) as (_ & ns & Hok1 & Hns).
  assert (css'' = extend l ns css) as ->.
  { apply chains_ok_at in Hok', Hok1.
    destruct Hok' as (Hl & _). destruct Hok1 as (Hl1 & _).
    unfold with_returns in Hl. sst. inversion Hl; subst.
    eapply chains_unique; eassumption. }
  exists nr, ns. split; [exact Hok'|].
  apply chains_ok_at in Hok'. destruct Hok' as (_ & _ & Hbel).
  unfold with_returns in Hbel. sst. cbn [concat] in Hbel.
  split; [|exact Hns]. intros x Hx. split; [auto|]. apply Hbel.
  apply in_or_app. left. apply in_or_app. left. exact Hx.
Qed.

Lemma return_chain_only_grows_witness :
  exists nr ns,
    chains_ok (with_returns returns_final) ((nr ++ []) :: extend 0 ns []) /\
    (forall x, In x nr -> ind_of returns_state <= x /\ x + 4 <= ind_of returns_final) /\
    (forall x, In x ns -> ind_of returns_state <= x).
Proof.
  apply (return_chain_only_grows 40 0 returns_state returns_final [] []);
    vm_compute; reflexivity.
Defined.

(** ** A function definition *)

(** A loop that returned returns with more fuel too. *)
Lemma while_more {A} (cond : A -> state -> bool) body : forall fuel a st x st',
  while_ fuel cond body a st = Ok x st' -> while_ (S fuel) cond body a st = Ok x st'.
Proof.
  induction fuel as [|fuel IH]; intros a st x st' H; rewrite while_unfold in H |- *;
    destruct (cond a st); try discriminate; try exact H.
  apply bind_Ok in H as (y & s1 & H1 & H). apply IH in H.
  unfold bind. rewrite H1. exact H.
Qed.

Lemma prologue_bytes cb :
  CodeBuf.o 0xe58955 cb = CodeBuf.ob 0xe5 (CodeBuf.ob 0x89 (CodeBuf.ob 0x55 cb)).
Proof.
  rewrite o_unfold by lia. change (Z.shiftr 15042901 8) with 0xe589.
  rewrite o_unfold by lia. change (Z.shiftr 58761 8) with 0xe5.
  rewrite o_one_byte by lia.
  unfold CodeBuf.ob, store8. cbn [CodeBuf.ind CodeBuf.pProgramBase CodeBuf.bytes].
  reflexivity.
Qed.

Lemma sub_esp_bytes cb :
  CodeBuf.o 0xec81 cb = CodeBuf.ob 0xec (CodeBuf.ob 0x81 cb).
Proof.
  rewrite o_unfold by lia. change (Z.shiftr 60545 8) with 0xec.
  rewrite o_one_byte by lia.
  unfold CodeBuf.ob, store8. cbn [CodeBuf.ind CodeBuf.pProgramBase CodeBuf.bytes].
  reflexivity.
Qed.

Lemma epilogue_bytes cb :
  CodeBuf.o 0xc3c9 cb = CodeBuf.ob 0xc3 (CodeBuf.ob 0xc9 cb).
Proof.
  rewrite o_unfold by lia. change (Z.shiftr 50121 8) with 0xc3.
  rewrite o_one_byte by lia.
  unfold CodeBuf.ob, store8. cbn [CodeBuf.ind CodeBuf.pProgramBase CodeBuf.bytes].
  reflexivity.
Qed.

(** ** The cursor over the declarations *)

Ltac leaf_code := unfold R_code; sst; split; [lia | reflexivity].

Ltac code_step :=
  first
    [ respects_step leaf_code
    | eapply respects_weaken; [apply R_expr_to_code | solve [eauto with respects]] ].

Lemma respects_code_block fuel l : respects R_code (block fuel l).
Proof. eapply respects_weaken; [apply R_blk_code | apply respects_blk_block]. Qed.

Lemma respects_code_decl fuel l : respects R_code (decl fuel l).
Proof.
  destruct fuel as [|fuel]; cbn [decl]; [apply respects_timeout|].
  pose proof (respects_code_block fuel 0) as Hb.
  unfold decl_body, compiler_oad, X86CodeGenerator.oadHack. repeat code_step.
Qed.

Lemma o_run n s x s' :
  o n s = Ok x s' -> s' = set_codeBuf (CodeBuf.o n (codeBuf s)) s.
Proof. unfold o, emit, modify. intros H. inversion H. reflexivity. Qed.

Lemma oad_run n t s a s' :
  oad n t s = Ok a s' ->
  a = CodeBuf.getPC (CodeBuf.o n (codeBuf s)) /\
  s' = set_codeBuf
         (CodeBuf.mk (CodeBuf.ind (CodeBuf.o n (codeBuf s)) + 4)
            (CodeBuf.pProgramBase (CodeBuf.o n (codeBuf s)))
            (store32 (CodeBuf.bytes (CodeBuf.o n (codeBuf s)))
               (CodeBuf.ind (CodeBuf.o n (codeBuf s))) t)) s.
Proof. unfold oad, CodeBuf.oad. intros H. inversion H. split; reflexivity. Qed.

Lemma poke_code_run a v s x s' :
  poke_code a v s = Ok x s' ->
  s' = set_codeBuf
         (CodeBuf.mk (ind_of s) (CodeBuf.pProgramBase (codeBuf s))
            (store32 (code_of s) a v)) s.
Proof. unfold poke_code, emit, modify. intros H. inversion H. reflexivity. Qed.

Ltac byte_at :=
  rewrite ?load8_store32_out by lia;
  repeat (rewrite load8_store8;
          match goal with
          | |- context [decide (?a = ?b)] =>
              destruct (decide (a = b)); [first [reflexivity | lia] | try (exfalso; lia)]
          end).

Lemma function_segment fuel st st' :
  decl (S (S fuel)) 0 st = Ok tt st' ->
  tok st <> TOK_INT -> tok st <> -1 -> frames st = [] ->
  0 < ind_of st -> bounded st' ->
  exists s0 s1 sf nr,
    block (S fuel) 0 s0 = Ok tt s1 /\
    decl (S (S fuel)) 0 sf = Ok tt st' /\
    ind_of s0 = ind_of st + 9 /\ rsym s0 = 0 /\ loc s0 = 0 /\
    ind_of sf = ind_of s1 + 2 /\
    load8 (code_of sf) (ind_of st) = 0x55 /\
    load8 (code_of sf) (ind_of st + 1) = 0x89 /\
    load8 (code_of sf) (ind_of st + 2) = 0xe5 /\
    load8 (code_of sf) (ind_of st + 3) = 0x81 /\
    load8 (code_of sf) (ind_of st + 4) = 0xec /\
    load32 (code_of sf) (ind_of st + 5) = wrap32 (loc s1) /\
    linked (code_of s1) (rsym s1) nr = true /\
    (forall x, In x nr ->
       ind_of s0 <= x /\ x + 4 <= ind_of s1 /\
       load32 (code_of sf) x = ind_of s1 - (x + 4)) /\
    load8 (code_of sf) (ind_of s1) = 0xc9 /\
    load8 (code_of sf) (ind_of s1 + 1) = 0xc3 /\
    (exists s3,
       ind_of s3 = ind_of s1 + 2 /\
       poke_code (ind_of st + 5) (loc s3) s3 = Ok tt sf /\
       (forall x, In x nr -> load32 (code_of s3) x = ind_of s1 - (x + 4)) /\
       load8 (code_of s3) (ind_of s1) = 0xc9 /\
       load8 (code_of s3) (ind_of s1 + 1) = 0xc3) /\
    forall fs,
      linked (code_of st) (load32 (varmem st) (wrap32 (tok st + 4))) fs = true ->
      all_apart fs = true ->
      (forall x, In x fs -> 0 < x /\ x + 4 <= ind_of st) ->
      forall x, In x fs -> load32 (code_of sf) x = ind_of st - (x + 4).
Proof.
  intros H Ht1 Ht2 Hfr Hp Hb.
  change (decl (S (S fuel)) 0) with (decl_body (S fuel) (block (S fuel)) 0) in H |- *.
  unfold decl_body, while0 in H. rewrite while_unfold in H.
  replace (tok st =? TOK_INT) with false in H by (symmetry; apply Z.eqb_neq; exact Ht1).
  replace (tok st =? -1) with false in H by (symmetry; apply Z.eqb_neq; exact Ht2).
  cbn [negb orb andb] in H. change (0 =? 0) with true in H. cbv iota in H.
  apply bind_Ok in H as ([] & sf & Hbody & Hrest).
  apply while_more in Hrest.
  apply bind_Ok in Hbody as (tk & s_ & E & Hbody). inversion E; subst tk s_; clear E.
  replace (tok st =? TOK_INT) with false in Hbody by (symmetry; apply Z.eqb_neq; exact Ht1).
  apply bind_Ok in Hbody as (h & s_ & E & Hbody). inversion E; subst h s_; clear E.
  apply bind_Ok in Hbody as ([] & sb & Hg0 & Hbody).
  apply bind_Ok in Hbody as (pc & s_ & E & Hbody). inversion E; subst pc s_; clear E.
  apply bind_Ok in Hbody as ([] & sc & H1 & Hbody).
  pose proof (respects_lex_poke_var _ _ _ _ _ H1) as L1.
  apply bind_Ok in Hbody as ([] & sd & H2 & Hbody).
  pose proof (respects_lex_next _ _ _ _ H2) as L2.
  apply bind_Ok in Hbody as ([] & se & H3 & Hbody).
  pose proof (respects_lex_skip _ _ _ _ _ H3) as L3.
  apply bind_Ok in Hbody as (a8 & sg & H4 & Hbody).
  assert (L4 : R_lex se sg).
  { revert H4. match goal with |- ?m se = Ok a8 sg -> _ =>
      assert (HL : respects R_lex m) by (repeat respects_step leaf_eq) end.
    apply HL. }
  apply bind_Ok in Hbody as ([] & sh & H5 & Hbody).
  pose proof (respects_lex_next _ _ _ _ H5) as L5.
  apply bind_Ok in Hbody as ([] & si & E & Hbody). inversion E; subst si; clear E.
  apply bind_Ok in Hbody as ([] & sj & E & Hbody). inversion E; subst sj; clear E.
  apply bind_Ok in Hbody as ([] & sk & Hk & Hbody). apply o_run in Hk.
  apply bind_Ok in Hbody as (a & s0 & Ha & Hbody).
  unfold compiler_oad, X86CodeGenerator.oadHack in Ha. apply oad_run in Ha as [Ea E0].
  apply bind_Ok in Hbody as ([] & s1 & Hblk & Hbody).
  apply bind_Ok in Hbody as (r & s_ & E & Hbody). inversion E; subst r s_; clear E.
  apply bind_Ok in Hbody as ([] & s2 & Hg & Hbody).
  apply bind_Ok in Hbody as ([] & s3 & H3' & Hbody). apply o_run in H3'.
  apply bind_Ok in Hbody as (lc & s_ & E & Hbody). inversion E; subst lc s_; clear E.
  apply poke_code_run in Hbody.
  assert (Ib : ind_of sb = ind_of st /\ frames sb = frames st).
  { pose proof (respects_expr_gsym _ _ _ _ _ Hg0) as (_ & Hf & _).
    split; [|exact Hf]. unfold gsym in Hg0.
    destruct (CodeBuf.gsym (S fuel) _ (codeBuf st)) as [cb|] eqn:E; [|discriminate].
    inversion Hg0; subst. sst. apply codebuf_gsym_ind in E as [E _]. exact E. }
  destruct Ib as [Ib Fb].
  assert (Lh : codeBuf sh = codeBuf sb /\ frames sh = frames sb).
  { destruct L1 as (A1 & B1 & _), L2 as (A2 & B2 & _), L3 as (A3 & B3 & _),
      L4 as (A4 & B4 & _), L5 as (A5 & B5 & _). split; congruence. }
  destruct Lh as [Ch Fh].
  rewrite prologue_bytes in Hk. subst sk. rewrite sub_esp_bytes in Ea, E0.
  rewrite epilogue_bytes in H3'. subst s3.
  unfold CodeBuf.ob, CodeBuf.getPC in Ea, E0, Hbody. sst. rewrite Ch, Ib in Ea, E0.
  assert (Cf : R_code sf st') by exact (respects_code_decl (S (S fuel)) 0 sf tt st' Hrest).
  apply R_code_ind in Cf.
  assert (I0 : ind_of s0 = ind_of st + 9) by (subst s0; sst; lia).
  assert (R0 : rsym s0 = 0) by (subst s0; reflexivity).
  assert (Lc0 : loc s0 = 0) by (subst s0; reflexivity).
  assert (F0 : frames s0 = []) by (subst s0; sst; congruence).
  assert (P0 : load8 (code_of s0) (ind_of st) = 0x55) by (subst s0; sst; byte_at).
  assert (P1 : load8 (code_of s0) (ind_of st + 1) = 0x89) by (subst s0; sst; byte_at).
  assert (P2 : load8 (code_of s0) (ind_of st + 2) = 0xe5) by (subst s0; sst; byte_at).
  assert (P3 : load8 (code_of s0) (ind_of st + 3) = 0x81) by (subst s0; sst; byte_at).
  assert (P4 : load8 (code_of s0) (ind_of st + 4) = 0xec) by (subst s0; sst; byte_at).
  assert (B0 : forall y, y < ind_of st -> load8 (code_of s0) y = load8 (code_of sb) y).
  { intros y Hy. subst s0. sst. rewrite load8_store32_out by lia.
    rewrite !load8_store8_ne by lia. reflexivity. }
  clear E0.
  pose proof (respects_expr_gsym _ _ _ _ _ Hg) as (C2 & _ & _ & L2').
  destruct (respects_ret_block (S fuel) 0 s0 tt s1 Hblk) as [C1 HR].
  apply R_code_ind in C1.
  assert (I2 : ind_of s2 = ind_of s1).
  { unfold gsym in Hg.
    destruct (CodeBuf.gsym (S fuel) _ (codeBuf s1)) as [cb|] eqn:E; [|discriminate].
    inversion Hg; subst. sst. apply codebuf_gsym_ind in E as [E _]. exact E. }
  assert (If : ind_of sf = ind_of s1 + 2) by (subst sf; sst; lia).
  unfold bounded in Hb.
  assert (Hok0 : chains_ok (with_returns s0) [[]]).
  { unfold chains_ok, with_returns. sst. rewrite R0, F0. reflexivity. }
  destruct (HR _ Hok0) as (F1 & css' & Hok1 & Hg1); [lia | unfold bounded; lia|].
  unfold grows in Hg1.
  apply Forall2_cons_inv_l in Hg1 as (ss' & css'' & (nr & Enr & Hnr) & Hg1' & Ec).
  apply Forall2_nil_inv_l in Hg1'. subst ss' css'' css'. rewrite app_nil_r in Hok1.
  apply chains_ok_at in Hok1. destruct Hok1 as (Hl & Hs & Hbel).
  unfold with_returns in Hl, Hs, Hbel. sst. cbn [concat] in Hs, Hbel.
  rewrite app_nil_r in Hs, Hbel.
  apply Forall2_cons_inv_l in Hl as (nr' & k' & Hlk & _ & Ek).
  injection Ek as <- _.
  apply all_apart_spread in Hs.
  destruct (gsym_state _ _ _ _ _ Hg Hlk Hs) as (_ & _ & _ & Hpat & Hout).
  assert (Hsite : forall x, In x nr -> ind_of s0 <= x /\ x + 4 <= ind_of s1).
  { intros x Hx. split; [apply Hnr; exact Hx | apply Hbel; exact Hx]. }
  assert (Ea' : a = ind_of st + 5) by (rewrite Ea; rewrite wrap32_small; lia).
  clear Ea.
  assert (K : forall x, x < ind_of s0 -> x < ind_of st + 5 \/ ind_of st + 9 <= x ->
                        load8 (code_of sf) x = load8 (code_of s0) x).
  { intros x Hx Hx'. subst sf. sst. rewrite load8_store32_out by lia.
    rewrite !load8_store8_ne by lia. rewrite Hout; [apply F1; exact Hx|].
    intros y Hy. specialize (Hsite y Hy). lia. }
  exists s0, s1, sf, nr.
  split; [exact Hblk|]. split; [exact Hrest|].
  split; [exact I0|]. split; [exact R0|]. split; [exact Lc0|]. split; [exact If|].
  split; [rewrite K by lia; exact P0|].
  split; [rewrite K by lia; exact P1|].
  split; [rewrite K by lia; exact P2|].
  split; [rewrite K by lia; exact P3|].
  split; [rewrite K by lia; exact P4|].
  split.
  { subst sf a. sst. rewrite load32_store32, L2'. reflexivity. }
  split; [exact Hlk|].
  split.
  { intros x Hx. destruct (Hsite x Hx) as [Hx1 Hx2]. split; [exact Hx1|].
    split; [exact Hx2|]. subst sf. sst.
    rewrite load32_store32_apart
      by (unfold apart; apply orb_true_iff; left; apply Z.leb_le; lia).
    rewrite (load32_keep (code_of s2) _ x (ind_of s2))
      by (first [lia | intros y Hy; rewrite !load8_store8_ne by lia; reflexivity]).
    rewrite (Hpat x Hx). unfold CodeBuf.getPC.
    rewrite (wrap32_small (ind_of s1)) by lia. rewrite wrap32_small by lia. lia. }
  split; [subst sf; sst; byte_at|].
  split; [subst sf; sst; byte_at|].
  split.
  { exists (set_codeBuf (CodeBuf.ob 0xc3 (CodeBuf.ob 0xc9 (codeBuf s2))) s2).
    unfold CodeBuf.ob. sst. split; [lia|].
    split; [subst sf a; reflexivity|].
    split; [|split; byte_at].
    intros x Hx. destruct (Hsite x Hx) as [Hx1 Hx2].
    rewrite (load32_keep (code_of s2) _ x (ind_of s2))
      by (first [lia | intros y Hy; rewrite !load8_store8_ne by lia; reflexivity]).
    rewrite (Hpat x Hx). unfold CodeBuf.getPC.
    rewrite (wrap32_small (ind_of s1)) by lia. rewrite wrap32_small by lia. lia. }
  intros fs Hlf Haf Hbf x Hx.
  destruct (gsym_state _ _ _ _ _ Hg0 Hlf Haf) as (_ & _ & _ & Hpf & _).
  rewrite (load32_keep (code_of sb) _ x (ind_of st));
    [| intros y Hy; rewrite K by lia; apply B0; exact Hy | specialize (Hbf x Hx); lia].
  rewrite (Hpf x Hx). unfold CodeBuf.getPC. specialize (Hbf x Hx).
  rewrite (wrap32_small (ind_of st)) by lia. rewrite wrap32_small by lia. lia.
Qed.





(** ** The stack around a call *)

Lemma add_esp_bytes cb :
  CodeBuf.o 0xc481 cb = CodeBuf.ob 0xc4 (CodeBuf.ob 0x81 cb).
Proof.
  rewrite o_unfold by lia. change (Z.shiftr 50305 8) with 0xc4.
  rewrite o_one_byte by lia.
  unfold CodeBuf.ob, store8. cbn [CodeBuf.ind CodeBuf.pProgramBase CodeBuf.bytes].
  reflexivity.
Qed.

Lemma good_below s s' x :
  R_good s s' -> 0 < ind_of s -> bounded s' -> x < ind_of s ->
  load8 (code_of s') x = load8 (code_of s) x.
Proof. intros G Hp Hb Hx. apply (good_frame _ _ G Hp Hb). exact Hx. Qed.

(** The code of a call: [n] is 1 when the function is the value in
    [%eax], 0 when it is not defined yet. *)
Lemma call_code fuel (E : M unit) (n t : Z) s1 st' :
  respects R_good E ->
  (when (n =? 1) X86CodeGenerator.pushEAX;;
   a <- X86CodeGenerator.allocStackSpaceForArgs;;
   next fuel;;
   l <- while_ fuel (fun _ st => negb (tok st =? 41))
          (fun l =>
             E;;
             X86CodeGenerator.storeEAToArg l;;
             tk <- get tok;;
             when (tk =? 44) (next fuel);;
             ret (wrap32 (l + 4)))
          0;;
   poke_code a l;;
   next fuel;;
   l <- (if n =? 0 then
           let t := wrap32 (t + 4) in
           h <- peek_var t;;
           s <- X86CodeGenerator.callForward h;;
           poke_var t s;;
           ret l
         else if n =? 1 then
           X86CodeGenerator.callIndirect l;;
           ret (wrap32 (l + 4))
         else
           pc <- getPC;;
           X86CodeGenerator.callRelative (wrap32 (wrap32 (n - pc) - 5));;
           ret l);;
   when (negb (l =? 0)) (X86CodeGenerator.adjustStackAfterCall l)) s1 = Ok tt st' ->
  0 < ind_of s1 -> bounded st' ->
  exists a L L',
    (a = ind_of s1 + 2 /\ L' = L \/
     a = ind_of s1 + 3 /\ load8 (code_of st') (ind_of s1) = 0x50 /\
     L' = wrap32 (L + 4)) /\
    a + 4 <= ind_of st' /\
    load8 (code_of st') (a - 2) = 0x81 /\
    load8 (code_of st') (a - 1) = 0xec /\
    load32 (code_of st') a = wrap32 L /\
    (L' <> 0 ->
     a + 4 <= ind_of st' - 6 /\
     load8 (code_of st') (ind_of st' - 6) = 0x81 /\
     load8 (code_of st') (ind_of st' - 5) = 0xc4 /\
     load32 (code_of st') (ind_of st' - 4) = wrap32 L').
Proof.
  intros HE H Hp Hb.
  apply bind_Ok in H as ([] & s2 & H2 & H).
  assert (G2 : R_good s1 s2 /\
               ind_of s2 = ind_of s1 + (if n =? 1 then 1 else 0) /\
               (n = 1 -> load8 (code_of s2) (ind_of s1) = 0x50)).
  { destruct (n =? 1) eqn:En; cbn [when] in H2.
    - split; [apply (respects_good_o _ _ _ _ H2)|].
      apply o_run in H2. subst s2. rewrite o_one_byte by lia.
      unfold CodeBuf.ob. sst. split; [reflexivity|]. intros _. byte_at.
    - inversion H2; subst. split; [reflexivity|]. split; [lia|].
      intros ->. discriminate. }
  destruct G2 as (G2 & I2 & P2).
  apply bind_Ok in H as (a & s3 & H3 & H).
  pose proof (respects_good_oad _ _ _ _ _ H3) as G3.
  unfold X86CodeGenerator.allocStackSpaceForArgs in H3.
  apply oad_run in H3 as [Ea E3]. rewrite sub_esp_bytes in Ea, E3.
  unfold CodeBuf.ob, CodeBuf.getPC in Ea, E3. sst.
  apply bind_Ok in H as ([] & s4 & H4 & H).
  pose proof (respects_good_next _ _ _ _ H4) as G4.
  apply bind_Ok in H as (L & s5 & H5 & H).
  assert (G5 : R_good s4 s5).
  { revert H5. match goal with |- ?m s4 = Ok L s5 -> _ =>
      assert (HL : respects R_good m) by (unfold_x86; repeat good_step) end.
    apply HL. }
  apply bind_Ok in H as ([] & s6 & H6 & H). apply poke_code_run in H6.
  apply bind_Ok in H as ([] & s7 & H7 & H).
  pose proof (respects_good_next _ _ _ _ H7) as G7.
  apply bind_Ok in H as (L' & s8 & H8 & H).
  assert (G8 : R_good s7 s8 /\ L' = if n =? 1 then wrap32 (L + 4) else L).
  { destruct (n =? 0) eqn:E0; [|destruct (n =? 1)].
    - apply Z.eqb_eq in E0. subst n. change (0 =? 1) with false. cbv zeta in H8.
      revert H8. match goal with |- ?m s7 = Ok L' s8 -> _ =>
        assert (HL : respects R_good m) by (unfold_x86; repeat good_step) end.
      intros H8. split; [apply (HL _ _ _ H8)|].
      apply bind_Ok in H8 as (h & s_ & _ & H8).
      apply bind_Ok in H8 as (s & s_' & _ & H8).
      apply bind_Ok in H8 as ([] & s_'' & _ & H8). inversion H8. reflexivity.
    - revert H8. match goal with |- ?m s7 = Ok L' s8 -> _ =>
        assert (HL : respects R_good m) by (unfold_x86; repeat good_step) end.
      intros H8. split; [apply (HL _ _ _ H8)|].
      apply bind_Ok in H8 as ([] & s_ & _ & H8). inversion H8. reflexivity.
    - revert H8. match goal with |- ?m s7 = Ok L' s8 -> _ =>
        assert (HL : respects R_good m) by (unfold_x86; repeat good_step) end.
      intros H8. split; [apply (HL _ _ _ H8)|].
      apply bind_Ok in H8 as (pc & s_ & _ & H8).
      apply bind_Ok in H8 as ([] & s_' & _ & H8). inversion H8. reflexivity. }
  destruct G8 as [G8 EL].
  assert (G9 : R_good s8 st').
  { destruct (negb (L' =? 0)); cbn [when] in H.
    - unfold X86CodeGenerator.adjustStackAfterCall in H.
      apply bind_Ok in H as (s & s_ & H & Er). inversion Er; subst.
      apply (respects_good_oad _ _ _ _ _ H).
    - inversion H; subst. reflexivity. }
  pose proof (good_ind _ _ G2). pose proof (good_ind _ _ G3).
  pose proof (good_ind _ _ G4). pose proof (good_ind _ _ G5).
  pose proof (good_ind _ _ G7). pose proof (good_ind _ _ G8).
  pose proof (good_ind _ _ G9).
  assert (I3 : ind_of s3 = ind_of s2 + 6) by (subst s3; sst; lia).
  assert (I6 : ind_of s6 = ind_of s5) by (subst s6; reflexivity).
  unfold bounded in Hb.
  assert (Ea' : a = ind_of s2 + 2) by (rewrite Ea; rewrite wrap32_small; lia).
  clear Ea.
  assert (B3 : load8 (code_of s3) (a - 2) = 0x81 /\ load8 (code_of s3) (a - 1) = 0xec /\
               forall x, x < ind_of s2 -> load8 (code_of s3) x = load8 (code_of s2) x).
  { subst s3 a. sst. split; [byte_at|]. split; [byte_at|].
    intros x Hx. rewrite load8_store32_out by lia. rewrite !load8_store8_ne by lia.
    reflexivity. }
  destruct B3 as (B3a & B3b & B3c). clear E3.
  assert (G35 : R_good s3 s5) by (etransitivity; eassumption).
  assert (G6' : R_good s6 st').
  { etransitivity; [exact G7|]. etransitivity; [exact G8 | exact G9]. }
  (* what is below the argument area, or before the word, stays *)
  assert (K : forall x, x < a -> load8 (code_of st') x = load8 (code_of s3) x).
  { intros x Hx. rewrite (good_below s6 st') by (first [assumption | unfold bounded; lia | lia]).
    subst s6. sst. rewrite load8_store32_out by lia.
    apply (good_below s3 s5); first [assumption | unfold bounded; lia | lia]. }
  exists a, L, L'.
  split.
  { destruct (n =? 1) eqn:En.
    - right. apply Z.eqb_eq in En. split; [lia|]. split; [|exact EL].
      rewrite K by lia. rewrite B3c by lia. apply P2. exact En.
    - left. split; [lia | exact EL]. }
  split; [lia|].
  split; [rewrite K by lia; exact B3a|].
  split; [rewrite K by lia; exact B3b|].
  split.
  { rewrite (load32_keep (code_of s6) _ a (ind_of s6)).
    - subst s6. sst. apply load32_store32.
    - intros x Hx. apply (good_below s6 st'); first [assumption | unfold bounded; lia | lia].
    - lia. }
  intros HL'.
  replace (L' =? 0) with false in H by (symmetry; apply Z.eqb_neq; exact HL').
  cbn [negb when] in H. unfold X86CodeGenerator.adjustStackAfterCall in H.
  apply bind_Ok in H as (s & s_ & H & Er). inversion Er; subst s_; clear Er.
  apply oad_run in H as [_ E9]. rewrite add_esp_bytes in E9.
  unfold CodeBuf.ob in E9. sst. subst st'. sst.
  replace (ind_of s8 + 1 + 1 + 4 - 6) with (ind_of s8) by lia.
  replace (ind_of s8 + 1 + 1 + 4 - 5) with (ind_of s8 + 1) by lia.
  replace (ind_of s8 + 1 + 1 + 4 - 4) with (ind_of s8 + 1 + 1) by lia.
  split; [lia|]. split; [byte_at|]. split; [byte_at|]. apply load32_store32.
Qed.



(** ** The operands of a binary operator *)



(** ** The jumps of [for] *)

Lemma for_head_code fuel st n a s1 :
  (tk <- get tok;;
   when (negb (tk =? 59)) (expr fuel);;
   skip fuel 59;;
   n <- getPC;;
   tk <- get tok;;
   a <- (if negb (tk =? 59) then test_expr fuel else ret 0);;
   skip fuel 59;;
   tk <- get tok;;
   if negb (tk =? 41) then
     t <- gjmp 0;;
     expr fuel;;
     pc <- getPC;;
     gjmp (rel_to n pc);;
     gsym fuel t;;
     ret (wrap32 (t + 4), a)
   else ret (n, a)) st = Ok (n, a) s1 ->
  0 < ind_of st -> bounded s1 ->
  exists n0, ind_of st <= n0 /\ n0 <= ind_of s1 /\
             for_head_at (code_of s1) n0 n a (ind_of s1).
Proof.
  intros H Hp Hb. unfold bounded in Hb.
  apply bind_Ok in H as (tk & s0 & E & H). inversion E; subst tk s0; clear E.
  apply bind_Ok in H as ([] & s2 & H2 & H).
  assert (G2 : R_good st s2).
  { destruct (negb (tok st =? 59)); cbn [when] in H2.
    - apply (respects_good_expr _ _ _ _ H2).
    - inversion H2; subst. reflexivity. }
  apply bind_Ok in H as ([] & s3 & H3 & H).
  pose proof (respects_lex_skip _ _ _ _ _ H3) as (C3 & _).
  apply bind_Ok in H as (pc & s0 & E & H). inversion E; subst pc s0; clear E.
  apply bind_Ok in H as (tk & s0 & E & H). inversion E; subst tk s0; clear E.
  apply bind_Ok in H as (a0 & s4 & H4 & H).
  apply bind_Ok in H as ([] & s5 & H5 & H).
  pose proof (respects_lex_skip _ _ _ _ _ H5) as (C5 & _).
  apply bind_Ok in H as (tk & s0 & E & H). inversion E; subst tk s0; clear E.
  pose proof (good_ind _ _ G2) as I2.
  assert (I3 : ind_of s3 = ind_of s2) by (rewrite C3; reflexivity).
  assert (I5 : ind_of s5 = ind_of s4) by (rewrite C5; reflexivity).
  assert (R15 : R_code s5 s1).
  { destruct (negb (tok s5 =? 41)).
    - revert H. match goal with |- ?m s5 = Ok (n, a) s1 -> _ =>
        assert (HL : respects R_expr m) by (repeat respects_step leaf_expr) end.
      intros H. apply (HL _ _ _ H).
    - inversion H; subst. reflexivity. }
  apply R_code_ind in R15.
  assert (A4 : ind_of s3 <= ind_of s4 /\
               (a0 = 0 /\ s4 = s3 \/
                ind_of s3 + 4 <= a0 /\ a0 + 4 <= ind_of s4 /\
                load32 (code_of s4) a0 = 0)).
  { destruct (negb (tok s3 =? 59)).
    - destruct (test_expr_code _ _ _ _ H4) as (G4 & p & Ip & I4 & -> & _ & L4);
        [lia | unfold bounded; lia|].
      split; [lia|]. right. split; [lia|]. split; [lia | exact L4].
    - inversion H4; subst. split; [lia|]. left. auto. }
  destruct A4 as [I4 A4].
  exists (ind_of s3). split; [lia|]. split; [lia|].
  unfold CodeBuf.getPC in H. rewrite (wrap32_small (ind_of s3)) in H by lia.
  destruct (negb (tok s5 =? 41)).
  - apply bind_Ok in H as (t & s6 & H6 & H).
    apply bind_Ok in H as ([] & s7 & H7 & H).
    pose proof (respects_good_expr _ _ _ _ H7) as G7.
    apply bind_Ok in H as (pc & s0 & E & H). inversion E; subst pc s0; clear E.
    apply bind_Ok in H as (j & s8 & H8 & H).
    apply bind_Ok in H as ([] & s9 & H9 & H). inversion H; subst n a s9; clear H.
    pose proof (good_ind _ _ G7) as I7.
    pose proof (respects_expr_gsym _ _ _ _ _ H9) as G9. apply R_expr_ind in G9.
    pose proof (respects_good_gjmp _ _ _ _ H8) as G8. apply good_ind in G8.
    destruct (gjmp_code _ _ _ H6) as (I6 & Et & J6 & L6); [lia | unfold bounded; lia|].
    destruct (gjmp_back _ _ _ _ H8) as (I8 & J8 & L8 & K8); [lia | unfold bounded; lia|].
    pose proof (good_frame _ _ G7 ltac:(lia) ltac:(unfold bounded; lia)) as K7.
    assert (L8t : load32 (code_of s8) t = 0).
    { rewrite (load32_keep (code_of s7) _ t (ind_of s7)) by (first [exact K8 | lia]).
      rewrite (load32_keep (code_of s6) _ t (ind_of s6)) by (first [exact K7 | lia]).
      subst t. exact L6. }
    destruct (gsym_one _ _ _ _ H9) as (I9 & L9 & K9);
      [lia | exact L8t | lia | unfold bounded; lia|].
    split.
    + destruct A4 as [[-> _]|(A1 & A2 & A3)]; [left; reflexivity|].
      right. split; [lia|].
      rewrite (load32_keep (code_of s4) _ a0 (ind_of s4)); [exact A3| |lia].
      intros x Hx. rewrite K9 by lia. rewrite K8 by lia. rewrite K7 by lia.
      pose proof (respects_good_gjmp _ _ _ _ H6) as G6.
      rewrite (good_below s5 s6) by (first [assumption | unfold bounded; lia | lia]).
      rewrite C5. reflexivity.
    + right. exists (ind_of s5), (ind_of s7).
      split; [rewrite wrap32_small by lia; lia|]. split; [lia|]. split; [lia|].
      split; [lia|].
      split; [destruct A4 as [[-> _]|(A1 & A2 & A3)]; [left; reflexivity | right; lia]|].
      split; [rewrite K9 by lia; rewrite K8 by lia; rewrite K7 by lia; exact J6|].
      split; [rewrite <- Et, L9; lia|].
      split; [rewrite K9 by lia; exact J8|].
      rewrite (load32_ext (code_of s8) _ (ind_of s7 + 1))
        by (intros i Hi; apply K9; lia).
      rewrite L8. unfold rel_to, CodeBuf.getPC.
      rewrite (wrap32_small (ind_of s7)) by lia.
      rewrite (wrap32_small (ind_of s3 - ind_of s7)) by lia.
      rewrite wrap32_idem. rewrite wrap32_small by lia. lia.
  - inversion H; subst n a s5; clear H.
    split.
    + destruct A4 as [[-> _]|(A1 & A2 & A3)]; [left; reflexivity|].
      right. split; [lia|]. rewrite C5. exact A3.
    + left. split; [reflexivity|].
      destruct A4 as [[-> _]|(A1 & A2 & A3)]; [left; reflexivity | right; lia].
Qed.

(** The [for] statement, with the places of its jumps. *)
Lemma for_segment_code fuel (B : Z -> M unit) st st' css :
  (forall l', respects (R_blk l') (B l')) ->
  (next fuel;;
   skip fuel 40;;
   na <- (tk <- get tok;;
          when (negb (tk =? 59)) (expr fuel);;
          skip fuel 59;;
          n <- getPC;;
          tk <- get tok;;
          a <- (if negb (tk =? 59) then test_expr fuel else ret 0);;
          skip fuel 59;;
          tk <- get tok;;
          if negb (tk =? 41) then
            t <- gjmp 0;;
            expr fuel;;
            pc <- getPC;;
            gjmp (rel_to n pc);;
            gsym fuel t;;
            ret (wrap32 (t + 4), a)
          else ret (n, a));;
   let '(n, a) := na in
   skip fuel 41;;
   l' <- push_frame a;;
   B l';;
   a <- pop_frame;;
   pc <- getPC;;
   gjmp (rel_to n pc);;
   gsym fuel a) st = Ok tt st' ->
  chains_ok st css -> 0 < ind_of st -> bounded st' ->
  exists n0,
    ind_of st <= n0 /\ n0 <= ind_of st' - 5 /\
    load8 (code_of st') (ind_of st' - 5) = 0xe9 /\
    (load32 (code_of st') (ind_of st' - 4) = n0 - ind_of st' \/
     exists q r,
       n0 <= q /\ q + 5 <= r /\ r + 5 <= ind_of st' - 5 /\
       load8 (code_of st') q = 0xe9 /\ load32 (code_of st') (q + 1) = r - q /\
       load8 (code_of st') r = 0xe9 /\
       load32 (code_of st') (r + 1) = n0 - (r + 5) /\
       load32 (code_of st') (ind_of st' - 4) = q + 5 - ind_of st').
Proof.
  intros HB H Hok Hp Hb.
  apply bind_Ok in H as ([] & s1 & H1 & H). pose proof (respects_good_next _ _ _ _ H1) as G1.
  apply bind_Ok in H as ([] & s2 & H2 & H). pose proof (respects_good_skip _ _ _ _ _ H2) as G2.
  apply bind_Ok in H as ([n a] & s3 & H3 & H).
  destruct (loop_head fuel TOK_FOR _ _ _ _ H3) as [G3 R3].
  apply bind_Ok in H as ([] & s4 & H4 & H). pose proof (respects_good_skip _ _ _ _ _ H4) as G4.
  pose proof (respects_lex_skip _ _ _ _ _ H4) as (C4 & _).
  apply bind_Ok in H as (l' & s5 & H5 & H).
  destruct (push_frame_spec _ _ _ _ H5) as (_ & G5 & _).
  apply bind_Ok in H as ([] & s6 & H6 & H). pose proof (HB _ _ _ _ H6) as G6.
  apply bind_Ok in H as (a' & s7 & H7 & H).
  destruct (pop_frame_spec _ _ _ H7) as (G7 & _).
  apply bind_Ok in H as (pc & s0 & E & H). inversion E; subst pc s0; clear E.
  apply bind_Ok in H as (j & s8 & H8 & H). pose proof (respects_good_gjmp _ _ _ _ H8) as G8.
  pose proof (respects_expr_gsym _ _ _ _ _ H) as G9.
  inds. apply (reach_init _ _ 0) in Hok as Hr.
  go_good Hr G1. go_good Hr G2.
  destruct (for_head_code _ _ _ _ _ H3) as (n0 & In0 & In1 & Ha & Hn); [lia | bnd|].
  apply R3 in Hr; [|assumption | bnd].
  go_good Hr G4.
  destruct (reach_loop_sites _ _ _ _ _ _ _ _ _ _ _ Hr H5 G6 H7 Hp)
    as (_ & _ & K6 & ns' & Hr' & Hn'); [bnd|].
  destruct (gjmp_back _ _ _ _ H8 ltac:(lia) ltac:(bnd)) as (I8 & J8 & L8 & K8).
  destruct (reach_local _ _ _ _ _ _ Hr') as (Hlk & Hap & Hbel).
  assert (Hlk8 : linked (code_of s8) a' (ns' ++ chain_of a) = true).
  { rewrite <- Hlk. apply (linked_frame _ _ (ind_of s7)); [exact K8|].
    intros s Hin. apply Hbel. exact Hin. }
  destruct (gsym_state _ _ _ _ _ H Hlk8 Hap) as (_ & I9 & _ & Hs & Hf).
  assert (E67 : ind_of s7 = ind_of s6) by (rewrite G7; reflexivity).
  assert (E45 : ind_of s5 = ind_of s4) by (rewrite G5; reflexivity).
  assert (E34 : ind_of s4 = ind_of s3) by (rewrite C4; reflexivity).
  assert (Hsite : forall s, In s (ns' ++ chain_of a) ->
            s + 4 <= ind_of s7 /\ (ind_of s4 <= s \/ s = a /\ a <> 0)).
  { intros s Hin. split; [apply Hbel; exact Hin|].
    apply in_app_or in Hin as [Hin|Hin]; [left; apply Hn'; exact Hin|].
    right. unfold chain_of in Hin. destruct (a =? 0) eqn:Ea0; [destruct Hin|].
    apply Z.eqb_neq in Ea0. destruct Hin as [<-|[]]. auto. }
  assert (K : forall x, x < ind_of s3 -> (a = 0 \/ x < a \/ a + 4 <= x) ->
                        load8 (code_of st') x = load8 (code_of s3) x).
  { intros x Hx Hxa. rewrite Hf.
    - rewrite K8 by lia. rewrite G7. rewrite K6 by lia. rewrite C4. reflexivity.
    - intros s Hin. destruct (Hsite s Hin) as [Hs1 [Hs2|[-> Hs2]]]; lia. }
  assert (Hlast : load32 (code_of st') (ind_of st' - 4) = wrap32 (rel_to n (CodeBuf.getPC (codeBuf s7)))).
  { rewrite <- L8. replace (ind_of st' - 4) with (ind_of s7 + 1) by lia.
    apply load32_ext. intros i Hi. apply Hf.
    intros s Hin. destruct (Hsite s Hin) as [Hs1 _]. lia. }
  unfold bounded in Hb.
  assert (Hrel : forall m, ind_of st <= m <= ind_of s3 ->
            wrap32 (rel_to m (CodeBuf.getPC (codeBuf s7))) = m - ind_of st').
  { intros m Hm. unfold rel_to, CodeBuf.getPC.
    rewrite (wrap32_small (ind_of s7)) by lia.
    rewrite (wrap32_small (m - ind_of s7)) by lia.
    rewrite wrap32_idem. rewrite wrap32_small by lia. lia. }
  exists n0. split; [lia|]. split; [lia|].
  split.
  { rewrite Hf by (intros s Hin; destruct (Hsite s Hin) as [Hs1 _]; lia).
    rewrite <- J8. f_equal. lia. }
  destruct Hn as [[-> Hn]|(q & r & -> & Hq & Hqr & Hr3 & Haq & J1 & L1 & J2 & L2)].
  - left. rewrite Hlast. apply Hrel. lia.
  - right. exists q, r. split; [lia|]. split; [lia|]. split; [lia|].
    split; [rewrite K by lia; exact J1|].
    split.
    { rewrite (load32_ext (code_of s3) _ (q + 1)); [exact L1|].
      intros i Hi. apply K; lia. }
    split; [rewrite K by lia; exact J2|].
    split.
    { rewrite (load32_ext (code_of s3) _ (r + 1)); [exact L2|].
      intros i Hi. apply K; lia. }
    rewrite Hlast. apply Hrel. lia.
Qed.


